(** * CPU scheduling simulator: FCFS, SJF, Priority, SRTF and Round Robin

    A shallow embedding of [code.cpp].  A C++ [int] is an integer of [Z]
    between [INT_MIN] and [INT_MAX], the 32-bit bounds; [INT_MAX] is also
    the sentinel the source uses.  The sums and differences the source
    computes on the clock, the remaining times, the metrics and the idle
    time are reduced to that range by [int], so that a clock that passes
    [INT_MAX] wraps around as it does in the machine.  A [vector] is a
    list, [push_back] appends at the end, [v[i]] is the total lookup
    [v !!! i] and an assignment to [v[i]] is [alter] or insert.  Block
    labels are the strings the source builds.

    The module [Unbounded] holds the same loops with the arithmetic of
    [Z].  It is the reference the proofs work on: on an input whose
    latest arrival plus total burst is at most [INT_MAX] the program
    computes exactly what the reference computes, and the facts proved of
    the reference are carried over to the program. *)

From Stdlib Require Import ZArith Lia.
From stdpp Require Import base list sorting strings pretty.

Open Scope Z_scope.

(** ** Data model *)

Definition INT_MAX : Z := 2147483647.
Definition INT_MIN : Z := -2147483648.

(** What an [int] holds after an addition or a subtraction whose exact
    result is [z]: [z] itself when it lies between [INT_MIN] and
    [INT_MAX], and otherwise the value congruent to [z] modulo 2^32 in
    that range.  C++ leaves the overflow of a signed [int] undefined;
    this is the value two's-complement arithmetic gives. *)
Definition int (z : Z) : Z := (z - INT_MIN) mod 4294967296 + INT_MIN.

(** [class Process]; the field the source calls [at] is [arr] here,
    because [at] is a keyword of Rocq. *)
Record Process := mkProcess {
  pid : Z;
  arr : Z;
  bt : Z;
  rem_bt : Z;
  ct : Z;
  tat : Z;
  wt : Z;
  priority : Z
}.

(** The constructor [Process(id, a, b, p)]. *)
Definition new_Process (id a b p : Z) : Process :=
  mkProcess id a b b 0 0 0 p.

Global Instance Process_inhabited : Inhabited Process :=
  populate (new_Process 0 0 0 0).

Definition set_rem_bt (v : Z) (p : Process) : Process :=
  mkProcess (pid p) (arr p) (bt p) v (ct p) (tat p) (wt p) (priority p).

(** The three assignments every scheduler makes at a completion:
    [p.ct = time; p.tat = p.ct - p.at; p.wt = p.tat - p.bt]. *)
Definition finish (time : Z) (p : Process) : Process :=
  let c := time in
  let t := int (c - arr p) in
  let w := int (t - bt p) in
  mkProcess (pid p) (arr p) (bt p) (rem_bt p) c t w (priority p).

(** ["P" + to_string(p.pid)] *)
Definition to_string (z : Z) : string := pretty z.
Definition block_id (p : Process) : string :=
  String.append "P" (to_string (pid p)).
Definition IDLE : string := "IDLE".

(** ** [std::sort]

    The source sorts with [std::sort] and a comparator [a.key < b.key].
    The library function is not part of the repository; it is taken
    through its contract: the result is a permutation of the input and is
    in non-decreasing key order.  The order of elements with equal keys is
    not fixed by the contract. *)
Record Sorter := mkSorter {
  sort_by : (Process -> Z) -> list Process -> list Process;
  sort_by_perm : forall key l, Permutation (sort_by key l) l;
  sort_by_sorted : forall key l,
    StronglySorted (fun a b => key a <= key b) (sort_by key l)
}.

(** A sort is stable when elements with equal keys keep their input order. *)
Definition stable (S : Sorter) : Prop :=
  forall key l k,
    filter (fun p => key p = k) (sort_by S key l)
    = filter (fun p => key p = k) l.

(** Insertion sort, the algorithm libstdc++ runs on short ranges: each
    element moves left while it compares less than its predecessor. *)
Fixpoint insert_sorted (key : Process -> Z) (x : Process) (l : list Process)
  : list Process :=
  match l with
  | [] => [x]
  | y :: t => if key x <? key y then x :: y :: t
              else y :: insert_sorted key x t
  end.

Definition insertion_sort (key : Process -> Z) (l : list Process)
  : list Process :=
  fold_left (fun acc x => insert_sorted key x acc) l [].

(** ** The result handed to the renderer *)

Record Result := mkResult {
  res_procs : list Process;
  res_timeline : list Z;
  res_blocks : list string;
  res_idle : Z
}.

(** The idle-time loop of [printResults]:
    [idle_time += timeline[i + 1] - timeline[i]]. *)
Definition idle_time (timeline : list Z) (blocks : list string) : Z :=
  fold_left
    (fun idle i =>
       if String.eqb (blocks !!! i) IDLE && (S i <? length timeline)%nat
       then int (idle + int (timeline !!! S i - timeline !!! i))
       else idle)
    (seq 0 (length blocks)) 0.

(** [printResults]: the records are re-sorted by pid; the blocks and the
    timeline are printed as they are; the idle time is summed.  The
    averages are floating point and are left out. *)
Definition printResults (S : Sorter) (procs : list Process)
    (timeline : list Z) (blocks : list string) : Result :=
  mkResult (sort_by S pid procs) timeline blocks (idle_time timeline blocks).

(** A Gantt segment as the renderer lays it out: block [i] sits between
    [timeline[i]] and [timeline[i+1]]. *)
Definition segment : Type := string * Z * Z.

Fixpoint segments (timeline : list Z) (blocks : list string) : list segment :=
  match blocks, timeline with
  | b :: bs, t0 :: ((t1 :: _) as ts) => (b, t0, t1) :: segments ts bs
  | _, _ => []
  end.

Definition gantt (r : Result) : list segment :=
  segments (res_timeline r) (res_blocks r).

(** ** FCFS *)

Record fcfs_state := mkFcfs {
  f_time : Z;
  f_timeline : list Z;
  f_blocks : list string
}.

(** One iteration of [for (auto &p : procs)]. *)
Definition FCFS_step (p : Process) (st : fcfs_state) : Process * fcfs_state :=
  let st1 :=
    if arr p >? f_time st
    then mkFcfs (arr p) (f_timeline st ++ [arr p]) (f_blocks st ++ [IDLE])
    else st in
  let time := int (f_time st1 + bt p) in
  (finish time p,
   mkFcfs time (f_timeline st1 ++ [time]) (f_blocks st1 ++ [block_id p])).

Fixpoint FCFS_loop (procs : list Process) (st : fcfs_state)
  : list Process * fcfs_state :=
  match procs with
  | [] => ([], st)
  | p :: rest =>
      let '(p', st') := FCFS_step p st in
      let '(rest', st'') := FCFS_loop rest st' in
      (p' :: rest', st'')
  end.

Definition FCFS (S : Sorter) (procs : list Process) : Result :=
  let procs := sort_by S arr procs in
  let '(procs, st) := FCFS_loop procs (mkFcfs 0 [0] []) in
  printResults S procs (f_timeline st) (f_blocks st).

(** ** Loops with a condition and a [break]

    A [while] loop runs on fuel: [OutOfFuel] says the loop was still
    running when the fuel ended.  [Undefined] is for a run whose C++
    behaviour is undefined. *)

Inductive outcome (A : Type) : Type :=
| Done (a : A)
| OutOfFuel
| Undefined.
Arguments Done {A} a.
Arguments OutOfFuel {A}.
Arguments Undefined {A}.

Inductive control (St : Type) : Type :=
| Continue (st : St)
| Break (st : St).
Arguments Continue {St} st.
Arguments Break {St} st.

Fixpoint while {St : Type} (cond : St -> bool) (body : St -> control St)
    (fuel : nat) (st : St) : outcome St :=
  if cond st then
    match fuel with
    | O => OutOfFuel
    | S fuel' =>
        match body st with
        | Continue st' => while cond body fuel' st'
        | Break st' => Done st'
        end
    end
  else Done st.

Definition outcome_map {A B : Type} (f : A -> B) (o : outcome A) : outcome B :=
  match o with
  | Done a => Done (f a)
  | OutOfFuel => OutOfFuel
  | Undefined => Undefined
  end.

(** [yields run r]: the run ends, with result [r]. *)
Definition yields {A : Type} (run : nat -> outcome A) (r : A) : Prop :=
  exists fuel, run fuel = Done r.

(** ** The selection scan shared by SJF, Priority and SRTF

    [for (i = 0; i < n; i++) if (ready(i)) { if (key < min) ...
     else if (key == min) { if (idx != -1 && at[i] < at[idx]) idx = i; } }]
    The index [-1] is [None]. *)
Definition scan_step (ready : nat -> bool) (key : Process -> Z)
    (procs : list Process) (acc : Z * option nat) (i : nat) : Z * option nat :=
  let '(minK, idx) := acc in
  if ready i then
    if key (procs !!! i) <? minK then (key (procs !!! i), Some i)
    else if key (procs !!! i) =? minK then
      match idx with
      | Some j =>
          if arr (procs !!! i) <? arr (procs !!! j) then (minK, Some i) else acc
      | None => acc
      end
    else acc
  else acc.

Definition scan (ready : nat -> bool) (key : Process -> Z)
    (procs : list Process) : Z * option nat :=
  fold_left (scan_step ready key procs) (seq 0 (length procs)) (INT_MAX, None).

Definition select (ready : nat -> bool) (key : Process -> Z)
    (procs : list Process) : option nat :=
  snd (scan ready key procs).

(** ** SJF and Priority, non-preemptive

    [SJF] and [PriorityScheduling] are the same text up to the field they
    compare ([bt] or [priority]); [NP_body key] is that text. *)

Record np_state := mkNp {
  n_procs : list Process;
  n_completed : list bool;
  n_time : Z;
  n_completedCount : Z;
  n_timeline : list Z;
  n_blocks : list string
}.

Definition np_ready (st : np_state) (i : nat) : bool :=
  negb (n_completed st !!! i) && (arr (n_procs st !!! i) <=? n_time st).

Definition np_next_arrival (st : np_state) : Z :=
  fold_left
    (fun nxt i =>
       if negb (n_completed st !!! i) then Z.min nxt (arr (n_procs st !!! i))
       else nxt)
    (seq 0 (length (n_procs st))) INT_MAX.

(** The idle branch: [blocks.push_back("IDLE"); time = next_arrival_time;
    timeline.push_back(time)]. *)
Definition np_idle (st : np_state) (next_arrival_time : Z) : np_state :=
  mkNp (n_procs st) (n_completed st) next_arrival_time (n_completedCount st)
       (n_timeline st ++ [next_arrival_time]) (n_blocks st ++ [IDLE]).

(** The dispatch branch: the chosen process runs to completion.  The
    counter [completedCount] is below [n] when it is incremented, so
    that it stays an [int]. *)
Definition np_dispatch (st : np_state) (idx : nat) : np_state :=
  let p := n_procs st !!! idx in
  let time := int (n_time st + bt p) in
  mkNp (alter (finish time) idx (n_procs st))
       (<[idx := true]> (n_completed st))
       time
       (n_completedCount st + 1)
       (n_timeline st ++ [time])
       (n_blocks st ++ [block_id p]).

Definition NP_body (key : Process -> Z) (st : np_state) : control np_state :=
  match select (np_ready st) key (n_procs st) with
  | None =>
      let next_arrival_time := np_next_arrival st in
      if negb (next_arrival_time =? INT_MAX)
      then Continue (np_idle st next_arrival_time)
      else Break st
  | Some idx => Continue (np_dispatch st idx)
  end.

Definition np_cond (n : Z) (st : np_state) : bool :=
  n_completedCount st <? n.

Definition np_init (procs : list Process) : np_state :=
  mkNp procs (replicate (length procs) false) 0 0 [0] [].

Definition NP_loop (key : Process -> Z) (fuel : nat) (procs : list Process)
  : outcome np_state :=
  while (np_cond (Z.of_nat (length procs))) (NP_body key) fuel (np_init procs).

Definition NP (key : Process -> Z) (S : Sorter) (procs : list Process)
    (fuel : nat) : outcome Result :=
  outcome_map
    (fun st => printResults S (n_procs st) (n_timeline st) (n_blocks st))
    (NP_loop key fuel procs).

Definition SJF : Sorter -> list Process -> nat -> outcome Result := NP bt.
Definition PriorityScheduling
  : Sorter -> list Process -> nat -> outcome Result := NP priority.

(** ** Gantt clean-up, the same text in [SRTF] and [RoundRobin] *)

Definition back {A : Type} (d : A) (l : list A) : A := default d (last l).

Definition merge_step (timeline : list Z) (blocks : list string)
    (acc : list Z * list string) (i : nat) : list Z * list string :=
  let '(final_timeline, final_blocks) := acc in
  if negb (String.eqb (blocks !!! i) (back EmptyString final_blocks))
  then (final_timeline ++ [timeline !!! i], final_blocks ++ [blocks !!! i])
  else acc.

Definition merge_gantt (timeline : list Z) (blocks : list string)
  : list Z * list string :=
  match blocks with
  | [] => ([], [])
  | b0 :: _ =>
      let '(final_timeline, final_blocks) :=
        fold_left (merge_step timeline blocks)
                  (seq 1 (length blocks - 1))
                  ([timeline !!! 0%nat], [b0]) in
      if negb (back 0 final_timeline =? back 0 timeline)
      then (final_timeline ++ [back 0 timeline], final_blocks)
      else (final_timeline, final_blocks)
  end.

(** ** SRTF *)

Record srtf_state := mkSrtf {
  s_procs : list Process;
  s_time : Z;
  s_completedCount : Z;
  s_timeline : list Z;
  s_blocks : list string;
  s_last_block_id : string
}.

Definition srtf_ready (st : srtf_state) (i : nat) : bool :=
  (arr (s_procs st !!! i) <=? s_time st) && (rem_bt (s_procs st !!! i) >? 0).

(** The idle scan of SRTF: the least arrival among the processes with
    work left, and whether there is one. *)
Definition srtf_next_arrival (procs : list Process) : Z * bool :=
  fold_left
    (fun (acc : Z * bool) i =>
       if rem_bt (procs !!! i) >? 0
       then (Z.min (fst acc) (arr (procs !!! i)), true)
       else acc)
    (seq 0 (length procs)) (INT_MAX, false).

Definition SRTF_body (st : srtf_state) : control srtf_state :=
  match select (srtf_ready st) rem_bt (s_procs st) with
  | None =>
      let '(next_arrival_time, found_next) := srtf_next_arrival (s_procs st) in
      if found_next then
        if negb (String.eqb (s_last_block_id st) IDLE) then
          Continue (mkSrtf (s_procs st) next_arrival_time (s_completedCount st)
                           (s_timeline st ++ [s_time st])
                           (s_blocks st ++ [IDLE]) IDLE)
        else
          Continue (mkSrtf (s_procs st) next_arrival_time (s_completedCount st)
                           (s_timeline st) (s_blocks st) IDLE)
      else Break st
  | Some idx =>
      let current_block_id := block_id (s_procs st !!! idx) in
      let blocks :=
        if negb (String.eqb current_block_id (s_last_block_id st))
        then s_blocks st ++ [current_block_id] else s_blocks st in
      let timeline :=
        if negb (String.eqb current_block_id (s_last_block_id st))
           && negb (String.eqb (s_last_block_id st) IDLE)
        then s_timeline st ++ [s_time st] else s_timeline st in
      let procs :=
        alter (fun p => set_rem_bt (int (rem_bt p - 1)) p) idx (s_procs st) in
      let time := int (s_time st + 1) in
      if rem_bt (procs !!! idx) =? 0 then
        Continue (mkSrtf (alter (finish time) idx procs) time
                         (s_completedCount st + 1)
                         (timeline ++ [time]) blocks EmptyString)
      else
        Continue (mkSrtf procs time (s_completedCount st) timeline blocks
                         current_block_id)
  end.

Definition srtf_cond (n : Z) (st : srtf_state) : bool :=
  s_completedCount st <? n.

Definition srtf_init (procs : list Process) : srtf_state :=
  mkSrtf (map (fun p => set_rem_bt (bt p) p) procs) 0 0 [0] [] EmptyString.

Definition SRTF_loop (fuel : nat) (procs : list Process) : outcome srtf_state :=
  while (srtf_cond (Z.of_nat (length procs))) SRTF_body fuel (srtf_init procs).

Definition SRTF (S : Sorter) (procs : list Process) (fuel : nat)
  : outcome Result :=
  outcome_map
    (fun st =>
       let '(final_timeline, final_blocks) :=
         merge_gantt (s_timeline st) (s_blocks st) in
       printResults S (s_procs st) final_timeline final_blocks)
    (SRTF_loop fuel procs).

(** ** Round Robin *)

Record rr_state := mkRr {
  r_procs : list Process;
  r_time : Z;
  r_completedCount : Z;
  r_readyQueue : list nat;
  r_inQueue : list bool;
  r_timeline : list Z;
  r_blocks : list string;
  r_last_block_id : string;
  r_next_proc_to_arrive : nat
}.

(** The arrival loop, written twice in the source (before a dispatch and
    after a run): [left] iterations remain from index [i]. *)
Fixpoint enqueue_arrivals (procs : list Process) (time : Z) (left : nat)
    (i : nat) (acc : list nat * list bool * nat)
  : list nat * list bool * nat :=
  match left with
  | O => acc
  | S left' =>
      let '(queue, inQueue, next) := acc in
      if (arr (procs !!! i) <=? time) && negb (inQueue !!! i) then
        enqueue_arrivals procs time left' (S i)
                         (queue ++ [i], <[i := true]> inQueue, S i)
      else if arr (procs !!! i) >? time then acc
      else enqueue_arrivals procs time left' (S i) acc
  end.

Definition enqueue_arrivals_from (procs : list Process) (time : Z)
    (queue : list nat) (inQueue : list bool) (next : nat)
  : list nat * list bool * nat :=
  enqueue_arrivals procs time (length procs - next) next (queue, inQueue, next).

(** The idle scan of Round Robin: the arrival of the first process from
    [next] on that has work left. *)
Fixpoint rr_next_arrival (procs : list Process) (left : nat) (i : nat)
  : option Z :=
  match left with
  | O => None
  | S left' =>
      if rem_bt (procs !!! i) >? 0 then Some (arr (procs !!! i))
      else rr_next_arrival procs left' (S i)
  end.

Definition RR_body (quantum : Z) (st : rr_state) : control rr_state :=
  let '(queue, inQueue, next) :=
    enqueue_arrivals_from (r_procs st) (r_time st) (r_readyQueue st)
                          (r_inQueue st) (r_next_proc_to_arrive st) in
  match queue with
  | [] =>
      match rr_next_arrival (r_procs st) (length (r_procs st) - next) next with
      | Some next_arrival_time =>
          if negb (String.eqb (r_last_block_id st) IDLE) then
            Continue (mkRr (r_procs st) next_arrival_time (r_completedCount st)
                           queue inQueue
                           (r_timeline st ++ [r_time st])
                           (r_blocks st ++ [IDLE]) IDLE next)
          else
            Continue (mkRr (r_procs st) next_arrival_time (r_completedCount st)
                           queue inQueue (r_timeline st) (r_blocks st) IDLE next)
      | None =>
          Break (mkRr (r_procs st) (r_time st) (r_completedCount st) queue
                      inQueue (r_timeline st) (r_blocks st)
                      (r_last_block_id st) next)
      end
  | current_proc_idx :: queue =>
      let inQueue := <[current_proc_idx := false]> inQueue in
      let execution_time :=
        Z.min quantum (rem_bt (r_procs st !!! current_proc_idx)) in
      let current_block_id := block_id (r_procs st !!! current_proc_idx) in
      let blocks :=
        if negb (String.eqb current_block_id (r_last_block_id st))
        then r_blocks st ++ [current_block_id] else r_blocks st in
      let timeline :=
        if negb (String.eqb current_block_id (r_last_block_id st))
           && negb (String.eqb (r_last_block_id st) IDLE)
        then r_timeline st ++ [r_time st] else r_timeline st in
      let procs :=
        alter (fun p => set_rem_bt (int (rem_bt p - execution_time)) p)
              current_proc_idx (r_procs st) in
      let time := int (r_time st + execution_time) in
      let '(queue, inQueue, next) :=
        enqueue_arrivals_from procs time queue inQueue next in
      if rem_bt (procs !!! current_proc_idx) =? 0 then
        Continue (mkRr (alter (finish time) current_proc_idx procs) time
                       (r_completedCount st + 1) queue inQueue
                       (timeline ++ [time]) blocks EmptyString next)
      else
        Continue (mkRr procs time (r_completedCount st)
                       (queue ++ [current_proc_idx])
                       (<[current_proc_idx := true]> inQueue)
                       (timeline ++ [time]) blocks EmptyString next)
  end.

Definition rr_cond (n : Z) (st : rr_state) : bool :=
  r_completedCount st <? n.

(** [vector<int> pid_to_idx(procs.back().pid + 1, -1)] and the writes
    [pid_to_idx[procs[i].pid] = i]: the table is never read, but
    [procs.back()] needs a last element, the size has to be an [int], and
    every write has to fall inside the table. *)
Definition pid_table_ok (procs : list Process) : bool :=
  match last procs with
  | None => false
  | Some b =>
      (pid b <? INT_MAX)
      && forallb (fun p => (0 <=? pid p) && (pid p <? pid b + 1)) procs
  end.

Definition rr_init (procs : list Process) : rr_state :=
  mkRr (map (fun p => set_rem_bt (bt p) p) procs) 0 0 []
       (replicate (length procs) false) [0] [] EmptyString 0.

Definition RR_loop (quantum : Z) (fuel : nat) (sorted : list Process)
  : outcome rr_state :=
  if pid_table_ok sorted then
    while (rr_cond (Z.of_nat (length sorted))) (RR_body quantum) fuel
          (rr_init sorted)
  else Undefined.

Definition RoundRobin (S : Sorter) (procs : list Process) (quantum : Z)
    (fuel : nat) : outcome Result :=
  outcome_map
    (fun st =>
       let procs := sort_by S pid (r_procs st) in
       let '(final_timeline, final_blocks) :=
         merge_gantt (r_timeline st) (r_blocks st) in
       printResults S procs final_timeline final_blocks)
    (RR_loop quantum fuel (sort_by S arr procs)).

(** [r] is the result of one of the five schedulers on [procs]. *)
Definition scheduled (S : Sorter) (procs : list Process) (quantum : Z)
    (r : Result) : Prop :=
  r = FCFS S procs \/
  yields (SJF S procs) r \/
  yields (PriorityScheduling S procs) r \/
  yields (SRTF S procs) r \/
  yields (RoundRobin S procs quantum) r.

(** ** The driver

    [main] reads the number of processes, then an arrival, a burst and a
    priority for each process, then the choice of the algorithm, and for
    Round Robin the quantum.  The standard input is the list of what the
    successive extractions [cin >> x] meet: an integer literal, or
    anything else (the end of the input included).  An extraction into
    an [int] fails on anything that is not a literal in the range of
    [int].  Kept of the output are the error message, if any, and the
    result handed to the renderer; the prompts are left out. *)

Inductive token : Type :=
| Number (z : Z)
| Other.

(** [cin >> x] for an [int x]: the value read and the rest of the input,
    or [None] when the extraction fails. *)
Definition extract (input : list token) : option (Z * list token) :=
  match input with
  | Number z :: rest =>
      if (INT_MIN <=? z) && (z <=? INT_MAX) then Some (z, rest) else None
  | _ => None
  end.

(** One iteration of the input loop: [None] is [return 1]. *)
Definition read_process (i : nat) (input : list token)
  : option (Process * list token) :=
  match extract input with
  | None => None
  | Some (a, input) =>
      if a <? 0 then None
      else
        match extract input with
        | None => None
        | Some (b, input) =>
            if b <=? 0 then None
            else
              match extract input with
              | None => None
              | Some (pri, input) =>
                  if pri <? 0 then None
                  else Some (new_Process (Z.of_nat i + 1) a b pri, input)
              end
        end
  end.

(** [for (int i = 0; i < n; i++)]: [left] iterations remain from [i]. *)
Fixpoint read_processes (left : nat) (i : nat) (procs_input : list Process)
    (input : list token) : option (list Process * list token) :=
  match left with
  | O => Some (procs_input, input)
  | S left' =>
      match read_process i input with
      | None => None
      | Some (p, input') =>
          read_processes left' (S i) (procs_input ++ [p]) input'
      end
  end.

Definition endl : string := String (Ascii.ascii_of_nat 10) EmptyString.
Definition invalid_number : string :=
  String.append "Invalid number of processes." endl.
Definition invalid_choice : string := String.append "Invalid choice." endl.
Definition invalid_quantum : string :=
  String.append "Invalid Time Quantum." endl.

(** What a run of [main] leaves: its return value, the error message it
    wrote, and the result of the scheduler it called. *)
Record Exit := mkExit {
  exit_code : Z;
  exit_message : option string;
  exit_result : option Result
}.

Definition main (S : Sorter) (input : list token) (fuel : nat)
  : outcome Exit :=
  match extract input with
  | None => Done (mkExit 1 (Some invalid_number) None)
  | Some (n, input) =>
      if n <=? 0 then Done (mkExit 1 (Some invalid_number) None)
      else
        match read_processes (Z.to_nat n) 0 [] input with
        | None => Done (mkExit 1 None None)
        | Some (procs_input, input) =>
            match extract input with
            | None => Done (mkExit 1 (Some invalid_choice) None)
            | Some (choice, input) =>
                let ran := fun r => mkExit 0 None (Some r) in
                if choice =? 1 then Done (ran (FCFS S procs_input))
                else if choice =? 2 then
                  outcome_map ran (SJF S procs_input fuel)
                else if choice =? 3 then
                  outcome_map ran (PriorityScheduling S procs_input fuel)
                else if choice =? 4 then
                  outcome_map ran (SRTF S procs_input fuel)
                else if choice =? 5 then
                  match extract input with
                  | None => Done (mkExit 1 (Some invalid_quantum) None)
                  | Some (quantum, _) =>
                      if quantum <=? 0
                      then Done (mkExit 1 (Some invalid_quantum) None)
                      else outcome_map ran
                             (RoundRobin S procs_input quantum fuel)
                  end
                else Done (mkExit 0 (Some invalid_choice) None)
            end
        end
  end.

(** ** The Gantt chart as text

    [printResults] writes every block as ["| "] followed by the label in a
    field of width [fixedWidth - 2], closes the line with ["|"], and
    writes every time of the timeline in a field of width [fixedWidth].
    A field [cout << left << setw(w) << s] pads [s] with spaces on the
    right up to [w] characters and never cuts it. *)

Fixpoint spaces (n : nat) : string :=
  match n with
  | O => EmptyString
  | S n' => String Ascii.Space (spaces n')
  end.

Definition setw_left (w : nat) (s : string) : string :=
  String.append s (spaces (w - String.length s)).

Definition fixedWidth : nat := 8.

Definition block_cells (blocks : list string) : list string :=
  map (fun b => String.append "| " (setw_left (fixedWidth - 2) b)) blocks.

Definition time_cells (timeline : list Z) : list string :=
  map (fun t => setw_left fixedWidth (to_string t)) timeline.

Definition gantt_chart (timeline : list Z) (blocks : list string) : string :=
  String.append (String.concat EmptyString (block_cells blocks))
    (String.append "|"
       (String.append endl
          (String.append (String.concat EmptyString (time_cells timeline))
             (String.append endl endl)))).

(** * Specification vocabulary *)

(** ** Scenarios of the specification and other inputs *)

Definition S4 : list Process :=
  [new_Process 1 0 7 0; new_Process 2 2 4 0; new_Process 3 4 1 0].
Definition S5 : list Process :=
  [new_Process 1 0 5 0; new_Process 2 1 3 0; new_Process 3 2 2 0].
Definition S6 : list Process := [new_Process 1 10 3 0].

Definition completion_times (r : Result) : list (Z * Z) :=
  map (fun p => (pid p, ct p)) (res_procs r).

(** Total length of the segments that carry a label. *)
Definition labelled_time (label : string) (segs : list segment) : Z :=
  fold_right
    (fun (s : segment) acc =>
       let '(l, t0, t1) := s in
       if String.eqb l label then (t1 - t0) + acc else acc)
    0 segs.

(** Input validity: what the driver checks ([at >= 0], [bt > 0],
    [priority >= 0], at least one process), distinct positive pids, and
    sizes for which the clock stays inside [int]. *)
Definition valid_process (p : Process) : Prop :=
  0 < pid p /\ 0 <= arr p /\ 0 < bt p /\ 0 <= priority p /\
  pid p <= INT_MAX /\ priority p <= INT_MAX.

Definition total_burst (procs : list Process) : Z :=
  fold_right (fun p acc => bt p + acc) 0 procs.

Definition latest_arrival (procs : list Process) : Z :=
  fold_right (fun p acc => Z.max (arr p) acc) 0 procs.

Definition valid_input (procs : list Process) : Prop :=
  procs <> [] /\
  Forall valid_process procs /\
  NoDup (map pid procs) /\
  latest_arrival procs + total_burst procs <= INT_MAX.

(** The metrics of a completed process. *)
Definition metrics_ok (p : Process) : Prop :=
  ct p >= arr p + bt p /\ tat p = ct p - arr p /\
  wt p = tat p - bt p /\ wt p >= 0.

(** What scenario S6 expects of a result. *)
Definition S6_expected (r : Result) : Prop :=
  gantt r = [("IDLE", 0, 10); ("P1", 10, 13)] /\
  map (fun p => (ct p, wt p)) (res_procs r) = [(13, 0)] /\
  res_idle r = 10.

(** What SRTF and Round Robin hand the renderer on S6. *)
Definition S6_collapsed (r : Result) : Prop :=
  res_blocks r = ["IDLE"; "P1"] /\ res_timeline r = [0; 0; 13] /\
  gantt r = [("IDLE", 0, 0); ("P1", 0, 13)] /\
  map (fun p => (ct p, wt p)) (res_procs r) = [(13, 0)] /\
  res_idle r = 0.

(** One process whose priority is the largest [int], one process whose
    burst is the largest [int], and two processes of which the first
    listed arrives last. *)
Definition top_priority : list Process := [new_Process 1 0 1 INT_MAX].
Definition top_burst : list Process := [new_Process 1 0 INT_MAX 0].
Definition late_first : list Process :=
  [new_Process 1 5 1 0; new_Process 2 0 1 0].

(** Two processes that arrive together, listed with the larger pid
    first. *)
Definition swapped_pids : list Process :=
  [new_Process 2 0 1 0; new_Process 1 0 1 0].

(** Three processes in pid order, two of which arrive together. *)
Definition tied_arrivals : list Process :=
  [new_Process 1 0 5 0; new_Process 2 0 3 0; new_Process 3 2 8 0].

Definition srtf_S4_final : srtf_state :=
  Eval vm_compute in
    match SRTF_loop 20 S4 with Done st => st | _ => srtf_init [] end.

Definition rr_S5_final : rr_state :=
  Eval vm_compute in
    match RR_loop 2 20 S5 with Done st => st | _ => rr_init [] end.

(** The segments that are not idle, and what a segment shows of a
    process: its label and its length. *)
Definition busy (segs : list segment) : list segment :=
  filter (fun s : segment => s.1.1 <> IDLE) segs.

Definition label_length (s : segment) : string * Z := (s.1.1, s.2 - s.1.2).

(** Arrival first, pid among equal arrivals. *)
Definition arrival_then_pid (a b : Process) : Prop :=
  arr a < arr b \/ (arr a = arr b /\ pid a < pid b).

(** The input lists its processes in increasing pid order, as the driver
    builds it. *)
Definition pid_ascending (procs : list Process) : Prop :=
  StronglySorted (fun a b => pid a < pid b) procs.

(** The choice C6 words: least burst, then least arrival, then least
    pid. *)
Definition least_by_pid (st : np_state) (idx : nat) : Prop :=
  forall j, (j < length (n_procs st))%nat -> np_ready st j = true ->
    let p := n_procs st !!! idx in
    let q := n_procs st !!! j in
    bt p < bt q \/
    (bt p = bt q /\ (arr p < arr q \/ (arr p = arr q /\ pid p <= pid q))).

(** The states the SJF or Priority loop goes through on an input. *)
Inductive np_reachable (key : Process -> Z) (procs : list Process)
  : np_state -> Prop :=
| np_reach_init : np_reachable key procs (np_init procs)
| np_reach_step st st' :
    np_reachable key procs st ->
    np_cond (Z.of_nat (length procs)) st = true ->
    NP_body key st = Continue st' ->
    np_reachable key procs st'.

(** ** Further inputs and vocabulary *)

(** Three processes that arrive together, with priority values 2, 3
    and 1. *)
Definition ranked : list Process :=
  [new_Process 1 0 4 2; new_Process 2 0 3 3; new_Process 3 0 2 1].

(** The process the driver builds at position [i] of its list: pid
    [i + 1], fields that passed the checks of the input loop, and the
    other fields as the constructor leaves them. *)
Definition entered (i : nat) (p : Process) : Prop :=
  p = new_Process (Z.of_nat i + 1) (arr p) (bt p) (priority p) /\
  0 <= arr p <= INT_MAX /\ 0 < bt p <= INT_MAX /\
  0 <= priority p <= INT_MAX.

Definition all_entered (procs : list Process) : Prop :=
  forall i p, procs !! i = Some p -> entered i p.

(** The input that enters a list of processes. *)
Definition typed (procs : list Process) : list token :=
  flat_map
    (fun p => [Number (arr p); Number (bt p); Number (priority p)]) procs.

(** Two processes whose bursts are the largest [int], as the driver
    builds them. *)
Definition two_long : list Process :=
  [new_Process 1 0 INT_MAX 0; new_Process 2 0 INT_MAX 0].

(** The same two with a short third process behind them. *)
Definition three_long : list Process := two_long ++ [new_Process 3 0 1 0].

(** One process that arrives three time units before [INT_MAX]. *)
Definition late_arrival : list Process := [new_Process 1 (INT_MAX - 3) 10 0].

(** No two neighbouring labels are equal. *)
Fixpoint no_repeat (blocks : list string) : Prop :=
  match blocks with
  | a :: ((b :: _) as t) => a <> b /\ no_repeat t
  | _ => True
  end.

(** The states the SRTF loop goes through on an input. *)
Inductive srtf_reachable (procs : list Process) : srtf_state -> Prop :=
| srtf_reach_init : srtf_reachable procs (srtf_init procs)
| srtf_reach_step st st' :
    srtf_reachable procs st ->
    srtf_cond (Z.of_nat (length procs)) st = true ->
    SRTF_body st = Continue st' ->
    srtf_reachable procs st'.

(** The states the Round Robin loop goes through on a sorted input. *)
Inductive rr_reachable (quantum : Z) (sorted : list Process)
  : rr_state -> Prop :=
| rr_reach_init : rr_reachable quantum sorted (rr_init sorted)
| rr_reach_step st st' :
    rr_reachable quantum sorted st ->
    rr_cond (Z.of_nat (length sorted)) st = true ->
    RR_body quantum st = Continue st' ->
    rr_reachable quantum sorted st'.

(** * Invariants *)

(** Increasing key order, checked on neighbours. *)
Fixpoint increasing (key : Process -> Z) (l : list Process) : bool :=
  match l with
  | a :: ((b :: _) as t) => (key a <? key b) && increasing key t
  | _ => true
  end.

(** Insertion sort meets the contract of [std::sort]. *)
Definition insertion_sorter : Sorter.
Proof.
  refine (mkSorter insertion_sort _ _); intros key l; unfold insertion_sort.
  - assert (Hins : forall x t, Permutation (insert_sorted key x t) (x :: t)).
    { intros x t. induction t as [|y t IH]; simpl; [reflexivity|].
      destruct (key x <? key y); [reflexivity|].
      rewrite IH. apply perm_swap. }
    enough (H : forall acc,
               Permutation (fold_left (fun a x => insert_sorted key x a) l acc)
                           (acc ++ l)) by apply (H []).
    induction l as [|x l IH]; intros acc; simpl.
    + rewrite app_nil_r. reflexivity.
    + rewrite IH, Hins. simpl. apply Permutation_middle.
  - assert (Hins : forall x t, Permutation (insert_sorted key x t) (x :: t)).
    { intros x t. induction t as [|y t IH]; simpl; [reflexivity|].
      destruct (key x <? key y); [reflexivity|].
      rewrite IH. apply perm_swap. }
    assert (Hsorted : forall x t,
               StronglySorted (fun a b => key a <= key b) t ->
               StronglySorted (fun a b => key a <= key b) (insert_sorted key x t)).
    { intros x t. induction 1 as [|y t Hs IH Hall]; simpl.
      - repeat constructor.
      - destruct (Z.ltb_spec (key x) (key y)) as [Hlt|Hge].
        + constructor; [constructor; assumption|].
          constructor; [lia|].
          eapply Forall_impl; [exact Hall|]. simpl. intros; lia.
        + constructor; [assumption|].
          rewrite (Hins x t). constructor; [lia|assumption]. }
    enough (H : forall acc,
               StronglySorted (fun a b => key a <= key b) acc ->
               StronglySorted (fun a b => key a <= key b)
                 (fold_left (fun a x => insert_sorted key x a) l acc))
      by (apply H; constructor).
    induction l as [|x l IH]; intros acc Hacc; simpl; [assumption|].
    apply IH, Hsorted, Hacc.
Defined.

(** [k] comes before [j] in the scan: smaller key, then smaller arrival,
    then smaller index. *)
Definition chosen_before (key : Process -> Z) (procs : list Process)
    (k j : nat) : Prop :=
  key (procs !!! k) < key (procs !!! j) \/
  (key (procs !!! k) = key (procs !!! j) /\
   (arr (procs !!! k) < arr (procs !!! j) \/
    (arr (procs !!! k) = arr (procs !!! j) /\ (k <= j)%nat))).

(** What the scan holds after the indices below [m]. *)
Definition scan_inv (ready : nat -> bool) (key : Process -> Z)
    (procs : list Process) (m : nat) (acc : Z * option nat) : Prop :=
  match acc.2 with
  | Some k =>
      (k < m)%nat /\ ready k = true /\ acc.1 = key (procs !!! k) /\
      acc.1 < INT_MAX /\
      forall j, (j < m)%nat -> ready j = true -> chosen_before key procs k j
  | None =>
      acc.1 = INT_MAX /\
      forall j, (j < m)%nat -> ready j = true -> INT_MAX <= key (procs !!! j)
  end.

(** The fields a scheduler never writes. *)
Definition static (p : Process) : Z * Z * Z * Z :=
  (pid p, arr p, bt p, priority p).

(** What the loops need of a process: its arrival is below the sentinel
    and its burst is a positive [int]. *)
Definition bounded (p : Process) : Prop :=
  0 <= arr p < INT_MAX /\ 0 < bt p <= INT_MAX.

(** The invariant of the SJF and Priority loop on the input [procs0]. *)
Record np_inv (procs0 : list Process) (st : np_state) : Prop := mkNpInv {
  np_static : map static (n_procs st) = map static procs0;
  np_len : length (n_completed st) = length (n_procs st);
  np_count : n_completedCount st
             = Z.of_nat (length (filter (fun b => b = true) (n_completed st)));
  np_done : forall i, (i < length (n_procs st))%nat ->
                      n_completed st !!! i = true ->
                      metrics_ok (n_procs st !!! i)
}.

(** A process at clock [time]: its remaining time is within range, a
    process that has run but is not finished has used its time after its
    arrival, and a finished process has its metrics. *)
Definition run_ok (time : Z) (p : Process) : Prop :=
  0 <= rem_bt p <= bt p /\
  (0 < rem_bt p < bt p -> arr p + (bt p - rem_bt p) <= time) /\
  (rem_bt p = 0 -> metrics_ok p).

(** The invariant of the SRTF loop on the input [procs0]. *)
Record srtf_inv (procs0 : list Process) (st : srtf_state) : Prop := mkSrtfInv {
  srtf_static : map static (s_procs st) = map static procs0;
  srtf_run : Forall (run_ok (s_time st)) (s_procs st);
  srtf_count : s_completedCount st
               = Z.of_nat (length (filter (fun p => rem_bt p = 0) (s_procs st)))
}.

(** The state of the ready queue between two statements of the loop.
    [running] is the process popped from the queue and not yet put back.
    Every queued index has arrived and has work left; every process
    below [next] with work left is queued or running; nothing from
    [next] on has been queued or has run. *)
Definition rr_sched (procs : list Process) (time : Z) (running : option nat)
    (queue : list nat) (inQueue : list bool) (next : nat) : Prop :=
  length inQueue = length procs /\
  (next <= length procs)%nat /\
  NoDup queue /\
  (forall i, i ∈ queue ->
     (i < next)%nat /\ running <> Some i /\
     arr (procs !!! i) <= time /\ 0 < rem_bt (procs !!! i)) /\
  (forall i, (i < next)%nat -> 0 < rem_bt (procs !!! i) ->
     i ∈ queue \/ running = Some i) /\
  (forall i, (next <= i < length procs)%nat ->
     inQueue !!! i = false /\ rem_bt (procs !!! i) = bt (procs !!! i)) /\
  (forall i, running = Some i -> (i < next)%nat).

(** The invariant of the Round Robin loop on the sorted input [procs0]. *)
Record rr_inv (procs0 : list Process) (st : rr_state) : Prop := mkRrInv {
  rr_static : map static (r_procs st) = map static procs0;
  rr_run : Forall (run_ok (r_time st)) (r_procs st);
  rr_count : r_completedCount st
             = Z.of_nat (length (filter (fun p => rem_bt p = 0) (r_procs st)));
  rr_queue : rr_sched (r_procs st) (r_time st) None (r_readyQueue st)
                      (r_inQueue st) (r_next_proc_to_arrive st)
}.

(** The trace is well formed: one more time than blocks, ending at the
    clock. *)
Definition fcfs_wf (st : fcfs_state) : Prop :=
  length (f_timeline st) = S (length (f_blocks st)) /\
  last (f_timeline st) = Some (f_time st).

(** ** Traces of the preemptive loops *)

(** What the trace of SRTF holds at the head of every iteration: the
    timeline is at least as long as the blocks, and longer when no block
    is open; and while a block is open some process can be selected. *)
Definition srtf_trace (st : srtf_state) : Prop :=
  (length (s_blocks st) <= length (s_timeline st))%nat /\
  (s_last_block_id st = EmptyString \/ s_last_block_id st = IDLE ->
   (length (s_blocks st) < length (s_timeline st))%nat) /\
  (s_last_block_id st <> EmptyString -> s_last_block_id st <> IDLE ->
   exists i, (i < length (s_procs st))%nat /\ srtf_ready st i = true /\
             rem_bt (s_procs st !!! i) < INT_MAX).

(** The same for Round Robin, where no block is open at the head of an
    iteration. *)
Definition rr_trace (st : rr_state) : Prop :=
  (length (r_blocks st) < length (r_timeline st))%nat /\
  (r_last_block_id st = EmptyString \/ r_last_block_id st = IDLE).

(** * Measures and traces *)

(** Some process is ready in a state of the SJF or Priority loop. *)
Definition np_some_ready (st : np_state) : bool :=
  existsb (np_ready st) (seq 0 (length (n_procs st))).

(** Twice the number of processes still to dispatch, plus one when the
    next iteration can only idle. *)
Definition np_measure (st : np_state) : nat :=
  (2 * (length (n_procs st)
        - length (filter (fun b => b = true) (n_completed st)))
   + if np_some_ready st then 0 else 1)%nat.

(** Work left over all processes. *)
Definition remaining (procs : list Process) : Z :=
  fold_right (fun p acc => rem_bt p + acc) 0 procs.

Definition srtf_some_ready (st : srtf_state) : bool :=
  existsb (srtf_ready st) (seq 0 (length (s_procs st))).

(** Twice the work left, plus one when the next iteration can only idle. *)
Definition srtf_measure (st : srtf_state) : nat :=
  (2 * Z.to_nat (remaining (s_procs st))
   + if srtf_some_ready st then 0 else 1)%nat.

(** The queue a state of Round Robin dispatches from, after arrivals. *)
Definition rr_queue_after (st : rr_state) : list nat :=
  (enqueue_arrivals_from (r_procs st) (r_time st) (r_readyQueue st)
                         (r_inQueue st) (r_next_proc_to_arrive st)).1.1.

Definition rr_measure (st : rr_state) : nat :=
  (2 * Z.to_nat (remaining (r_procs st))
   + match rr_queue_after st with [] => 1 | _ :: _ => 0 end)%nat.

(** The inputs on which the sentinel of the scans and the pid table of
    Round Robin do no harm: every burst and priority is below [INT_MAX],
    and the process that arrives last has the largest pid. *)
Definition in_range (S : Sorter) (procs : list Process) : Prop :=
  Forall (fun p => bt p < INT_MAX /\ priority p < INT_MAX) procs /\
  pid_table_ok (sort_by S arr procs) = true.

(** Sum of the lengths paired with a label. *)
Fixpoint label_sum (label : string) (pairs : list (string * Z)) : Z :=
  match pairs with
  | [] => 0
  | lp :: rest =>
      if String.eqb lp.1 label then lp.2 + label_sum label rest
      else label_sum label rest
  end.

(** What the trace shows of a process. *)
Definition label_burst (p : Process) : string * Z := (block_id p, bt p).

(** The processes whose flag in [completed] is set, in input order. *)
Fixpoint dispatched (completed : list bool) (procs : list Process)
  : list Process :=
  match completed, procs with
  | c :: cs, p :: ps => if c then p :: dispatched cs ps else dispatched cs ps
  | _, _ => []
  end.

(** The trace of the non-preemptive loop: one more time than blocks, the
    last time is the clock, and the busy segments are those of the
    processes dispatched so far. *)
Definition np_trace (st : np_state) : Prop :=
  length (n_timeline st) = S (length (n_blocks st)) /\
  last (n_timeline st) = Some (n_time st) /\
  Permutation
    (map label_length (busy (segments (n_timeline st) (n_blocks st))))
    (map label_burst (dispatched (n_completed st) (n_procs st))).

(** ** Bounds on the clock *)

(** The latest time any run can reach on an input. *)
Definition horizon (procs : list Process) : Z :=
  latest_arrival procs + total_burst procs.

(** The clock of the non-preemptive loop, and the completions so far,
    are at most the latest arrival plus the bursts dispatched so far. *)
Definition np_clock (procs0 : list Process) (st : np_state) : Prop :=
  let bound :=
    latest_arrival procs0
    + total_burst (dispatched (n_completed st) (n_procs st)) in
  n_time st <= bound /\
  forall i, (i < length (n_procs st))%nat -> n_completed st !!! i = true ->
            ct (n_procs st !!! i) <= bound.

(** A finished process completed by [bound]. *)
Definition run_clock (bound : Z) (p : Process) : Prop :=
  rem_bt p = 0 -> ct p <= bound.

(** The clock of a preemptive loop, and the completions so far, are at
    most the latest arrival plus the work done so far. *)
Definition work_clock (procs0 procs : list Process) (time : Z) : Prop :=
  let bound := latest_arrival procs0 + (total_burst procs0 - remaining procs) in
  time <= bound /\ Forall (run_clock bound) procs.

(** Sum of the lengths of a list of labelled lengths. *)
Definition length_sum (pairs : list (string * Z)) : Z :=
  fold_right (fun lp acc => lp.2 + acc) 0 pairs.

(** ** What holds of a loop whatever the clock does *)

(** The part of the invariant of the SJF and Priority loop that does not
    depend on the clock: the static fields are those of the input, every
    process has its flag, and the counter counts the flags set. *)
Definition np_shape (procs0 : list Process) (st : np_state) : Prop :=
  map static (n_procs st) = map static procs0 /\
  length (n_completed st) = length (n_procs st) /\
  n_completedCount st
  = Z.of_nat (length (filter (fun b => b = true) (n_completed st))).

(** The same for SRTF: the remaining times lie between 0 and the burst,
    and the counter counts the processes with no time left. *)
Definition srtf_shape (procs0 : list Process) (st : srtf_state) : Prop :=
  map static (s_procs st) = map static procs0 /\
  Forall (fun p => 0 <= rem_bt p <= bt p) (s_procs st) /\
  s_completedCount st
  = Z.of_nat (length (filter (fun p => rem_bt p = 0) (s_procs st))).

(** * The schedule over unbounded integers

    The loops of the five schedulers and the idle-time loop once more,
    word for word, with the sums and differences taken in [Z] and not
    reduced by [int].  This is what the program computes as long as its
    clock stays within [int]; it is the reference of the proofs, not the
    program. *)

Module Unbounded.

Definition finish (time : Z) (p : Process) : Process :=
  let c := time in
  let t := c - arr p in
  let w := t - bt p in
  mkProcess (pid p) (arr p) (bt p) (rem_bt p) c t w (priority p).

Definition idle_time (timeline : list Z) (blocks : list string) : Z :=
  fold_left
    (fun idle i =>
       if String.eqb (blocks !!! i) IDLE && (S i <? length timeline)%nat
       then idle + (timeline !!! S i - timeline !!! i)
       else idle)
    (seq 0 (length blocks)) 0.

Definition printResults (S : Sorter) (procs : list Process)
    (timeline : list Z) (blocks : list string) : Result :=
  mkResult (sort_by S pid procs) timeline blocks (idle_time timeline blocks).

Definition FCFS_step (p : Process) (st : fcfs_state) : Process * fcfs_state :=
  let st1 :=
    if arr p >? f_time st
    then mkFcfs (arr p) (f_timeline st ++ [arr p]) (f_blocks st ++ [IDLE])
    else st in
  let time := f_time st1 + bt p in
  (finish time p,
   mkFcfs time (f_timeline st1 ++ [time]) (f_blocks st1 ++ [block_id p])).

Fixpoint FCFS_loop (procs : list Process) (st : fcfs_state)
  : list Process * fcfs_state :=
  match procs with
  | [] => ([], st)
  | p :: rest =>
      let '(p', st') := FCFS_step p st in
      let '(rest', st'') := FCFS_loop rest st' in
      (p' :: rest', st'')
  end.

Definition FCFS (S : Sorter) (procs : list Process) : Result :=
  let procs := sort_by S arr procs in
  let '(procs, st) := FCFS_loop procs (mkFcfs 0 [0] []) in
  printResults S procs (f_timeline st) (f_blocks st).

Definition np_dispatch (st : np_state) (idx : nat) : np_state :=
  let p := n_procs st !!! idx in
  let time := n_time st + bt p in
  mkNp (alter (finish time) idx (n_procs st))
       (<[idx := true]> (n_completed st))
       time
       (n_completedCount st + 1)
       (n_timeline st ++ [time])
       (n_blocks st ++ [block_id p]).

Definition NP_body (key : Process -> Z) (st : np_state) : control np_state :=
  match select (np_ready st) key (n_procs st) with
  | None =>
      let next_arrival_time := np_next_arrival st in
      if negb (next_arrival_time =? INT_MAX)
      then Continue (np_idle st next_arrival_time)
      else Break st
  | Some idx => Continue (np_dispatch st idx)
  end.

Definition NP_loop (key : Process -> Z) (fuel : nat) (procs : list Process)
  : outcome np_state :=
  while (np_cond (Z.of_nat (length procs))) (NP_body key) fuel (np_init procs).

Definition NP (key : Process -> Z) (S : Sorter) (procs : list Process)
    (fuel : nat) : outcome Result :=
  outcome_map
    (fun st => printResults S (n_procs st) (n_timeline st) (n_blocks st))
    (NP_loop key fuel procs).

Definition SJF : Sorter -> list Process -> nat -> outcome Result := NP bt.
Definition PriorityScheduling
  : Sorter -> list Process -> nat -> outcome Result := NP priority.

Definition SRTF_body (st : srtf_state) : control srtf_state :=
  match select (srtf_ready st) rem_bt (s_procs st) with
  | None =>
      let '(next_arrival_time, found_next) := srtf_next_arrival (s_procs st) in
      if found_next then
        if negb (String.eqb (s_last_block_id st) IDLE) then
          Continue (mkSrtf (s_procs st) next_arrival_time (s_completedCount st)
                           (s_timeline st ++ [s_time st])
                           (s_blocks st ++ [IDLE]) IDLE)
        else
          Continue (mkSrtf (s_procs st) next_arrival_time (s_completedCount st)
                           (s_timeline st) (s_blocks st) IDLE)
      else Break st
  | Some idx =>
      let current_block_id := block_id (s_procs st !!! idx) in
      let blocks :=
        if negb (String.eqb current_block_id (s_last_block_id st))
        then s_blocks st ++ [current_block_id] else s_blocks st in
      let timeline :=
        if negb (String.eqb current_block_id (s_last_block_id st))
           && negb (String.eqb (s_last_block_id st) IDLE)
        then s_timeline st ++ [s_time st] else s_timeline st in
      let procs :=
        alter (fun p => set_rem_bt (rem_bt p - 1) p) idx (s_procs st) in
      let time := s_time st + 1 in
      if rem_bt (procs !!! idx) =? 0 then
        Continue (mkSrtf (alter (finish time) idx procs) time
                         (s_completedCount st + 1)
                         (timeline ++ [time]) blocks EmptyString)
      else
        Continue (mkSrtf procs time (s_completedCount st) timeline blocks
                         current_block_id)
  end.

Definition SRTF_loop (fuel : nat) (procs : list Process) : outcome srtf_state :=
  while (srtf_cond (Z.of_nat (length procs))) SRTF_body fuel (srtf_init procs).

Definition SRTF (S : Sorter) (procs : list Process) (fuel : nat)
  : outcome Result :=
  outcome_map
    (fun st =>
       let '(final_timeline, final_blocks) :=
         merge_gantt (s_timeline st) (s_blocks st) in
       printResults S (s_procs st) final_timeline final_blocks)
    (SRTF_loop fuel procs).

Definition RR_body (quantum : Z) (st : rr_state) : control rr_state :=
  let '(queue, inQueue, next) :=
    enqueue_arrivals_from (r_procs st) (r_time st) (r_readyQueue st)
                          (r_inQueue st) (r_next_proc_to_arrive st) in
  match queue with
  | [] =>
      match rr_next_arrival (r_procs st) (length (r_procs st) - next) next with
      | Some next_arrival_time =>
          if negb (String.eqb (r_last_block_id st) IDLE) then
            Continue (mkRr (r_procs st) next_arrival_time (r_completedCount st)
                           queue inQueue
                           (r_timeline st ++ [r_time st])
                           (r_blocks st ++ [IDLE]) IDLE next)
          else
            Continue (mkRr (r_procs st) next_arrival_time (r_completedCount st)
                           queue inQueue (r_timeline st) (r_blocks st) IDLE next)
      | None =>
          Break (mkRr (r_procs st) (r_time st) (r_completedCount st) queue
                      inQueue (r_timeline st) (r_blocks st)
                      (r_last_block_id st) next)
      end
  | current_proc_idx :: queue =>
      let inQueue := <[current_proc_idx := false]> inQueue in
      let execution_time :=
        Z.min quantum (rem_bt (r_procs st !!! current_proc_idx)) in
      let current_block_id := block_id (r_procs st !!! current_proc_idx) in
      let blocks :=
        if negb (String.eqb current_block_id (r_last_block_id st))
        then r_blocks st ++ [current_block_id] else r_blocks st in
      let timeline :=
        if negb (String.eqb current_block_id (r_last_block_id st))
           && negb (String.eqb (r_last_block_id st) IDLE)
        then r_timeline st ++ [r_time st] else r_timeline st in
      let procs :=
        alter (fun p => set_rem_bt (rem_bt p - execution_time) p)
              current_proc_idx (r_procs st) in
      let time := r_time st + execution_time in
      let '(queue, inQueue, next) :=
        enqueue_arrivals_from procs time queue inQueue next in
      if rem_bt (procs !!! current_proc_idx) =? 0 then
        Continue (mkRr (alter (finish time) current_proc_idx procs) time
                       (r_completedCount st + 1) queue inQueue
                       (timeline ++ [time]) blocks EmptyString next)
      else
        Continue (mkRr procs time (r_completedCount st)
                       (queue ++ [current_proc_idx])
                       (<[current_proc_idx := true]> inQueue)
                       (timeline ++ [time]) blocks EmptyString next)
  end.

Definition RR_loop (quantum : Z) (fuel : nat) (sorted : list Process)
  : outcome rr_state :=
  if pid_table_ok sorted then
    while (rr_cond (Z.of_nat (length sorted))) (RR_body quantum) fuel
          (rr_init sorted)
  else Undefined.

Definition RoundRobin (S : Sorter) (procs : list Process) (quantum : Z)
    (fuel : nat) : outcome Result :=
  outcome_map
    (fun st =>
       let procs := sort_by S pid (r_procs st) in
       let '(final_timeline, final_blocks) :=
         merge_gantt (r_timeline st) (r_blocks st) in
       printResults S procs final_timeline final_blocks)
    (RR_loop quantum fuel (sort_by S arr procs)).

Definition scheduled (S : Sorter) (procs : list Process) (quantum : Z)
    (r : Result) : Prop :=
  r = FCFS S procs \/
  yields (SJF S procs) r \/
  yields (PriorityScheduling S procs) r \/
  yields (SRTF S procs) r \/
  yields (RoundRobin S procs quantum) r.

(** The states the loops go through on an input. *)
Inductive srtf_reachable (procs : list Process) : srtf_state -> Prop :=
| srtf_reach_init : srtf_reachable procs (srtf_init procs)
| srtf_reach_step st st' :
    srtf_reachable procs st ->
    srtf_cond (Z.of_nat (length procs)) st = true ->
    SRTF_body st = Continue st' ->
    srtf_reachable procs st'.

Inductive rr_reachable (quantum : Z) (sorted : list Process)
  : rr_state -> Prop :=
| rr_reach_init : rr_reachable quantum sorted (rr_init sorted)
| rr_reach_step st st' :
    rr_reachable quantum sorted st ->
    rr_cond (Z.of_nat (length sorted)) st = true ->
    RR_body quantum st = Continue st' ->
    rr_reachable quantum sorted st'.

(** Round Robin with a quantum that no burst exceeds, after [k]
    completions: the first [k] processes of the sorted list are as FCFS
    leaves them, with no time left; the others have not run; the queue
    holds the indices from [k] up to the arrival scan; and the clock is
    the one of FCFS, or the arrival of process [k] after an idle jump. *)
Definition rr_like_fcfs (l : list Process) (st : rr_state) : Prop :=
  exists k : nat,
    let ran := FCFS_loop (take k l) (mkFcfs 0 [0] []) in
    let next := r_next_proc_to_arrive st in
    (k <= next <= length l)%nat /\
    r_procs st
    = map (set_rem_bt 0) ran.1
      ++ map (fun p => set_rem_bt (bt p) p) (drop k l) /\
    r_readyQueue st = seq k (next - k) /\
    r_completedCount st = Z.of_nat k /\
    length (r_inQueue st) = length l /\
    (forall i, (next <= i < length l)%nat -> r_inQueue st !!! i = false) /\
    (forall i, (k <= i < next)%nat -> arr (l !!! i) <= r_time st) /\
    f_time ran.2 <= r_time st /\
    ((k < length l)%nat ->
     Z.max (r_time st) (arr (l !!! k))
     = Z.max (f_time ran.2) (arr (l !!! k))).

End Unbounded.

(** A result with its idle time as the program sums it, in [int]. *)
Definition in_int (r : Result) : Result :=
  mkResult (res_procs r) (res_timeline r) (res_blocks r) (int (res_idle r)).

(** * Proofs *)

(** Validity of an input written out as a list of [new_Process]. *)
Ltac valid_concrete :=
  unfold valid_input; split; [discriminate|]; split;
  [repeat (constructor; [unfold valid_process, INT_MAX; cbn; lia|]);
   constructor
  |split;
   [cbn [map pid new_Process];
    repeat (constructor; [rewrite ?elem_of_cons, elem_of_nil; lia|]);
    constructor
   |unfold INT_MAX; cbn; lia]].

(** ** Facts about sorting *)

Section Sorting.
Variable key : Process -> Z.

Lemma insert_sorted_perm x l : Permutation (insert_sorted key x l) (x :: l).
Proof.
  induction l as [|y t IH]; simpl; [reflexivity|].
  destruct (key x <? key y); [reflexivity|].
  rewrite IH. apply perm_swap.
Qed.

Lemma insert_sorted_sorted x l :
  StronglySorted (fun a b => key a <= key b) l ->
  StronglySorted (fun a b => key a <= key b) (insert_sorted key x l).
Proof.
  induction 1 as [|y t Hs IH Hall]; simpl.
  - repeat constructor.
  - destruct (Z.ltb_spec (key x) (key y)) as [Hlt|Hge].
    + constructor; [constructor; assumption|].
      constructor; [lia|].
      eapply Forall_impl; [exact Hall|]. simpl. intros; lia.
    + constructor; [assumption|].
      rewrite (insert_sorted_perm x t). constructor; [lia|assumption].
Qed.

Lemma filter_key_above l k :
  Forall (fun p => k < key p) l -> filter (fun p => key p = k) l = [].
Proof.
  induction 1 as [|y t Hy _ IH]; [reflexivity|].
  rewrite filter_cons_False by lia. exact IH.
Qed.

Lemma insert_sorted_filter x l k :
  StronglySorted (fun a b => key a <= key b) l ->
  filter (fun p => key p = k) (insert_sorted key x l)
  = filter (fun p => key p = k) l ++ filter (fun p => key p = k) [x].
Proof.
  induction 1 as [|y t Hs IH Hall]; simpl; [reflexivity|].
  destruct (Z.ltb_spec (key x) (key y)) as [Hlt|Hge].
  - rewrite (filter_cons _ x (y :: t)), (filter_cons _ x []).
    destruct (decide (key x = k)) as [Hk|Hk]; [|by rewrite app_nil_r].
    assert (Hnil : filter (fun p => key p = k) (y :: t) = []); [|by rewrite Hnil].
    apply filter_key_above. constructor; [lia|].
    eapply Forall_impl; [exact Hall|]. simpl. intros; lia.
  - rewrite !(filter_cons _ y). destruct (decide (key y = k)); simpl; by rewrite IH.
Qed.

Lemma insertion_sort_acc_filter l acc k :
  StronglySorted (fun a b => key a <= key b) acc ->
  filter (fun p => key p = k) (fold_left (fun a x => insert_sorted key x a) l acc)
  = filter (fun p => key p = k) acc ++ filter (fun p => key p = k) l.
Proof.
  revert acc. induction l as [|x l IH]; intros acc Hs; simpl.
  - by rewrite app_nil_r.
  - rewrite IH by (by apply insert_sorted_sorted).
    rewrite insert_sorted_filter by assumption.
    by rewrite <- app_assoc, <- filter_app.
Qed.

(** A list in strictly increasing key order is the only sorted
    arrangement of its elements. *)
Lemma sorted_perm_unique l l' :
  StronglySorted (fun a b => key a < key b) l ->
  StronglySorted (fun a b => key a <= key b) l' ->
  Permutation l' l -> l' = l.
Proof.
  intros Hl. revert l'. induction Hl as [|a t Hs IH Hall]; intros l' Hl' Hp.
  - by apply Permutation_nil_r.
  - destruct l' as [|b t']; [by apply Permutation_nil_cons in Hp|].
    apply StronglySorted_inv in Hl' as [Hs' Hall'].
    assert (Hab : a = b).
    { assert (Hb : b ∈ a :: t) by (rewrite <- Hp; left).
      assert (Ha : a ∈ b :: t') by (rewrite Hp; left).
      apply elem_of_cons in Hb as [Hb|Hb]; [done|].
      apply elem_of_cons in Ha as [Ha|Ha]; [done|].
      rewrite Forall_forall in Hall, Hall'.
      specialize (Hall _ Hb). specialize (Hall' _ Ha). lia. }
    subst b. f_equal. apply IH; [assumption|].
    by apply Permutation_cons_inv in Hp.
Qed.

Lemma increasing_sorted l :
  increasing key l = true -> StronglySorted (fun a b => key a < key b) l.
Proof.
  intros H. apply Sorted_StronglySorted; [intros x y z; lia|].
  induction l as [|a [|b t] IH]; [constructor|by repeat constructor|].
  simpl in H. apply andb_prop in H as [Hab Ht].
  constructor; [by apply IH|]. constructor. lia.
Qed.
End Sorting.

Lemma insertion_sorter_stable : stable insertion_sorter.
Proof.
  intros key l k. simpl. unfold insertion_sort.
  rewrite insertion_sort_acc_filter by constructor. reflexivity.
Qed.

Lemma sort_by_unique (S : Sorter) key l l0 :
  Permutation l l0 -> increasing key l0 = true -> sort_by S key l = l0.
Proof.
  intros Hp Hinc. apply (sorted_perm_unique key).
  - by apply increasing_sorted.
  - apply sort_by_sorted.
  - by rewrite sort_by_perm.
Qed.

Lemma sort_by_increasing (S : Sorter) key l :
  increasing key l = true -> sort_by S key l = l.
Proof. by apply sort_by_unique. Qed.

(** ** Facts about loops *)

Section While.
Context {St : Type} (cond : St -> bool) (body : St -> control St).

Lemma while_more_fuel fuel fuel' st st' :
  while cond body fuel st = Done st' -> (fuel <= fuel')%nat ->
  while cond body fuel' st = Done st'.
Proof.
  revert fuel' st. induction fuel as [|fuel IH]; intros fuel' st Hrun Hle.
  - simpl in Hrun. destruct fuel'; simpl; destruct (cond st); congruence.
  - destruct fuel' as [|fuel'']; [lia|]. simpl in *.
    destruct (cond st); [|assumption].
    destruct (body st); [|assumption]. apply IH; [assumption|lia].
Qed.

Lemma while_deterministic fuel1 fuel2 st a b :
  while cond body fuel1 st = Done a -> while cond body fuel2 st = Done b -> a = b.
Proof.
  intros H1 H2.
  apply (while_more_fuel _ (fuel1 `max` fuel2)%nat) in H1; [|lia].
  apply (while_more_fuel _ (fuel1 `max` fuel2)%nat) in H2; [|lia].
  congruence.
Qed.

(** The invariant rule: an invariant kept by every iteration holds of
    the final state, and the loop ended by its condition or by a
    [break]. *)
Lemma while_invariant (I : St -> Prop) :
  (forall st st', I st -> cond st = true -> body st = Continue st' -> I st') ->
  forall fuel st st',
    I st -> while cond body fuel st = Done st' ->
    (I st' /\ cond st' = false) \/
    (exists st0, I st0 /\ cond st0 = true /\ body st0 = Break st').
Proof.
  intros Hstep. induction fuel as [|fuel IH]; intros st st' HI Hrun; simpl in Hrun.
  - destruct (cond st) eqn:Hc; [discriminate|]. left. by inversion Hrun; subst.
  - destruct (cond st) eqn:Hc; [|left; by inversion Hrun; subst].
    destruct (body st) as [st1|st1] eqn:Hb.
    + eapply IH; [|exact Hrun]. eauto.
    + inversion Hrun; subst. right. eauto.
Qed.
End While.

Lemma yields_map_deterministic {A B : Type} (f : A -> B)
    (run : nat -> outcome A) (r1 r2 : B) :
  (forall fuel1 fuel2 a b, run fuel1 = Done a -> run fuel2 = Done b -> a = b) ->
  yields (fun fuel => outcome_map f (run fuel)) r1 ->
  yields (fun fuel => outcome_map f (run fuel)) r2 -> r1 = r2.
Proof.
  intros Hdet [f1 H1] [f2 H2].
  destruct (run f1) as [a| |] eqn:Ha; try discriminate.
  destruct (run f2) as [b| |] eqn:Hb; try discriminate.
  simpl in *. rewrite (Hdet _ _ _ _ Ha Hb) in H1. congruence.
Qed.

(** ** The inputs of the scenarios *)

Lemma sort_by_S5 (S : Sorter) : sort_by S arr S5 = S5.
Proof. by apply sort_by_increasing. Qed.

Lemma sort_by_singleton (S : Sorter) key p : sort_by S key [p] = [p].
Proof. by apply sort_by_increasing. Qed.

Lemma valid_top_priority : valid_input top_priority.
Proof. unfold top_priority. valid_concrete. Qed.

Lemma valid_top_burst : valid_input top_burst.
Proof. unfold top_burst. valid_concrete. Qed.

Lemma valid_late_first : valid_input late_first.
Proof. unfold late_first. valid_concrete. Qed.

(** One case of the scan: the facts about the chosen index, then the
    comparison with an index [j], which is the new index [i] or an
    earlier one. *)
Ltac scan_cases i Hmin :=
  repeat (split; [first [done | lia]|]);
  let j := fresh "j" in
  let Hj := fresh "Hj" in
  let Hrj := fresh "Hrj" in
  intros j Hj Hrj;
  destruct (decide (j = i)) as [->|?];
  [first [lia | congruence]|];
  specialize (Hmin j ltac:(lia) Hrj); lia.

(** ** Facts about the scans *)

Lemma fold_left_seq_invariant {A : Type} (f : A -> nat -> A)
    (I : nat -> A -> Prop) (n : nat) (a0 : A) :
  I 0%nat a0 ->
  (forall i a, (i < n)%nat -> I i a -> I (S i) (f a i)) ->
  I n (fold_left f (seq 0 n) a0).
Proof.
  intros H0 Hstep. induction n as [|n IH]; [exact H0|].
  rewrite seq_S, fold_left_app. simpl. apply Hstep; [lia|].
  apply IH. intros i a Hi. apply Hstep. lia.
Qed.

Section Scan.
Variables (ready : nat -> bool) (key : Process -> Z) (procs : list Process).

Lemma scan_step_inv i acc :
  scan_inv ready key procs i acc ->
  scan_inv ready key procs (S i) (scan_step ready key procs acc i).
Proof.
  destruct acc as [minK idx]. unfold scan_inv, scan_step, chosen_before.
  destruct (ready i) eqn:Hr;
    [destruct (Z.ltb_spec (key (procs !!! i)) minK) as [Hlt|Hge];
     [|destruct (Z.eqb_spec (key (procs !!! i)) minK) as [Heq|Hneq]]|];
    (destruct idx as [k|]; simpl;
     [try destruct (Z.ltb_spec (arr (procs !!! i)) (arr (procs !!! k)));
      simpl; intros (Hk & Hrk & -> & Hmax & Hmin)
     |intros (-> & Hmin)]);
    scan_cases i Hmin.
Qed.

Lemma scan_spec :
  scan_inv ready key procs (length procs) (scan ready key procs).
Proof.
  unfold scan. apply fold_left_seq_invariant.
  - split; [done|]. intros; lia.
  - intros i a _. apply scan_step_inv.
Qed.

Lemma select_Some k :
  select ready key procs = Some k ->
  (k < length procs)%nat /\ ready k = true /\
  key (procs !!! k) < INT_MAX /\
  forall j, (j < length procs)%nat -> ready j = true -> chosen_before key procs k j.
Proof.
  unfold select. intros Hsel. pose proof scan_spec as H.
  unfold scan_inv in H. rewrite Hsel in H.
  destruct H as (? & ? & Hk & ? & ?). rewrite <- Hk. auto.
Qed.

Lemma select_None j :
  select ready key procs = None ->
  (j < length procs)%nat -> ready j = true -> INT_MAX <= key (procs !!! j).
Proof.
  unfold select. intros Hsel. pose proof scan_spec as H.
  unfold scan_inv in H. rewrite Hsel in H. destruct H as [_ H]. apply H.
Qed.
End Scan.

(** ** Facts about lists used as arrays *)

Lemma filter_true_insert (l : list bool) (i : nat) :
  l !! i = Some false ->
  length (filter (fun b => b = true) (<[i := true]> l))
  = S (length (filter (fun b => b = true) l)).
Proof.
  revert i. induction l as [|b l IH]; intros [|i] Hi; try discriminate.
  - simpl in Hi. inversion Hi; subst. simpl.
    by rewrite filter_cons_False.
  - simpl in Hi. simpl. rewrite !(filter_cons _ b).
    destruct (decide (b = true)); simpl; by rewrite IH.
Qed.

Lemma filter_length_all {A : Type} (P : A -> Prop) `{!forall x, Decision (P x)}
    (l : list A) :
  (length l <= length (filter P l))%nat -> Forall P l.
Proof.
  intros Hlen. apply Forall_forall. intros x Hx.
  destruct (decide (P x)) as [|Hn]; [done|].
  pose proof (length_filter_lt P l x Hx Hn). lia.
Qed.

Lemma map_alter_static {B : Type} (g : Process -> B) (f : Process -> Process)
    (i : nat) (l : list Process) :
  (forall p, g (f p) = g p) -> map g (alter f i l) = map g l.
Proof.
  intros Hf. revert i.
  induction l as [|x l IH]; intros [|i]; simpl; f_equal; auto. apply IH.
Qed.

Lemma static_eq p q :
  static p = static q ->
  pid p = pid q /\ arr p = arr q /\ bt p = bt q /\ priority p = priority q.
Proof. unfold static. intros [= -> -> -> ->]. done. Qed.

Lemma static_lookup (l l' : list Process) (i : nat) :
  map static l = map static l' -> static (l !!! i) = static (l' !!! i).
Proof.
  revert l' i. induction l as [|x l IH]; intros [|y l'] i H; try discriminate.
  - done.
  - change (static x :: map static l = static y :: map static l') in H.
    apply (f_equal head) in H as Hhd. apply (f_equal tail) in H as Htl.
    change (Some (static x) = Some (static y)) in Hhd.
    change (map static l = map static l') in Htl.
    destruct i as [|i]; [|apply (IH l' i Htl)].
    change (static x = static y). congruence.
Qed.

Lemma static_length (l l' : list Process) :
  map static l = map static l' -> length l = length l'.
Proof. intros H. by rewrite <- (length_map static l), H, length_map. Qed.

(** What validity gives for each process. *)
Lemma latest_arrival_bound procs p :
  p ∈ procs -> arr p <= latest_arrival procs.
Proof.
  induction procs as [|x t IH]; [by intros ?%elem_of_nil|].
  intros [->|Hp]%elem_of_cons; simpl; [lia|]. specialize (IH Hp). lia.
Qed.

Lemma total_burst_bound procs p :
  Forall (fun x => 0 < bt x) procs -> p ∈ procs -> bt p <= total_burst procs.
Proof.
  induction 1 as [|x t Hx Ht IH]; [by intros ?%elem_of_nil|].
  assert (0 <= total_burst t).
  { clear IH. induction Ht as [|y u Hy _ IHu]; simpl; lia. }
  intros [->|Hp]%elem_of_cons; simpl; [lia|]. specialize (IH Hp). lia.
Qed.

Lemma valid_input_bounds procs : valid_input procs -> Forall bounded procs.
Proof.
  intros (Hne & Hall & _ & Hsum).
  assert (Hbt : Forall (fun x => 0 < bt x) procs).
  { eapply Forall_impl; [exact Hall|]. intros p Hp. apply Hp. }
  assert (Hla : 0 <= latest_arrival procs).
  { clear. induction procs; simpl; lia. }
  apply Forall_forall. intros p Hp.
  pose proof (latest_arrival_bound procs p Hp).
  pose proof (total_burst_bound procs p Hbt Hp).
  rewrite Forall_forall in Hall. destruct (Hall p Hp) as (? & ? & ? & _).
  unfold bounded. lia.
Qed.

Lemma bounded_static (l l' : list Process) (i : nat) :
  map static l = map static l' -> Forall bounded l' ->
  (i < length l)%nat -> bounded (l !!! i).
Proof.
  intros Hst Hb Hi.
  pose proof (static_lookup _ _ i Hst) as Hs.
  pose proof (static_length _ _ Hst) as Hl.
  apply (Forall_lookup_total_1 _ _ i) in Hb; [|lia].
  apply static_eq in Hs as (_ & Ha & Hbt & _). unfold bounded in *. lia.
Qed.

(** ** What holds of every process of a preemptive loop *)

Lemma run_ok_later time time' p : time <= time' -> run_ok time p -> run_ok time' p.
Proof.
  unfold run_ok. intros Hle (Hr & Hused & Hdone).
  split; [done|]. split; [|done]. intros Hmid. specialize (Hused Hmid). lia.
Qed.

(** Running [p] for [e] units from [time], with or without completion. *)
Lemma run_ok_run time e p :
  run_ok time p -> arr p <= time -> 0 < e <= rem_bt p ->
  rem_bt p - e <> 0 ->
  run_ok (time + e) (set_rem_bt (rem_bt p - e) p).
Proof.
  unfold run_ok. intros (Hr & Hused & _) Harr He Hne. simpl.
  repeat split; intros; lia.
Qed.

Lemma Forall_alter_change {A : Type} (P Q : A -> Prop) (f : A -> A)
    (l : list A) (i : nat) :
  Forall P l -> (forall x, P x -> Q x) ->
  (forall x, l !! i = Some x -> P x -> Q (f x)) ->
  Forall Q (alter f i l).
Proof.
  intros Hl HPQ. revert i.
  induction Hl as [|x l Hx Hl IH]; intros [|i] Hf; simpl; constructor; auto.
  - eapply Forall_impl; eauto.
  - apply IH. intros y Hy. apply Hf. exact Hy.
Qed.

Section CountFinished.
Context {A : Type} (P : A -> Prop) `{!forall x, Decision (P x)}.

Lemma filter_alter_new (f : A -> A) (l : list A) (i : nat) (x : A) :
  l !! i = Some x -> ~ P x -> P (f x) ->
  length (filter P (alter f i l)) = S (length (filter P l)).
Proof.
  revert i. induction l as [|y l IH]; intros [|i] Hi Hn Hp; try discriminate.
  - injection Hi as ->. change (alter f 0%nat (x :: l)) with (f x :: l).
    rewrite (filter_cons_True P (f x)), filter_cons_False; done.
  - change (alter f (S i) (y :: l)) with (y :: alter f i l).
    rewrite !(filter_cons P y).
    destruct (decide (P y)); simpl; rewrite (IH i); auto.
Qed.

Lemma filter_alter_same (f : A -> A) (l : list A) (i : nat) :
  (forall x, l !! i = Some x -> (P (f x) <-> P x)) ->
  length (filter P (alter f i l)) = length (filter P l).
Proof.
  revert i. induction l as [|y l IH]; intros [|i] Hf; try done.
  - change (alter f 0%nat (y :: l)) with (f y :: l).
    rewrite (filter_cons P (f y)), (filter_cons P y).
    specialize (Hf y eq_refl).
    destruct (decide (P (f y))), (decide (P y)); simpl; tauto.
  - change (alter f (S i) (y :: l)) with (y :: alter f i l).
    rewrite !(filter_cons P y).
    destruct (decide (P y)); simpl; rewrite (IH i); auto.
Qed.
End CountFinished.

(** After [rem_bt = bt] for every process nothing has run. *)
Lemma Forall_reset time l :
  Forall bounded l ->
  Forall (run_ok time) (map (fun p => set_rem_bt (bt p) p) l).
Proof.
  induction 1 as [|p l Hp _ IH]; simpl; constructor; [|done].
  unfold bounded in Hp. unfold run_ok, metrics_ok; simpl. repeat split; lia.
Qed.

Lemma filter_reset l :
  Forall bounded l ->
  filter (fun p => rem_bt p = 0) (map (fun p => set_rem_bt (bt p) p) l) = [].
Proof.
  induction 1 as [|p l Hp _ IH]; simpl; [done|].
  rewrite filter_cons_False; [done|]. unfold bounded in Hp. simpl. lia.
Qed.

(** ** Round Robin: the ready queue *)

Lemma enqueue_arrivals_sched procs time running left :
  (forall i, (i < length procs)%nat -> 0 < bt (procs !!! i)) ->
  forall i queue inQueue queue' inQueue' next',
    (left + i = length procs)%nat ->
    rr_sched procs time running queue inQueue i ->
    enqueue_arrivals procs time left i (queue, inQueue, i) = (queue', inQueue', next') ->
    rr_sched procs time running queue' inQueue' next'.
Proof.
  intros Hbt. induction left as [|left IH];
    intros i queue inQueue queue' inQueue' next' Hlen Hs Henq.
  - simpl in Henq. by injection Henq as <- <- <-.
  - simpl in Henq.
    destruct Hs as (Hl & Hn & Hnd & Hq & Hw & Hf & Hr).
    destruct (Hf i ltac:(lia)) as [Hfi Hrem].
    destruct (Z.leb_spec (arr (procs !!! i)) time) as [Harr|Harr].
    + rewrite Hfi in Henq. simpl in Henq.
      apply (IH (S i)) in Henq; [done|lia|].
      split; [by rewrite length_insert|]. split; [lia|].
      split.
      { apply NoDup_app. split; [done|]. split; [|apply NoDup_singleton].
        intros j Hj ->%list_elem_of_singleton. destruct (Hq _ Hj). lia. }
      split.
      { intros j [Hj| ->%list_elem_of_singleton]%elem_of_app.
        - destruct (Hq _ Hj) as (? & ? & ? & ?). repeat split; auto; lia.
        - repeat split; [lia| |done|].
          + intros Hrun. specialize (Hr _ Hrun). lia.
          + specialize (Hbt i ltac:(lia)). lia. }
      split.
      { intros j Hj Hpos. destruct (decide (j = i)) as [->|Hne].
        - left. apply elem_of_app. right. by apply list_elem_of_singleton.
        - destruct (Hw j ltac:(lia) Hpos) as [?|?]; [|by right].
          left. apply elem_of_app. by left. }
      split.
      { intros j Hj. rewrite list_lookup_total_insert_ne by lia.
        apply Hf. lia. }
      intros j Hrun. specialize (Hr _ Hrun). lia.
    + simpl in Henq.
      rewrite (proj2 (Z.gtb_gt _ _)) in Henq by lia.
      by injection Henq as <- <- <-.
Qed.

Lemma enqueue_arrivals_from_sched procs time running queue inQueue next
    queue' inQueue' next' :
  (forall i, (i < length procs)%nat -> 0 < bt (procs !!! i)) ->
  rr_sched procs time running queue inQueue next ->
  enqueue_arrivals_from procs time queue inQueue next = (queue', inQueue', next') ->
  rr_sched procs time running queue' inQueue' next'.
Proof.
  intros Hbt Hs. unfold enqueue_arrivals_from.
  apply (enqueue_arrivals_sched procs time running); [done| |done].
  destruct Hs as (_ & Hn & _). lia.
Qed.

(** The head of the queue starts running; only its record changes. *)
Lemma sched_dispatch procs time time' cur rest inQueue next f :
  rr_sched procs time None (cur :: rest) inQueue next ->
  time <= time' ->
  rr_sched (alter f cur procs) time' (Some cur) rest
           (<[cur := false]> inQueue) next.
Proof.
  intros (Hl & Hn & Hnd & Hq & Hw & Hf & Hr) Hle.
  apply NoDup_cons in Hnd as [Hcur Hnd].
  destruct (Hq cur ltac:(left)) as (Hcn & _).
  split; [by rewrite length_insert, length_alter|].
  split; [by rewrite length_alter|]. split; [done|].
  split.
  { intros j Hj. assert (cur <> j) by (intros ->; done).
    rewrite list_lookup_total_alter_ne by done.
    destruct (Hq j ltac:(by right)) as (? & ? & ? & ?).
    repeat split; auto; [congruence|lia]. }
  split.
  { intros j Hj. destruct (decide (cur = j)) as [->|Hne]; [by right|].
    rewrite list_lookup_total_alter_ne by done. intros Hpos.
    destruct (Hw j Hj Hpos) as [[->|?]%elem_of_cons|?]; [done|by left|done]. }
  split.
  { intros j. rewrite length_alter. intros Hj.
    rewrite list_lookup_total_insert_ne, list_lookup_total_alter_ne by lia.
    by apply Hf. }
  intros j [= <-]. done.
Qed.

(** The running process has finished. *)
Lemma sched_complete procs time cur queue inQueue next f :
  rr_sched procs time (Some cur) queue inQueue next ->
  rem_bt (f (procs !!! cur)) = 0 ->
  rr_sched (alter f cur procs) time None queue inQueue next.
Proof.
  intros (Hl & Hn & Hnd & Hq & Hw & Hf & Hr) Hzero.
  pose proof (Hr cur eq_refl) as Hcn.
  split; [by rewrite length_alter|].
  split; [by rewrite length_alter|]. split; [done|].
  split.
  { intros j Hj. destruct (Hq j Hj) as (? & Hne & ? & ?).
    assert (cur <> j) by congruence.
    rewrite list_lookup_total_alter_ne by done. repeat split; auto. }
  split.
  { intros j Hj. destruct (decide (cur = j)) as [->|Hne].
    - rewrite list_lookup_total_alter_eq by lia. lia.
    - rewrite list_lookup_total_alter_ne by done. intros Hpos.
      destruct (Hw j Hj Hpos) as [?|?]; [by left|congruence]. }
  split; [|discriminate].
  intros j. rewrite length_alter. intros Hj.
  rewrite list_lookup_total_alter_ne by lia. by apply Hf.
Qed.

(** The running process goes back to the tail of the queue. *)
Lemma sched_requeue procs time cur queue inQueue next :
  rr_sched procs time (Some cur) queue inQueue next ->
  arr (procs !!! cur) <= time -> 0 < rem_bt (procs !!! cur) ->
  rr_sched procs time None (queue ++ [cur]) (<[cur := true]> inQueue) next.
Proof.
  intros (Hl & Hn & Hnd & Hq & Hw & Hf & Hr) Harr Hpos.
  pose proof (Hr cur eq_refl) as Hcn.
  split; [by rewrite length_insert|]. split; [done|].
  split.
  { apply NoDup_app. split; [done|]. split; [|apply NoDup_singleton].
    intros j Hj ->%list_elem_of_singleton. by destruct (Hq _ Hj) as (_ & ? & _). }
  split.
  { intros j [Hj| ->%list_elem_of_singleton]%elem_of_app.
    - destruct (Hq j Hj) as (? & ? & ? & ?). repeat split; auto.
    - repeat split; auto. }
  split.
  { intros j Hj Hp. rewrite elem_of_app, list_elem_of_singleton.
    destruct (Hw j Hj Hp) as [?|[= ->]]; auto. }
  split; [|discriminate].
  intros j Hj. rewrite list_lookup_total_insert_ne by lia. by apply Hf.
Qed.

Lemma sched_idle procs time time' inQueue next :
  rr_sched procs time None [] inQueue next ->
  rr_sched procs time' None [] inQueue next.
Proof.
  intros (Hl & Hn & Hnd & Hq & Hw & Hf & Hr).
  split; [done|]. split; [done|]. split; [done|].
  split; [by intros ? ?%elem_of_nil|]. split; [exact Hw|]. split; [exact Hf|exact Hr].
Qed.

Lemma rr_next_arrival_None procs left :
  forall i j, rr_next_arrival procs left i = None ->
              (i <= j < i + left)%nat -> rem_bt (procs !!! j) <= 0.
Proof.
  induction left as [|left IH]; intros i j Hn Hj; [lia|].
  simpl in Hn.
  destruct (Z.gtb_spec (rem_bt (procs !!! i)) 0) as [?|Hle]; [discriminate|].
  destruct (decide (j = i)) as [->|]; [done|].
  apply (IH (S i)); [done|lia].
Qed.

Lemma lookup_total_map_reset (l : list Process) (i : nat) :
  (i < length l)%nat ->
  map (fun p => set_rem_bt (bt p) p) l !!! i = set_rem_bt (bt (l !!! i)) (l !!! i).
Proof.
  revert i. induction l as [|x l IH]; intros [|i] Hi; simpl in Hi; try lia.
  - done.
  - apply (IH i). lia.
Qed.

(** ** Segments and labels *)

Lemma block_id_not_IDLE p : block_id p <> IDLE.
Proof. unfold block_id, IDLE. simpl. discriminate. Qed.

Lemma segments_snoc tl bl t t' b :
  length tl = S (length bl) -> last tl = Some t ->
  segments (tl ++ [t']) (bl ++ [b]) = segments tl bl ++ [(b, t, t')].
Proof.
  revert tl. induction bl as [|b0 bl IH]; intros tl Hlen Hlast.
  - destruct tl as [|t0 [|]]; simpl in *; try lia. by injection Hlast as ->.
  - destruct tl as [|t0 [|t1 tl]]; simpl in Hlen; try lia.
    change (segments ((t0 :: t1 :: tl) ++ [t']) ((b0 :: bl) ++ [b]))
      with ((b0, t0, t1) :: segments ((t1 :: tl) ++ [t']) (bl ++ [b])).
    rewrite (IH (t1 :: tl)); [done|simpl in *; lia|done].
Qed.

(** ** Sorting with ties *)

Lemma StronglySorted_filter {A : Type} (R : A -> A -> Prop) (P : A -> Prop)
    `{!forall x, Decision (P x)} (l : list A) :
  StronglySorted R l -> StronglySorted R (filter P l).
Proof.
  induction 1 as [|x l Hs IH Hall]; [constructor|].
  rewrite filter_cons. destruct (decide (P x)); [|done].
  constructor; [done|]. apply Forall_forall.
  intros y [_ Hy]%list_elem_of_filter. rewrite Forall_forall in Hall. auto.
Qed.

Lemma sorted_ties_by_pid (l : list Process) :
  StronglySorted (fun a b => arr a <= arr b) l ->
  (forall k, StronglySorted (fun a b => pid a < pid b)
                            (filter (fun p => arr p = k) l)) ->
  StronglySorted arrival_then_pid l.
Proof.
  induction 1 as [|a t Hs IH Hall]; intros Hties; [constructor|].
  constructor.
  - apply IH. intros k. specialize (Hties k). rewrite filter_cons in Hties.
    destruct (decide (arr a = k)); [|done].
    by apply StronglySorted_inv in Hties as [Hties _].
  - specialize (Hties (arr a)). rewrite filter_cons_True in Hties by done.
    apply StronglySorted_inv in Hties as [_ Hpid].
    rewrite Forall_forall in Hall, Hpid. apply Forall_forall. intros b Hb.
    specialize (Hall b Hb). unfold arrival_then_pid.
    destruct (decide (arr a = arr b)) as [Heq|Hne]; [|lia].
    right. split; [done|]. apply Hpid. apply list_elem_of_filter. auto.
Qed.

Lemma stable_sort_by_arrival (S : Sorter) (procs : list Process) :
  stable S ->
  StronglySorted (fun a b => pid a < pid b) procs ->
  StronglySorted arrival_then_pid (sort_by S arr procs).
Proof.
  intros Hstable Hpid. apply sorted_ties_by_pid; [apply sort_by_sorted|].
  intros k. rewrite Hstable. by apply StronglySorted_filter.
Qed.

Lemma outcome_map_Done {A B : Type} (f : A -> B) (o : outcome A) (b : B) :
  outcome_map f o = Done b -> exists a, o = Done a /\ b = f a.
Proof. destruct o; simpl; intros [= <-]; eauto. Qed.

Lemma Permutation_static_pid (l l' : list Process) :
  Permutation (map static l) (map static l') ->
  Permutation (map pid l) (map pid l').
Proof.
  intros H.
  assert (Hp : forall l0, map pid l0 = map (fun s => s.1.1.1) (map static l0)).
  { intros l0. rewrite map_map. reflexivity. }
  rewrite (Hp l), (Hp l'). by apply Permutation_map.
Qed.

Lemma Forall_bounded_sorted (S : Sorter) key procs :
  valid_input procs -> Forall bounded (sort_by S key procs).
Proof.
  intros Hv. apply valid_input_bounds in Hv.
  rewrite Forall_forall in Hv. apply Forall_forall. intros p Hp.
  apply Hv. by rewrite <- (sort_by_perm S key procs).
Qed.

Lemma sorted_strict (key : Process -> Z) (l : list Process) :
  StronglySorted (fun a b => key a <= key b) l -> NoDup (map key l) ->
  StronglySorted (fun a b => key a < key b) l.
Proof.
  induction 1 as [|a t Hs IH Hall]; intros Hnd; [constructor|].
  simpl in Hnd. apply NoDup_cons in Hnd as [Ha Hnd].
  constructor; [by apply IH|].
  rewrite Forall_forall in Hall. apply Forall_forall. intros b Hb.
  specialize (Hall b Hb).
  assert (key a <> key b); [|lia].
  intros Heq. apply Ha. rewrite Heq.
  apply list_elem_of_In, in_map, list_elem_of_In, Hb.
Qed.

(** ** Termination *)

Section WhileTerminates.
Context {St : Type} (cond : St -> bool) (body : St -> control St).

(** A loop whose iterations keep an invariant and decrease a measure
    ends within that many iterations. *)
Lemma while_terminates (I : St -> Prop) (measure : St -> nat) :
  (forall st st', I st -> cond st = true -> body st = Continue st' ->
                  I st' /\ (measure st' < measure st)%nat) ->
  forall fuel st, I st -> (measure st < fuel)%nat ->
                  exists st', while cond body fuel st = Done st'.
Proof.
  intros Hstep. induction fuel as [|fuel IH]; intros st HI Hm; [lia|].
  simpl. destruct (cond st) eqn:Hc; [|eauto].
  destruct (body st) as [st1|st1] eqn:Hb; [|eauto].
  destruct (Hstep st st1 HI Hc Hb) as [HI1 Hlt]. apply IH; [done|lia].
Qed.
End WhileTerminates.

Lemma remaining_alter (f : Process -> Process) (l : list Process) (i : nat) x :
  l !! i = Some x ->
  remaining (alter f i l) = remaining l - rem_bt x + rem_bt (f x).
Proof.
  revert i. induction l as [|y l IH]; intros [|i] Hi; try discriminate.
  - injection Hi as ->. change (alter f 0%nat (x :: l)) with (f x :: l).
    simpl. lia.
  - change (alter f (S i) (y :: l)) with (y :: alter f i l).
    simpl. rewrite (IH i Hi). lia.
Qed.

Lemma remaining_nonneg time (l : list Process) :
  Forall (run_ok time) l -> 0 <= remaining l.
Proof.
  induction 1 as [|p l [Hp _] _ IH]; simpl; lia.
Qed.

Lemma enqueue_arrivals_prefix procs time left :
  forall i queue inQueue next,
  exists more,
    (enqueue_arrivals procs time left i (queue, inQueue, next)).1.1
    = queue ++ more.
Proof.
  induction left as [|left IH]; intros i queue inQueue next; simpl.
  - exists []. by rewrite app_nil_r.
  - destruct (_ && _).
    + destruct (IH (S i) (queue ++ [i]) (<[i := true]> inQueue) (S i))
        as [more Hmore].
      exists ([i] ++ more). by rewrite Hmore, app_assoc.
    + destruct (_ >? _); [|apply IH]. exists []. by rewrite app_nil_r.
Qed.

Lemma rr_next_arrival_Some procs left i a :
  rr_next_arrival procs left i = Some a ->
  (0 < left)%nat /\ (0 < rem_bt (procs !!! i) -> a = arr (procs !!! i)).
Proof.
  destruct left as [|left]; [discriminate|]. simpl.
  destruct (Z.gtb_spec (rem_bt (procs !!! i)) 0) as [Hpos|Hnp].
  - intros [= <-]. split; [lia|done].
  - intros _. split; lia.
Qed.

(** ** The latest arrival and the total burst *)

Lemma latest_arrival_Permutation (l l' : list Process) :
  Permutation l l' -> latest_arrival l = latest_arrival l'.
Proof.
  induction 1 as [|x l l' _ IH|x y l|l l' l'' _ IH1 _ IH2]; simpl; lia.
Qed.

Lemma total_burst_Permutation (l l' : list Process) :
  Permutation l l' -> total_burst l = total_burst l'.
Proof.
  induction 1 as [|x l l' _ IH|x y l|l l' l'' _ IH1 _ IH2]; simpl; lia.
Qed.

Lemma latest_arrival_static (l l' : list Process) :
  map static l = map static l' -> latest_arrival l = latest_arrival l'.
Proof.
  revert l'. induction l as [|x l IH]; intros [|y l'] H; try discriminate;
    [done|].
  change (static x :: map static l = static y :: map static l') in H.
  apply (f_equal head) in H as Hhd. apply (f_equal tail) in H as Htl.
  change (Some (static x) = Some (static y)) in Hhd.
  change (map static l = map static l') in Htl.
  apply (inj Some) in Hhd. apply static_eq in Hhd as (_ & Ha & _).
  simpl. by rewrite Ha, (IH l' Htl).
Qed.

Lemma total_burst_static (l l' : list Process) :
  map static l = map static l' -> total_burst l = total_burst l'.
Proof.
  revert l'. induction l as [|x l IH]; intros [|y l'] H; try discriminate;
    [done|].
  change (static x :: map static l = static y :: map static l') in H.
  apply (f_equal head) in H as Hhd. apply (f_equal tail) in H as Htl.
  change (Some (static x) = Some (static y)) in Hhd.
  change (map static l = map static l') in Htl.
  apply (inj Some) in Hhd. apply static_eq in Hhd as (_ & _ & Hb & _).
  simpl. by rewrite Hb, (IH l' Htl).
Qed.

Lemma latest_arrival_nonneg (l : list Process) : 0 <= latest_arrival l.
Proof. induction l; simpl; lia. Qed.

Lemma latest_arrival_lookup (l : list Process) (i : nat) :
  (i < length l)%nat -> arr (l !!! i) <= latest_arrival l.
Proof.
  intros Hi. apply latest_arrival_bound, list_elem_of_lookup_total_2, Hi.
Qed.

Lemma total_burst_dispatched_insert (f : Process -> Process)
    (completed : list bool) (procs : list Process) (idx : nat) (p : Process) :
  (forall x, bt (f x) = bt x) ->
  completed !! idx = Some false -> procs !! idx = Some p ->
  total_burst (dispatched (<[idx := true]> completed) (alter f idx procs))
  = bt p + total_burst (dispatched completed procs).
Proof.
  intros Hf. revert procs idx.
  induction completed as [|c cs IH]; intros [|q ps] [|idx] Hc Hp;
    try discriminate.
  - injection Hc as ->. injection Hp as ->.
    change (dispatched (<[0%nat := true]> (false :: cs)) (alter f 0%nat (p :: ps)))
      with (f p :: dispatched cs ps).
    change (dispatched (false :: cs) (p :: ps)) with (dispatched cs ps).
    simpl. by rewrite Hf.
  - change (dispatched (<[S idx := true]> (c :: cs)) (alter f (S idx) (q :: ps)))
      with (if c then q :: dispatched (<[idx := true]> cs) (alter f idx ps)
            else dispatched (<[idx := true]> cs) (alter f idx ps)).
    change (dispatched (c :: cs) (q :: ps))
      with (if c then q :: dispatched cs ps else dispatched cs ps).
    specialize (IH ps idx Hc Hp). destruct c; simpl; lia.
Qed.

Lemma total_burst_dispatched (completed : list bool) (procs : list Process) :
  Forall (fun p => 0 <= bt p) procs ->
  0 <= total_burst (dispatched completed procs) <= total_burst procs.
Proof.
  intros Hb. revert completed.
  induction Hb as [|p ps Hp _ IH]; intros [|c cs]; simpl; try lia.
  - assert (0 <= total_burst ps) by (specialize (IH []); destruct ps; simpl in *; lia).
    lia.
  - specialize (IH cs). destruct c; simpl; lia.
Qed.

Lemma remaining_le_total time (l : list Process) :
  Forall (run_ok time) l -> remaining l <= total_burst l.
Proof. induction 1 as [|p l [Hp _] _ IH]; simpl; lia. Qed.

Lemma rr_next_arrival_arr procs left :
  forall i a, rr_next_arrival procs left i = Some a ->
              exists j, (i <= j < i + left)%nat /\ a = arr (procs !!! j).
Proof.
  induction left as [|left IH]; intros i a Hn; [discriminate|].
  simpl in Hn. destruct (rem_bt (procs !!! i) >? 0).
  - injection Hn as <-. exists i. split; [lia|done].
  - destruct (IH (S i) a Hn) as (j & Hj & Ha). exists j. split; [lia|done].
Qed.

Lemma remaining_reset (l : list Process) :
  remaining (map (fun p => set_rem_bt (bt p) p) l) = total_burst l.
Proof.
  induction l as [|p l IH]; [done|].
  change (bt p + remaining (map (fun p => set_rem_bt (bt p) p) l)
          = bt p + total_burst l).
  by rewrite IH.
Qed.

Lemma work_clock_init procs0 :
  Forall bounded procs0 ->
  work_clock procs0 (map (fun p => set_rem_bt (bt p) p) procs0) 0.
Proof.
  intros Hb. unfold work_clock. rewrite remaining_reset.
  pose proof (latest_arrival_nonneg procs0). split; [lia|].
  generalize (latest_arrival procs0 + (total_burst procs0 - total_burst procs0)).
  intros bound. clear H.
  induction Hb as [|p l Hp _ IH]; simpl; constructor; [|done].
  unfold run_clock, bounded in *. simpl. lia.
Qed.

Lemma work_clock_idle procs0 procs time time' run_time :
  Forall (run_ok run_time) procs ->
  map static procs = map static procs0 ->
  time' <= latest_arrival procs0 ->
  work_clock procs0 procs time -> work_clock procs0 procs time'.
Proof.
  intros Hrun Hst Hle [_ Hct]. split; [|done].
  pose proof (remaining_le_total _ _ Hrun) as Hr.
  rewrite (total_burst_static _ _ Hst) in Hr. lia.
Qed.

Lemma work_clock_run procs0 procs time idx e :
  (idx < length procs)%nat -> 0 < e ->
  rem_bt (procs !!! idx) - e <> 0 ->
  work_clock procs0 procs time ->
  work_clock procs0 (alter (fun p => set_rem_bt (rem_bt p - e) p) idx procs)
             (time + e).
Proof.
  intros Hidx He Hne [Htime Hct].
  pose proof (list_lookup_lookup_total_lt _ _ Hidx) as Hlook.
  unfold work_clock. rewrite (remaining_alter _ _ _ _ Hlook). simpl.
  split; [lia|].
  eapply Forall_alter_change; [exact Hct| |].
  - unfold run_clock. intros x Hx Hz. specialize (Hx Hz). lia.
  - intros x Hx _. rewrite Hlook in Hx. injection Hx as <-.
    unfold run_clock. simpl. lia.
Qed.

Lemma work_clock_exit procs0 procs time run_time :
  Forall (run_ok run_time) procs ->
  Forall (fun p => rem_bt p = 0) procs ->
  work_clock procs0 procs time ->
  Forall (fun p => ct p <= horizon procs0) procs.
Proof.
  intros Hrun Hzero [_ Hct].
  pose proof (remaining_nonneg _ _ Hrun) as Hr.
  rewrite Forall_forall in Hzero, Hct. apply Forall_forall. intros p Hp.
  specialize (Hct p Hp (Hzero p Hp)). unfold horizon. lia.
Qed.

Lemma horizon_sorted (S : Sorter) (key : Process -> Z) procs :
  horizon (sort_by S key procs) = horizon procs.
Proof.
  unfold horizon.
  by rewrite (latest_arrival_Permutation _ _ (sort_by_perm S key procs)),
             (total_burst_Permutation _ _ (sort_by_perm S key procs)).
Qed.

Lemma Forall_sorted (S : Sorter) (key : Process -> Z) (P : Process -> Prop) l :
  Forall P l -> Forall P (sort_by S key l).
Proof.
  rewrite !Forall_forall. intros H p Hp. apply H.
  by rewrite <- (sort_by_perm S key l).
Qed.

(** ** Total time per label *)

Lemma label_sum_cons label (q : Process) (l : list Process) :
  label_sum label (map (fun q => (block_id q, bt q)) (q :: l))
  = if String.eqb (block_id q) label
    then bt q + label_sum label (map (fun q => (block_id q, bt q)) l)
    else label_sum label (map (fun q => (block_id q, bt q)) l).
Proof. reflexivity. Qed.

Lemma labelled_time_busy label segs :
  label <> IDLE ->
  labelled_time label segs = label_sum label (map label_length (busy segs)).
Proof.
  intros Hne. unfold busy.
  induction segs as [|[[l t0] t1] segs IH]; [done|].
  rewrite filter_cons.
  change (labelled_time label ((l, t0, t1) :: segs))
    with (if String.eqb l label then (t1 - t0) + labelled_time label segs
          else labelled_time label segs).
  destruct (decide ((l, t0, t1).1.1 <> IDLE)) as [Hl|Hl].
  - change (label_sum label (map label_length ((l, t0, t1) :: _)))
      with (if String.eqb l label
            then (t1 - t0) + label_sum label (map label_length
                    (filter (fun s : segment => s.1.1 <> IDLE) segs))
            else label_sum label (map label_length
                    (filter (fun s : segment => s.1.1 <> IDLE) segs))).
    by rewrite IH.
  - apply dec_stable in Hl. simpl in Hl. subst l.
    destruct (String.eqb_spec IDLE label) as [Heq|_]; [by symmetry in Heq|done].
Qed.

Lemma block_id_inj p q : block_id p = block_id q -> pid p = pid q.
Proof.
  unfold block_id, to_string. simpl. intros [= H]. by apply (inj pretty).
Qed.

Lemma label_sum_absent p (l : list Process) :
  pid p ∉ map pid l ->
  label_sum (block_id p) (map (fun q => (block_id q, bt q)) l) = 0.
Proof.
  induction l as [|q l IH]; [done|]. rewrite label_sum_cons.
  change (map pid (q :: l)) with (pid q :: map pid l).
  intros [Hq Hl]%not_elem_of_cons.
  destruct (String.eqb_spec (block_id q) (block_id p)) as [Heq|_];
    [|by apply IH].
  apply block_id_inj in Heq. congruence.
Qed.

Lemma label_sum_present p (l : list Process) :
  NoDup (map pid l) -> p ∈ l ->
  label_sum (block_id p) (map (fun q => (block_id q, bt q)) l) = bt p.
Proof.
  induction l as [|q l IH]; [by intros _ ?%elem_of_nil|].
  rewrite label_sum_cons. change (map pid (q :: l)) with (pid q :: map pid l).
  intros [Hq Hnd]%NoDup_cons [->|Hp]%elem_of_cons.
  - rewrite String.eqb_refl, label_sum_absent by done. lia.
  - destruct (String.eqb_spec (block_id q) (block_id p)) as [Heq|_];
      [|by apply IH].
    apply block_id_inj in Heq. exfalso. apply Hq. rewrite Heq.
    apply list_elem_of_In, in_map, list_elem_of_In, Hp.
Qed.

Lemma label_sum_Permutation label (l l' : list (string * Z)) :
  Permutation l l' -> label_sum label l = label_sum label l'.
Proof.
  induction 1 as [|x l l' _ IH|x y l|l l' l'' _ IH1 _ IH2]; simpl.
  - done.
  - by rewrite IH.
  - destruct (String.eqb x.1 label), (String.eqb y.1 label); lia.
  - congruence.
Qed.

Lemma label_burst_static (l l' : list Process) :
  map static l = map static l' -> map label_burst l = map label_burst l'.
Proof.
  intros H.
  assert (Hg : forall l0,
             map label_burst l0
             = map (fun s : Z * Z * Z * Z =>
                      (String.append "P" (to_string s.1.1.1), s.1.2))
                   (map static l0)).
  { intros l0. rewrite map_map. reflexivity. }
  by rewrite (Hg l), (Hg l'), H.
Qed.

Lemma dispatched_insert (f : Process -> Process) (completed : list bool)
    (procs : list Process) (idx : nat) (p : Process) :
  (forall x, label_burst (f x) = label_burst x) ->
  completed !! idx = Some false -> procs !! idx = Some p ->
  Permutation
    (map label_burst (dispatched (<[idx := true]> completed) (alter f idx procs)))
    (label_burst p :: map label_burst (dispatched completed procs)).
Proof.
  intros Hf. revert procs idx.
  induction completed as [|c cs IH]; intros [|q ps] [|idx] Hc Hp;
    try discriminate.
  - injection Hc as ->. injection Hp as ->.
    change (dispatched (<[0%nat := true]> (false :: cs)) (alter f 0%nat (p :: ps)))
      with (f p :: dispatched cs ps).
    change (dispatched (false :: cs) (p :: ps)) with (dispatched cs ps).
    simpl. by rewrite Hf.
  - change (dispatched (<[S idx := true]> (c :: cs)) (alter f (S idx) (q :: ps)))
      with (if c then q :: dispatched (<[idx := true]> cs) (alter f idx ps)
            else dispatched (<[idx := true]> cs) (alter f idx ps)).
    change (dispatched (c :: cs) (q :: ps))
      with (if c then q :: dispatched cs ps else dispatched cs ps).
    specialize (IH ps idx Hc Hp). destruct c; simpl; [|done].
    rewrite IH. apply perm_swap.
Qed.

Lemma dispatched_all (completed : list bool) (procs : list Process) :
  Forall (fun b => b = true) completed -> length completed = length procs ->
  dispatched completed procs = procs.
Proof.
  intros Hall. revert procs.
  induction Hall as [|c cs -> _ IH]; intros [|p ps] Hlen; try discriminate;
    [done|].
  simpl. f_equal. apply IH. simpl in Hlen. lia.
Qed.

Lemma StronglySorted_lookup_total {A : Type} `{!Inhabited A}
    (R : A -> A -> Prop) (l : list A) :
  StronglySorted R l ->
  forall i j, (i < j < length l)%nat -> R (l !!! i) (l !!! j).
Proof.
  induction 1 as [|a t Hs IH Hall]; intros i j Hij; simpl in Hij; [lia|].
  destruct j as [|j]; [lia|]. destruct i as [|i].
  - apply (Forall_lookup_total_1 _ t j Hall). lia.
  - apply (IH i j). lia.
Qed.

Lemma valid_swapped_pids : valid_input swapped_pids.
Proof. unfold swapped_pids. valid_concrete. Qed.

Lemma valid_tied_arrivals : valid_input tied_arrivals.
Proof. unfold tied_arrivals. valid_concrete. Qed.

Lemma pid_ascending_tied_arrivals : pid_ascending tied_arrivals.
Proof. apply (increasing_sorted pid). reflexivity. Qed.

(** ** The idle scans *)

Lemma np_next_arrival_least st j :
  (j < length (n_procs st))%nat -> n_completed st !!! j = false ->
  np_next_arrival st <= arr (n_procs st !!! j).
Proof.
  unfold np_next_arrival. revert j.
  apply (fold_left_seq_invariant _
           (fun m acc =>
              forall j, (j < m)%nat -> n_completed st !!! j = false ->
                        acc <= arr (n_procs st !!! j))).
  - intros; lia.
  - intros k a _ Hmin j Hj Hcj.
    destruct (decide (j = k)) as [->|Hne].
    + rewrite Hcj. simpl. lia.
    + specialize (Hmin j ltac:(lia) Hcj).
      destruct (n_completed st !!! k); simpl; lia.
Qed.

Lemma filter_true_pending (l : list bool) :
  (length (filter (fun b => b = true) l) < length l)%nat ->
  exists j, l !! j = Some false.
Proof.
  induction l as [|b l IH]; simpl; [lia|]. destruct b.
  - rewrite filter_cons_True by done. simpl. intros H.
    destruct IH as [j Hj]; [lia|]. by exists (S j).
  - intros _. by exists 0%nat.
Qed.

Lemma np_cond_pending procs st :
  np_inv procs st -> np_cond (Z.of_nat (length procs)) st = true ->
  exists j, (j < length procs)%nat /\ n_completed st !!! j = false.
Proof.
  intros Hinv Hc.
  pose proof (static_length _ _ (np_static _ _ Hinv)) as Hl.
  unfold np_cond in Hc. apply Z.ltb_lt in Hc.
  rewrite (np_count _ _ Hinv) in Hc.
  destruct (filter_true_pending (n_completed st)) as [j Hj].
  { rewrite (np_len _ _ Hinv). lia. }
  pose proof (lookup_lt_Some _ _ _ Hj) as Hlt.
  exists j. split; [rewrite <- Hl, <- (np_len _ _ Hinv); lia|].
  by rewrite (list_lookup_total_correct _ _ _ Hj).
Qed.

(** ** The idle-time loop *)

Lemma fold_left_cons_eq {A B : Type} (f : A -> B -> A) (x : B) (l : list B)
    (a : A) :
  fold_left f (x :: l) a = fold_left f l (f a x).
Proof. reflexivity. Qed.

Lemma idle_step_shift (b : string) (bs : list string) (t : Z) (ts : list Z)
    (l : list nat) (a : Z) :
  fold_left
    (fun idle i =>
       if String.eqb ((b :: bs) !!! i) IDLE && (S i <? length (t :: ts))%nat
       then idle + ((t :: ts) !!! S i - (t :: ts) !!! i) else idle)
    (map S l) a
  = fold_left
      (fun idle i =>
         if String.eqb (bs !!! i) IDLE && (S i <? length ts)%nat
         then idle + (ts !!! S i - ts !!! i) else idle)
      l a.
Proof.
  revert a. induction l as [|i l IH]; intros a; [done|].
  cbn [map fold_left]. rewrite IH. reflexivity.
Qed.

Lemma idle_fold_acc (bs : list string) (ts : list Z) (l : list nat) (a : Z) :
  fold_left
    (fun idle i =>
       if String.eqb (bs !!! i) IDLE && (S i <? length ts)%nat
       then idle + (ts !!! S i - ts !!! i) else idle)
    l a
  = a + fold_left
          (fun idle i =>
             if String.eqb (bs !!! i) IDLE && (S i <? length ts)%nat
             then idle + (ts !!! S i - ts !!! i) else idle)
          l 0.
Proof.
  revert a. induction l as [|i l IH]; intros a; cbn [fold_left]; [lia|].
  destruct (String.eqb (bs !!! i) IDLE && (S i <? length ts)%nat).
  - rewrite (IH (a + (ts !!! S i - ts !!! i))),
            (IH (0 + (ts !!! S i - ts !!! i))). lia.
  - apply IH.
Qed.

Lemma length_sum_Permutation (l l' : list (string * Z)) :
  Permutation l l' -> length_sum l = length_sum l'.
Proof.
  induction 1 as [|x l l' _ IH|x y l|l l' l'' _ IH1 _ IH2]; simpl; lia.
Qed.

Lemma length_sum_bursts (l : list Process) :
  length_sum (map label_burst l) = total_burst l.
Proof. induction l as [|p l IH]; simpl; [done|]. by rewrite IH. Qed.

Lemma length_sum_split (segs : list segment) :
  length_sum (map label_length segs)
  = labelled_time IDLE segs + length_sum (map label_length (busy segs)).
Proof.
  unfold busy. induction segs as [|[[l t0] t1] segs IH]; [done|].
  rewrite filter_cons.
  change (labelled_time IDLE ((l, t0, t1) :: segs))
    with (if String.eqb l IDLE then (t1 - t0) + labelled_time IDLE segs
          else labelled_time IDLE segs).
  change (length_sum (map label_length ((l, t0, t1) :: segs)))
    with ((t1 - t0) + length_sum (map label_length segs)).
  destruct (decide ((l, t0, t1).1.1 <> IDLE)) as [Hl|Hl].
  - change (length_sum (map label_length ((l, t0, t1) :: _)))
      with ((t1 - t0) + length_sum (map label_length
               (filter (fun s : segment => s.1.1 <> IDLE) segs))).
    destruct (String.eqb_spec l IDLE) as [Heq|_]; [by destruct Hl|lia].
  - apply dec_stable in Hl. simpl in Hl. subst l.
    rewrite String.eqb_refl. lia.
Qed.

(** The segments of an aligned trace span the time from its first entry
    to its last. *)
Lemma segments_span (tl : list Z) (bl : list string) :
  length tl = S (length bl) ->
  length_sum (map label_length (segments tl bl)) = back 0 tl - tl !!! 0%nat.
Proof.
  revert tl. induction bl as [|b bl IH]; intros [|t0 [|t1 tl]] Hlen;
    simpl in Hlen; try lia.
  - unfold back. simpl. lia.
  - change (segments (t0 :: t1 :: tl) (b :: bl))
      with ((b, t0, t1) :: segments (t1 :: tl) bl).
    change (length_sum (map label_length ((b, t0, t1) :: segments (t1 :: tl) bl)))
      with ((t1 - t0) + length_sum (map label_length (segments (t1 :: tl) bl))).
    rewrite (IH (t1 :: tl)) by (simpl; lia).
    change (back 0 (t0 :: t1 :: tl)) with (back 0 (t1 :: tl)).
    change ((t0 :: t1 :: tl) !!! 0%nat) with t0.
    change ((t1 :: tl) !!! 0%nat) with t1. lia.
Qed.

(** ** The Gantt clean-up *)

Lemma fold_left_seq_invariant_from {A : Type} (f : A -> nat -> A)
    (I : nat -> A -> Prop) (k n : nat) (a0 : A) :
  I k a0 ->
  (forall i a, (k <= i < k + n)%nat -> I i a -> I (S i) (f a i)) ->
  I (k + n)%nat (fold_left f (seq k n) a0).
Proof.
  intros H0 Hstep. induction n as [|n IH].
  - by rewrite Nat.add_0_r.
  - rewrite seq_S, fold_left_app, Nat.add_succ_r. simpl. apply Hstep; [lia|].
    apply IH. intros i a Hi. apply Hstep. lia.
Qed.

Lemma back_snoc {A : Type} (d : A) (l : list A) (x : A) : back d (l ++ [x]) = x.
Proof. unfold back. by rewrite last_snoc. Qed.

Lemma no_repeat_snoc (l : list string) (x : string) :
  no_repeat l -> x <> back EmptyString l -> no_repeat (l ++ [x]).
Proof.
  induction l as [|a [|b l] IH]; [done| |].
  - intros _ Hx. simpl. split; [|done]. intros ->. by apply Hx.
  - intros [Hab Hrest] Hx.
    change (a <> b /\ no_repeat ((b :: l) ++ [x])). split; [done|].
    by apply IH.
Qed.

(** What the merging loop holds after the blocks below [m]. *)
Lemma merge_fold_spec (timeline : list Z) (b0 : string) (bs : list string) :
  let blocks := b0 :: bs in
  let acc := fold_left (merge_step timeline blocks)
                       (seq 1 (length blocks - 1))
                       ([timeline !!! 0%nat], [b0]) in
  length acc.1 = length acc.2 /\
  head acc.1 = Some (timeline !!! 0%nat) /\
  head acc.2 = Some b0 /\
  no_repeat acc.2 /\
  sublist acc.2 blocks /\
  (forall b, b ∈ blocks -> b ∈ acc.2).
Proof.
  intros blocks acc.
  assert (HI : (fun m (a : list Z * list string) =>
                  length a.1 = length a.2 /\
                  head a.1 = Some (timeline !!! 0%nat) /\
                  head a.2 = Some b0 /\
                  no_repeat a.2 /\
                  sublist a.2 (take m blocks) /\
                  (forall b, b ∈ take m blocks -> b ∈ a.2))
               (1 + (length blocks - 1))%nat acc).
  { unfold acc. apply fold_left_seq_invariant_from.
    - simpl. rewrite take_0. repeat split; done.
    - intros i [ft fb] Hi (Hlen & Hht & Hhb & Hnr & Hsub & Hall).
      assert (Hlt : (i < length blocks)%nat) by (simpl in *; lia).
      pose proof (list_lookup_lookup_total_lt _ _ Hlt) as Hlook.
      rewrite (take_S_r _ _ _ Hlook).
      unfold merge_step. cbn [fst snd] in *.
      destruct (String.eqb_spec (blocks !!! i) (back EmptyString fb))
        as [Heq|Hne]; cbn [negb fst snd].
      + repeat split; try done.
        * by apply sublist_inserts_r.
        * intros b [Hb|Hb]%elem_of_app; [by apply Hall|].
          apply list_elem_of_singleton in Hb. subst b. rewrite Heq.
          destruct fb as [|x fb] using rev_ind; [done|].
          rewrite back_snoc. apply elem_of_app. right. by left.
      + split; [rewrite !length_app; simpl; lia|].
        split; [by destruct ft|]. split; [by destruct fb|].
        split; [by apply no_repeat_snoc|].
        split; [by apply sublist_app|].
        intros b [Hb|Hb]%elem_of_app; apply elem_of_app; [left; by apply Hall|].
        by right. }
  replace (1 + (length blocks - 1))%nat with (length blocks) in HI
    by (simpl; lia).
  rewrite firstn_all in HI. exact HI.
Qed.

Lemma srtf_next_arrival_least procs j :
  (j < length procs)%nat -> 0 < rem_bt (procs !!! j) ->
  (srtf_next_arrival procs).1 <= arr (procs !!! j).
Proof.
  unfold srtf_next_arrival. revert j.
  apply (fold_left_seq_invariant _
           (fun m (acc : Z * bool) =>
              forall j, (j < m)%nat -> 0 < rem_bt (procs !!! j) ->
                        acc.1 <= arr (procs !!! j))).
  - intros; lia.
  - intros k a _ Hmin j Hj Hrj.
    destruct (decide (j = k)) as [->|Hne].
    + rewrite (proj2 (Z.gtb_gt _ _)) by lia. simpl. lia.
    + specialize (Hmin j ltac:(lia) Hrj).
      destruct (rem_bt (procs !!! k) >? 0); simpl; lia.
Qed.

Lemma filter_length_pending {A : Type} (P : A -> Prop)
    `{!forall x, Decision (P x)} (l : list A) :
  (length (filter P l) < length l)%nat ->
  exists j x, l !! j = Some x /\ ~ P x.
Proof.
  induction l as [|x l IH]; simpl; [lia|].
  destruct (decide (P x)) as [Hx|Hx].
  - rewrite filter_cons_True by done. simpl. intros Hlt.
    destruct IH as (j & y & Hj & Hy); [lia|]. by exists (S j), y.
  - intros _. by exists 0%nat, x.
Qed.

(** ** Sorting distinct keys *)

Lemma sort_by_agree (S1 S2 : Sorter) (key : Process -> Z) (l : list Process) :
  NoDup (map key l) -> sort_by S1 key l = sort_by S2 key l.
Proof.
  intros Hnd. apply (sorted_perm_unique key).
  - apply sorted_strict; [apply sort_by_sorted|].
    by rewrite (Permutation_map key (sort_by_perm S2 key l)).
  - apply sort_by_sorted.
  - by rewrite !sort_by_perm.
Qed.

Lemma NoDup_pid_static (l l' : list Process) :
  map static l = map static l' -> NoDup (map pid l') -> NoDup (map pid l).
Proof.
  intros Hs Hnd.
  rewrite (Permutation_static_pid l l'); [done|]. by rewrite Hs.
Qed.

(** ** The input loop of the driver *)

Lemma extract_Some input z rest :
  extract input = Some (z, rest) <->
  input = Number z :: rest /\ INT_MIN <= z <= INT_MAX.
Proof.
  unfold extract. destruct input as [|[z0|] input].
  - split; [discriminate|]. by intros [? _].
  - destruct (Z.leb_spec INT_MIN z0), (Z.leb_spec z0 INT_MAX); simpl; split;
      try discriminate;
      try (intros [= -> ->]; split; [done|lia]);
      try (intros [[= -> ->] ?]; (done || lia)).
  - split; [discriminate|]. by intros [? _].
Qed.

Lemma read_process_Some i input p rest :
  read_process i input = Some (p, rest) <->
  entered i p /\
  input = Number (arr p) :: Number (bt p) :: Number (priority p) :: rest.
Proof.
  unfold read_process, entered. split.
  - destruct (extract input) as [[a in1]|] eqn:H1; [|discriminate].
    destruct (Z.ltb_spec a 0); [discriminate|].
    destruct (extract in1) as [[b in2]|] eqn:H2; [|discriminate].
    destruct (Z.leb_spec b 0); [discriminate|].
    destruct (extract in2) as [[c in3]|] eqn:H3; [|discriminate].
    destruct (Z.ltb_spec c 0); [discriminate|].
    intros [= <- <-]. simpl.
    apply extract_Some in H1 as [-> ?]. apply extract_Some in H2 as [-> ?].
    apply extract_Some in H3 as [-> ?].
    split; [|done]. split; [done|]. lia.
  - intros [(Hp & Ha & Hb & Hc) ->]. unfold INT_MAX in *.
    rewrite (proj2 (extract_Some _ (arr p) _)) by (unfold INT_MIN, INT_MAX; split; [done|lia]).
    destruct (Z.ltb_spec (arr p) 0); [lia|].
    rewrite (proj2 (extract_Some _ (bt p) _)) by (unfold INT_MIN, INT_MAX; split; [done|lia]).
    destruct (Z.leb_spec (bt p) 0); [lia|].
    rewrite (proj2 (extract_Some _ (priority p) _)) by (unfold INT_MIN, INT_MAX; split; [done|lia]).
    destruct (Z.ltb_spec (priority p) 0); [lia|]. by rewrite <- Hp.
Qed.

Lemma read_processes_Some left :
  forall i acc input procs rest,
    read_processes left i acc input = Some (procs, rest) <->
    exists new,
      procs = acc ++ new /\ length new = left /\
      (forall k p, new !! k = Some p -> entered (i + k) p) /\
      input = typed new ++ rest.
Proof.
  induction left as [|left IH]; intros i acc input procs rest.
  - simpl. split.
    + intros [= <- <-]. exists []. by rewrite app_nil_r.
    + intros (new & -> & Hlen & _ & ->).
      destruct new; [|discriminate]. by rewrite app_nil_r.
  - cbn [read_processes]. split.
    + destruct (read_process i input) as [[p in1]|] eqn:Hp; [|discriminate].
      apply read_process_Some in Hp as [He ->].
      intros (new & -> & Hlen & Hall & ->)%IH.
      exists (p :: new). split; [by rewrite <- app_assoc|].
      split; [simpl; lia|]. split; [|done].
      intros [|k] q Hq.
      * injection Hq as <-. by rewrite Nat.add_0_r.
      * rewrite Nat.add_succ_r. by apply (Hall k).
    + intros (new & -> & Hlen & Hall & ->).
      destruct new as [|p new]; [discriminate|].
      rewrite (proj2 (read_process_Some i _ p (typed new ++ rest))).
      * apply IH. exists new. split; [by rewrite <- app_assoc|].
        split; [simpl in Hlen; lia|]. split; [|done].
        intros k q Hq. specialize (Hall (S k) q Hq).
        by rewrite Nat.add_succ_r in Hall.
      * split; [|done]. specialize (Hall 0%nat p eq_refl).
        by rewrite Nat.add_0_r in Hall.
Qed.

Lemma all_entered_pid (procs : list Process) (i : nat) :
  all_entered procs -> (i < length procs)%nat ->
  pid (procs !!! i) = Z.of_nat i + 1.
Proof.
  intros Hall Hi.
  destruct (Hall i _ (list_lookup_lookup_total_lt _ _ Hi)) as [-> _]. done.
Qed.

Lemma all_entered_ascending (procs : list Process) :
  all_entered procs -> pid_ascending procs.
Proof.
  unfold pid_ascending. intros Hall.
  assert (H : forall k l, (forall i p, l !! i = Some p -> pid p = Z.of_nat (k + i) + 1) ->
                          StronglySorted (fun a b => pid a < pid b) l).
  { intros k l. revert k. induction l as [|a l IH]; intros k Hl; [constructor|].
    constructor.
    - apply (IH (S k)). intros i p Hp. rewrite (Hl (S i) p Hp). lia.
    - apply Forall_forall. intros b Hb.
      apply list_elem_of_lookup_1 in Hb as [j Hj].
      rewrite (Hl 0%nat a eq_refl), (Hl (S j) b Hj). lia. }
  apply (H 0%nat). intros i p Hp. by destruct (Hall i p Hp) as [-> _].
Qed.

Lemma pid_ascending_NoDup (procs : list Process) :
  pid_ascending procs -> NoDup (map pid procs).
Proof.
  induction 1 as [|a l _ IH Hall]; [constructor|].
  simpl. constructor; [|done].
  intros (b & Hab & Hb)%list_elem_of_fmap_1.
  rewrite Forall_forall in Hall. specialize (Hall b Hb). lia.
Qed.

Lemma all_entered_valid (procs : list Process) :
  all_entered procs -> Z.of_nat (length procs) <= INT_MAX ->
  Forall valid_process procs.
Proof.
  intros Hall Hn. apply Forall_lookup_2. intros i p Hp.
  pose proof (lookup_lt_Some _ _ _ Hp) as Hi.
  destruct (Hall i p Hp) as (Heq & ? & ? & ?).
  unfold valid_process. rewrite Heq. simpl. lia.
Qed.

Lemma main_reads (S : Sorter) (procs : list Process) (rest : list token) :
  all_entered procs -> procs <> [] -> Z.of_nat (length procs) <= INT_MAX ->
  extract (Number (Z.of_nat (length procs)) :: typed procs ++ rest)
  = Some (Z.of_nat (length procs), typed procs ++ rest) /\
  (Z.of_nat (length procs) <=? 0) = false /\
  read_processes (Z.to_nat (Z.of_nat (length procs))) 0 [] (typed procs ++ rest)
  = Some (procs, rest).
Proof.
  intros Hall Hne Hn.
  assert (0 < Z.of_nat (length procs)) by (destruct procs; [done|simpl; lia]).
  split; [|split].
  - apply extract_Some. split; [done|]. unfold INT_MIN. lia.
  - apply Z.leb_gt. lia.
  - apply read_processes_Some. exists procs. by rewrite Nat2Z.id.
Qed.

(** ** The last element of a sorted list *)

Lemma while_defined {St : Type} (cond : St -> bool) (body : St -> control St)
    (fuel : nat) (st : St) :
  while cond body fuel st <> Undefined.
Proof.
  revert st. induction fuel as [|fuel IH]; intros st; simpl.
  - by destruct (cond st).
  - destruct (cond st); [|done]. destruct (body st); [apply IH|done].
Qed.

Lemma last_filter {A : Type} (P : A -> Prop) `{!forall x, Decision (P x)}
    (l : list A) (x : A) :
  last l = Some x -> P x -> last (filter P l) = Some x.
Proof.
  intros Hl Hx. induction l as [|a [|b t] IH]; [done| |].
  - injection Hl as ->. by rewrite filter_cons_True.
  - specialize (IH Hl). rewrite filter_cons.
    destruct (decide (P a)); [|done].
    destruct (filter P (b :: t)); [done|]. exact IH.
Qed.

Lemma sorted_last_greatest (key : Process -> Z) (l : list Process)
    (b : Process) :
  StronglySorted (fun x y => key x <= key y) l -> last l = Some b ->
  forall p, p ∈ l -> key p <= key b.
Proof.
  induction 1 as [|a t Hs IH Hall]; [done|].
  intros Hl p Hp. destruct t as [|c t].
  - injection Hl as ->. apply list_elem_of_singleton in Hp. by subst.
  - change (last (c :: t) = Some b) in Hl.
    apply elem_of_cons in Hp as [->|Hp]; [|by apply IH].
    rewrite Forall_forall in Hall. apply Hall.
    by apply last_Some_elem_of.
Qed.

Lemma latest_arrival_greatest (l : list Process) (b : Process) :
  b ∈ l -> 0 <= arr b -> (forall p, p ∈ l -> arr p <= arr b) ->
  latest_arrival l = arr b.
Proof.
  intros Hb Hnn Hall. pose proof (latest_arrival_bound l b Hb).
  assert (latest_arrival l <= arr b); [|lia].
  clear Hb H. induction l as [|a l IH]; simpl; [lia|].
  pose proof (Hall a ltac:(left)).
  assert (latest_arrival l <= arr b); [|lia].
  apply IH. intros p Hp. apply Hall. by right.
Qed.

(** ** Round Robin: arrivals in sorted order *)

Lemma enqueue_arrivals_seq (procs : list Process) (time : Z) (left : nat) :
  forall i queue inQueue,
    (i + left = length procs)%nat ->
    length inQueue = length procs ->
    (forall j, (i <= j < length procs)%nat -> inQueue !!! j = false) ->
    exists next1 inQ1,
      enqueue_arrivals procs time left i (queue, inQueue, i)
      = (queue ++ seq i (next1 - i), inQ1, next1) /\
      (i <= next1 <= length procs)%nat /\
      length inQ1 = length procs /\
      (forall j, (next1 <= j < length procs)%nat -> inQ1 !!! j = false) /\
      (forall j, (i <= j < next1)%nat -> arr (procs !!! j) <= time) /\
      ((next1 < length procs)%nat -> time < arr (procs !!! next1)).
Proof.
  induction left as [|left IH]; intros i queue inQueue Hi Hlen Hfalse.
  - exists i, inQueue. rewrite Nat.sub_diag, app_nil_r.
    repeat split; first [done|lia|intros; lia].
  - cbn [enqueue_arrivals]. rewrite (Hfalse i) by lia. cbn [negb].
    rewrite andb_true_r.
    destruct (Z.leb_spec (arr (procs !!! i)) time) as [Hle|Hgt].
    + destruct (IH (S i) (queue ++ [i]) (<[i := true]> inQueue))
        as (next1 & inQ1 & Heq & Hn & Hl1 & Hf1 & Ha1 & Hnext);
        [lia|by rewrite length_insert| |].
      { intros j Hj. rewrite list_lookup_total_insert_ne by lia.
        apply Hfalse. lia. }
      exists next1, inQ1. rewrite Heq.
      split.
      { f_equal. f_equal. rewrite <- app_assoc. f_equal.
        replace (next1 - i)%nat with (S (next1 - S i)) by lia. done. }
      split; [lia|]. split; [done|]. split; [done|]. split; [|done].
      intros j Hj. destruct (decide (j = i)) as [->|]; [done|].
      apply Ha1. lia.
    + rewrite (proj2 (Z.gtb_gt _ _)) by lia.
      exists i, inQueue. rewrite Nat.sub_diag, app_nil_r.
      repeat split; first [done|lia|intros; lia].
Qed.

Lemma seq_join (k m n : nat) :
  (k <= m <= n)%nat -> seq k (m - k) ++ seq m (n - m) = seq k (n - k).
Proof.
  intros H. replace (n - k)%nat with ((m - k) + (n - m))%nat by lia.
  rewrite seq_app. do 2 f_equal. lia.
Qed.

Lemma alter_at {A : Type} (f : A -> A) (l1 : list A) (x : A) (l2 : list A)
    (k : nat) :
  length l1 = k -> alter f k (l1 ++ x :: l2) = l1 ++ f x :: l2.
Proof.
  intros <-. induction l1 as [|a l1 IH]; [done|].
  change (a :: alter f (length l1) (l1 ++ x :: l2) = a :: (l1 ++ f x :: l2)).
  by rewrite IH.
Qed.

Lemma rr_next_arrival_first (procs : list Process) (left i : nat) :
  0 < rem_bt (procs !!! i) ->
  rr_next_arrival procs (S left) i = Some (arr (procs !!! i)).
Proof. intros Hr. simpl. by rewrite (proj2 (Z.gtb_gt _ _)) by lia. Qed.

Lemma map_static_reset (l : list Process) :
  map static (map (fun p => set_rem_bt (bt p) p) l) = map static l.
Proof. rewrite map_map. reflexivity. Qed.

Lemma map_static_rem (v : Z) (l : list Process) :
  map static (map (set_rem_bt v) l) = map static l.
Proof. rewrite map_map. reflexivity. Qed.

Lemma StronglySorted_map_key (key : Process -> Z) (f : Process -> Process)
    (l : list Process) :
  (forall p, key (f p) = key p) ->
  StronglySorted (fun a b => key a < key b) l ->
  StronglySorted (fun a b => key a < key b) (map f l).
Proof.
  intros Hf. induction 1 as [|a t _ IH Hall]; [constructor|].
  simpl. constructor; [done|].
  rewrite Forall_forall in Hall. apply Forall_forall.
  intros b (c & -> & Hc)%list_elem_of_fmap_1. rewrite !Hf.
  by apply Hall.
Qed.

(** ** Widths of the chart *)

Lemma string_length_append (s1 s2 : string) :
  String.length (String.append s1 s2)
  = (String.length s1 + String.length s2)%nat.
Proof. induction s1 as [|c s1 IH]; simpl; [done|]. by rewrite IH. Qed.

Lemma spaces_length (n : nat) : String.length (spaces n) = n.
Proof. induction n as [|n IH]; simpl; [done|]. by rewrite IH. Qed.

Lemma setw_left_length (w : nat) (s : string) :
  String.length (setw_left w s) = Nat.max w (String.length s).
Proof.
  unfold setw_left. rewrite string_length_append, spaces_length. lia.
Qed.

Lemma pretty_N_go_length_ge (x : N) (s : string) :
  (String.length s <= String.length (pretty_N_go x s))%nat.
Proof.
  revert s. induction (N.lt_wf_0 x) as [x _ IH]; intros s.
  destruct (decide (x = 0)%N) as [->|Hx]; [by rewrite pretty_N_go_0|].
  rewrite pretty_N_go_step by lia.
  etransitivity; [|apply IH; apply N.div_lt; lia]. simpl. lia.
Qed.

Lemma pretty_N_go_length_le (k : nat) :
  forall (x : N) (s : string),
    (x < 10 ^ N.of_nat k)%N ->
    (String.length (pretty_N_go x s) <= k + String.length s)%nat.
Proof.
  induction k as [|k IH]; intros x s Hx.
  - assert (x = 0%N) as -> by (simpl in Hx; lia).
    rewrite pretty_N_go_0. lia.
  - destruct (decide (x = 0)%N) as [->|Hne]; [rewrite pretty_N_go_0; lia|].
    rewrite pretty_N_go_step by lia.
    etransitivity; [apply IH|simpl; lia].
    apply N.Div0.div_lt_upper_bound.
    rewrite Nat2N.inj_succ, N.pow_succ_r' in Hx. lia.
Qed.

Lemma pretty_N_go_length_gt (k : nat) :
  forall (x : N) (s : string),
    (10 ^ N.of_nat k <= x)%N ->
    (k + 1 + String.length s <= String.length (pretty_N_go x s))%nat.
Proof.
  induction k as [|k IH]; intros x s Hx.
  - rewrite pretty_N_go_step by (simpl in Hx; lia).
    etransitivity; [|apply pretty_N_go_length_ge]. simpl. lia.
  - assert (10 ^ N.of_nat (S k) <> 0)%N by (apply N.pow_nonzero; lia).
    rewrite pretty_N_go_step by lia.
    etransitivity; [|apply IH].
    + simpl. lia.
    + apply N.div_le_lower_bound; [lia|].
      rewrite Nat2N.inj_succ, N.pow_succ_r' in Hx. lia.
Qed.

Lemma to_string_length (t : Z) :
  0 <= t ->
  (String.length (to_string t) <= 8)%nat <-> t < 100000000.
Proof.
  intros Ht. unfold to_string, pretty, pretty_Z.
  destruct t as [|p|p]; [simpl; split; [lia|intros; lia]| |lia].
  unfold pretty, pretty_positive, pretty, pretty_N.
  destruct (decide (N.pos p = 0)%N) as [|_]; [done|].
  split.
  - intros Hlen.
    destruct (Z.lt_ge_cases (Z.pos p) 100000000) as [|Hge]; [done|].
    pose proof (pretty_N_go_length_gt 8 (N.pos p) EmptyString) as Hgt.
    simpl String.length in Hgt.
    assert (10 ^ N.of_nat 8 <= N.pos p)%N; [|lia].
    change (10 ^ N.of_nat 8)%N with 100000000%N. lia.
  - intros Hlt.
    pose proof (pretty_N_go_length_le 8 (N.pos p) EmptyString) as Hle.
    simpl String.length in Hle. rewrite Nat.add_0_r in Hle. apply Hle.
    change (10 ^ N.of_nat 8)%N with 100000000%N. lia.
Qed.

Lemma block_id_not_empty p : block_id p <> EmptyString.
Proof. unfold block_id. simpl. discriminate. Qed.

Lemma srtf_trace_init procs : srtf_trace (srtf_init procs).
Proof.
  unfold srtf_trace, srtf_init. simpl.
  split; [lia|]. split; [intros _; lia|]. by intros [].
Qed.

(** ** Sorted timelines *)

Lemma StronglySorted_lt_snoc (tl : list Z) (t x : Z) :
  StronglySorted Z.lt tl -> last tl = Some t -> t < x ->
  StronglySorted Z.lt (tl ++ [x]).
Proof.
  intros Hs. revert t. induction Hs as [|a l Hs IH Hall]; intros t Hl Hx;
    [done|].
  destruct l as [|b l].
  - injection Hl as ->. simpl. repeat constructor. done.
  - change (last (b :: l) = Some t) in Hl.
    change (StronglySorted Z.lt (a :: ((b :: l) ++ [x]))).
    constructor; [by apply (IH t)|].
    apply Forall_app. split; [done|]. constructor; [|done].
    rewrite Forall_forall in Hall.
    pose proof (Hall t (last_Some_elem_of _ _ Hl)). lia.
Qed.

Lemma StronglySorted_sublist {A : Type} (R : A -> A -> Prop) (l1 l2 : list A) :
  sublist l1 l2 -> StronglySorted R l2 -> StronglySorted R l1.
Proof.
  induction 1 as [|x l1 l2 Hsub IH|x l1 l2 Hsub IH]; intros Hs; [done| |].
  - apply StronglySorted_inv in Hs as [Hs Hall]. constructor; [by apply IH|].
    rewrite Forall_forall in Hall. apply Forall_forall. intros y Hy.
    apply Hall. by apply (elem_of_sublist _ _ _ Hy Hsub).
  - apply StronglySorted_inv in Hs as [Hs _]. by apply IH.
Qed.

Lemma StronglySorted_le_snoc (tl : list Z) (x : Z) :
  StronglySorted Z.le tl -> Forall (fun t => t <= x) tl ->
  StronglySorted Z.le (tl ++ [x]).
Proof.
  induction 1 as [|a l Hs IH Hall]; intros Hx; [repeat constructor|].
  apply Forall_cons in Hx as [Ha Hx]. simpl. constructor; [by apply IH|].
  apply Forall_app. split; [done|]. by constructor.
Qed.

Lemma sorted_le_last (tl : list Z) (t : Z) :
  StronglySorted Z.le tl -> last tl = Some t -> Forall (fun x => x <= t) tl.
Proof.
  induction 1 as [|a l Hs IH Hall]; intros Hl; [constructor|].
  destruct l as [|b l].
  - injection Hl as ->. repeat constructor. lia.
  - change (last (b :: l) = Some t) in Hl. constructor; [|by apply IH].
    rewrite Forall_forall in Hall. apply Hall. by apply last_Some_elem_of.
Qed.

Lemma merge_fold_times (timeline : list Z) (b0 : string) (bs : list string) :
  (length (b0 :: bs) <= length timeline)%nat ->
  sublist (fold_left (merge_step timeline (b0 :: bs))
                     (seq 1 (length (b0 :: bs) - 1))
                     ([timeline !!! 0%nat], [b0])).1
          timeline.
Proof.
  intros Hlen.
  assert (HI : (fun m (a : list Z * list string) =>
                  sublist a.1 (take m timeline))
               (1 + (length (b0 :: bs) - 1))%nat
               (fold_left (merge_step timeline (b0 :: bs))
                          (seq 1 (length (b0 :: bs) - 1))
                          ([timeline !!! 0%nat], [b0]))).
  { apply fold_left_seq_invariant_from.
    - cbn [fst]. destruct timeline as [|t0 tl]; [simpl in Hlen; lia|].
      simpl. rewrite take_0. by constructor.
    - intros i [ft fb] Hi Hsub. cbn [fst] in *.
      assert (Hlt : (i < length timeline)%nat) by (simpl in *; lia).
      rewrite (take_S_r _ _ _ (list_lookup_lookup_total_lt _ _ Hlt)).
      unfold merge_step. destruct (negb _); cbn [fst].
      + by apply sublist_app.
      + by apply sublist_inserts_r. }
  cbv beta in HI. etransitivity; [exact HI|apply sublist_take].
Qed.

Lemma merge_gantt_sorted (timeline : list Z) (blocks : list string) :
  (length blocks <= length timeline)%nat ->
  StronglySorted Z.le timeline ->
  StronglySorted Z.le (merge_gantt timeline blocks).1.
Proof.
  intros Hlen Hs. destruct blocks as [|b0 bs]; [constructor|].
  pose proof (merge_fold_times timeline b0 bs Hlen) as Hsub.
  unfold merge_gantt. destruct (fold_left _ _ _) as [ft fb]. cbn [fst] in *.
  pose proof (StronglySorted_sublist _ _ _ Hsub Hs) as Hft.
  destruct (negb _); cbn [fst]; [|done].
  apply StronglySorted_le_snoc; [done|].
  destruct (last timeline) as [t|] eqn:Hl.
  - unfold back. rewrite Hl. simpl.
    pose proof (sorted_le_last _ _ Hs Hl) as Hall.
    rewrite Forall_forall in Hall. apply Forall_forall. intros x Hx.
    apply Hall. by apply (elem_of_sublist _ _ _ Hx Hsub).
  - apply last_None in Hl. subst. simpl in Hlen. lia.
Qed.

Lemma Forall_le_later (tl : list Z) (t t' : Z) :
  t <= t' -> Forall (fun x => x <= t) tl -> Forall (fun x => x <= t') tl.
Proof.
  intros Hle Hall. eapply Forall_impl; [exact Hall|]. intros x Hx. simpl in Hx. lia.
Qed.

(** * Facts about the schedule over unbounded integers

    In this module the names of the loops are those of [Unbounded]. *)

Module Unbounded_facts.
Import Unbounded.

(** ** SJF and Priority: the loop invariant *)

Lemma static_finish time p : static (finish time p) = static p.
Proof. reflexivity. Qed.

Section NonPreemptive.
Variables (key : Process -> Z) (procs0 : list Process).
Hypothesis Hbounded : Forall bounded procs0.

Lemma np_inv_init : np_inv procs0 (np_init procs0).
Proof.
  split; simpl.
  - done.
  - by rewrite length_replicate.
  - assert (H : forall n, filter (fun b => b = true) (replicate n false) = []).
    { induction n; [done|]. simpl. by rewrite filter_cons_False. }
    by rewrite H.
  - intros i Hi. rewrite lookup_total_replicate_2 by done. discriminate.
Qed.

Lemma np_next_arrival_spec st i :
  np_next_arrival st = INT_MAX ->
  (i < length (n_procs st))%nat -> n_completed st !!! i = false ->
  INT_MAX <= arr (n_procs st !!! i).
Proof.
  unfold np_next_arrival.
  pose (I := fun (m : nat) (acc : Z) =>
               acc <= INT_MAX /\
               forall j, (j < m)%nat -> n_completed st !!! j = false ->
                         acc <= arr (n_procs st !!! j)).
  assert (HI : I (length (n_procs st))
                 (fold_left
                    (fun nxt i0 =>
                       if negb (n_completed st !!! i0)
                       then Z.min nxt (arr (n_procs st !!! i0)) else nxt)
                    (seq 0 (length (n_procs st))) INT_MAX)).
  { apply fold_left_seq_invariant.
    - split; [done|]. intros; lia.
    - intros k a _ [Hle Hmin].
      destruct (n_completed st !!! k) eqn:Hc; simpl; split; try lia.
      + intros j Hj Hcj. destruct (decide (j = k)) as [->|]; [congruence|].
        apply Hmin; [lia|done].
      + intros j Hj Hcj. destruct (decide (j = k)) as [->|]; [lia|].
        specialize (Hmin j ltac:(lia) Hcj). lia. }
  intros Heq Hi Hc. destruct HI as [_ HI]. rewrite Heq in HI. by apply HI.
Qed.

Lemma np_inv_arr st i :
  np_inv procs0 st -> (i < length (n_procs st))%nat ->
  arr (n_procs st !!! i) < INT_MAX.
Proof.
  intros Hinv Hi.
  pose proof (bounded_static _ _ i (np_static _ _ Hinv) Hbounded Hi) as Hb.
  unfold bounded in Hb. lia.
Qed.

Lemma np_inv_step st st' :
  np_inv procs0 st -> NP_body key st = Continue st' -> np_inv procs0 st'.
Proof.
  intros Hinv. unfold NP_body.
  destruct (select (np_ready st) key (n_procs st)) as [idx|] eqn:Hsel.
  - intros [= <-].
    apply select_Some in Hsel as (Hidx & Hready & _ & _).
    unfold np_ready in Hready. apply andb_prop in Hready as [Hnc Harr].
    apply negb_true_iff in Hnc. apply Z.leb_le in Harr.
    destruct Hinv as [Hst Hlen Hcnt Hdone].
    split; unfold np_dispatch; simpl.
    + rewrite <- Hst. apply map_alter_static, static_finish.
    + by rewrite length_insert, length_alter.
    + rewrite filter_true_insert.
      * rewrite Hcnt. lia.
      * rewrite list_lookup_lookup_total_lt by lia. by rewrite Hnc.
    + intros i. rewrite length_alter. intros Hi.
      destruct (decide (idx = i)) as [->|Hne].
      * intros _. rewrite list_lookup_total_alter_eq by done.
        unfold metrics_ok, finish; simpl. lia.
      * rewrite list_lookup_total_insert_ne, list_lookup_total_alter_ne by done.
        by apply Hdone.
  - destruct (negb _); [|discriminate]. intros [= <-].
    destruct Hinv as [Hst Hlen Hcnt Hdone]. by split.
Qed.

(** When the loop is left, every process has been dispatched. *)
Lemma np_exit_completed st :
  np_inv procs0 st ->
  np_cond (Z.of_nat (length procs0)) st = false \/
  NP_body key st = Break st ->
  Forall (fun b => b = true) (n_completed st).
Proof.
  intros Hinv Hexit.
  pose proof (static_length _ _ (np_static _ _ Hinv)) as Hl.
  destruct Hexit as [Hc|Hb].
  - apply (filter_length_all (fun b => b = true)). unfold np_cond in Hc.
    apply Z.ltb_ge in Hc.
    rewrite (np_count _ _ Hinv), (np_len _ _ Hinv) in *. lia.
  - unfold NP_body in Hb.
    destruct (select _ _ _) eqn:Hsel; [discriminate|].
    destruct (Z.eqb_spec (np_next_arrival st) INT_MAX) as [Hn|Hn];
      [|discriminate].
    apply (Forall_lookup_total_2 (fun b : bool => b = true)). intros i Hi.
    rewrite (np_len _ _ Hinv) in Hi.
    destruct (n_completed st !!! i) eqn:Hc; [done|].
    pose proof (np_next_arrival_spec st i Hn Hi Hc).
    pose proof (np_inv_arr st i Hinv Hi). lia.
Qed.

Lemma np_inv_exit st :
  np_inv procs0 st ->
  np_cond (Z.of_nat (length procs0)) st = false \/
  NP_body key st = Break st ->
  Forall metrics_ok (n_procs st).
Proof.
  intros Hinv Hexit.
  pose proof (np_exit_completed st Hinv Hexit) as Hall.
  apply (Forall_lookup_total_2 metrics_ok). intros i Hi.
  apply (np_done _ _ Hinv); [done|].
  apply (Forall_lookup_total_1 _ _ i) in Hall; [done|].
  by rewrite (np_len _ _ Hinv).
Qed.

Lemma NP_loop_spec fuel st :
  NP_loop key fuel procs0 = Done st ->
  Forall metrics_ok (n_procs st) /\ map static (n_procs st) = map static procs0.
Proof.
  intros Hrun. unfold NP_loop in Hrun.
  apply (while_invariant _ _ (np_inv procs0)) in Hrun.
  - destruct Hrun as [[Hinv Hc]|(st0 & Hinv & Hc & Hb)].
    + split; [apply np_inv_exit; auto|apply Hinv].
    + assert (st = st0) as ->.
      { unfold NP_body in Hb. destruct (select _ _ _); [discriminate|].
        destruct (negb _); [discriminate|]. congruence. }
      split; [apply np_inv_exit; auto|apply Hinv].
  - intros s s' Hs _ Hb. by apply (np_inv_step s).
  - apply np_inv_init.
Qed.
End NonPreemptive.

(** ** SRTF and Round Robin: the loop invariants *)

Lemma run_ok_complete time e p :
  run_ok time p -> arr p <= time -> 0 < e <= rem_bt p ->
  rem_bt p - e = 0 ->
  run_ok (time + e) (finish (time + e) (set_rem_bt (rem_bt p - e) p)).
Proof.
  unfold run_ok, metrics_ok. intros (Hr & Hused & _) Harr He He0. simpl.
  destruct (decide (rem_bt p = bt p)); repeat split; lia.
Qed.

Section ShortestRemaining.
Variable procs0 : list Process.
Hypothesis Hbounded : Forall bounded procs0.

Lemma srtf_inv_init : srtf_inv procs0 (srtf_init procs0).
Proof.
  split; simpl.
  - rewrite map_map. reflexivity.
  - by apply Forall_reset.
  - by rewrite filter_reset.
Qed.

Lemma srtf_inv_bt st i :
  srtf_inv procs0 st -> (i < length (s_procs st))%nat ->
  0 < bt (s_procs st !!! i) <= INT_MAX.
Proof.
  intros Hinv Hi.
  pose proof (bounded_static _ _ i (srtf_static _ _ Hinv) Hbounded Hi) as Hb.
  unfold bounded in Hb. lia.
Qed.

Lemma srtf_next_arrival_spec procs i :
  (srtf_next_arrival procs).2 = false ->
  (i < length procs)%nat -> rem_bt (procs !!! i) <= 0.
Proof.
  unfold srtf_next_arrival.
  pose (I := fun (m : nat) (acc : Z * bool) =>
               acc.2 = false ->
               forall j, (j < m)%nat -> rem_bt (procs !!! j) <= 0).
  assert (HI : I (length procs)
                 (fold_left
                    (fun (acc : Z * bool) i0 =>
                       if rem_bt (procs !!! i0) >? 0
                       then (Z.min acc.1 (arr (procs !!! i0)), true)
                       else acc)
                    (seq 0 (length procs)) (INT_MAX, false))).
  { apply fold_left_seq_invariant.
    - intros _ j Hj. lia.
    - intros k a _ Hk.
      destruct (Z.gtb_spec (rem_bt (procs !!! k)) 0) as [Hpos|Hnp];
        [discriminate|].
      intros Ha j Hj. destruct (decide (j = k)) as [->|]; [done|].
      apply Hk; [done|lia]. }
  intros Hf Hi. by apply HI.
Qed.

Lemma srtf_inv_step st st' :
  srtf_inv procs0 st -> SRTF_body st = Continue st' -> srtf_inv procs0 st'.
Proof.
  intros Hinv. unfold SRTF_body.
  destruct (select (srtf_ready st) rem_bt (s_procs st)) as [idx|] eqn:Hsel.
  - apply select_Some in Hsel as (Hidx & Hready & _ & _).
    unfold srtf_ready in Hready. apply andb_prop in Hready as [Harr Hrem].
    apply Z.leb_le in Harr. apply Z.gtb_gt in Hrem.
    destruct Hinv as [Hst Hrun Hcnt].
    pose proof (list_lookup_lookup_total_lt _ _ Hidx) as Hlook.
    pose proof (Forall_lookup_total_1 _ _ _ Hrun Hidx) as Hp.
    rewrite list_lookup_total_alter_eq by done.
    cbn [rem_bt set_rem_bt].
    destruct (Z.eqb_spec (rem_bt (s_procs st !!! idx) - 1) 0) as [Hz|Hnz];
      intros [= <-]; split; simpl.
    + rewrite <- Hst. rewrite !map_alter_static; auto.
    + rewrite list_alter_alter_eq.
      apply (Forall_alter_change (run_ok (s_time st))); [done| |].
      * intros x. apply run_ok_later. lia.
      * intros x Hx _. rewrite Hlook in Hx. injection Hx as <-.
        apply (run_ok_complete _ 1); auto; lia.
    + rewrite list_alter_alter_eq.
      rewrite (filter_alter_new _ _ _ _ _ Hlook); [lia| |simpl; lia].
      lia.
    + rewrite <- Hst. rewrite !map_alter_static; auto.
    + apply (Forall_alter_change (run_ok (s_time st))); [done| |].
      * intros x. apply run_ok_later. lia.
      * intros x Hx _. rewrite Hlook in Hx. injection Hx as <-.
        apply (run_ok_run _ 1); auto; lia.
    + rewrite filter_alter_same; [done|].
      intros x Hx. rewrite Hlook in Hx. injection Hx as <-. simpl. lia.
  - destruct (srtf_next_arrival (s_procs st)) as [nxt found].
    destruct found; [|discriminate].
    assert (Hidle : Forall (run_ok nxt) (s_procs st)).
    { apply (Forall_lookup_total_2 (run_ok nxt)). intros i Hi.
      pose proof (Forall_lookup_total_1 _ _ _ (srtf_run _ _ Hinv) Hi)
        as (Hr & Hused & Hdone).
      pose proof (srtf_inv_bt st i Hinv Hi) as Hbt.
      split; [done|]. split; [|done]. intros Hmid.
      specialize (Hused Hmid).
      pose proof (select_None _ _ _ i Hsel Hi) as Hmax.
      unfold srtf_ready in Hmax.
      rewrite (proj2 (Z.leb_le _ _)), (proj2 (Z.gtb_gt _ _)) in Hmax by lia.
      specialize (Hmax eq_refl). lia. }
    destruct Hinv as [Hst Hrun Hcnt].
    destruct (negb _); intros [= <-]; by split.
Qed.

Lemma srtf_inv_exit st :
  srtf_inv procs0 st ->
  srtf_cond (Z.of_nat (length procs0)) st = false \/
  SRTF_body st = Break st ->
  Forall (fun p => rem_bt p = 0) (s_procs st).
Proof.
  intros Hinv Hexit.
  pose proof (static_length _ _ (srtf_static _ _ Hinv)) as Hl.
  destruct Hexit as [Hc|Hb].
  - apply (filter_length_all (fun p => rem_bt p = 0)).
    unfold srtf_cond in Hc. apply Z.ltb_ge in Hc.
    rewrite (srtf_count _ _ Hinv) in Hc. lia.
  - unfold SRTF_body in Hb.
    destruct (select _ _ _); [destruct (_ =? 0); discriminate|].
    destruct (srtf_next_arrival (s_procs st)) as [nxt found] eqn:Hn.
    destruct found; [destruct (negb _); discriminate|].
    apply (Forall_lookup_total_2 (fun p => rem_bt p = 0)). intros i Hi.
    pose proof (srtf_next_arrival_spec (s_procs st) i) as Hle.
    rewrite Hn in Hle. specialize (Hle eq_refl Hi).
    pose proof (Forall_lookup_total_1 _ _ _ (srtf_run _ _ Hinv) Hi) as (? & _).
    lia.
Qed.

Lemma SRTF_body_Break st st' : SRTF_body st = Break st' -> st' = st.
Proof.
  unfold SRTF_body. destruct (select _ _ _).
  - destruct (_ =? 0); discriminate.
  - destruct (srtf_next_arrival _) as [? []]; [destruct (negb _)|]; congruence.
Qed.

Lemma SRTF_loop_spec fuel st :
  SRTF_loop fuel procs0 = Done st ->
  Forall metrics_ok (s_procs st) /\ map static (s_procs st) = map static procs0.
Proof.
  intros Hrun. unfold SRTF_loop in Hrun.
  apply (while_invariant _ _ (srtf_inv procs0)) in Hrun.
  - assert (Hinv : srtf_inv procs0 st /\ Forall (fun p => rem_bt p = 0) (s_procs st)).
    { destruct Hrun as [[Hinv Hc]|(st0 & Hinv & Hc & Hb)].
      - split; [done|]. apply srtf_inv_exit; [done|by left].
      - pose proof (SRTF_body_Break _ _ Hb) as ->.
        split; [done|]. apply srtf_inv_exit; [done|by right]. }
    destruct Hinv as [Hinv Hzero]. split; [|apply Hinv].
    pose proof (srtf_run _ _ Hinv) as Hrunok.
    rewrite Forall_forall in Hzero, Hrunok. apply Forall_forall.
    intros p Hp. apply (Hrunok p Hp), (Hzero p Hp).
  - intros s s' Hs _ Hb. by apply (srtf_inv_step s).
  - apply srtf_inv_init.
Qed.
End ShortestRemaining.

Section RoundRobinLoop.
Variables (procs0 : list Process) (quantum : Z).
Hypothesis Hbounded : Forall bounded procs0.
Hypothesis Hquantum : 0 < quantum.

Lemma rr_inv_init : rr_inv procs0 (rr_init procs0).
Proof.
  split; simpl.
  - rewrite map_map. reflexivity.
  - by apply Forall_reset.
  - by rewrite filter_reset.
  - split; [by rewrite length_replicate, length_map|].
    split; [lia|]. split; [constructor|].
    split; [by intros ? ?%elem_of_nil|]. split; [intros; lia|].
    split; [|discriminate].
    intros i. rewrite length_map. intros Hi.
    rewrite lookup_total_replicate_2, lookup_total_map_reset by lia. done.
Qed.

Lemma rr_inv_bt procs :
  map static procs = map static procs0 ->
  forall i, (i < length procs)%nat -> 0 < bt (procs !!! i).
Proof.
  intros Hst i Hi. pose proof (bounded_static _ _ i Hst Hbounded Hi) as Hb.
  unfold bounded in Hb. lia.
Qed.

Lemma rr_inv_step st st' :
  rr_inv procs0 st -> RR_body quantum st = Continue st' -> rr_inv procs0 st'.
Proof.
  intros [Hst Hrun Hcnt Hsched]. unfold RR_body.
  destruct (enqueue_arrivals_from (r_procs st) (r_time st) (r_readyQueue st) (r_inQueue st)
                       (r_next_proc_to_arrive st)) as [[queue1 inQ1] next1] eqn:Henq1.
  apply (enqueue_arrivals_from_sched _ _ None _ _ _ _ _ _ (rr_inv_bt _ Hst) Hsched)
    in Henq1.
  destruct queue1 as [|cur rest].
  - destruct (rr_next_arrival _ _ _) as [nxt|]; [|discriminate].
    assert (Hidle : Forall (run_ok nxt) (r_procs st)).
    { apply (Forall_lookup_total_2 (run_ok nxt)). intros i Hi.
      pose proof (Forall_lookup_total_1 _ _ _ Hrun Hi) as (Hr & Hused & Hdone).
      split; [done|]. split; [|done]. intros Hmid.
      destruct Henq1 as (_ & _ & _ & _ & Hw & Hf & _).
      destruct (decide (i < next1)%nat) as [Hlt|Hge].
      - destruct (Hw i Hlt ltac:(lia)) as [?%elem_of_nil|?]; done.
      - destruct (Hf i ltac:(lia)) as [_ ?]. lia. }
    apply (sched_idle _ _ nxt) in Henq1.
    destruct (negb _); intros [= <-]; by split.
  - pose proof Henq1 as (_ & Hn1 & _ & Hq1 & _).
    destruct (Hq1 cur ltac:(left)) as (Hcur & _ & Harr & Hpos).
    assert (Hidx : (cur < length (r_procs st))%nat) by lia.
    pose proof (list_lookup_lookup_total_lt _ _ Hidx) as Hlook.
    set (e := Z.min quantum (rem_bt (r_procs st !!! cur))).
    assert (He : 0 < e <= rem_bt (r_procs st !!! cur)) by lia.
    set (procs1 := alter (fun p => set_rem_bt (rem_bt p - e) p) cur (r_procs st)).
    assert (Hst1 : map static procs1 = map static procs0).
    { rewrite <- Hst. by apply map_alter_static. }
    apply (sched_dispatch _ _ (r_time st + e) _ _ _ _
             (fun p => set_rem_bt (rem_bt p - e) p)) in Henq1; [|lia].
    fold procs1 in Henq1.
    destruct (enqueue_arrivals_from procs1 (r_time st + e) rest
                         (<[cur := false]> inQ1) next1)
      as [[queue3 inQ3] next3] eqn:Henq2.
    apply (enqueue_arrivals_from_sched _ _ _ _ _ _ _ _ _ (rr_inv_bt _ Hst1) Henq1)
      in Henq2.
    assert (Hcur1 : procs1 !!! cur
                    = set_rem_bt (rem_bt (r_procs st !!! cur) - e)
                                 (r_procs st !!! cur)).
    { unfold procs1. by rewrite list_lookup_total_alter_eq. }
    rewrite Hcur1. cbn [rem_bt set_rem_bt].
    destruct (Z.eqb_spec (rem_bt (r_procs st !!! cur) - e) 0) as [Hz|Hnz];
      intros [= <-]; split; simpl.
    + rewrite <- Hst1. by apply map_alter_static.
    + unfold procs1. rewrite list_alter_alter_eq.
      apply (Forall_alter_change (run_ok (r_time st))); [done| |].
      * intros x. apply run_ok_later. lia.
      * intros x Hx Hx'. rewrite Hlook in Hx. injection Hx as <-.
        by apply run_ok_complete.
    + unfold procs1. rewrite list_alter_alter_eq.
      rewrite (filter_alter_new _ _ _ _ _ Hlook); [lia|lia|simpl; lia].
    + apply sched_complete; [done|]. rewrite Hcur1. simpl. lia.
    + done.
    + apply (Forall_alter_change (run_ok (r_time st))); [done| |].
      * intros x. apply run_ok_later. lia.
      * intros x Hx Hx'. rewrite Hlook in Hx. injection Hx as <-.
        by apply run_ok_run.
    + unfold procs1. rewrite filter_alter_same; [done|].
      intros x Hx. rewrite Hlook in Hx. injection Hx as <-. simpl. lia.
    + apply sched_requeue; [done| |]; rewrite Hcur1; simpl; lia.
Qed.

(** When the loop is left, no process has work left. *)
Lemma rr_inv_exit_cond st :
  rr_inv procs0 st -> rr_cond (Z.of_nat (length procs0)) st = false ->
  Forall (fun p => rem_bt p = 0) (r_procs st).
Proof.
  intros Hinv Hc.
  pose proof (static_length _ _ (rr_static _ _ Hinv)) as Hl.
  apply (filter_length_all (fun p => rem_bt p = 0)).
  unfold rr_cond in Hc. apply Z.ltb_ge in Hc.
  rewrite (rr_count _ _ Hinv) in Hc. lia.
Qed.

Lemma rr_inv_exit_break st st' :
  rr_inv procs0 st -> RR_body quantum st = Break st' ->
  rr_inv procs0 st' /\ Forall (fun p => rem_bt p = 0) (r_procs st').
Proof.
  intros [Hst Hrun Hcnt Hsched]. unfold RR_body.
  destruct (enqueue_arrivals_from (r_procs st) (r_time st) (r_readyQueue st) (r_inQueue st)
                       (r_next_proc_to_arrive st)) as [[queue1 inQ1] next1] eqn:Henq1.
  apply (enqueue_arrivals_from_sched _ _ None _ _ _ _ _ _ (rr_inv_bt _ Hst) Hsched)
    in Henq1.
  destruct queue1 as [|cur rest].
  - destruct (rr_next_arrival _ _ _) as [nxt|] eqn:Hna;
      [destruct (negb _); discriminate|].
    intros [= <-]. split; [by split|]. simpl.
    apply (Forall_lookup_total_2 (fun p => rem_bt p = 0)). intros i Hi.
    pose proof (Forall_lookup_total_1 _ _ _ Hrun Hi) as (Hr & _).
    destruct Henq1 as (_ & _ & _ & _ & Hw & _).
    destruct (decide (i < next1)%nat) as [Hlt|Hge].
    + destruct (decide (0 < rem_bt (r_procs st !!! i))) as [Hpos|]; [|lia].
      destruct (Hw i Hlt Hpos) as [?%elem_of_nil|?]; done.
    + pose proof (rr_next_arrival_None _ _ _ i Hna ltac:(lia)). lia.
  - destruct (enqueue_arrivals_from _ _ _ _ _) as [[queue3 inQ3] next3].
    destruct (_ =? 0); discriminate.
Qed.

Lemma RR_loop_spec fuel st :
  RR_loop quantum fuel procs0 = Done st ->
  Forall metrics_ok (r_procs st) /\ map static (r_procs st) = map static procs0.
Proof.
  unfold RR_loop. destruct (pid_table_ok procs0); [|discriminate].
  intros Hrun. apply (while_invariant _ _ (rr_inv procs0)) in Hrun.
  - assert (Hinv : rr_inv procs0 st /\ Forall (fun p => rem_bt p = 0) (r_procs st)).
    { destruct Hrun as [[Hinv Hc]|(st0 & Hinv & Hc & Hb)].
      - split; [done|]. by apply rr_inv_exit_cond.
      - by apply (rr_inv_exit_break st0). }
    destruct Hinv as [Hinv Hzero]. split; [|apply Hinv].
    pose proof (rr_run _ _ Hinv) as Hrunok.
    rewrite Forall_forall in Hzero, Hrunok. apply Forall_forall.
    intros p Hp. apply (Hrunok p Hp), (Hzero p Hp).
  - intros s s' Hs _ Hb. by apply (rr_inv_step s).
  - apply rr_inv_init.
Qed.
End RoundRobinLoop.

(** ** FCFS: the loop *)

Lemma FCFS_loop_cons p rest st :
  FCFS_loop (p :: rest) st
  = ((FCFS_step p st).1 :: (FCFS_loop rest (FCFS_step p st).2).1,
     (FCFS_loop rest (FCFS_step p st).2).2).
Proof.
  cbn [FCFS_loop]. destruct (FCFS_step p st) as [p' st']. cbn [fst snd].
  by destruct (FCFS_loop rest st').
Qed.

Lemma FCFS_loop_metrics procs st : Forall metrics_ok (FCFS_loop procs st).1.
Proof.
  revert st. induction procs as [|p rest IH]; intros st; [constructor|].
  rewrite FCFS_loop_cons. cbn [fst]. constructor; [|apply IH].
  unfold metrics_ok, FCFS_step, finish; simpl.
  destruct (Z.gtb_spec (arr p) (f_time st)); simpl; lia.
Qed.

Lemma FCFS_loop_static procs st :
  map static (FCFS_loop procs st).1 = map static procs.
Proof.
  revert st. induction procs as [|p rest IH]; intros st; [done|].
  rewrite FCFS_loop_cons. cbn [fst map]. by rewrite IH.
Qed.

Lemma FCFS_loop_gantt procs st :
  fcfs_wf st ->
  exists new,
    segments (f_timeline (FCFS_loop procs st).2) (f_blocks (FCFS_loop procs st).2)
    = segments (f_timeline st) (f_blocks st) ++ new /\
    map label_length (busy new) = map (fun p => (block_id p, bt p)) procs.
Proof.
  revert st. induction procs as [|p rest IH]; intros st [Hlen Hlast].
  - exists []. by rewrite app_nil_r.
  - pose (st1 := (FCFS_step p st).2).
    assert (Hwf1 : fcfs_wf st1 /\
              exists new1,
                segments (f_timeline st1) (f_blocks st1)
                = segments (f_timeline st) (f_blocks st) ++ new1 /\
                map label_length (busy new1) = [(block_id p, bt p)]).
    { unfold st1, FCFS_step, fcfs_wf. cbn [snd].
      destruct (Z.gtb_spec (arr p) (f_time st)) as [Hgt|Hle];
        cbn [f_timeline f_blocks f_time].
      - split; [split; [rewrite !length_app; simpl; lia|by rewrite last_snoc]|].
        exists [(IDLE, f_time st, arr p); (block_id p, arr p, arr p + bt p)].
        split.
        + rewrite (segments_snoc _ _ (arr p));
            [|rewrite !length_app; simpl; lia|by rewrite last_snoc].
          rewrite (segments_snoc _ _ (f_time st)) by done.
          by rewrite <- app_assoc.
        + unfold busy. rewrite filter_cons_False by (simpl; tauto).
          rewrite filter_cons_True by (simpl; apply block_id_not_IDLE).
          simpl. unfold label_length. simpl. f_equal. f_equal. lia.
      - split; [split; [rewrite !length_app; simpl; lia|by rewrite last_snoc]|].
        exists [(block_id p, f_time st, f_time st + bt p)].
        split; [by apply segments_snoc|].
        unfold busy. rewrite filter_cons_True by (simpl; apply block_id_not_IDLE).
        simpl. unfold label_length. simpl. f_equal. f_equal. lia. }
    destruct Hwf1 as (Hwf1 & new1 & Hseg1 & Hbusy1).
    destruct (IH st1 Hwf1) as (new2 & Hseg2 & Hbusy2).
    rewrite FCFS_loop_cons. cbn [snd]. fold st1.
    exists (new1 ++ new2). split.
    + by rewrite Hseg2, Hseg1, <- app_assoc.
    + unfold busy in *. by rewrite filter_app, map_app, Hbusy1, Hbusy2.
Qed.

(** ** The five schedulers, together *)

(** Every scheduler hands [printResults] the records of the input
    processes, each with its metrics filled in. *)
Lemma scheduled_records (S : Sorter) procs quantum r :
  valid_input procs -> 0 < quantum -> scheduled S procs quantum r ->
  exists procs',
    res_procs r = sort_by S pid procs' /\
    Forall metrics_ok procs' /\
    Permutation (map static procs') (map static procs).
Proof.
  intros Hv Hq [->|[[fuel Hr]|[[fuel Hr]|[[fuel Hr]|[fuel Hr]]]]].
  - unfold FCFS.
    pose proof (FCFS_loop_metrics (sort_by S arr procs) (mkFcfs 0 [0] [])) as Hm.
    pose proof (FCFS_loop_static (sort_by S arr procs) (mkFcfs 0 [0] [])) as Hs.
    destruct (FCFS_loop _ _) as [procs' st]. simpl in *.
    exists procs'. split; [done|]. split; [done|].
    rewrite Hs. apply Permutation_map, sort_by_perm.
  - apply outcome_map_Done in Hr as (st & Hloop & ->).
    apply NP_loop_spec in Hloop as [Hm Hs]; [|by apply valid_input_bounds].
    exists (n_procs st). split; [done|]. split; [done|]. by rewrite Hs.
  - apply outcome_map_Done in Hr as (st & Hloop & ->).
    apply NP_loop_spec in Hloop as [Hm Hs]; [|by apply valid_input_bounds].
    exists (n_procs st). split; [done|]. split; [done|]. by rewrite Hs.
  - apply outcome_map_Done in Hr as (st & Hloop & ->).
    apply SRTF_loop_spec in Hloop as [Hm Hs]; [|by apply valid_input_bounds].
    exists (s_procs st). destruct (merge_gantt _ _).
    split; [done|]. split; [done|]. by rewrite Hs.
  - apply outcome_map_Done in Hr as (st & Hloop & ->).
    apply RR_loop_spec in Hloop as [Hm Hs];
      [|by apply Forall_bounded_sorted|done].
    exists (sort_by S pid (r_procs st)). destruct (merge_gantt _ _).
    split; [done|]. split.
    + rewrite Forall_forall in Hm. apply Forall_forall. intros p Hp.
      apply Hm. by rewrite <- (sort_by_perm S pid (r_procs st)).
    + rewrite (Permutation_map static (sort_by_perm S pid (r_procs st))).
      rewrite Hs. apply Permutation_map, sort_by_perm.
Qed.

(** Every record of a result has its metrics. *)
Theorem completed_metrics_unbounded (S : Sorter) (procs : list Process) (quantum : Z)
    (r : Result) :
  valid_input procs -> 0 < quantum -> scheduled S procs quantum r ->
  Forall metrics_ok (res_procs r).
Proof.
  intros Hv Hq Hr.
  destruct (scheduled_records S procs quantum r Hv Hq Hr) as (procs' & -> & Hm & _).
  rewrite Forall_forall in Hm. apply Forall_forall. intros p Hp.
  apply Hm. by rewrite <- (sort_by_perm S pid procs').
Qed.

(** The records of a result are in pid order, one for each input pid. *)
Theorem records_by_pid_unbounded (S : Sorter) (procs : list Process) (quantum : Z)
    (r : Result) :
  valid_input procs -> 0 < quantum -> scheduled S procs quantum r ->
  StronglySorted (fun a b => pid a < pid b) (res_procs r) /\
  Permutation (map pid (res_procs r)) (map pid procs).
Proof.
  intros Hv Hq Hr.
  destruct (scheduled_records S procs quantum r Hv Hq Hr) as (procs' & -> & _ & Hs).
  assert (Hp : Permutation (map pid (sort_by S pid procs')) (map pid procs)).
  { rewrite (Permutation_map pid (sort_by_perm S pid procs')).
    by apply Permutation_static_pid. }
  split; [|done].
  apply sorted_strict; [apply sort_by_sorted|].
  rewrite Hp. apply Hv.
Qed.

(** ** Termination *)

Section NonPreemptiveTerminates.
Variables (key : Process -> Z) (procs0 : list Process).
Hypothesis Hkey_static : forall p q, static p = static q -> key p = key q.
Hypothesis Hkey_max : Forall (fun p => key p < INT_MAX) procs0.

Lemma np_key_below st i :
  np_inv procs0 st -> (i < length (n_procs st))%nat ->
  key (n_procs st !!! i) < INT_MAX.
Proof.
  intros Hinv Hi.
  pose proof (static_lookup _ _ i (np_static _ _ Hinv)) as Hs.
  pose proof (static_length _ _ (np_static _ _ Hinv)) as Hl.
  rewrite (Hkey_static _ _ Hs).
  apply (Forall_lookup_total_1 _ _ i Hkey_max). lia.
Qed.

Lemma np_scan_finds_ready st :
  np_inv procs0 st ->
  select (np_ready st) key (n_procs st) = None -> np_some_ready st = false.
Proof.
  intros Hinv Hsel. unfold np_some_ready.
  destruct (existsb _ _) eqn:Hex; [|done].
  apply existsb_exists in Hex as (j & Hj & Hr).
  apply in_seq in Hj.
  pose proof (select_None _ _ _ j Hsel ltac:(lia) Hr).
  pose proof (np_key_below st j Hinv ltac:(lia)). lia.
Qed.

Lemma np_next_arrival_witness st :
  np_next_arrival st = INT_MAX \/
  exists i, (i < length (n_procs st))%nat /\
            n_completed st !!! i = false /\
            arr (n_procs st !!! i) = np_next_arrival st.
Proof.
  unfold np_next_arrival.
  apply (fold_left_seq_invariant _
           (fun m acc =>
              acc = INT_MAX \/
              exists i, (i < m)%nat /\ n_completed st !!! i = false /\
                        arr (n_procs st !!! i) = acc)).
  - by left.
  - intros k a Hk Ha.
    destruct (n_completed st !!! k) eqn:Hc; simpl.
    + destruct Ha as [->|(i & Hi & Hci & Hai)]; [by left|].
      right. exists i. split; [lia|done].
    + destruct (Z.le_gt_cases (arr (n_procs st !!! k)) a) as [Hle|Hgt].
      * right. exists k. split; [lia|]. split; [done|lia].
      * rewrite Z.min_l by lia.
        destruct Ha as [->|(i & Hi & Hci & Hai)]; [by left|].
        right. exists i. split; [lia|done].
Qed.

Lemma np_step_measure st st' :
  np_inv procs0 st -> NP_body key st = Continue st' ->
  (np_measure st' < np_measure st)%nat.
Proof.
  intros Hinv. unfold NP_body.
  destruct (select (np_ready st) key (n_procs st)) as [idx|] eqn:Hsel.
  - intros [= <-].
    apply select_Some in Hsel as (Hidx & Hready & _ & _).
    unfold np_ready in Hready. apply andb_prop in Hready as [Hnc _].
    apply negb_true_iff in Hnc.
    assert (Hlook : n_completed st !! idx = Some false).
    { rewrite list_lookup_lookup_total_lt by (rewrite (np_len _ _ Hinv); lia).
      by rewrite Hnc. }
    pose proof (length_filter (fun b => b = true)
                  (<[idx := true]> (n_completed st))) as Hle.
    rewrite length_insert, (np_len _ _ Hinv) in Hle.
    unfold np_measure, np_dispatch. cbn [n_procs n_completed].
    rewrite length_alter.
    rewrite (filter_true_insert _ _ Hlook) in *.
    destruct (np_some_ready _), (np_some_ready st); lia.
  - destruct (Z.eqb_spec (np_next_arrival st) INT_MAX) as [Hn|Hn];
      [discriminate|].
    intros [= <-].
    pose proof (np_scan_finds_ready st Hinv Hsel) as Hnone.
    assert (Hsome : np_some_ready (np_idle st (np_next_arrival st)) = true).
    { destruct (np_next_arrival_witness st) as [?|(i & Hi & Hc & Ha)]; [done|].
      unfold np_some_ready. apply existsb_exists. exists i.
      split; [apply in_seq; simpl; lia|].
      unfold np_ready, np_idle. cbn [n_procs n_completed n_time].
      rewrite Hc, Ha. simpl. apply Z.leb_refl. }
    unfold np_measure in *. rewrite Hnone, Hsome.
    unfold np_idle. cbn [n_procs n_completed]. lia.
Qed.

Lemma NP_loop_terminates :
  exists st, NP_loop key (2 * length procs0 + 2) procs0 = Done st.
Proof.
  unfold NP_loop.
  apply (while_terminates _ _ (np_inv procs0) np_measure).
  - intros st st' Hinv _ Hb. split.
    + by apply (np_inv_step key procs0 st).
    + by apply np_step_measure.
  - apply np_inv_init.
  - unfold np_measure, np_init. cbn [n_procs n_completed].
    destruct (np_some_ready _); lia.
Qed.
End NonPreemptiveTerminates.

Section ShortestRemainingTerminates.
Variable procs0 : list Process.
Hypothesis Hbounded : Forall bounded procs0.
Hypothesis Hbt_max : Forall (fun p => bt p < INT_MAX) procs0.

Lemma srtf_rem_below st i :
  srtf_inv procs0 st -> (i < length (s_procs st))%nat ->
  rem_bt (s_procs st !!! i) < INT_MAX.
Proof.
  intros Hinv Hi.
  pose proof (static_lookup _ _ i (srtf_static _ _ Hinv)) as Hs.
  pose proof (static_length _ _ (srtf_static _ _ Hinv)) as Hl.
  apply static_eq in Hs as (_ & _ & Hb & _).
  pose proof (Forall_lookup_total_1 _ _ i Hbt_max ltac:(lia)) as Hmax.
  pose proof (Forall_lookup_total_1 _ _ i (srtf_run _ _ Hinv) Hi) as [Hr _].
  simpl in Hmax. lia.
Qed.

Lemma srtf_scan_finds_ready st :
  srtf_inv procs0 st ->
  select (srtf_ready st) rem_bt (s_procs st) = None ->
  srtf_some_ready st = false.
Proof.
  intros Hinv Hsel. unfold srtf_some_ready.
  destruct (existsb _ _) eqn:Hex; [|done].
  apply existsb_exists in Hex as (j & Hj & Hr).
  apply in_seq in Hj.
  pose proof (select_None _ _ _ j Hsel ltac:(lia) Hr).
  pose proof (srtf_rem_below st j Hinv ltac:(lia)). lia.
Qed.

Lemma srtf_next_arrival_witness procs :
  (forall i, (i < length procs)%nat -> arr (procs !!! i) < INT_MAX) ->
  (srtf_next_arrival procs).2 = true ->
  exists i, (i < length procs)%nat /\ 0 < rem_bt (procs !!! i) /\
            arr (procs !!! i) = (srtf_next_arrival procs).1.
Proof.
  intros Harr. unfold srtf_next_arrival.
  apply (fold_left_seq_invariant _
           (fun m (acc : Z * bool) =>
              (acc.2 = false -> acc.1 = INT_MAX) /\
              (acc.2 = true ->
               exists i, (i < m)%nat /\ 0 < rem_bt (procs !!! i) /\
                         arr (procs !!! i) = acc.1))).
  - split; [done|discriminate].
  - intros k [a found] Hk [Hnone Hsome]. simpl in Hnone, Hsome.
    specialize (Harr k Hk).
    destruct (Z.gtb_spec (rem_bt (procs !!! k)) 0) as [Hpos|Hnp]; simpl.
    + split; [discriminate|]. intros _.
      destruct (Z.le_gt_cases (arr (procs !!! k)) a) as [Hle|Hgt].
      * exists k. split; [lia|]. split; [lia|lia].
      * rewrite Z.min_l by lia. destruct found; [|specialize (Hnone eq_refl); lia].
        destruct (Hsome eq_refl) as (i & Hi & Hri & Hai).
        exists i. split; [lia|done].
    + split; [done|]. intros Hf. destruct (Hsome Hf) as (i & Hi & Hri & Hai).
      exists i. split; [lia|done].
Qed.

Lemma srtf_step_measure st st' :
  srtf_inv procs0 st -> SRTF_body st = Continue st' ->
  (srtf_measure st' < srtf_measure st)%nat.
Proof.
  intros Hinv Hbody.
  pose proof (srtf_inv_step procs0 Hbounded st st' Hinv Hbody) as Hinv'.
  pose proof (remaining_nonneg _ _ (srtf_run _ _ Hinv')) as Hnn.
  revert Hbody. unfold SRTF_body.
  destruct (select (srtf_ready st) rem_bt (s_procs st)) as [idx|] eqn:Hsel.
  - apply select_Some in Hsel as (Hidx & _ & _ & _).
    pose proof (list_lookup_lookup_total_lt _ _ Hidx) as Hlook.
    rewrite list_lookup_total_alter_eq by done. cbn [rem_bt set_rem_bt].
    intros Hbody.
    assert (Hrem : remaining (s_procs st') = remaining (s_procs st) - 1).
    { destruct (_ =? 0); injection Hbody as <-; cbn [s_procs];
        rewrite ?list_alter_alter_eq, (remaining_alter _ _ _ _ Hlook);
        simpl; lia. }
    unfold srtf_measure. rewrite Hrem in *.
    destruct (srtf_some_ready st'), (srtf_some_ready st); lia.
  - pose proof (srtf_scan_finds_ready st Hinv Hsel) as Hnone.
    destruct (srtf_next_arrival (s_procs st)) as [nxt found] eqn:Hn.
    destruct found; [|discriminate]. intros Hbody.
    assert (Hst' : s_procs st' = s_procs st /\ s_time st' = nxt).
    { destruct (negb _); by injection Hbody as <-. }
    destruct Hst' as [Hp Ht].
    assert (Hsome : srtf_some_ready st' = true).
    { destruct (srtf_next_arrival_witness (s_procs st)) as (i & Hi & Hr & Ha).
      - intros i Hi.
        pose proof (bounded_static _ _ i (srtf_static _ _ Hinv) Hbounded Hi)
          as [? _]. lia.
      - by rewrite Hn.
      - unfold srtf_some_ready. apply existsb_exists. exists i.
        rewrite Hp. split; [apply in_seq; simpl; lia|].
        unfold srtf_ready. rewrite Hp, Ht, Ha, Hn. simpl.
        rewrite Z.leb_refl. simpl. apply Z.gtb_gt. lia. }
    unfold srtf_measure. rewrite Hnone, Hsome, Hp. lia.
Qed.

Lemma SRTF_loop_terminates :
  exists st,
    SRTF_loop (2 * Z.to_nat (total_burst procs0) + 2) procs0 = Done st.
Proof.
  unfold SRTF_loop.
  apply (while_terminates _ _ (srtf_inv procs0) srtf_measure).
  - intros st st' Hinv _ Hb. split.
    + by apply (srtf_inv_step procs0 Hbounded st).
    + by apply srtf_step_measure.
  - by apply srtf_inv_init.
  - unfold srtf_measure, srtf_init. cbn [s_procs].
    assert (Hrem : remaining (map (fun p => set_rem_bt (bt p) p) procs0)
                   = total_burst procs0).
    { clear. induction procs0 as [|p l IH]; simpl; [done|]. by rewrite IH. }
    rewrite Hrem. destruct (srtf_some_ready _); lia.
Qed.
End ShortestRemainingTerminates.

Section RoundRobinTerminates.
Variables (procs0 : list Process) (quantum : Z).
Hypothesis Hbounded : Forall bounded procs0.
Hypothesis Hquantum : 0 < quantum.

Lemma rr_step_measure st st' :
  rr_inv procs0 st -> RR_body quantum st = Continue st' ->
  (rr_measure st' < rr_measure st)%nat.
Proof.
  intros Hinv Hbody.
  pose proof (rr_inv_step procs0 quantum Hbounded Hquantum st st' Hinv Hbody)
    as Hinv'.
  pose proof (remaining_nonneg _ _ (rr_run _ _ Hinv')) as Hnn.
  destruct Hinv as [Hst Hrun Hcnt Hsched].
  revert Hbody. unfold RR_body, rr_measure at 2, rr_queue_after.
  destruct (enqueue_arrivals_from (r_procs st) (r_time st) (r_readyQueue st)
              (r_inQueue st) (r_next_proc_to_arrive st))
    as [[queue1 inQ1] next1] eqn:Henq1.
  apply (enqueue_arrivals_from_sched _ _ None _ _ _ _ _ _
           (rr_inv_bt _ Hbounded _ Hst) Hsched) in Henq1.
  cbn [fst]. destruct queue1 as [|cur rest].
  - destruct (rr_next_arrival _ _ _) as [nxt|] eqn:Hna; [|discriminate].
    apply rr_next_arrival_Some in Hna as [Hleft Hnxt].
    destruct Henq1 as (Hl & Hn1 & _ & _ & _ & Hf & _).
    destruct (Hf next1 ltac:(lia)) as [Hfalse Hfresh].
    pose proof (rr_inv_bt _ Hbounded _ Hst next1 ltac:(lia)) as Hbt.
    specialize (Hnxt ltac:(lia)). subst nxt.
    intros Hbody.
    assert (Hafter : rr_queue_after st' <> []).
    { assert (Hq : rr_queue_after st'
                   = (enqueue_arrivals_from (r_procs st)
                        (arr (r_procs st !!! next1)) [] inQ1 next1).1.1).
      { destruct (negb _); by injection Hbody as <-. }
      rewrite Hq. unfold enqueue_arrivals_from.
      destruct (length (r_procs st) - next1)%nat as [|left] eqn:Hlen; [lia|].
      simpl. rewrite Z.leb_refl, Hfalse. simpl.
      destruct (enqueue_arrivals_prefix (r_procs st)
                  (arr (r_procs st !!! next1)) left (S next1) [next1]
                  (<[next1 := true]> inQ1) (S next1)) as [more ->].
      discriminate. }
    assert (Hprocs : r_procs st' = r_procs st).
    { destruct (negb _); by injection Hbody as <-. }
    unfold rr_measure. rewrite Hprocs.
    destruct (rr_queue_after st'); [done|lia].
  - destruct Henq1 as (_ & Hn1 & _ & Hq1 & _).
    destruct (Hq1 cur ltac:(left)) as (Hcur & _ & _ & Hpos).
    assert (Hidx : (cur < length (r_procs st))%nat) by lia.
    pose proof (list_lookup_lookup_total_lt _ _ Hidx) as Hlook.
    set (e := Z.min quantum (rem_bt (r_procs st !!! cur))).
    assert (He : 0 < e) by lia.
    destruct (enqueue_arrivals_from _ _ _ _ _) as [[queue3 inQ3] next3].
    intros Hbody.
    assert (Hrem : remaining (r_procs st') = remaining (r_procs st) - e).
    { destruct (_ =? 0); injection Hbody as <-; cbn [r_procs];
        rewrite ?list_alter_alter_eq, (remaining_alter _ _ _ _ Hlook);
        simpl; lia. }
    unfold rr_measure. rewrite Hrem in *.
    destruct (rr_queue_after st'); lia.
Qed.

Lemma RR_loop_terminates :
  pid_table_ok procs0 = true ->
  exists st,
    RR_loop quantum (2 * Z.to_nat (total_burst procs0) + 2) procs0 = Done st.
Proof.
  intros Hpid. unfold RR_loop. rewrite Hpid.
  apply (while_terminates _ _ (rr_inv procs0) rr_measure).
  - intros st st' Hinv _ Hb. split.
    + by apply (rr_inv_step procs0 quantum Hbounded Hquantum st).
    + by apply rr_step_measure.
  - by apply rr_inv_init.
  - unfold rr_measure, rr_init. cbn [r_procs].
    assert (Hrem : remaining (map (fun p => set_rem_bt (bt p) p) procs0)
                   = total_burst procs0).
    { clear. induction procs0 as [|p l IH]; simpl; [done|]. by rewrite IH. }
    rewrite Hrem. destruct (rr_queue_after _); lia.
Qed.
End RoundRobinTerminates.

(** On a valid input in that range every scheduler ends with a result. *)
Lemma schedulers_terminate_unbounded (S : Sorter) (procs : list Process) (quantum : Z) :
  valid_input procs -> 0 < quantum -> in_range S procs ->
  (exists r, yields (SJF S procs) r) /\
  (exists r, yields (PriorityScheduling S procs) r) /\
  (exists r, yields (SRTF S procs) r) /\
  (exists r, yields (RoundRobin S procs quantum) r).
Proof.
  intros Hv Hq [Hmax Hpid].
  pose proof (valid_input_bounds _ Hv) as Hb.
  assert (Hbt : Forall (fun p => bt p < INT_MAX) procs).
  { eapply Forall_impl; [exact Hmax|]. by intros p [? _]. }
  assert (Hpri : Forall (fun p => priority p < INT_MAX) procs).
  { eapply Forall_impl; [exact Hmax|]. by intros p [_ ?]. }
  split; [|split; [|split]].
  - destruct (NP_loop_terminates bt procs) as [st Hst];
      [by intros p q (_ & _ & ? & _)%static_eq|done|].
    eexists. exists (2 * length procs + 2)%nat. unfold SJF, NP.
    by rewrite Hst.
  - destruct (NP_loop_terminates priority procs) as [st Hst];
      [by intros p q (_ & _ & _ & ?)%static_eq|done|].
    eexists. exists (2 * length procs + 2)%nat. unfold PriorityScheduling, NP.
    by rewrite Hst.
  - destruct (SRTF_loop_terminates procs Hb Hbt) as [st Hst].
    eexists. exists (2 * Z.to_nat (total_burst procs) + 2)%nat. unfold SRTF.
    by rewrite Hst.
  - destruct (RR_loop_terminates (sort_by S arr procs) quantum) as [st Hst];
      [by apply Forall_bounded_sorted|done|done|].
    eexists. eexists. unfold RoundRobin. by rewrite Hst.
Qed.

(** ** The clock stays in range *)

(** FCFS: the clock ends within the horizon and every completion is at
    most the final clock. *)
Lemma FCFS_loop_clock procs st :
  Forall bounded procs ->
  f_time st <= f_time (FCFS_loop procs st).2 /\
  f_time (FCFS_loop procs st).2
  <= Z.max (f_time st) (latest_arrival procs) + total_burst procs /\
  Forall (fun p => ct p <= f_time (FCFS_loop procs st).2)
         (FCFS_loop procs st).1.
Proof.
  intros Hb. revert st.
  induction Hb as [|p rest [_ Hbt] _ IH]; intros st.
  - simpl. split; [lia|]. split; [lia|constructor].
  - rewrite FCFS_loop_cons. cbn [fst snd].
    assert (Hstep : f_time (FCFS_step p st).2
                    = Z.max (f_time st) (arr p) + bt p).
    { unfold FCFS_step. cbn [snd f_time].
      destruct (Z.gtb_spec (arr p) (f_time st)); simpl; lia. }
    assert (Hct : ct (FCFS_step p st).1 = f_time (FCFS_step p st).2)
      by reflexivity.
    destruct (IH (FCFS_step p st).2) as (Hmono & Hle & Hrest).
    set (st1 := (FCFS_step p st).2) in *.
    simpl latest_arrival. simpl total_burst.
    split; [lia|]. split; [lia|].
    constructor; [lia|done].
Qed.

Section NonPreemptiveClock.
Variables (key : Process -> Z) (procs0 : list Process).
Hypothesis Hbounded : Forall bounded procs0.

Lemma np_bt_nonneg st :
  np_inv procs0 st -> Forall (fun p => 0 <= bt p) (n_procs st).
Proof.
  intros Hinv. apply (Forall_lookup_total_2 (fun p => 0 <= bt p)). intros i Hi.
  pose proof (bounded_static _ _ i (np_static _ _ Hinv) Hbounded Hi) as [_ ?].
  lia.
Qed.

Lemma np_clock_init : np_clock procs0 (np_init procs0).
Proof.
  unfold np_clock, np_init. cbn [n_time n_completed n_procs].
  assert (H : forall l, dispatched (replicate (length l) false) l = [])
    by (induction l; done).
  rewrite H. simpl. pose proof (latest_arrival_nonneg procs0).
  split; [lia|]. intros i Hi. rewrite lookup_total_replicate_2 by done.
  discriminate.
Qed.

Lemma np_clock_step st st' :
  np_inv procs0 st -> np_clock procs0 st -> NP_body key st = Continue st' ->
  np_clock procs0 st'.
Proof.
  intros Hinv [Htime Hct].
  pose proof (np_bt_nonneg st Hinv) as Hnn.
  pose proof (total_burst_dispatched (n_completed st) _ Hnn) as [Hw _].
  unfold NP_body.
  destruct (select (np_ready st) key (n_procs st)) as [idx|] eqn:Hsel.
  - intros [= <-].
    apply select_Some in Hsel as (Hidx & Hready & _ & _).
    unfold np_ready in Hready. apply andb_prop in Hready as [Hnc _].
    apply negb_true_iff in Hnc.
    assert (Hc : n_completed st !! idx = Some false).
    { rewrite list_lookup_lookup_total_lt by (rewrite (np_len _ _ Hinv); lia).
      by rewrite Hnc. }
    pose proof (list_lookup_lookup_total_lt _ _ Hidx) as Hp.
    pose proof (Forall_lookup_total_1 _ _ idx Hnn Hidx) as Hbt. simpl in Hbt.
    unfold np_clock, np_dispatch. cbn [n_time n_completed n_procs].
    rewrite (total_burst_dispatched_insert
               (finish (n_time st + bt (n_procs st !!! idx)))
               _ _ _ _ (fun x => eq_refl) Hc Hp).
    split; [lia|]. intros i. rewrite length_alter. intros Hi.
    destruct (decide (idx = i)) as [->|Hne].
    + intros _. rewrite list_lookup_total_alter_eq by done. simpl. lia.
    + rewrite list_lookup_total_insert_ne, list_lookup_total_alter_ne by done.
      intros Hci. specialize (Hct i Hi Hci). lia.
  - destruct (Z.eqb_spec (np_next_arrival st) INT_MAX) as [Hn|Hn];
      [discriminate|].
    intros [= <-]. unfold np_clock, np_idle. cbn [n_time n_completed n_procs].
    split; [|done].
    destruct (np_next_arrival_witness st) as [?|(i & Hi & _ & <-)]; [done|].
    pose proof (latest_arrival_lookup _ i Hi) as Hla.
    rewrite (latest_arrival_static _ _ (np_static _ _ Hinv)) in Hla. lia.
Qed.

Lemma NP_loop_clock fuel st :
  NP_loop key fuel procs0 = Done st ->
  Forall (fun p => ct p <= horizon procs0) (n_procs st).
Proof.
  intros Hrun. unfold NP_loop in Hrun.
  apply (while_invariant _ _
           (fun s => np_inv procs0 s /\ np_clock procs0 s)) in Hrun.
  - assert (H : (np_inv procs0 st /\ np_clock procs0 st) /\
                Forall (fun b => b = true) (n_completed st)).
    { destruct Hrun as [[Hinv Hc]|(st0 & Hinv & Hc & Hb)].
      - split; [done|]. apply (np_exit_completed key procs0); [done|tauto|].
        by left.
      - assert (st = st0) as ->.
        { unfold NP_body in Hb. destruct (select _ _ _); [discriminate|].
          destruct (negb _); [discriminate|]. congruence. }
        split; [done|]. apply (np_exit_completed key procs0); [done|tauto|].
        by right. }
    destruct H as [[Hinv [_ Hct]] Hall].
    pose proof (total_burst_dispatched (n_completed st) _ (np_bt_nonneg st Hinv))
      as [_ Hw].
    rewrite (total_burst_static _ _ (np_static _ _ Hinv)) in Hw.
    apply (Forall_lookup_total_2 (fun p => ct p <= horizon procs0)).
    intros i Hi. unfold horizon.
    assert (Hci : n_completed st !!! i = true).
    { apply (Forall_lookup_total_1 _ _ i Hall). by rewrite (np_len _ _ Hinv). }
    specialize (Hct i Hi Hci). lia.
  - intros s s' [Hs Ht] _ Hb. split.
    + by apply (np_inv_step key procs0 s).
    + by apply (np_clock_step s).
  - split; [apply np_inv_init|apply np_clock_init].
Qed.
End NonPreemptiveClock.

Lemma work_clock_complete procs0 procs time idx e :
  (idx < length procs)%nat -> 0 < e ->
  work_clock procs0 procs time ->
  work_clock procs0
             (alter (finish (time + e)) idx
                    (alter (fun p => set_rem_bt (rem_bt p - e) p) idx procs))
             (time + e).
Proof.
  intros Hidx He [Htime Hct].
  pose proof (list_lookup_lookup_total_lt _ _ Hidx) as Hlook.
  unfold work_clock. rewrite list_alter_alter_eq.
  rewrite (remaining_alter _ _ _ _ Hlook). simpl.
  split; [lia|].
  eapply Forall_alter_change; [exact Hct| |].
  - unfold run_clock. intros x Hx Hz. specialize (Hx Hz). lia.
  - intros x Hx _. rewrite Hlook in Hx. injection Hx as <-.
    unfold run_clock. simpl. lia.
Qed.

Section ShortestRemainingClock.
Variable procs0 : list Process.
Hypothesis Hbounded : Forall bounded procs0.

Lemma srtf_clock_step st st' :
  srtf_inv procs0 st -> work_clock procs0 (s_procs st) (s_time st) ->
  SRTF_body st = Continue st' ->
  work_clock procs0 (s_procs st') (s_time st').
Proof.
  intros Hinv Hclock. unfold SRTF_body.
  destruct (select (srtf_ready st) rem_bt (s_procs st)) as [idx|] eqn:Hsel.
  - apply select_Some in Hsel as (Hidx & _).
    rewrite list_lookup_total_alter_eq by done.
    cbn [rem_bt set_rem_bt].
    destruct (Z.eqb_spec (rem_bt (s_procs st !!! idx) - 1) 0) as [Hz|Hnz];
      intros [= <-]; cbn [s_procs s_time].
    + by apply work_clock_complete.
    + by apply work_clock_run.
  - destruct (srtf_next_arrival (s_procs st)) as [nxt found] eqn:Hn.
    destruct found; [|discriminate].
    assert (Hle : nxt <= latest_arrival procs0).
    { destruct (srtf_next_arrival_witness (s_procs st)) as (i & Hi & _ & Ha).
      - intros i Hi.
        pose proof (bounded_static _ _ i (srtf_static _ _ Hinv) Hbounded Hi)
          as [? _].
        lia.
      - by rewrite Hn.
      - rewrite Hn in Ha. simpl in Ha. subst nxt.
        rewrite <- (latest_arrival_static _ _ (srtf_static _ _ Hinv)).
        by apply latest_arrival_lookup. }
    pose proof (work_clock_idle _ _ _ nxt _ (srtf_run _ _ Hinv)
                  (srtf_static _ _ Hinv) Hle Hclock) as Hidle.
    destruct (negb _); intros [= <-]; exact Hidle.
Qed.

Lemma SRTF_loop_clock fuel st :
  SRTF_loop fuel procs0 = Done st ->
  Forall (fun p => ct p <= horizon procs0) (s_procs st).
Proof.
  intros Hrun. unfold SRTF_loop in Hrun.
  apply (while_invariant _ _
           (fun s => srtf_inv procs0 s /\
                     work_clock procs0 (s_procs s) (s_time s))) in Hrun.
  - assert (H : (srtf_inv procs0 st /\
                 work_clock procs0 (s_procs st) (s_time st)) /\
                Forall (fun p => rem_bt p = 0) (s_procs st)).
    { destruct Hrun as [[Hinv Hc]|(st0 & Hinv & Hc & Hb)].
      - split; [done|]. apply (srtf_inv_exit procs0); [tauto|by left].
      - pose proof (SRTF_body_Break _ _ Hb) as ->.
        split; [done|]. apply (srtf_inv_exit procs0); [tauto|by right]. }
    destruct H as [[Hinv Hclock] Hzero].
    exact (work_clock_exit _ _ _ _ (srtf_run _ _ Hinv) Hzero Hclock).
  - intros s s' [Hs Ht] _ Hb. split.
    + by apply (srtf_inv_step procs0 Hbounded s).
    + by apply (srtf_clock_step s).
  - split; [by apply srtf_inv_init|by apply work_clock_init].
Qed.
End ShortestRemainingClock.

Section RoundRobinClock.
Variables (procs0 : list Process) (quantum : Z).
Hypothesis Hbounded : Forall bounded procs0.
Hypothesis Hquantum : 0 < quantum.

Lemma rr_clock_step st st' :
  rr_inv procs0 st -> work_clock procs0 (r_procs st) (r_time st) ->
  RR_body quantum st = Continue st' ->
  work_clock procs0 (r_procs st') (r_time st').
Proof.
  intros [Hst Hrun Hcnt Hsched] Hclock. unfold RR_body.
  destruct (enqueue_arrivals_from (r_procs st) (r_time st) (r_readyQueue st) (r_inQueue st)
                       (r_next_proc_to_arrive st)) as [[queue1 inQ1] next1] eqn:Henq1.
  apply (enqueue_arrivals_from_sched _ _ None _ _ _ _ _ _
           (rr_inv_bt procs0 Hbounded _ Hst) Hsched) in Henq1.
  destruct queue1 as [|cur rest].
  - destruct (rr_next_arrival _ _ _) as [nxt|] eqn:Hna; [|discriminate].
    assert (Hle : nxt <= latest_arrival procs0).
    { destruct (rr_next_arrival_arr _ _ _ _ Hna) as (j & Hj & ->).
      destruct Henq1 as (_ & Hn1 & _).
      rewrite <- (latest_arrival_static _ _ Hst).
      apply latest_arrival_lookup. lia. }
    pose proof (work_clock_idle _ _ _ nxt _ Hrun Hst Hle Hclock) as Hidle.
    destruct (negb _); intros [= <-]; exact Hidle.
  - pose proof Henq1 as (_ & Hn1 & _ & Hq1 & _).
    destruct (Hq1 cur ltac:(left)) as (Hcur & _ & Harr & Hpos).
    assert (Hidx : (cur < length (r_procs st))%nat) by lia.
    set (e := Z.min quantum (rem_bt (r_procs st !!! cur))).
    assert (He : 0 < e <= rem_bt (r_procs st !!! cur)) by lia.
    set (procs1 := alter (fun p => set_rem_bt (rem_bt p - e) p) cur (r_procs st)).
    destruct (enqueue_arrivals_from procs1 (r_time st + e) rest
                         (<[cur := false]> inQ1) next1)
      as [[queue3 inQ3] next3] eqn:Henq2.
    assert (Hcur1 : procs1 !!! cur
                    = set_rem_bt (rem_bt (r_procs st !!! cur) - e)
                                 (r_procs st !!! cur)).
    { unfold procs1. by rewrite list_lookup_total_alter_eq. }
    rewrite Hcur1. cbn [rem_bt set_rem_bt].
    destruct (Z.eqb_spec (rem_bt (r_procs st !!! cur) - e) 0) as [Hz|Hnz];
      intros [= <-]; cbn [r_procs r_time]; unfold procs1.
    + apply work_clock_complete; [done|lia|done].
    + apply work_clock_run; [done|lia|done|done].
Qed.

Lemma RR_loop_clock fuel st :
  RR_loop quantum fuel procs0 = Done st ->
  Forall (fun p => ct p <= horizon procs0) (r_procs st).
Proof.
  unfold RR_loop. destruct (pid_table_ok procs0); [|discriminate].
  intros Hrun.
  apply (while_invariant _ _
           (fun s => rr_inv procs0 s /\
                     work_clock procs0 (r_procs s) (r_time s))) in Hrun.
  - assert (H : (rr_inv procs0 st /\ Forall (fun p => rem_bt p = 0) (r_procs st))
                /\ work_clock procs0 (r_procs st) (r_time st)).
    { destruct Hrun as [[[Hinv Hclock] Hc]|(st0 & [Hinv Hclock] & Hc & Hb)].
      - split; [|done]. split; [done|]. by apply (rr_inv_exit_cond procs0).
      - split; [by apply (rr_inv_exit_break procs0 quantum Hbounded st0)|].
        revert Hb. unfold RR_body.
        destruct (enqueue_arrivals_from _ _ _ _ _) as [[queue1 inQ1] next1].
        destruct queue1 as [|cur rest].
        + destruct (rr_next_arrival _ _ _); [destruct (negb _); discriminate|].
          by intros [= <-].
        + destruct (enqueue_arrivals_from _ _ _ _ _) as [[queue3 inQ3] next3].
          destruct (_ =? 0); discriminate. }
    destruct H as [[Hinv Hzero] Hclock].
    exact (work_clock_exit _ _ _ _ (rr_run _ _ Hinv) Hzero Hclock).
  - intros s s' [Hs Ht] _ Hb. split.
    + by apply (rr_inv_step procs0 quantum Hbounded Hquantum s).
    + by apply (rr_clock_step s).
  - split; [by apply rr_inv_init|by apply work_clock_init].
Qed.
End RoundRobinClock.

(** No completion time exceeds the horizon of the input. *)
Lemma completions_in_range_unbounded (S : Sorter) (procs : list Process) (quantum : Z)
    (r : Result) :
  valid_input procs -> 0 < quantum -> scheduled S procs quantum r ->
  Forall (fun p => ct p <= horizon procs) (res_procs r) /\
  horizon procs <= INT_MAX.
Proof.
  intros Hv Hq Hr. split; [|apply Hv].
  pose proof (valid_input_bounds _ Hv) as Hb.
  destruct Hr as [->|[[fuel Hr]|[[fuel Hr]|[[fuel Hr]|[fuel Hr]]]]].
  - unfold FCFS.
    pose proof (FCFS_loop_clock (sort_by S arr procs) (mkFcfs 0 [0] [])
                  (Forall_sorted S arr _ _ Hb)) as (_ & Hend & Hct).
    destruct (FCFS_loop _ _) as [procs' st]. simpl in *.
    apply Forall_sorted.
    rewrite (latest_arrival_Permutation _ _ (sort_by_perm S arr procs)),
            (total_burst_Permutation _ _ (sort_by_perm S arr procs)) in Hend.
    pose proof (latest_arrival_nonneg procs).
    eapply Forall_impl; [exact Hct|]. intros p Hp. simpl in Hp.
    unfold horizon. lia.
  - apply outcome_map_Done in Hr as (st & Hloop & ->).
    apply Forall_sorted. by apply (NP_loop_clock bt procs Hb fuel).
  - apply outcome_map_Done in Hr as (st & Hloop & ->).
    apply Forall_sorted. by apply (NP_loop_clock priority procs Hb fuel).
  - apply outcome_map_Done in Hr as (st & Hloop & ->).
    destruct (merge_gantt _ _). apply Forall_sorted.
    by apply (SRTF_loop_clock procs Hb fuel).
  - apply outcome_map_Done in Hr as (st & Hloop & ->).
    destruct (merge_gantt _ _). do 2 apply Forall_sorted.
    rewrite <- (horizon_sorted S arr procs).
    apply (RR_loop_clock _ quantum (Forall_sorted S arr _ _ Hb) Hq fuel _ Hloop).
Qed.

(** ** Total time per label *)

(** The busy segments of FCFS: one per process, in sorted order, of the
    length of its burst. *)
Lemma FCFS_busy_segments (S : Sorter) (procs : list Process) :
  map label_length (busy (gantt (FCFS S procs)))
  = map (fun p => (block_id p, bt p)) (sort_by S arr procs).
Proof.
  unfold FCFS, gantt.
  destruct (FCFS_loop_gantt (sort_by S arr procs) (mkFcfs 0 [0] []))
    as (new & Hseg & Hbusy); [by split|].
  destruct (FCFS_loop _ _) as [procs' st]. simpl in *. by rewrite Hseg.
Qed.

(** In the chart of FCFS the segments of a process add up to its burst. *)
Lemma FCFS_labelled_time_unbounded (S : Sorter) (procs : list Process) (p : Process) :
  valid_input procs -> p ∈ procs ->
  labelled_time (block_id p) (gantt (FCFS S procs)) = bt p.
Proof.
  intros Hv Hp.
  rewrite labelled_time_busy by apply block_id_not_IDLE.
  rewrite FCFS_busy_segments. apply label_sum_present.
  - rewrite (Permutation_map pid (sort_by_perm S arr procs)). apply Hv.
  - by rewrite sort_by_perm.
Qed.

Section NonPreemptiveTrace.
Variables (key : Process -> Z) (procs0 : list Process).
Hypothesis Hbounded : Forall bounded procs0.

Lemma np_trace_init : np_trace (np_init procs0).
Proof.
  split; [done|]. split; [done|]. simpl.
  assert (H : forall l, dispatched (replicate (length l) false) l = [])
    by (induction l; done).
  by rewrite H.
Qed.

Lemma np_trace_step st st' :
  np_inv procs0 st -> np_trace st -> NP_body key st = Continue st' ->
  np_trace st'.
Proof.
  intros Hinv (Hlen & Hlast & Hperm). unfold NP_body.
  destruct (select (np_ready st) key (n_procs st)) as [idx|] eqn:Hsel.
  - intros [= <-].
    apply select_Some in Hsel as (Hidx & Hready & _ & _).
    unfold np_ready in Hready. apply andb_prop in Hready as [Hnc _].
    apply negb_true_iff in Hnc.
    assert (Hc : n_completed st !! idx = Some false).
    { rewrite list_lookup_lookup_total_lt by (rewrite (np_len _ _ Hinv); lia).
      by rewrite Hnc. }
    pose proof (list_lookup_lookup_total_lt _ _ Hidx) as Hp.
    unfold np_trace, np_dispatch.
    cbn [n_timeline n_blocks n_time n_completed n_procs].
    split; [rewrite !length_app; simpl; lia|]. split; [by rewrite last_snoc|].
    rewrite (segments_snoc _ _ (n_time st)) by done.
    unfold busy. rewrite filter_app, map_app.
    rewrite filter_cons_True by (simpl; apply block_id_not_IDLE).
    rewrite (dispatched_insert (finish (n_time st + bt (n_procs st !!! idx)))
               _ _ _ _ (fun x => eq_refl) Hc Hp).
    fold (busy (segments (n_timeline st) (n_blocks st))).
    rewrite Hperm. etransitivity; [apply Permutation_app_comm|].
    cbn [map app]. apply Permutation_cons; [|done].
    unfold label_length, label_burst. simpl. f_equal. lia.
  - destruct (negb _); [|discriminate]. intros [= <-].
    unfold np_trace, np_idle.
    cbn [n_timeline n_blocks n_time n_completed n_procs].
    split; [rewrite !length_app; simpl; lia|]. split; [by rewrite last_snoc|].
    rewrite (segments_snoc _ _ (n_time st)) by done.
    unfold busy. rewrite filter_app, filter_cons_False by (simpl; tauto).
    by rewrite app_nil_r.
Qed.

Lemma NP_loop_trace fuel st :
  NP_loop key fuel procs0 = Done st ->
  Permutation
    (map label_length (busy (segments (n_timeline st) (n_blocks st))))
    (map label_burst procs0).
Proof.
  intros Hrun. unfold NP_loop in Hrun.
  apply (while_invariant _ _ (fun s => np_inv procs0 s /\ np_trace s)) in Hrun.
  - assert (H : (np_inv procs0 st /\ np_trace st) /\
                Forall (fun b => b = true) (n_completed st)).
    { destruct Hrun as [[Hinv Hc]|(st0 & Hinv & Hc & Hb)].
      - split; [done|]. apply (np_exit_completed key procs0); [done|tauto|].
        by left.
      - assert (st = st0) as ->.
        { unfold NP_body in Hb. destruct (select _ _ _); [discriminate|].
          destruct (negb _); [discriminate|]. congruence. }
        split; [done|]. apply (np_exit_completed key procs0); [done|tauto|].
        by right. }
    destruct H as [[Hinv (_ & _ & Hperm)] Hall].
    rewrite Hperm, (dispatched_all _ _ Hall (np_len _ _ Hinv)).
    by rewrite (label_burst_static _ _ (np_static _ _ Hinv)).
  - intros s s' [Hs Ht] _ Hb. split.
    + by apply (np_inv_step key procs0 s).
    + by apply (np_trace_step s).
  - split; [apply np_inv_init|apply np_trace_init].
Qed.
End NonPreemptiveTrace.

(** The same in the charts of SJF and Priority. *)
Lemma NP_labelled_time_unbounded (key : Process -> Z) (S : Sorter)
    (procs : list Process) (r : Result) (p : Process) :
  valid_input procs -> yields (NP key S procs) r -> p ∈ procs ->
  labelled_time (block_id p) (gantt r) = bt p.
Proof.
  intros Hv [fuel Hr] Hp.
  apply outcome_map_Done in Hr as (st & Hloop & ->).
  apply NP_loop_trace in Hloop; [|by apply valid_input_bounds].
  rewrite labelled_time_busy by apply block_id_not_IDLE.
  unfold gantt, printResults. cbn [res_timeline res_blocks].
  rewrite (label_sum_Permutation _ _ _ Hloop).
  apply label_sum_present; [apply Hv|done].
Qed.

(** The busy segments of FCFS are the processes in sorted order, each as
    one segment of the length of its burst. *)
Theorem FCFS_order_unbounded (S : Sorter) (procs : list Process) :
  valid_input procs ->
  map label_length (busy (gantt (FCFS S procs)))
  = map (fun p => (block_id p, bt p)) (sort_by S arr procs) /\
  Permutation (sort_by S arr procs) procs /\
  StronglySorted (fun a b => arr a <= arr b) (sort_by S arr procs) /\
  (stable S -> pid_ascending procs ->
   StronglySorted arrival_then_pid (sort_by S arr procs)).
Proof.
  intros _. split; [apply FCFS_busy_segments|].
  split; [apply sort_by_perm|]. split; [apply sort_by_sorted|].
  apply stable_sort_by_arrival.
Qed.

(** ** Idle time, bursts and the final clock *)

Lemma idle_time_nil_timeline (bs : list string) : idle_time [] bs = 0.
Proof.
  unfold idle_time. generalize (seq 0 (length bs)).
  intros l. induction l as [|i l IH]; [done|].
  cbn [fold_left]. rewrite andb_false_r. exact IH.
Qed.

Lemma idle_time_single_timeline (t : Z) (bs : list string) :
  idle_time [t] bs = 0.
Proof.
  unfold idle_time. generalize (seq 0 (length bs)).
  intros l. induction l as [|i l IH]; [done|].
  cbn [fold_left]. rewrite andb_false_r. exact IH.
Qed.

Lemma idle_time_cons (b : string) (bs : list string) (t0 t1 : Z)
    (ts : list Z) :
  idle_time (t0 :: t1 :: ts) (b :: bs)
  = (if String.eqb b IDLE then t1 - t0 else 0) + idle_time (t1 :: ts) bs.
Proof.
  unfold idle_time. change (length (b :: bs)) with (S (length bs)).
  rewrite <- cons_seq, <- seq_shift, fold_left_cons_eq, idle_step_shift,
    idle_fold_acc.
  cbv beta.
  change ((b :: bs) !!! 0%nat) with b.
  change ((t0 :: t1 :: ts) !!! 1%nat) with t1.
  change ((t0 :: t1 :: ts) !!! 0%nat) with t0.
  change (1 <? S (S (length ts)))%nat with true.
  rewrite andb_true_r. destruct (String.eqb b IDLE); lia.
Qed.

Lemma idle_time_segments (timeline : list Z) (blocks : list string) :
  idle_time timeline blocks = labelled_time IDLE (segments timeline blocks).
Proof.
  revert timeline. induction blocks as [|b bs IH]; intros [|t0 [|t1 ts]].
  - done.
  - done.
  - done.
  - apply idle_time_nil_timeline.
  - apply idle_time_single_timeline.
  - rewrite idle_time_cons, IH.
    change (segments (t0 :: t1 :: ts) (b :: bs))
      with ((b, t0, t1) :: segments (t1 :: ts) bs).
    change (labelled_time IDLE ((b, t0, t1) :: segments (t1 :: ts) bs))
      with (if String.eqb b IDLE
            then (t1 - t0) + labelled_time IDLE (segments (t1 :: ts) bs)
            else labelled_time IDLE (segments (t1 :: ts) bs)).
    destruct (String.eqb b IDLE); lia.
Qed.

Lemma FCFS_loop_wf procs st : fcfs_wf st -> fcfs_wf (FCFS_loop procs st).2.
Proof.
  revert st. induction procs as [|p rest IH]; intros st Hwf; [done|].
  rewrite FCFS_loop_cons. cbn [snd]. apply IH.
  destruct Hwf as [Hlen Hlast]. unfold FCFS_step, fcfs_wf. cbn [snd].
  destruct (arr p >? f_time st); cbn [f_timeline f_blocks f_time];
    (split; [rewrite !length_app; simpl; lia|by rewrite last_snoc]).
Qed.

Lemma FCFS_loop_clock_least procs st :
  Forall (fun p => 0 <= bt p) procs ->
  f_time st + total_burst procs <= f_time (FCFS_loop procs st).2.
Proof.
  intros Hb. revert st.
  induction Hb as [|p rest Hp _ IH]; intros st; [simpl; lia|].
  rewrite FCFS_loop_cons. cbn [snd].
  specialize (IH (FCFS_step p st).2).
  assert (f_time st + bt p <= f_time (FCFS_step p st).2).
  { unfold FCFS_step. cbn [snd f_time].
    destruct (Z.gtb_spec (arr p) (f_time st)); cbn [f_time]; lia. }
  change (total_burst (p :: rest)) with (bt p + total_burst rest). lia.
Qed.

Lemma FCFS_loop_timeline procs st :
  exists more, f_timeline (FCFS_loop procs st).2 = f_timeline st ++ more.
Proof.
  revert st. induction procs as [|p rest IH]; intros st.
  - exists []. by rewrite app_nil_r.
  - rewrite FCFS_loop_cons. cbn [snd].
    destruct (IH (FCFS_step p st).2) as [more ->].
    unfold FCFS_step. cbn [snd f_timeline].
    destruct (arr p >? f_time st); cbn [f_timeline];
      rewrite <- ?app_assoc; eauto.
Qed.

(** The idle time of FCFS plus the bursts is the last time of the
    timeline, and the idle time is at most the latest arrival. *)
Theorem FCFS_idle_time_unbounded (S : Sorter) (procs : list Process) :
  valid_input procs ->
  res_idle (FCFS S procs) + total_burst procs
  = back 0 (res_timeline (FCFS S procs)) /\
  0 <= res_idle (FCFS S procs) <= latest_arrival procs.
Proof.
  intros Hv.
  pose proof (Forall_bounded_sorted S arr procs Hv) as Hb.
  assert (Hnn : Forall (fun p => 0 <= bt p) (sort_by S arr procs)).
  { eapply Forall_impl; [exact Hb|]. intros p [_ ?]. simpl. lia. }
  unfold FCFS.
  destruct (FCFS_loop_gantt (sort_by S arr procs) (mkFcfs 0 [0] []))
    as (new & Hseg & Hbusy); [by split|].
  pose proof (FCFS_loop_wf (sort_by S arr procs) (mkFcfs 0 [0] [])
                ltac:(by split)) as [Hlen Hlast].
  destruct (FCFS_loop_timeline (sort_by S arr procs) (mkFcfs 0 [0] []))
    as [more Hmore].
  pose proof (FCFS_loop_clock (sort_by S arr procs) (mkFcfs 0 [0] []) Hb)
    as (_ & Hup & _).
  pose proof (FCFS_loop_clock_least (sort_by S arr procs) (mkFcfs 0 [0] []) Hnn)
    as Hlow.
  destruct (FCFS_loop _ _) as [procs' st]. cbn [snd fst f_time f_timeline f_blocks] in *.
  unfold printResults. cbn [res_timeline res_idle].
  rewrite idle_time_segments.
  pose proof (length_sum_split (segments (f_timeline st) (f_blocks st))) as Hsplit.
  rewrite (segments_span _ _ Hlen) in Hsplit.
  rewrite Hseg in Hsplit at 2. cbn [segments app] in Hsplit.
  rewrite Hbusy in Hsplit.
  change (map (fun p => (block_id p, bt p)) (sort_by S arr procs))
    with (map label_burst (sort_by S arr procs)) in Hsplit.
  rewrite length_sum_bursts in Hsplit.
  rewrite (total_burst_Permutation _ _ (sort_by_perm S arr procs)) in *.
  rewrite (latest_arrival_Permutation _ _ (sort_by_perm S arr procs)) in *.
  assert (Hfirst : f_timeline st !!! 0%nat = 0) by (by rewrite Hmore).
  assert (Hback : back 0 (f_timeline st) = f_time st)
    by (unfold back; by rewrite Hlast).
  pose proof (latest_arrival_nonneg procs).
  rewrite Hfirst, Hback in Hsplit. rewrite Hback. lia.
Qed.

Section NonPreemptiveIdle.
Variables (key : Process -> Z) (procs0 : list Process).
Hypothesis Hbounded : Forall bounded procs0.

Lemma np_timeline_head st st' :
  NP_body key st = Continue st' ->
  exists more, n_timeline st' = n_timeline st ++ more.
Proof.
  unfold NP_body. destruct (select _ _ _).
  - intros [= <-]. cbn [np_dispatch n_timeline]. eauto.
  - destruct (negb _); [|discriminate]. intros [= <-].
    cbn [np_idle n_timeline]. eauto.
Qed.

Lemma NP_loop_exit fuel st :
  NP_loop key fuel procs0 = Done st ->
  np_inv procs0 st /\ np_trace st /\ np_clock procs0 st /\
  n_timeline st !!! 0%nat = 0 /\
  Forall (fun b => b = true) (n_completed st).
Proof.
  intros Hrun. unfold NP_loop in Hrun.
  apply (while_invariant _ _
           (fun s => (np_inv procs0 s /\ np_trace s) /\
                     np_clock procs0 s /\ n_timeline s !!! 0%nat = 0))
    in Hrun.
  - assert (H : ((np_inv procs0 st /\ np_trace st) /\
                 np_clock procs0 st /\ n_timeline st !!! 0%nat = 0) /\
                Forall (fun b => b = true) (n_completed st)).
    { destruct Hrun as [[Hinv Hc]|(st0 & Hinv & Hc & Hb)].
      - split; [done|]. apply (np_exit_completed key procs0); [done|tauto|].
        by left.
      - assert (st = st0) as ->.
        { unfold NP_body in Hb. destruct (select _ _ _); [discriminate|].
          destruct (negb _); [discriminate|]. congruence. }
        split; [done|]. apply (np_exit_completed key procs0); [done|tauto|].
        by right. }
    tauto.
  - intros s s' [[Hs Ht] [Hck Hhd]] _ Hb. split; [split|split].
    + by apply (np_inv_step key procs0 s).
    + by apply (np_trace_step key procs0 s).
    + by apply (np_clock_step key procs0 Hbounded s).
    + destruct (np_timeline_head _ _ Hb) as [more ->].
      destruct Ht as (Hlen & _). destruct (n_timeline s); [done|]. exact Hhd.
  - split; [split; [apply np_inv_init|apply np_trace_init]|].
    split; [apply np_clock_init|done].
Qed.
End NonPreemptiveIdle.

(** The same for SJF and Priority. *)
Theorem NP_idle_time_unbounded (key : Process -> Z) (S : Sorter)
    (procs : list Process) (r : Result) :
  valid_input procs -> yields (NP key S procs) r ->
  res_idle r + total_burst procs = back 0 (res_timeline r) /\
  res_idle r <= latest_arrival procs.
Proof.
  intros Hv [fuel Hr].
  pose proof (valid_input_bounds _ Hv) as Hb.
  apply outcome_map_Done in Hr as (st & Hloop & ->).
  apply (NP_loop_exit key procs Hb) in Hloop
    as (Hinv & (Hlen & Hlast & Hperm) & [Hck _] & Hhd & Hall).
  unfold printResults. cbn [res_timeline res_idle].
  rewrite idle_time_segments.
  pose proof (length_sum_split (segments (n_timeline st) (n_blocks st))) as Hsplit.
  rewrite (segments_span _ _ Hlen), (length_sum_Permutation _ _ Hperm) in Hsplit.
  rewrite (dispatched_all _ _ Hall (np_len _ _ Hinv)) in *.
  rewrite length_sum_bursts in Hsplit.
  rewrite (total_burst_static _ _ (np_static _ _ Hinv)) in *.
  assert (Hback : back 0 (n_timeline st) = n_time st)
    by (unfold back; by rewrite Hlast).
  rewrite Hhd, Hback in Hsplit. rewrite Hback. lia.
Qed.

(** ** The states the preemptive loops go through *)

Lemma srtf_reachable_inv procs st :
  Forall bounded procs -> srtf_reachable procs st -> srtf_inv procs st.
Proof.
  intros Hb. induction 1 as [|st st' _ IH _ Hbody]; [by apply srtf_inv_init|].
  by apply (srtf_inv_step procs Hb st).
Qed.

(** The process SRTF runs at a time unit, and what the time unit
    changes. *)
Theorem SRTF_dispatch_choice_unbounded (procs : list Process) (st : srtf_state)
    (idx : nat) :
  Forall bounded procs ->
  srtf_reachable procs st ->
  select (srtf_ready st) rem_bt (s_procs st) = Some idx ->
  ((idx < length procs)%nat /\
   arr (procs !!! idx) <= s_time st /\
   0 < rem_bt (s_procs st !!! idx) /\
   forall j, (j < length procs)%nat ->
             arr (procs !!! j) <= s_time st ->
             0 < rem_bt (s_procs st !!! j) ->
     rem_bt (s_procs st !!! idx) < rem_bt (s_procs st !!! j) \/
     (rem_bt (s_procs st !!! idx) = rem_bt (s_procs st !!! j) /\
      (arr (procs !!! idx) < arr (procs !!! j) \/
       (arr (procs !!! idx) = arr (procs !!! j) /\ (idx <= j)%nat)))) /\
  exists st',
    SRTF_body st = Continue st' /\
    s_time st' = s_time st + 1 /\
    rem_bt (s_procs st' !!! idx) = rem_bt (s_procs st !!! idx) - 1 /\
    forall j, j <> idx -> s_procs st' !!! j = s_procs st !!! j.
Proof.
  intros Hb Hreach Hsel.
  pose proof (srtf_reachable_inv _ _ Hb Hreach) as Hinv.
  pose proof (srtf_static _ _ Hinv) as Hst.
  pose proof (static_length _ _ Hst) as Hlen.
  assert (Harr : forall i, arr (s_procs st !!! i) = arr (procs !!! i)).
  { intros i. pose proof (static_lookup _ _ i Hst) as (_ & ? & _)%static_eq.
    done. }
  split.
  - apply select_Some in Hsel as (Hidx & Hready & _ & Hmin).
    unfold srtf_ready in Hready. apply andb_prop in Hready as [Ha Hr].
    apply Z.leb_le in Ha. apply Z.gtb_gt in Hr. rewrite Harr in Ha.
    split; [lia|]. split; [done|]. split; [lia|].
    intros j Hj Haj Hrj.
    assert (Hready : srtf_ready st j = true).
    { unfold srtf_ready. rewrite Harr.
      apply andb_true_intro. split; [by apply Z.leb_le|apply Z.gtb_gt; lia]. }
    specialize (Hmin j ltac:(lia) Hready). unfold chosen_before in Hmin.
    by rewrite !Harr in Hmin.
  - pose proof Hsel as Hsel'.
    apply select_Some in Hsel' as (Hidx & _).
    unfold SRTF_body. rewrite Hsel.
    rewrite list_lookup_total_alter_eq by done. cbn [rem_bt set_rem_bt].
    destruct (rem_bt (s_procs st !!! idx) - 1 =? 0); eexists;
      (split; [reflexivity|]); cbn [s_time s_procs];
      (split; [done|]); split.
    + rewrite !list_lookup_total_alter_eq by (by rewrite ?length_alter). done.
    + intros j Hj. by rewrite !list_lookup_total_alter_ne.
    + by rewrite list_lookup_total_alter_eq.
    + intros j Hj. by rewrite list_lookup_total_alter_ne.
Qed.

Lemma rr_reachable_inv quantum sorted st :
  Forall bounded sorted -> 0 < quantum ->
  rr_reachable quantum sorted st -> rr_inv sorted st.
Proof.
  intros Hb Hq.
  induction 1 as [|st st' _ IH _ Hbody]; [by apply rr_inv_init|].
  by apply (rr_inv_step sorted quantum Hb Hq st).
Qed.

(** The ready queue at the head of every iteration. *)
Theorem RR_ready_queue_unbounded (quantum : Z) (sorted : list Process)
    (st : rr_state) :
  Forall bounded sorted -> 0 < quantum ->
  rr_reachable quantum sorted st ->
  NoDup (r_readyQueue st) /\
  (r_next_proc_to_arrive st <= length sorted)%nat /\
  (forall i, i ∈ r_readyQueue st ->
     (i < r_next_proc_to_arrive st)%nat /\
     arr (sorted !!! i) <= r_time st /\ 0 < rem_bt (r_procs st !!! i)) /\
  (forall i, (i < r_next_proc_to_arrive st)%nat ->
     0 < rem_bt (r_procs st !!! i) -> i ∈ r_readyQueue st) /\
  (forall i, (r_next_proc_to_arrive st <= i < length sorted)%nat ->
     rem_bt (r_procs st !!! i) = bt (sorted !!! i)).
Proof.
  intros Hb Hq Hreach.
  pose proof (rr_reachable_inv _ _ _ Hb Hq Hreach) as [Hst _ _ Hsched].
  pose proof (static_length _ _ Hst) as Hlen.
  assert (Hfield : forall i, arr (r_procs st !!! i) = arr (sorted !!! i) /\
                             bt (r_procs st !!! i) = bt (sorted !!! i)).
  { intros i.
    pose proof (static_lookup _ _ i Hst) as (_ & ? & ? & _)%static_eq. done. }
  destruct Hsched as (_ & Hnext & Hnd & Hq1 & Hq2 & Hq3 & _).
  split; [done|]. split; [lia|]. split; [|split].
  - intros i Hi. destruct (Hq1 i Hi) as (? & _ & ? & ?).
    destruct (Hfield i) as [<- _]. done.
  - intros i Hi Hr. by destruct (Hq2 i Hi Hr).
  - intros i Hi. destruct (Hq3 i ltac:(lia)) as [_ ->]. apply Hfield.
Qed.

(** ** How much of a result depends on [std::sort] *)

Lemma printResults_agree (S1 S2 : Sorter) (procs : list Process)
    (timeline : list Z) (blocks : list string) :
  NoDup (map pid procs) ->
  printResults S1 procs timeline blocks = printResults S2 procs timeline blocks.
Proof.
  intros Hnd. unfold printResults. by rewrite (sort_by_agree S1 S2 pid procs).
Qed.

(** Which results do not depend on the order [std::sort] leaves equal
    keys in. *)
Theorem sort_independent_unbounded (S1 S2 : Sorter) (procs : list Process)
    (quantum : Z) :
  valid_input procs -> 0 < quantum ->
  (forall fuel, SJF S1 procs fuel = SJF S2 procs fuel) /\
  (forall fuel, PriorityScheduling S1 procs fuel
                = PriorityScheduling S2 procs fuel) /\
  (forall fuel, SRTF S1 procs fuel = SRTF S2 procs fuel) /\
  (NoDup (map arr procs) ->
   FCFS S1 procs = FCFS S2 procs /\
   forall fuel, RoundRobin S1 procs quantum fuel
                = RoundRobin S2 procs quantum fuel).
Proof.
  intros Hv Hq.
  pose proof (valid_input_bounds _ Hv) as Hb.
  destruct Hv as (Hne & Hvalid & Hnd & Hsum).
  assert (Hnp : forall key fuel, NP key S1 procs fuel = NP key S2 procs fuel).
  { intros key fuel. unfold NP.
    destruct (NP_loop key fuel procs) as [st| |] eqn:Hloop; [|done|done].
    apply NP_loop_spec in Hloop as [_ Hs]; [|done].
    cbn [outcome_map]. f_equal. apply printResults_agree.
    by apply (NoDup_pid_static _ procs). }
  split; [apply Hnp|]. split; [apply Hnp|]. split.
  - intros fuel. unfold SRTF.
    destruct (SRTF_loop fuel procs) as [st| |] eqn:Hloop; [|done|done].
    apply SRTF_loop_spec in Hloop as [_ Hs]; [|done].
    cbn [outcome_map]. destruct (merge_gantt _ _). f_equal.
    apply printResults_agree. by apply (NoDup_pid_static _ procs).
  - intros Harr.
    pose proof (sort_by_agree S1 S2 arr procs Harr) as Hsort.
    split.
    + unfold FCFS. rewrite Hsort.
      pose proof (FCFS_loop_static (sort_by S2 arr procs) (mkFcfs 0 [0] []))
        as Hs.
      destruct (FCFS_loop _ _) as [procs' st]. cbn [fst] in Hs.
      apply printResults_agree.
      rewrite (Permutation_static_pid procs' procs); [done|].
      rewrite Hs. apply Permutation_map, sort_by_perm.
    + intros fuel. unfold RoundRobin. rewrite Hsort.
      destruct (RR_loop quantum fuel (sort_by S2 arr procs)) as [st| |]
        eqn:Hloop; [|done|done].
      apply RR_loop_spec in Hloop as [_ Hs]; [| |done].
      * cbn [outcome_map]. destruct (merge_gantt _ _).
        assert (Hpid : NoDup (map pid (r_procs st))).
        { rewrite (Permutation_static_pid (r_procs st) procs); [done|].
          rewrite Hs. apply Permutation_map, sort_by_perm. }
        rewrite (sort_by_agree S1 S2 pid (r_procs st) Hpid).
        f_equal. apply printResults_agree.
        by rewrite (Permutation_map pid (sort_by_perm S2 pid (r_procs st))).
      * rewrite Forall_forall in Hb. apply Forall_forall. intros p Hp.
        apply Hb. by rewrite <- (sort_by_perm S2 arr procs).
Qed.

(** ** Round Robin with a long quantum *)

Lemma FCFS_loop_length procs st : length (FCFS_loop procs st).1 = length procs.
Proof.
  pose proof (FCFS_loop_static procs st) as Hs.
  by apply static_length in Hs.
Qed.

Lemma FCFS_loop_snoc procs p st :
  FCFS_loop (procs ++ [p]) st
  = ((FCFS_loop procs st).1 ++ [(FCFS_step p (FCFS_loop procs st).2).1],
     (FCFS_step p (FCFS_loop procs st).2).2).
Proof.
  revert st. induction procs as [|a procs IH]; intros st.
  - change (FCFS_loop ([] ++ [p]) st) with (FCFS_loop [p] st).
    rewrite FCFS_loop_cons. reflexivity.
  - change ((a :: procs) ++ [p]) with (a :: (procs ++ [p])).
    rewrite !FCFS_loop_cons, IH. reflexivity.
Qed.

Section LongQuantum.
Variables (l : list Process) (quantum : Z).
Hypothesis Hbounded : Forall bounded l.
Hypothesis Hquantum : Forall (fun p => bt p <= quantum) l.

Lemma rr_like_static k :
  map static
    (map (set_rem_bt 0) (FCFS_loop (take k l) (mkFcfs 0 [0] [])).1
     ++ map (fun p => set_rem_bt (bt p) p) (drop k l))
  = map static l.
Proof.
  rewrite map_app, map_static_rem, map_static_reset, FCFS_loop_static.
  by rewrite <- map_app, take_drop.
Qed.

Lemma rr_like_pending k i :
  (k <= i < length l)%nat ->
  (map (set_rem_bt 0) (FCFS_loop (take k l) (mkFcfs 0 [0] [])).1
   ++ map (fun p => set_rem_bt (bt p) p) (drop k l)) !!! i
  = set_rem_bt (bt (l !!! i)) (l !!! i).
Proof.
  intros Hi.
  assert (Hlen : length (map (set_rem_bt 0)
                           (FCFS_loop (take k l) (mkFcfs 0 [0] [])).1) = k).
  { rewrite length_map, FCFS_loop_length, length_take. lia. }
  rewrite lookup_total_app_r by lia. rewrite Hlen.
  rewrite lookup_total_map_reset by (rewrite length_drop; lia).
  rewrite lookup_total_drop. by replace (k + (i - k))%nat with i by lia.
Qed.

Lemma rr_like_init : rr_like_fcfs l (rr_init l).
Proof.
  exists 0%nat. cbn zeta. unfold rr_init.
  cbn [r_procs r_time r_completedCount r_readyQueue r_inQueue
       r_next_proc_to_arrive].
  rewrite take_0, drop_0. cbn [FCFS_loop fst snd f_time map app].
  split; [lia|]. split; [done|]. split; [done|]. split; [done|].
  split; [by rewrite length_replicate|].
  split; [intros i Hi; by rewrite lookup_total_replicate_2 by lia|].
  split; [intros; lia|]. split; [lia|done].
Qed.

Lemma rr_like_step st st' :
  rr_like_fcfs l st -> RR_body quantum st = Continue st' ->
  rr_like_fcfs l st'.
Proof.
  intros (k & Hk & Hprocs & Hqueue & Hcount & Hlen & Hfalse & Harrived
          & Hclock & Hmax).
  cbn zeta in *.
  set (ran := FCFS_loop (take k l) (mkFcfs 0 [0] [])) in *.
  pose proof (rr_like_static k) as Hst. fold ran in Hst. rewrite <- Hprocs in Hst.
  pose proof (static_length _ _ Hst) as Hn.
  assert (Harr : forall i, arr (r_procs st !!! i) = arr (l !!! i)).
  { intros i. pose proof (static_lookup _ _ i Hst) as (_ & ? & _)%static_eq.
    done. }
  unfold RR_body, enqueue_arrivals_from.
  destruct (enqueue_arrivals_seq (r_procs st) (r_time st)
              (length (r_procs st) - r_next_proc_to_arrive st)
              (r_next_proc_to_arrive st) (r_readyQueue st) (r_inQueue st))
    as (next1 & inQ1 & -> & Hn1 & Hl1 & Hf1 & Ha1 & Hlate);
    [lia|lia|intros j Hj; apply Hfalse; lia|].
  rewrite Hqueue, seq_join by lia.
  destruct (decide (next1 = k)) as [->|Hne].
  - (* nothing is queued: the CPU idles, or the loop is left *)
    rewrite Nat.sub_diag. cbn [seq].
    destruct (decide (k < length l)%nat) as [Hlt|Hge].
    + pose proof (rr_like_pending k k ltac:(lia)) as Hpk. fold ran in Hpk.
      rewrite <- Hprocs in Hpk.
      pose proof (Forall_lookup_total_1 _ _ k Hbounded Hlt) as [_ Hbt].
      replace (length (r_procs st) - k)%nat
        with (S (length (r_procs st) - S k)) by lia.
      rewrite rr_next_arrival_first by (rewrite Hpk; simpl; lia).
      specialize (Hlate ltac:(lia)). rewrite Harr in *.
      assert (Hidle : forall tl bl lb,
                 rr_like_fcfs l
                   (mkRr (r_procs st) (arr (l !!! k)) (r_completedCount st)
                         [] inQ1 tl bl lb k)).
      { intros tl bl lb. exists k. cbn zeta. fold ran.
        cbn [r_procs r_time r_completedCount r_readyQueue r_inQueue
             r_next_proc_to_arrive].
        rewrite Nat.sub_diag.
        split; [lia|]. split; [done|]. split; [done|]. split; [done|].
        split; [lia|]. split; [intros i Hi; apply Hf1; lia|].
        split; [intros; lia|]. split; [lia|]. intros _. lia. }
      destruct (negb _); intros [= <-]; apply Hidle.
    + replace (length (r_procs st) - k)%nat with 0%nat by lia.
      discriminate.
  - (* process [k] is at the front and runs to completion *)
    assert (Hlt : (k < next1)%nat) by lia.
    replace (next1 - k)%nat with (S (next1 - S k)) by lia. cbn [seq].
    pose proof (rr_like_pending k k ltac:(lia)) as Hpk. fold ran in Hpk.
    rewrite <- Hprocs in Hpk.
    pose proof (Forall_lookup_total_1 _ _ k Hbounded ltac:(lia)) as [_ Hbt].
    pose proof (Forall_lookup_total_1 _ _ k Hquantum ltac:(lia)) as Hq.
    cbn beta in Hq.
    assert (He : Z.min quantum (rem_bt (r_procs st !!! k)) = bt (l !!! k))
      by (rewrite Hpk; simpl; lia).
    rewrite He.
    set (procs1 := alter (fun p => set_rem_bt (rem_bt p - bt (l !!! k)) p) k
                         (r_procs st)).
    assert (Hst1 : map static procs1 = map static l).
    { rewrite <- Hst. by apply map_alter_static. }
    assert (Harr1 : forall i, arr (procs1 !!! i) = arr (l !!! i)).
    { intros i. pose proof (static_lookup _ _ i Hst1) as (_ & ? & _)%static_eq.
      done. }
    pose proof (static_length _ _ Hst1) as Hn1'.
    unfold enqueue_arrivals_from in *.
    destruct (enqueue_arrivals_seq procs1 (r_time st + bt (l !!! k))
                (length procs1 - next1) next1 (seq (S k) (next1 - S k))
                (<[k := false]> inQ1))
      as (next3 & inQ3 & -> & Hn3 & Hl3 & Hf3 & Ha3 & _);
      [lia|rewrite length_insert; lia| |].
    { intros j Hj. rewrite list_lookup_total_insert_ne by lia.
      apply Hf1. lia. }
    rewrite seq_join by lia.
    assert (Hcur : rem_bt (procs1 !!! k) = 0).
    { unfold procs1. rewrite list_lookup_total_alter_eq by lia.
      rewrite Hpk. simpl. lia. }
    rewrite Hcur. cbn [Z.eqb].
    assert (Hk_arr : arr (l !!! k) <= r_time st).
    { destruct (decide (k < r_next_proc_to_arrive st)%nat).
      - apply Harrived. lia.
      - rewrite <- Harr. apply Ha1. lia. }
    specialize (Hmax ltac:(lia)).
    pose proof (list_lookup_lookup_total_lt l k ltac:(lia)) as Hlk.
    assert (Hran : FCFS_loop (take (S k) l) (mkFcfs 0 [0] [])
                   = (ran.1 ++ [(FCFS_step (l !!! k) ran.2).1],
                      (FCFS_step (l !!! k) ran.2).2)).
    { rewrite (take_S_r _ _ _ Hlk). apply FCFS_loop_snoc. }
    assert (Htime : f_time (FCFS_step (l !!! k) ran.2).2
                    = r_time st + bt (l !!! k)).
    { unfold FCFS_step. cbn [snd f_time].
      destruct (Z.gtb_spec (arr (l !!! k)) (f_time ran.2)); cbn [f_time]; lia. }
    intros [= <-]. exists (S k). cbn zeta. rewrite Hran.
    cbn [r_procs r_time r_completedCount r_readyQueue r_inQueue
         r_next_proc_to_arrive fst snd].
    split; [lia|]. split; [|split; [done|split; [lia|]]].
    + unfold procs1. rewrite list_alter_alter_eq, Hprocs.
      assert (Hlen_ran : length (map (set_rem_bt 0) ran.1) = k).
      { unfold ran. rewrite length_map, FCFS_loop_length, length_take. lia. }
      rewrite (drop_S _ _ _ Hlk). cbn [map].
      rewrite (alter_at _ _ _ _ _ Hlen_ran).
      rewrite map_app, <- app_assoc. cbn [map app]. f_equal. f_equal.
      unfold compose, FCFS_step, finish, set_rem_bt. cbn [fst snd f_time].
      cbn [pid arr bt rem_bt ct tat wt priority].
      destruct (Z.gtb_spec (arr (l !!! k)) (f_time ran.2)); cbn [f_time];
        f_equal; lia.
    + split; [lia|]. split; [intros i Hi; apply Hf3; lia|]. split.
      * intros i Hi. destruct (decide (i < next1)%nat).
        -- assert (arr (l !!! i) <= r_time st); [|lia].
           destruct (decide (i < r_next_proc_to_arrive st)%nat).
           ++ apply Harrived. lia.
           ++ rewrite <- Harr. apply Ha1. lia.
        -- rewrite <- Harr1. apply Ha3. lia.
      * split; [lia|]. intros _. lia.
Qed.

Lemma rr_like_exit_cond st :
  rr_like_fcfs l st -> rr_cond (Z.of_nat (length l)) st = false ->
  r_procs st = map (set_rem_bt 0) (FCFS_loop l (mkFcfs 0 [0] [])).1.
Proof.
  intros (k & Hk & Hprocs & _ & Hcount & _) Hc. cbn zeta in *.
  unfold rr_cond in Hc. apply Z.ltb_ge in Hc.
  rewrite Hprocs, take_ge, drop_ge by lia. by rewrite app_nil_r.
Qed.

Lemma rr_like_exit_break st0 st :
  rr_like_fcfs l st0 -> RR_body quantum st0 = Break st ->
  r_procs st = map (set_rem_bt 0) (FCFS_loop l (mkFcfs 0 [0] [])).1.
Proof.
  intros (k & Hk & Hprocs & Hqueue & Hcount & Hlen & Hfalse
          & Harrived & Hclock & Hmax).
  cbn zeta in *.
  set (ran := FCFS_loop (take k l) (mkFcfs 0 [0] [])) in *.
  pose proof (rr_like_static k) as Hst. fold ran in Hst.
  rewrite <- Hprocs in Hst.
  pose proof (static_length _ _ Hst) as Hn.
  unfold RR_body, enqueue_arrivals_from.
  destruct (enqueue_arrivals_seq (r_procs st0) (r_time st0)
              (length (r_procs st0) - r_next_proc_to_arrive st0)
              (r_next_proc_to_arrive st0) (r_readyQueue st0) (r_inQueue st0))
    as (next1 & inQ1 & -> & Hn1 & Hl1 & Hf1 & Ha1 & Hlate);
    [lia|lia|intros j Hj; apply Hfalse; lia|].
  rewrite Hqueue, seq_join by lia.
  destruct (decide (next1 = k)) as [->|Hne].
  - rewrite Nat.sub_diag. cbn [seq].
    destruct (decide (k < length l)%nat) as [Hlt|Hge].
    + pose proof (rr_like_pending k k ltac:(lia)) as Hpk. fold ran in Hpk.
      rewrite <- Hprocs in Hpk.
      pose proof (Forall_lookup_total_1 _ _ k Hbounded Hlt) as [_ Hbt].
      replace (length (r_procs st0) - k)%nat
        with (S (length (r_procs st0) - S k)) by lia.
      rewrite rr_next_arrival_first by (rewrite Hpk; simpl; lia).
      destruct (negb _); discriminate.
    + replace (length (r_procs st0) - k)%nat with 0%nat by lia.
      cbn [rr_next_arrival]. intros [= <-]. cbn [r_procs].
      rewrite Hprocs. unfold ran.
      rewrite take_ge, drop_ge by lia. by rewrite app_nil_r.
  - replace (next1 - k)%nat with (S (next1 - S k)) by lia. cbn [seq].
    destruct (enqueue_arrivals _ _ _ _ _) as [[queue3 inQ3] next3].
    destruct (_ =? 0); discriminate.
Qed.

Lemma RR_loop_long_quantum fuel st :
  RR_loop quantum fuel l = Done st ->
  r_procs st = map (set_rem_bt 0) (FCFS_loop l (mkFcfs 0 [0] [])).1.
Proof.
  unfold RR_loop. destruct (pid_table_ok l); [|discriminate].
  intros Hrun.
  apply (while_invariant _ _ (rr_like_fcfs l)) in Hrun.
  - destruct Hrun as [[Hlike Hc]|(st0 & Hlike & Hc & Hb)].
    + by apply rr_like_exit_cond.
    + by apply (rr_like_exit_break st0).
  - intros s s' Hs _ Hb. by apply (rr_like_step s).
  - apply rr_like_init.
Qed.
End LongQuantum.

(** With a quantum that no burst exceeds, the records of Round Robin
    are those of FCFS, but for the remaining time. *)
Theorem RoundRobin_long_quantum_unbounded (S : Sorter) (procs : list Process)
    (quantum : Z) (r : Result) :
  valid_input procs -> Forall (fun p => bt p <= quantum) procs ->
  yields (RoundRobin S procs quantum) r ->
  res_procs r = map (set_rem_bt 0) (res_procs (FCFS S procs)).
Proof.
  intros Hv Hq [fuel Hr].
  apply outcome_map_Done in Hr as (st & Hloop & ->).
  apply RR_loop_long_quantum in Hloop;
    [|by apply Forall_bounded_sorted|by apply Forall_sorted].
  destruct (merge_gantt _ _). unfold printResults. cbn [res_procs].
  rewrite Hloop. unfold FCFS.
  pose proof (FCFS_loop_static (sort_by S arr procs) (mkFcfs 0 [0] [])) as Hs.
  destruct (FCFS_loop _ _) as [procs' st']. cbn [fst res_procs] in *.
  assert (Hnd : NoDup (map pid procs')).
  { rewrite (Permutation_static_pid procs' procs); [apply Hv|].
    rewrite Hs. apply Permutation_map, sort_by_perm. }
  apply (sorted_perm_unique pid).
  - apply StronglySorted_map_key; [done|].
    apply sorted_strict; [apply sort_by_sorted|].
    by rewrite (Permutation_map pid (sort_by_perm S pid procs')).
  - apply sort_by_sorted.
  - rewrite !sort_by_perm. apply Permutation_map. symmetry.
    apply sort_by_perm.
Qed.

(** ** The clean-up stays within the timeline *)

Lemma srtf_trace_step procs st st' :
  Forall bounded procs -> srtf_inv procs st -> srtf_trace st ->
  SRTF_body st = Continue st' -> srtf_trace st'.
Proof.
  intros Hb Hinv (Hle & Hclosed & Hopen). unfold SRTF_body.
  destruct (select (srtf_ready st) rem_bt (s_procs st)) as [idx|] eqn:Hsel.
  - apply select_Some in Hsel as (Hidx & Hready & _ & _).
    pose proof Hready as Hready'.
    unfold srtf_ready in Hready'. apply andb_prop in Hready' as [Ha Hr].
    apply Z.leb_le in Ha. apply Z.gtb_gt in Hr.
    pose proof (Forall_lookup_total_1 _ _ _ (srtf_run _ _ Hinv) Hidx)
      as [Hrem _].
    pose proof (srtf_inv_bt procs Hb st idx Hinv Hidx) as Hbt.
    pose proof (block_id_not_IDLE (s_procs st !!! idx)) as HnI.
    pose proof (block_id_not_empty (s_procs st !!! idx)) as HnE.
    generalize dependent (block_id (s_procs st !!! idx)). intros C HnI HnE.
    assert (Hlens :
      (length (if negb (String.eqb C (s_last_block_id st))
               then s_blocks st ++ [C] else s_blocks st)
       <= length (if negb (String.eqb C (s_last_block_id st))
                     && negb (String.eqb (s_last_block_id st) IDLE)
                  then s_timeline st ++ [s_time st] else s_timeline st))%nat).
    { destruct (String.eqb_spec C (s_last_block_id st)) as [HC|HC];
        destruct (String.eqb_spec (s_last_block_id st) IDLE) as [HL|HL];
        cbn [negb andb]; rewrite ?length_app; simpl; try lia.
      specialize (Hclosed (or_intror HL)). lia. }
    rewrite list_lookup_total_alter_eq by done. cbn [rem_bt set_rem_bt].
    destruct (Z.eqb_spec (rem_bt (s_procs st !!! idx) - 1) 0) as [Hz|Hnz];
      intros [= <-]; unfold srtf_trace;
      cbn [s_blocks s_timeline s_last_block_id s_procs s_time].
    + split; [rewrite length_app; cbn [length]; lia|].
      split; [intros _; rewrite length_app; cbn [length]; lia|]. by intros [].
    + split; [done|]. split; [intros [?|?]; congruence|].
      intros _ _. exists idx. rewrite length_alter. split; [done|].
      unfold srtf_ready. cbn [s_procs s_time].
      rewrite list_lookup_total_alter_eq by done. cbn [arr rem_bt set_rem_bt].
      split; [|lia].
      apply andb_true_intro. split; [apply Z.leb_le|apply Z.gtb_gt]; lia.
  - destruct (srtf_next_arrival (s_procs st)) as [nxt found].
    destruct found; [|discriminate].
    destruct (String.eqb_spec (s_last_block_id st) IDLE) as [HL|HL];
      cbn [negb]; intros [= <-]; unfold srtf_trace;
      cbn [s_blocks s_timeline s_last_block_id s_procs s_time].
    + specialize (Hclosed (or_intror HL)).
      split; [lia|]. split; [done|]. by intros _ [].
    + assert (Hstrict : (length (s_blocks st) < length (s_timeline st))%nat).
      { destruct (decide (s_last_block_id st = EmptyString)) as [HE|HE];
          [by apply Hclosed; left|].
        destruct (Hopen HE HL) as (i & Hi & Hri & Hlt).
        pose proof (select_None _ _ _ i Hsel Hi Hri). lia. }
      rewrite !length_app. simpl.
      split; [lia|]. split; [intros _; lia|]. by intros _ [].
Qed.

Lemma srtf_timeline_grows st st' :
  SRTF_body st = Continue st' ->
  exists more, s_timeline st' = s_timeline st ++ more.
Proof.
  unfold SRTF_body. destruct (select _ _ _).
  - destruct (_ =? 0); intros [= <-]; cbn [s_timeline];
      destruct (negb _ && negb _); rewrite <- ?app_assoc; eauto.
    exists []. by rewrite app_nil_r.
  - destruct (srtf_next_arrival _) as [? []]; [|discriminate].
    destruct (negb _); intros [= <-]; cbn [s_timeline]; eauto.
    exists []. by rewrite app_nil_r.
Qed.

Lemma rr_trace_step quantum st st' :
  rr_trace st -> RR_body quantum st = Continue st' -> rr_trace st'.
Proof.
  intros [Hlt Hlast]. unfold RR_body.
  destruct (enqueue_arrivals_from _ _ _ _ _) as [[queue1 inQ1] next1].
  destruct queue1 as [|cur rest].
  - destruct (rr_next_arrival _ _ _) as [nxt|]; [|discriminate].
    destruct (String.eqb_spec (r_last_block_id st) IDLE) as [HL|HL];
      cbn [negb]; intros [= <-]; unfold rr_trace;
      cbn [r_blocks r_timeline r_last_block_id].
    + split; [done|by right].
    + rewrite !length_app. simpl. split; [lia|by right].
  - pose proof (block_id_not_IDLE (r_procs st !!! cur)) as HnI.
    pose proof (block_id_not_empty (r_procs st !!! cur)) as HnE.
    generalize dependent (block_id (r_procs st !!! cur)). intros C HnI HnE.
    assert (Hlens :
      (length (if negb (String.eqb C (r_last_block_id st))
               then r_blocks st ++ [C] else r_blocks st)
       <= length (if negb (String.eqb C (r_last_block_id st))
                     && negb (String.eqb (r_last_block_id st) IDLE)
                  then r_timeline st ++ [r_time st] else r_timeline st))%nat).
    { destruct (String.eqb_spec C (r_last_block_id st)) as [HC|HC];
        destruct (String.eqb_spec (r_last_block_id st) IDLE) as [HL|HL];
        cbn [negb andb]; rewrite ?length_app; simpl; lia. }
    destruct (enqueue_arrivals_from _ _ _ _ _) as [[queue3 inQ3] next3].
    destruct (_ =? 0); intros [= <-]; unfold rr_trace;
      cbn [r_blocks r_timeline r_last_block_id];
      (split; [rewrite length_app; cbn [length]; lia|by left]).
Qed.

Lemma rr_trace_break quantum st st' :
  rr_trace st -> RR_body quantum st = Break st' -> rr_trace st'.
Proof.
  intros Htrace. unfold RR_body.
  destruct (enqueue_arrivals_from _ _ _ _ _) as [[queue1 inQ1] next1].
  destruct queue1 as [|cur rest].
  - destruct (rr_next_arrival _ _ _) as [nxt|];
      [destruct (negb _); discriminate|].
    by intros [= <-].
  - destruct (enqueue_arrivals_from _ _ _ _ _) as [[queue3 inQ3] next3].
    destruct (_ =? 0); discriminate.
Qed.

Lemma SRTF_loop_bounds procs fuel st :
  Forall bounded procs -> SRTF_loop fuel procs = Done st ->
  s_timeline st <> [] /\
  (length (s_blocks st) <= length (s_timeline st))%nat.
Proof.
  intros Hb Hrun. unfold SRTF_loop in Hrun.
  apply (while_invariant _ _
           (fun s => srtf_inv procs s /\ srtf_trace s /\ s_timeline s <> []))
    in Hrun.
  - assert (H : srtf_trace st /\ s_timeline st <> []).
    { destruct Hrun as [[H _]|(st0 & H & _ & Hbreak)]; [tauto|].
      apply SRTF_body_Break in Hbreak. subst. tauto. }
    destruct H as [(Hle & _) Hne]. done.
  - intros s s' (Hinv & Htrace & Hne) _ Hbody.
    split; [by apply (srtf_inv_step procs Hb s)|].
    split; [by apply (srtf_trace_step procs s)|].
    destruct (srtf_timeline_grows _ _ Hbody) as [more ->].
    by destruct (s_timeline s).
  - split; [by apply srtf_inv_init|]. split; [apply srtf_trace_init|done].
Qed.

Lemma RR_loop_bounds procs quantum fuel st :
  RR_loop quantum fuel procs = Done st ->
  (length (r_blocks st) < length (r_timeline st))%nat.
Proof.
  unfold RR_loop.
  destruct (pid_table_ok procs); [|discriminate]. intros Hrun.
  apply (while_invariant _ _ rr_trace) in Hrun.
  - destruct Hrun as [[[H _] _]|(st0 & H & _ & Hbreak)]; [done|].
    by destruct (rr_trace_break _ _ _ H Hbreak).
  - intros s s' Htrace _ Hbody. by apply (rr_trace_step quantum s).
  - split; [simpl; lia|by left].
Qed.

(** ** The charts *)

Lemma FCFS_loop_ascending procs st :
  Forall bounded procs ->
  fcfs_wf st -> StronglySorted Z.lt (f_timeline st) ->
  StronglySorted Z.lt (f_timeline (FCFS_loop procs st).2).
Proof.
  intros Hb. revert st.
  induction Hb as [|p rest [_ Hbt] _ IH]; intros st Hwf Hs; [done|].
  rewrite FCFS_loop_cons. cbn [snd].
  destruct Hwf as [Hlen Hlast].
  apply IH; unfold FCFS_step, fcfs_wf; cbn [snd];
    destruct (Z.gtb_spec (arr p) (f_time st)) as [Hgt|Hle];
    cbn [f_timeline f_blocks f_time].
  - split; [rewrite !length_app; simpl; lia|by rewrite last_snoc].
  - split; [rewrite !length_app; simpl; lia|by rewrite last_snoc].
  - apply (StronglySorted_lt_snoc _ (arr p)); [|by rewrite last_snoc|lia].
    by apply (StronglySorted_lt_snoc _ (f_time st)).
  - apply (StronglySorted_lt_snoc _ (f_time st)); [done|done|lia].
Qed.

Section NonPreemptiveChart.
Variables (key : Process -> Z) (procs0 : list Process).
Hypothesis Hbounded : Forall bounded procs0.
Hypothesis Hkey_static : forall p q, static p = static q -> key p = key q.
Hypothesis Hkey_max : Forall (fun p => key p < INT_MAX) procs0.

Lemma np_ascending_step st st' :
  np_inv procs0 st -> np_trace st -> StronglySorted Z.lt (n_timeline st) ->
  NP_body key st = Continue st' ->
  StronglySorted Z.lt (n_timeline st').
Proof.
  intros Hinv (Hlen & Hlast & _) Hs. unfold NP_body.
  destruct (select (np_ready st) key (n_procs st)) as [idx|] eqn:Hsel.
  - intros [= <-]. cbn [np_dispatch n_timeline].
    apply select_Some in Hsel as (Hidx & _).
    pose proof (bounded_static _ _ idx (np_static _ _ Hinv) Hbounded Hidx)
      as [_ Hbt].
    apply (StronglySorted_lt_snoc _ (n_time st)); [done|done|lia].
  - destruct (Z.eqb_spec (np_next_arrival st) INT_MAX) as [Hn|Hn];
      [discriminate|].
    intros [= <-]. cbn [np_idle n_timeline].
    apply (StronglySorted_lt_snoc _ (n_time st)); [done|done|].
    destruct (np_next_arrival_witness st) as [?|(i & Hi & Hc & Ha)]; [done|].
    destruct (Z.lt_ge_cases (n_time st) (np_next_arrival st)) as [|Hge];
      [done|].
    assert (Hr : np_ready st i = true).
    { unfold np_ready. rewrite Hc. simpl. apply Z.leb_le. lia. }
    pose proof (select_None _ _ _ i Hsel Hi Hr).
    pose proof (np_key_below key procs0 Hkey_static Hkey_max st i Hinv Hi).
    lia.
Qed.

Lemma NP_loop_chart fuel st :
  NP_loop key fuel procs0 = Done st ->
  length (n_timeline st) = S (length (n_blocks st)) /\
  head (n_timeline st) = Some 0 /\
  StronglySorted Z.lt (n_timeline st).
Proof.
  intros Hrun.
  pose proof (NP_loop_exit key procs0 Hbounded fuel st Hrun)
    as (_ & (Hlen & _) & _ & Hhd & _).
  split; [done|]. split.
  { destruct (n_timeline st); [done|]. simpl in *. by rewrite Hhd. }
  unfold NP_loop in Hrun.
  apply (while_invariant _ _
           (fun s => (np_inv procs0 s /\ np_trace s) /\
                     StronglySorted Z.lt (n_timeline s))) in Hrun.
  - destruct Hrun as [[[_ H] _]|(st0 & [_ H] & _ & Hb)]; [done|].
    unfold NP_body in Hb. destruct (select _ _ _); [discriminate|].
    destruct (negb _); [discriminate|]. by injection Hb as <-.
  - intros s s' [[Hs Ht] Ha] _ Hb. split; [split|].
    + by apply (np_inv_step key procs0 s).
    + by apply (np_trace_step key procs0 s).
    + by apply (np_ascending_step s).
  - split; [split; [apply np_inv_init|apply np_trace_init]|].
    simpl. repeat constructor.
Qed.
End NonPreemptiveChart.

(** The timeline of FCFS, SJF and Priority has one entry more than there
    are blocks, begins with 0 and is strictly increasing. *)
Theorem chart_well_formed_unbounded (S : Sorter) (procs : list Process) (r : Result) :
  valid_input procs ->
  Forall (fun p => bt p < INT_MAX /\ priority p < INT_MAX) procs ->
  r = FCFS S procs \/ yields (SJF S procs) r \/
  yields (PriorityScheduling S procs) r ->
  length (res_timeline r) = (length (res_blocks r) + 1)%nat /\
  head (res_timeline r) = Some 0 /\
  StronglySorted Z.lt (res_timeline r).
Proof.
  intros Hv Hmax Hr.
  pose proof (valid_input_bounds _ Hv) as Hb.
  assert (Hbt : Forall (fun p => bt p < INT_MAX) procs).
  { eapply Forall_impl; [exact Hmax|]. by intros p [? _]. }
  assert (Hpri : Forall (fun p => priority p < INT_MAX) procs).
  { eapply Forall_impl; [exact Hmax|]. by intros p [_ ?]. }
  destruct Hr as [->|[[fuel Hr]|[fuel Hr]]].
  - unfold FCFS.
    pose proof (FCFS_loop_wf (sort_by S arr procs) (mkFcfs 0 [0] [])
                  ltac:(by split)) as [Hlen _].
    destruct (FCFS_loop_timeline (sort_by S arr procs) (mkFcfs 0 [0] []))
      as [more Hmore].
    pose proof (FCFS_loop_ascending (sort_by S arr procs) (mkFcfs 0 [0] [])
                  (Forall_sorted S arr _ _ Hb) ltac:(by split)
                  ltac:(simpl; repeat constructor)) as Hasc.
    destruct (FCFS_loop _ _) as [procs' st].
    cbn [snd f_timeline] in *. unfold printResults.
    cbn [res_timeline res_blocks].
    split; [lia|]. split; [by rewrite Hmore|done].
  - apply outcome_map_Done in Hr as (st & Hloop & ->).
    unfold printResults. cbn [res_timeline res_blocks].
    destruct (NP_loop_chart bt procs Hb) with (fuel := fuel) (st := st)
      as (Hlen & Hhd & Hasc); [|done|done|].
    { by intros p q (_ & _ & ? & _)%static_eq. }
    split; [lia|done].
  - apply outcome_map_Done in Hr as (st & Hloop & ->).
    unfold printResults. cbn [res_timeline res_blocks].
    destruct (NP_loop_chart priority procs Hb) with (fuel := fuel) (st := st)
      as (Hlen & Hhd & Hasc); [|done|done|].
    { by intros p q (_ & _ & _ & ?)%static_eq. }
    split; [lia|done].
Qed.

Section ShortestRemainingTimes.
Variable procs0 : list Process.
Hypothesis Hbounded : Forall bounded procs0.
Hypothesis Hbt_max : Forall (fun p => bt p < INT_MAX) procs0.

Lemma srtf_times_step st st' :
  srtf_inv procs0 st ->
  StronglySorted Z.le (s_timeline st) /\
  Forall (fun t => t <= s_time st) (s_timeline st) ->
  SRTF_body st = Continue st' ->
  StronglySorted Z.le (s_timeline st') /\
  Forall (fun t => t <= s_time st') (s_timeline st').
Proof.
  intros Hinv [Hs Hall]. unfold SRTF_body.
  destruct (select (srtf_ready st) rem_bt (s_procs st)) as [idx|] eqn:Hsel.
  - assert (H1 : StronglySorted Z.le
                   (if negb (String.eqb (block_id (s_procs st !!! idx))
                                        (s_last_block_id st))
                       && negb (String.eqb (s_last_block_id st) IDLE)
                    then s_timeline st ++ [s_time st] else s_timeline st) /\
                 Forall (fun t => t <= s_time st + 1)
                   (if negb (String.eqb (block_id (s_procs st !!! idx))
                                        (s_last_block_id st))
                       && negb (String.eqb (s_last_block_id st) IDLE)
                    then s_timeline st ++ [s_time st] else s_timeline st)).
    { destruct (negb _ && negb _).
      - split; [by apply StronglySorted_le_snoc|].
        apply Forall_app. split.
        + apply (Forall_le_later _ (s_time st)); [lia|done].
        + repeat constructor. lia.
      - split; [done|]. apply (Forall_le_later _ (s_time st)); [lia|done]. }
    destruct H1 as [Hs1 Hall1].
    generalize dependent (block_id (s_procs st !!! idx)). intros C Hs1 Hall1.
    destruct (_ =? 0); intros [= <-]; cbn [s_timeline s_time].
    + split; [by apply StronglySorted_le_snoc|].
      apply Forall_app. split; [done|]. repeat constructor. lia.
    + done.
  - destruct (srtf_next_arrival (s_procs st)) as [nxt found] eqn:Hn.
    destruct found; [|discriminate].
    assert (Hlt : s_time st < nxt).
    { destruct (srtf_next_arrival_witness (s_procs st)) as (i & Hi & Hri & Hai).
      - intros i Hi.
        pose proof (bounded_static _ _ i (srtf_static _ _ Hinv) Hbounded Hi)
          as [? _].
        lia.
      - by rewrite Hn.
      - rewrite Hn in Hai. cbn [fst] in Hai.
        destruct (Z.lt_ge_cases (s_time st) nxt) as [|Hge]; [done|].
        assert (Hr : srtf_ready st i = true).
        { unfold srtf_ready. apply andb_true_intro.
          split; [apply Z.leb_le; lia|apply Z.gtb_gt; lia]. }
        pose proof (select_None _ _ _ i Hsel Hi Hr).
        pose proof (srtf_rem_below procs0 Hbt_max st i Hinv Hi). lia. }
    destruct (negb _); intros [= <-]; cbn [s_timeline s_time].
    + split; [by apply StronglySorted_le_snoc|].
      apply Forall_app. split.
      * apply (Forall_le_later _ (s_time st)); [lia|done].
      * repeat constructor. lia.
    + split; [done|]. apply (Forall_le_later _ (s_time st)); [lia|done].
Qed.

Lemma SRTF_loop_times fuel st :
  SRTF_loop fuel procs0 = Done st ->
  StronglySorted Z.le (s_timeline st) /\ head (s_timeline st) = Some 0.
Proof.
  intros Hrun. unfold SRTF_loop in Hrun.
  apply (while_invariant _ _
           (fun s => srtf_inv procs0 s /\
                     (StronglySorted Z.le (s_timeline s) /\
                      Forall (fun t => t <= s_time s) (s_timeline s)) /\
                     head (s_timeline s) = Some 0)) in Hrun.
  - assert (H : StronglySorted Z.le (s_timeline st) /\
                head (s_timeline st) = Some 0).
    { destruct Hrun as [[H _]|(st0 & H & _ & Hbreak)]; [tauto|].
      apply SRTF_body_Break in Hbreak. subst. tauto. }
    done.
  - intros s s' (Hinv & Htimes & Hhd) _ Hbody.
    split; [by apply (srtf_inv_step procs0 Hbounded s)|].
    split; [by apply (srtf_times_step s)|].
    destruct (srtf_timeline_grows _ _ Hbody) as [more ->].
    by destruct (s_timeline s).
  - split; [by apply srtf_inv_init|]. simpl.
    split; [|done]. split; repeat constructor. lia.
Qed.
End ShortestRemainingTimes.

Section RoundRobinTimes.
Variables (procs0 : list Process) (quantum : Z).
Hypothesis Hbounded : Forall bounded procs0.
Hypothesis Hquantum : 0 < quantum.

Lemma rr_timeline_grows st st' :
  RR_body quantum st = Continue st' ->
  exists more, r_timeline st' = r_timeline st ++ more.
Proof.
  unfold RR_body.
  destruct (enqueue_arrivals_from _ _ _ _ _) as [[queue1 inQ1] next1].
  destruct queue1 as [|cur rest].
  - destruct (rr_next_arrival _ _ _) as [nxt|]; [|discriminate].
    destruct (negb _); intros [= <-]; cbn [r_timeline]; eauto.
    exists []. by rewrite app_nil_r.
  - destruct (enqueue_arrivals_from _ _ _ _ _) as [[queue3 inQ3] next3].
    destruct (_ =? 0); intros [= <-]; cbn [r_timeline];
      destruct (negb _ && negb _); rewrite <- ?app_assoc; eauto.
Qed.

Lemma rr_times_step st st' :
  rr_inv procs0 st ->
  StronglySorted Z.le (r_timeline st) /\
  Forall (fun t => t <= r_time st) (r_timeline st) ->
  RR_body quantum st = Continue st' ->
  StronglySorted Z.le (r_timeline st') /\
  Forall (fun t => t <= r_time st') (r_timeline st').
Proof.
  intros [Hst Hrun Hcnt Hsched] [Hs Hall].
  pose proof (static_length _ _ Hst) as Hn.
  pose proof Hsched as (Hlen & Hnext & _ & _ & _ & Hfresh & _).
  unfold RR_body.
  destruct (enqueue_arrivals_from (r_procs st) (r_time st) (r_readyQueue st)
              (r_inQueue st) (r_next_proc_to_arrive st))
    as [[queue1 inQ1] next1] eqn:Henq1.
  pose proof Henq1 as Hsched1.
  apply (enqueue_arrivals_from_sched _ _ None _ _ _ _ _ _
           (rr_inv_bt procs0 Hbounded _ Hst) Hsched) in Hsched1.
  unfold enqueue_arrivals_from in Henq1.
  destruct (enqueue_arrivals_seq (r_procs st) (r_time st)
              (length (r_procs st) - r_next_proc_to_arrive st)
              (r_next_proc_to_arrive st) (r_readyQueue st) (r_inQueue st))
    as (n1 & i1 & Heq & Hn1 & _ & _ & _ & Hlate);
    [lia|done|intros j Hj; by apply Hfresh|].
  rewrite Heq in Henq1. injection Henq1 as Hq1 _ <-.
  destruct queue1 as [|cur rest].
  - destruct (rr_next_arrival _ _ _) as [nxt|] eqn:Hna; [|discriminate].
    assert (Hlt : r_time st < nxt).
    { destruct (decide (n1 < length (r_procs st))%nat) as [Hlt|Hge].
      - destruct (Hfresh n1 ltac:(lia)) as [_ Hrem].
        pose proof (rr_inv_bt procs0 Hbounded _ Hst n1 Hlt) as Hbt.
        replace (length (r_procs st) - n1)%nat
          with (S (length (r_procs st) - S n1)) in Hna by lia.
        rewrite rr_next_arrival_first in Hna by lia.
        injection Hna as <-. by apply Hlate.
      - replace (length (r_procs st) - n1)%nat with 0%nat in Hna by lia.
        discriminate. }
    destruct (negb _); intros [= <-]; cbn [r_timeline r_time].
    + split; [by apply StronglySorted_le_snoc|].
      apply Forall_app. split.
      * apply (Forall_le_later _ (r_time st)); [lia|done].
      * repeat constructor. lia.
    + split; [done|]. apply (Forall_le_later _ (r_time st)); [lia|done].
  - destruct Hsched1 as (_ & _ & _ & Hq & _).
    destruct (Hq cur ltac:(left)) as (_ & _ & _ & Hpos).
    set (e := Z.min quantum (rem_bt (r_procs st !!! cur))).
    assert (He : 0 < e) by lia.
    assert (H1 : StronglySorted Z.le
                   (if negb (String.eqb (block_id (r_procs st !!! cur))
                                        (r_last_block_id st))
                       && negb (String.eqb (r_last_block_id st) IDLE)
                    then r_timeline st ++ [r_time st] else r_timeline st) /\
                 Forall (fun t => t <= r_time st + e)
                   (if negb (String.eqb (block_id (r_procs st !!! cur))
                                        (r_last_block_id st))
                       && negb (String.eqb (r_last_block_id st) IDLE)
                    then r_timeline st ++ [r_time st] else r_timeline st)).
    { destruct (negb _ && negb _).
      - split; [by apply StronglySorted_le_snoc|].
        apply Forall_app. split.
        + apply (Forall_le_later _ (r_time st)); [lia|done].
        + repeat constructor. lia.
      - split; [done|]. apply (Forall_le_later _ (r_time st)); [lia|done]. }
    destruct H1 as [Hs1 Hall1].
    generalize dependent (block_id (r_procs st !!! cur)). intros C Hs1 Hall1.
    destruct (enqueue_arrivals_from _ _ _ _ _) as [[queue3 inQ3] next3].
    destruct (_ =? 0); intros [= <-]; cbn [r_timeline r_time];
      (split; [by apply StronglySorted_le_snoc|];
       apply Forall_app; split; [done|]; repeat constructor; lia).
Qed.

Lemma RR_loop_times fuel st :
  RR_loop quantum fuel procs0 = Done st ->
  StronglySorted Z.le (r_timeline st) /\ head (r_timeline st) = Some 0.
Proof.
  unfold RR_loop. destruct (pid_table_ok procs0); [|discriminate].
  intros Hrun.
  apply (while_invariant _ _
           (fun s => rr_inv procs0 s /\
                     (StronglySorted Z.le (r_timeline s) /\
                      Forall (fun t => t <= r_time s) (r_timeline s)) /\
                     head (r_timeline s) = Some 0)) in Hrun.
  - destruct Hrun as [[H _]|(st0 & H & _ & Hbreak)]; [tauto|].
    assert (r_timeline st = r_timeline st0) as ->; [|tauto].
    revert Hbreak. unfold RR_body.
    destruct (enqueue_arrivals_from _ _ _ _ _) as [[queue1 inQ1] next1].
    destruct queue1 as [|cur rest].
    + destruct (rr_next_arrival _ _ _) as [nxt|];
        [destruct (negb _); discriminate|].
      by intros [= <-].
    + destruct (enqueue_arrivals_from _ _ _ _ _) as [[queue3 inQ3] next3].
      destruct (_ =? 0); discriminate.
  - intros s s' (Hinv & Htimes & Hhd) _ Hbody.
    split; [by apply (rr_inv_step procs0 quantum Hbounded Hquantum s)|].
    split; [by apply (rr_times_step s)|].
    destruct (rr_timeline_grows _ _ Hbody) as [more ->].
    by destruct (r_timeline s).
  - split; [by apply rr_inv_init|]. simpl.
    split; [|done]. split; repeat constructor. lia.
Qed.
End RoundRobinTimes.

(** The timeline SRTF and Round Robin leave is in non-decreasing
    order. *)
Theorem chart_times_ordered_unbounded (S : Sorter) (procs : list Process)
    (quantum : Z) (r : Result) :
  valid_input procs -> Forall (fun p => bt p < INT_MAX) procs ->
  0 < quantum ->
  yields (SRTF S procs) r \/ yields (RoundRobin S procs quantum) r ->
  StronglySorted Z.le (res_timeline r).
Proof.
  intros Hv Hmax Hq [[fuel Hr]|[fuel Hr]];
    apply outcome_map_Done in Hr as (st & Hloop & ->).
  - pose proof (valid_input_bounds _ Hv) as Hb.
    pose proof (SRTF_loop_bounds procs fuel st Hb Hloop) as [_ Hlen].
    pose proof (SRTF_loop_times procs Hb Hmax fuel st Hloop) as [Hs _].
    pose proof (merge_gantt_sorted _ _ Hlen Hs) as Hsorted.
    destruct (merge_gantt _ _). exact Hsorted.
  - pose proof (Forall_bounded_sorted S arr procs Hv) as Hb.
    pose proof (RR_loop_bounds _ quantum fuel st Hloop) as Hlen.
    pose proof (RR_loop_times _ quantum Hb Hq fuel st Hloop) as [Hs _].
    pose proof (merge_gantt_sorted (r_timeline st) (r_blocks st)
                  ltac:(lia) Hs) as Hsorted.
    destruct (merge_gantt _ _). exact Hsorted.
Qed.

End Unbounded_facts.

(** * The program computes the schedule over unbounded integers *)

Import Unbounded_facts.

(** ** Arithmetic in [int] *)

Lemma int_exact (z : Z) : INT_MIN <= z <= INT_MAX -> int z = z.
Proof.
  unfold int, INT_MIN, INT_MAX. intros H. rewrite Z.mod_small by lia. lia.
Qed.

Lemma int_add_l (a b : Z) : int (int a + b) = int (a + b).
Proof.
  unfold int. f_equal.
  replace ((a - INT_MIN) mod 4294967296 + INT_MIN + b - INT_MIN)
    with ((a - INT_MIN) mod 4294967296 + b) by lia.
  replace (a + b - INT_MIN) with ((a - INT_MIN) + b) by lia.
  apply Zplus_mod_idemp_l.
Qed.

Lemma int_add_r (a b : Z) : int (a + int b) = int (a + b).
Proof. rewrite (Z.add_comm a (int b)), int_add_l. f_equal. lia. Qed.

(** A process that completes at [time], not before its arrival plus its
    burst and within [int], gets the metrics of the exact
    subtractions. *)
Lemma finish_exact (time : Z) (p : Process) :
  0 <= arr p -> 0 < bt p -> arr p + bt p <= time <= INT_MAX ->
  finish time p = Unbounded.finish time p.
Proof.
  intros Ha Hb Ht. unfold finish, Unbounded.finish. cbv zeta.
  rewrite (int_exact (time - arr p)) by (unfold INT_MIN; lia).
  rewrite (int_exact (time - arr p - bt p)) by (unfold INT_MIN; lia).
  reflexivity.
Qed.

Lemma alter_agree {A : Type} (f g : A -> A) (l : list A) (i : nat) :
  (forall x, l !! i = Some x -> f x = g x) -> alter f i l = alter g i l.
Proof.
  revert i. induction l as [|a l IH]; intros [|i] H; [done|done| |].
  - change (f a :: l = g a :: l). by rewrite (H a).
  - change (a :: alter f i l = a :: alter g i l). f_equal. by apply IH.
Qed.

Lemma total_burst_nonneg (l : list Process) :
  Forall bounded l -> 0 <= total_burst l.
Proof. induction 1 as [|q l [_ Hq] _ IHl]; simpl; lia. Qed.

(** ** The idle time *)

(** Whatever the timeline, the idle time the program sums in [int] is
    the exact sum reduced to [int]: a sum that is reduced at every step
    is the reduced sum. *)
Lemma idle_time_int (timeline : list Z) (blocks : list string) :
  idle_time timeline blocks = int (Unbounded.idle_time timeline blocks).
Proof.
  unfold idle_time, Unbounded.idle_time.
  assert (H : forall l a a', a = int a' ->
            fold_left
              (fun idle i =>
                 if String.eqb (blocks !!! i) IDLE
                    && (S i <? length timeline)%nat
                 then int (idle + int (timeline !!! S i - timeline !!! i))
                 else idle) l a
            = int (fold_left
                     (fun idle i =>
                        if String.eqb (blocks !!! i) IDLE
                           && (S i <? length timeline)%nat
                        then idle + (timeline !!! S i - timeline !!! i)
                        else idle) l a')).
  { induction l as [|i l IH]; intros a a' Ha; [done|].
    cbn [fold_left]. apply IH.
    destruct (String.eqb (blocks !!! i) IDLE && (S i <? length timeline)%nat);
      [|done].
    by rewrite Ha, int_add_l, int_add_r. }
  by apply H.
Qed.

Lemma printResults_int (S : Sorter) (procs : list Process)
    (timeline : list Z) (blocks : list string) :
  printResults S procs timeline blocks
  = in_int (Unbounded.printResults S procs timeline blocks).
Proof.
  unfold printResults, Unbounded.printResults, in_int. cbn [res_procs
    res_timeline res_blocks res_idle]. by rewrite idle_time_int.
Qed.

(** ** Loops that agree *)

(** Two loops whose bodies agree on the states of an invariant that the
    second keeps go through the same states. *)
Lemma while_agree {St : Type} (cond : St -> bool)
    (body body' : St -> control St) (I : St -> Prop) :
  (forall st, I st -> cond st = true -> body st = body' st) ->
  (forall st st', I st -> cond st = true -> body' st = Continue st' -> I st') ->
  forall fuel st, I st -> while cond body fuel st = while cond body' fuel st.
Proof.
  intros Hsame Hkeep. induction fuel as [|fuel IH]; intros st HI; [done|].
  cbn [while]. destruct (cond st) eqn:Hc; [|done].
  rewrite (Hsame st HI Hc).
  destruct (body' st) as [st'|st'] eqn:Hb; [|done].
  apply IH. by apply (Hkeep st).
Qed.

(** ** FCFS *)

Lemma FCFS_step_exact (p : Process) (st : fcfs_state) :
  0 <= f_time st -> bounded p ->
  Z.max (f_time st) (arr p) + bt p <= INT_MAX ->
  FCFS_step p st = Unbounded.FCFS_step p st.
Proof.
  intros Ht [Ha Hb] Hmax. unfold FCFS_step, Unbounded.FCFS_step.
  destruct (Z.gtb_spec (arr p) (f_time st)) as [Hgt|Hle]; cbv zeta;
    cbn [f_time f_timeline f_blocks].
  - rewrite (int_exact (arr p + bt p)) by (unfold INT_MIN; lia).
    rewrite finish_exact by lia. reflexivity.
  - rewrite (int_exact (f_time st + bt p)) by (unfold INT_MIN; lia).
    rewrite finish_exact by lia. reflexivity.
Qed.

Lemma FCFS_loop_exact (procs : list Process) (st : fcfs_state) :
  Forall bounded procs -> 0 <= f_time st ->
  Z.max (f_time st) (latest_arrival procs) + total_burst procs <= INT_MAX ->
  FCFS_loop procs st = Unbounded.FCFS_loop procs st.
Proof.
  intros Hb. revert st.
  induction Hb as [|p rest Hp Hrest IH]; intros st Ht Hmax; [done|].
  cbn [latest_arrival total_burst fold_right] in Hmax.
  fold (latest_arrival rest) in Hmax. fold (total_burst rest) in Hmax.
  pose proof (total_burst_nonneg rest Hrest) as Hnn.
  pose proof (latest_arrival_nonneg rest) as Hla.
  pose proof Hp as [Ha Hbt].
  cbn [FCFS_loop Unbounded.FCFS_loop].
  rewrite (FCFS_step_exact p st Ht Hp) by lia.
  assert (Htime : f_time (Unbounded.FCFS_step p st).2
                  = Z.max (f_time st) (arr p) + bt p).
  { unfold Unbounded.FCFS_step. cbn [snd f_time].
    destruct (Z.gtb_spec (arr p) (f_time st)); cbn [f_time]; lia. }
  destruct (Unbounded.FCFS_step p st) as [p' st']. cbn [snd] in Htime.
  rewrite (IH st') by lia. reflexivity.
Qed.

(** On a valid input FCFS computes what it computes over unbounded
    integers. *)
Lemma FCFS_exact (S : Sorter) (procs : list Process) :
  valid_input procs -> FCFS S procs = Unbounded.FCFS S procs.
Proof.
  intros Hv.
  pose proof (Forall_bounded_sorted S arr procs Hv) as Hb.
  pose proof (FCFS_idle_time_unbounded S procs Hv) as [_ Hidle].
  pose proof (latest_arrival_nonneg procs) as Hla.
  pose proof (total_burst_nonneg _ (valid_input_bounds _ Hv)) as Hnn.
  assert (Hsum : latest_arrival procs + total_burst procs <= INT_MAX)
    by apply Hv.
  revert Hidle. unfold FCFS, Unbounded.FCFS.
  rewrite FCFS_loop_exact;
    [|done|simpl; lia
     |rewrite (latest_arrival_Permutation _ _ (sort_by_perm S arr procs)),
              (total_burst_Permutation _ _ (sort_by_perm S arr procs));
      cbn [f_time]; lia].
  destruct (Unbounded.FCFS_loop _ _) as [procs' st].
  rewrite printResults_int. unfold in_int.
  cbn [Unbounded.printResults res_procs res_timeline res_blocks res_idle].
  intros Hidle. rewrite int_exact by (unfold INT_MIN; lia). reflexivity.
Qed.

(** ** SJF and Priority *)

Section NonPreemptiveExact.
Variables (key : Process -> Z) (procs0 : list Process).
Hypothesis Hbounded : Forall bounded procs0.
Hypothesis Hhorizon : horizon procs0 <= INT_MAX.

(** What the loop over unbounded integers keeps: its invariant, the
    bound on its clock, and a clock that is not negative. *)
Lemma np_fits_init :
  np_inv procs0 (np_init procs0) /\ np_clock procs0 (np_init procs0) /\
  0 <= n_time (np_init procs0).
Proof. split; [apply np_inv_init|]. split; [apply np_clock_init|done]. Qed.

Lemma np_fits_step st st' :
  np_inv procs0 st /\ np_clock procs0 st /\ 0 <= n_time st ->
  Unbounded.NP_body key st = Continue st' ->
  np_inv procs0 st' /\ np_clock procs0 st' /\ 0 <= n_time st'.
Proof.
  intros (Hinv & Hclock & Htime) Hbody.
  split; [by apply (np_inv_step key procs0 st)|].
  split; [by apply (np_clock_step key procs0 Hbounded st)|].
  revert Hbody. unfold Unbounded.NP_body.
  destruct (select (np_ready st) key (n_procs st)) as [idx|] eqn:Hsel.
  - intros [= <-]. cbn [Unbounded.np_dispatch n_time].
    apply select_Some in Hsel as (Hidx & _).
    pose proof (bounded_static _ _ idx (np_static _ _ Hinv) Hbounded Hidx)
      as [_ Hbt].
    lia.
  - destruct (Z.eqb_spec (np_next_arrival st) INT_MAX) as [Hn|Hn];
      [discriminate|].
    intros [= <-]. cbn [np_idle n_time].
    destruct (np_next_arrival_witness st) as [?|(i & Hi & _ & <-)]; [done|].
    pose proof (bounded_static _ _ i (np_static _ _ Hinv) Hbounded Hi)
      as [Ha _].
    lia.
Qed.

Lemma NP_body_exact st :
  np_inv procs0 st /\ np_clock procs0 st /\ 0 <= n_time st ->
  NP_body key st = Unbounded.NP_body key st.
Proof.
  intros Hfits. unfold NP_body, Unbounded.NP_body.
  destruct (select (np_ready st) key (n_procs st)) as [idx|] eqn:Hsel; [|done].
  f_equal.
  assert (Hbody : Unbounded.NP_body key st
                  = Continue (Unbounded.np_dispatch st idx))
    by (unfold Unbounded.NP_body; by rewrite Hsel).
  destruct (np_fits_step _ _ Hfits Hbody) as (Hinv' & [Hclock' _] & Htime').
  destruct Hfits as (Hinv & _ & Htime).
  pose proof (total_burst_dispatched
                (n_completed (Unbounded.np_dispatch st idx)) _
                (np_bt_nonneg procs0 Hbounded _ Hinv')) as [_ Hle].
  rewrite (total_burst_static _ _ (np_static _ _ Hinv')) in Hle.
  apply select_Some in Hsel as (Hidx & Hready & _).
  unfold np_ready in Hready. apply andb_prop in Hready as [_ Harr].
  apply Z.leb_le in Harr.
  pose proof (bounded_static _ _ idx (np_static _ _ Hinv) Hbounded Hidx)
    as [Ha Hbt].
  unfold horizon in Hhorizon. cbn [Unbounded.np_dispatch n_time] in *.
  unfold np_dispatch, Unbounded.np_dispatch. cbv zeta.
  rewrite (int_exact (n_time st + bt (n_procs st !!! idx)))
    by (unfold INT_MIN; lia).
  f_equal. apply alter_agree. intros x Hx.
  rewrite (list_lookup_total_correct _ _ _ Hx) in *.
  apply finish_exact; lia.
Qed.

Lemma NP_loop_exact fuel :
  NP_loop key fuel procs0 = Unbounded.NP_loop key fuel procs0.
Proof.
  unfold NP_loop, Unbounded.NP_loop.
  apply (while_agree _ _ _
           (fun st => np_inv procs0 st /\ np_clock procs0 st /\
                      0 <= n_time st)).
  - intros st Hfits _. by apply NP_body_exact.
  - intros st st' Hfits _. by apply np_fits_step.
  - apply np_fits_init.
Qed.

Lemma NP_loop_time fuel st :
  Unbounded.NP_loop key fuel procs0 = Done st -> 0 <= n_time st.
Proof.
  unfold Unbounded.NP_loop. intros Hrun.
  apply (while_invariant _ _
           (fun st => np_inv procs0 st /\ np_clock procs0 st /\
                      0 <= n_time st)) in Hrun.
  - destruct Hrun as [[H _]|(st0 & H & _ & Hb)]; [apply H|].
    assert (st = st0) as ->; [|apply H].
    unfold Unbounded.NP_body in Hb. destruct (select _ _ _); [discriminate|].
    destruct (negb _); [discriminate|]. congruence.
  - intros s s' Hfits _. by apply np_fits_step.
  - apply np_fits_init.
Qed.
End NonPreemptiveExact.

(** On a valid input SJF and Priority compute what they compute over
    unbounded integers, whatever the fuel. *)
Lemma NP_exact (key : Process -> Z) (S : Sorter) (procs : list Process)
    (fuel : nat) :
  valid_input procs -> NP key S procs fuel = Unbounded.NP key S procs fuel.
Proof.
  intros Hv. pose proof (valid_input_bounds _ Hv) as Hb.
  assert (Hh : horizon procs <= INT_MAX) by apply Hv.
  unfold NP. rewrite (NP_loop_exact key procs Hb Hh).
  pose proof (NP_idle_time_unbounded key S procs) as Hidle.
  unfold yields, Unbounded.NP in *.
  destruct (Unbounded.NP_loop key fuel procs) as [st| |] eqn:Hloop;
    [|done|done].
  cbn [outcome_map]. f_equal.
  assert (Hy : exists fuel0,
             outcome_map
               (fun st0 => Unbounded.printResults S (n_procs st0)
                             (n_timeline st0) (n_blocks st0))
               (Unbounded.NP_loop key fuel0 procs)
             = Done (Unbounded.printResults S (n_procs st) (n_timeline st)
                       (n_blocks st)))
    by (exists fuel; by rewrite Hloop).
  specialize (Hidle _ Hv Hy).
  destruct Hidle as [Hsum Hle].
  pose proof (NP_loop_time key procs Hb fuel st Hloop) as Htime.
  pose proof (NP_loop_exit key procs Hb fuel st Hloop)
    as (_ & (_ & Hlast & _) & _).
  pose proof (latest_arrival_nonneg procs) as Hla.
  pose proof (total_burst_nonneg _ Hb) as Hnn.
  unfold horizon in Hh.
  rewrite printResults_int. unfold in_int.
  cbn [Unbounded.printResults res_procs res_timeline res_blocks res_idle] in *.
  unfold back in Hsum. rewrite Hlast in Hsum. simpl in Hsum.
  rewrite int_exact by (unfold INT_MIN, INT_MAX in *; lia). reflexivity.
Qed.

(** ** SRTF *)

Section ShortestRemainingExact.
Variable procs0 : list Process.
Hypothesis Hbounded : Forall bounded procs0.
Hypothesis Hhorizon : horizon procs0 <= INT_MAX.

Lemma srtf_fits_init :
  srtf_inv procs0 (srtf_init procs0) /\
  work_clock procs0 (s_procs (srtf_init procs0)) (s_time (srtf_init procs0)) /\
  0 <= s_time (srtf_init procs0).
Proof.
  split; [by apply srtf_inv_init|]. split; [by apply work_clock_init|done].
Qed.

Lemma srtf_fits_step st st' :
  srtf_inv procs0 st /\ work_clock procs0 (s_procs st) (s_time st) /\
  0 <= s_time st ->
  Unbounded.SRTF_body st = Continue st' ->
  srtf_inv procs0 st' /\ work_clock procs0 (s_procs st') (s_time st') /\
  0 <= s_time st'.
Proof.
  intros (Hinv & Hclock & Htime) Hbody.
  split; [by apply (srtf_inv_step procs0 Hbounded st)|].
  split; [by apply (srtf_clock_step procs0 Hbounded st)|].
  revert Hbody. unfold Unbounded.SRTF_body.
  destruct (select (srtf_ready st) rem_bt (s_procs st)) as [idx|] eqn:Hsel.
  - destruct (_ =? 0); intros [= <-]; cbn [s_time]; lia.
  - destruct (srtf_next_arrival (s_procs st)) as [nxt found] eqn:Hn.
    destruct found; [|discriminate].
    assert (Hnxt : 0 <= nxt).
    { destruct (srtf_next_arrival_witness (s_procs st)) as (i & Hi & _ & Ha).
      - intros i Hi.
        pose proof (bounded_static _ _ i (srtf_static _ _ Hinv) Hbounded Hi)
          as [? _].
        lia.
      - by rewrite Hn.
      - rewrite Hn in Ha. simpl in Ha. subst nxt.
        pose proof (bounded_static _ _ i (srtf_static _ _ Hinv) Hbounded Hi)
          as [? _].
        lia. }
    destruct (negb _); intros [= <-]; exact Hnxt.
Qed.

(** The clock of a state that fits is within [int], with room for the
    work that is left. *)
Lemma work_clock_fits procs time run_time :
  Forall (run_ok run_time) procs -> work_clock procs0 procs time ->
  time + remaining procs <= INT_MAX.
Proof. intros Hrun [Htime _]. unfold horizon in Hhorizon. lia. Qed.

Lemma remaining_lookup time (l : list Process) (i : nat) :
  Forall (run_ok time) l -> (i < length l)%nat ->
  rem_bt (l !!! i) <= remaining l.
Proof.
  intros Hrun. revert i.
  induction Hrun as [|p l [Hp _] Hl IH]; intros [|i] Hi; simpl in *; try lia.
  - pose proof (remaining_nonneg _ _ Hl). lia.
  - specialize (IH i ltac:(lia)). lia.
Qed.

Lemma SRTF_body_exact st :
  srtf_inv procs0 st /\ work_clock procs0 (s_procs st) (s_time st) /\
  0 <= s_time st ->
  SRTF_body st = Unbounded.SRTF_body st.
Proof.
  intros (Hinv & Hclock & Htime). unfold SRTF_body, Unbounded.SRTF_body.
  destruct (select (srtf_ready st) rem_bt (s_procs st)) as [idx|] eqn:Hsel;
    [|done].
  apply select_Some in Hsel as (Hidx & Hready & _ & _).
  unfold srtf_ready in Hready. apply andb_prop in Hready as [Harr Hrem].
  apply Z.leb_le in Harr. apply Z.gtb_gt in Hrem.
  pose proof (list_lookup_lookup_total_lt _ _ Hidx) as Hlook.
  pose proof (Forall_lookup_total_1 _ _ _ (srtf_run _ _ Hinv) Hidx)
    as (Hr & Hused & _).
  pose proof (srtf_inv_bt procs0 Hbounded st idx Hinv Hidx) as Hbt.
  pose proof (bounded_static _ _ idx (srtf_static _ _ Hinv) Hbounded Hidx)
    as [Ha _].
  pose proof (work_clock_fits _ _ _ (srtf_run _ _ Hinv) Hclock) as Hfit.
  pose proof (remaining_lookup _ _ idx (srtf_run _ _ Hinv) Hidx) as Hle.
  cbv zeta.
  rewrite (int_exact (s_time st + 1)) by (unfold INT_MIN; lia).
  rewrite (alter_agree
             (fun p => set_rem_bt (int (rem_bt p - 1)) p)
             (fun p => set_rem_bt (rem_bt p - 1) p)).
  2:{ intros x Hx. rewrite Hlook in Hx. injection Hx as <-.
      rewrite int_exact; [done|unfold INT_MIN; lia]. }
  rewrite list_lookup_total_alter_eq by done. cbn [rem_bt set_rem_bt].
  destruct (Z.eqb_spec (rem_bt (s_procs st !!! idx) - 1) 0) as [Hz|Hnz];
    [|done].
  f_equal. f_equal. apply alter_agree. intros x Hx.
  rewrite list_lookup_alter_eq, Hlook in Hx. injection Hx as <-.
  apply finish_exact; cbn [arr bt set_rem_bt]; [lia|lia|].
  destruct (decide (rem_bt (s_procs st !!! idx) = bt (s_procs st !!! idx)));
    lia.
Qed.

Lemma SRTF_loop_exact fuel :
  SRTF_loop fuel procs0 = Unbounded.SRTF_loop fuel procs0.
Proof.
  unfold SRTF_loop, Unbounded.SRTF_loop.
  apply (while_agree _ _ _
           (fun st => srtf_inv procs0 st /\
                      work_clock procs0 (s_procs st) (s_time st) /\
                      0 <= s_time st)).
  - intros st Hfits _. by apply SRTF_body_exact.
  - intros st st' Hfits _. by apply srtf_fits_step.
  - apply srtf_fits_init.
Qed.

(** Every state the program goes through is a state of the loop over
    unbounded integers, and the two bodies agree on it. *)
Lemma srtf_reachable_exact st :
  srtf_reachable procs0 st ->
  Unbounded.srtf_reachable procs0 st /\
  SRTF_body st = Unbounded.SRTF_body st.
Proof.
  intros Hreach.
  assert (H : Unbounded.srtf_reachable procs0 st /\
              (srtf_inv procs0 st /\
               work_clock procs0 (s_procs st) (s_time st) /\
               0 <= s_time st)).
  { induction Hreach as [|st st' _ [IH Hfits] Hc Hb].
    - split; [constructor|apply srtf_fits_init].
    - rewrite (SRTF_body_exact st Hfits) in Hb.
      split; [by apply (Unbounded.srtf_reach_step procs0 st)|].
      by apply (srtf_fits_step st). }
  destruct H as [Hu Hfits]. split; [done|by apply SRTF_body_exact].
Qed.
End ShortestRemainingExact.

(** ** Round Robin *)

Section RoundRobinExact.
Variables (procs0 : list Process) (quantum : Z).
Hypothesis Hbounded : Forall bounded procs0.
Hypothesis Hquantum : 0 < quantum.
Hypothesis Hhorizon : horizon procs0 <= INT_MAX.

Lemma rr_fits_init :
  rr_inv procs0 (rr_init procs0) /\
  work_clock procs0 (r_procs (rr_init procs0)) (r_time (rr_init procs0)) /\
  0 <= r_time (rr_init procs0).
Proof.
  split; [by apply rr_inv_init|]. split; [by apply work_clock_init|done].
Qed.

Lemma rr_fits_step st st' :
  rr_inv procs0 st /\ work_clock procs0 (r_procs st) (r_time st) /\
  0 <= r_time st ->
  Unbounded.RR_body quantum st = Continue st' ->
  rr_inv procs0 st' /\ work_clock procs0 (r_procs st') (r_time st') /\
  0 <= r_time st'.
Proof.
  intros (Hinv & Hclock & Htime) Hbody.
  split; [by apply (rr_inv_step procs0 quantum Hbounded Hquantum st)|].
  split; [by apply (rr_clock_step procs0 quantum Hbounded Hquantum st)|].
  revert Hbody. destruct Hinv as [Hst Hrun Hcnt Hsched].
  unfold Unbounded.RR_body.
  destruct (enqueue_arrivals_from (r_procs st) (r_time st) (r_readyQueue st)
              (r_inQueue st) (r_next_proc_to_arrive st))
    as [[queue1 inQ1] next1] eqn:Henq1.
  apply (enqueue_arrivals_from_sched _ _ None _ _ _ _ _ _
           (rr_inv_bt procs0 Hbounded _ Hst) Hsched) in Henq1.
  destruct queue1 as [|cur rest].
  - destruct (rr_next_arrival _ _ _) as [nxt|] eqn:Hna; [|discriminate].
    assert (Hnxt : 0 <= nxt).
    { destruct (rr_next_arrival_arr _ _ _ _ Hna) as (j & Hj & ->).
      destruct Henq1 as (_ & Hn1 & _).
      pose proof (bounded_static _ _ j Hst Hbounded ltac:(lia)) as [? _].
      lia. }
    destruct (negb _); intros [= <-]; exact Hnxt.
  - pose proof Henq1 as (_ & Hn1 & _ & Hq1 & _).
    destruct (Hq1 cur ltac:(left)) as (Hcur & _ & Harr & Hpos).
    destruct (enqueue_arrivals_from _ _ rest _ _) as [[queue3 inQ3] next3].
    destruct (_ =? 0); intros [= <-]; cbn [r_time]; lia.
Qed.

Lemma RR_body_exact st :
  rr_inv procs0 st /\ work_clock procs0 (r_procs st) (r_time st) /\
  0 <= r_time st ->
  RR_body quantum st = Unbounded.RR_body quantum st.
Proof.
  intros ([Hst Hrun Hcnt Hsched] & Hclock & Htime).
  unfold RR_body, Unbounded.RR_body.
  destruct (enqueue_arrivals_from (r_procs st) (r_time st) (r_readyQueue st)
              (r_inQueue st) (r_next_proc_to_arrive st))
    as [[queue1 inQ1] next1] eqn:Henq1.
  apply (enqueue_arrivals_from_sched _ _ None _ _ _ _ _ _
           (rr_inv_bt procs0 Hbounded _ Hst) Hsched) in Henq1.
  destruct queue1 as [|cur rest]; [done|].
  pose proof Henq1 as (_ & Hn1 & _ & Hq1 & _).
  destruct (Hq1 cur ltac:(left)) as (Hcur & _ & Harr & Hpos).
  assert (Hidx : (cur < length (r_procs st))%nat) by lia.
  pose proof (list_lookup_lookup_total_lt _ _ Hidx) as Hlook.
  pose proof (Forall_lookup_total_1 _ _ _ Hrun Hidx) as (Hr & Hused & _).
  pose proof (bounded_static _ _ cur Hst Hbounded Hidx) as [Ha Hbt].
  pose proof (work_clock_fits procs0 Hhorizon _ _ _ Hrun Hclock) as Hfit.
  pose proof (remaining_lookup _ _ cur Hrun Hidx) as Hle.
  cbv zeta.
  set (e := Z.min quantum (rem_bt (r_procs st !!! cur))).
  assert (He : 0 < e <= rem_bt (r_procs st !!! cur)) by lia.
  rewrite (int_exact (r_time st + e)) by (unfold INT_MIN; lia).
  rewrite (alter_agree
             (fun p => set_rem_bt (int (rem_bt p - e)) p)
             (fun p => set_rem_bt (rem_bt p - e) p)).
  2:{ intros x Hx. rewrite Hlook in Hx. injection Hx as <-.
      rewrite int_exact; [done|unfold INT_MIN; lia]. }
  destruct (enqueue_arrivals_from _ _ rest _ _) as [[queue3 inQ3] next3].
  rewrite list_lookup_total_alter_eq by done. cbn [rem_bt set_rem_bt].
  destruct (Z.eqb_spec (rem_bt (r_procs st !!! cur) - e) 0) as [Hz|Hnz];
    [|done].
  f_equal. f_equal. apply alter_agree. intros x Hx.
  rewrite list_lookup_alter_eq, Hlook in Hx. injection Hx as <-.
  apply finish_exact; cbn [arr bt set_rem_bt]; [lia|lia|].
  destruct (decide (rem_bt (r_procs st !!! cur) = bt (r_procs st !!! cur)));
    lia.
Qed.

Lemma RR_loop_exact fuel :
  RR_loop quantum fuel procs0 = Unbounded.RR_loop quantum fuel procs0.
Proof.
  unfold RR_loop, Unbounded.RR_loop.
  destruct (pid_table_ok procs0); [|done].
  apply (while_agree _ _ _
           (fun st => rr_inv procs0 st /\
                      work_clock procs0 (r_procs st) (r_time st) /\
                      0 <= r_time st)).
  - intros st Hfits _. by apply RR_body_exact.
  - intros st st' Hfits _. by apply rr_fits_step.
  - apply rr_fits_init.
Qed.

Lemma rr_reachable_exact st :
  rr_reachable quantum procs0 st ->
  Unbounded.rr_reachable quantum procs0 st /\
  RR_body quantum st = Unbounded.RR_body quantum st.
Proof.
  intros Hreach.
  assert (H : Unbounded.rr_reachable quantum procs0 st /\
              (rr_inv procs0 st /\
               work_clock procs0 (r_procs st) (r_time st) /\
               0 <= r_time st)).
  { induction Hreach as [|st st' _ [IH Hfits] Hc Hb].
    - split; [constructor|apply rr_fits_init].
    - rewrite (RR_body_exact st Hfits) in Hb.
      split; [by apply (Unbounded.rr_reach_step quantum procs0 st)|].
      by apply (rr_fits_step st). }
  destruct H as [Hu Hfits]. split; [done|by apply RR_body_exact].
Qed.
End RoundRobinExact.

(** ** The five schedulers *)

(** With bursts and arrivals as the loops need them and a horizon within
    [int], SRTF and Round Robin compute what they compute over unbounded
    integers, but for the idle time, which is summed in [int]. *)
Lemma SRTF_exact (S : Sorter) (procs : list Process) (fuel : nat) :
  Forall bounded procs -> horizon procs <= INT_MAX ->
  SRTF S procs fuel = outcome_map in_int (Unbounded.SRTF S procs fuel).
Proof.
  intros Hb Hh. unfold SRTF, Unbounded.SRTF.
  rewrite (SRTF_loop_exact procs Hb Hh).
  destruct (Unbounded.SRTF_loop fuel procs) as [st| |]; [|done|done].
  cbn [outcome_map]. destruct (merge_gantt _ _) as [tl bl].
  by rewrite printResults_int.
Qed.

Lemma RoundRobin_exact (S : Sorter) (procs : list Process) (quantum : Z)
    (fuel : nat) :
  Forall bounded procs -> horizon procs <= INT_MAX -> 0 < quantum ->
  RoundRobin S procs quantum fuel
  = outcome_map in_int (Unbounded.RoundRobin S procs quantum fuel).
Proof.
  intros Hb Hh Hq. unfold RoundRobin, Unbounded.RoundRobin.
  rewrite (RR_loop_exact (sort_by S arr procs) quantum
             (Forall_sorted S arr _ _ Hb) Hq).
  2:{ by rewrite horizon_sorted. }
  destruct (Unbounded.RR_loop quantum fuel _) as [st| |]; [|done|done].
  cbn [outcome_map]. destruct (merge_gantt _ _) as [tl bl].
  by rewrite printResults_int.
Qed.

Lemma int_idem (z : Z) : int (int z) = int z.
Proof. pose proof (int_add_l z 0) as H. by rewrite !Z.add_0_r in H. Qed.

Lemma printResults_in_int (S : Sorter) (procs : list Process)
    (timeline : list Z) (blocks : list string) :
  in_int (printResults S procs timeline blocks)
  = printResults S procs timeline blocks.
Proof.
  rewrite printResults_int. unfold in_int. cbn [res_procs res_timeline
    res_blocks res_idle]. by rewrite int_idem.
Qed.

(** Every result of the program on a valid input is a result over
    unbounded integers, with the idle time reduced to [int]. *)
Lemma scheduled_exact (S : Sorter) (procs : list Process) (quantum : Z)
    (r : Result) :
  valid_input procs -> 0 < quantum -> scheduled S procs quantum r ->
  exists r', Unbounded.scheduled S procs quantum r' /\ r = in_int r'.
Proof.
  intros Hv Hq. pose proof (valid_input_bounds _ Hv) as Hb.
  assert (Hh : horizon procs <= INT_MAX) by apply Hv.
  assert (Hnp : forall key fuel,
             NP key S procs fuel = Done r ->
             Unbounded.NP key S procs fuel = Done r /\ r = in_int r).
  { intros key fuel Hr. split; [by rewrite <- NP_exact|].
    unfold NP in Hr. destruct (NP_loop key fuel procs); try discriminate.
    injection Hr as <-. by rewrite printResults_in_int. }
  unfold scheduled, Unbounded.scheduled, SJF, PriorityScheduling,
    Unbounded.SJF, Unbounded.PriorityScheduling, yields.
  intros [Hr|[[fuel Hr]|[[fuel Hr]|[[fuel Hr]|[fuel Hr]]]]].
  - exists r. split; [left; by rewrite <- FCFS_exact|].
    rewrite Hr. unfold FCFS. destruct (FCFS_loop _ _) as [ps st].
    by rewrite printResults_in_int.
  - destruct (Hnp _ _ Hr) as [Hu Hi]. exists r.
    split; [right; left; by exists fuel|done].
  - destruct (Hnp _ _ Hr) as [Hu Hi]. exists r.
    split; [right; right; left; by exists fuel|done].
  - rewrite SRTF_exact in Hr by done.
    destruct (Unbounded.SRTF S procs fuel) as [r'| |] eqn:Hu;
      [|discriminate|discriminate].
    injection Hr as <-. exists r'.
    split; [do 3 right; left; by exists fuel|done].
  - rewrite RoundRobin_exact in Hr by done.
    destruct (Unbounded.RoundRobin S procs quantum fuel) as [r'| |] eqn:Hu;
      [|discriminate|discriminate].
    injection Hr as <-. exists r'.
    split; [do 4 right; by exists fuel|done].
Qed.

(** * The scenarios, run *)

(** A run that ends has one result. *)
Lemma NP_deterministic key S procs r1 r2 :
  yields (NP key S procs) r1 -> yields (NP key S procs) r2 -> r1 = r2.
Proof. apply yields_map_deterministic. intros *. apply while_deterministic. Qed.

Lemma SRTF_deterministic S procs r1 r2 :
  yields (SRTF S procs) r1 -> yields (SRTF S procs) r2 -> r1 = r2.
Proof. apply yields_map_deterministic. intros *. apply while_deterministic. Qed.

Lemma RoundRobin_deterministic S procs q r1 r2 :
  yields (RoundRobin S procs q) r1 -> yields (RoundRobin S procs q) r2 -> r1 = r2.
Proof.
  apply yields_map_deterministic. intros *. unfold RR_loop.
  destruct (pid_table_ok _); [apply while_deterministic|discriminate].
Qed.

Lemma SRTF_loop_S4 : SRTF_loop 20 S4 = Done srtf_S4_final.
Proof. vm_compute. reflexivity. Qed.

Lemma RR_loop_S5 : RR_loop 2 20 S5 = Done rr_S5_final.
Proof. vm_compute. reflexivity. Qed.

Lemma RoundRobin_S5 (S : Sorter) :
  RoundRobin S S5 2 20
  = Done (mkResult (r_procs rr_S5_final)
                   [0; 0; 2; 2; 4; 4; 10]
                   ["P1"; "P2"; "P3"; "P1"; "P2"; "P1"] 0).
Proof.
  unfold RoundRobin. rewrite sort_by_S5, RR_loop_S5. cbn [outcome_map].
  rewrite (sort_by_increasing S pid (r_procs rr_S5_final)) by reflexivity.
  unfold printResults.
  rewrite (sort_by_increasing S pid (r_procs rr_S5_final)) by reflexivity.
  vm_compute. reflexivity.
Qed.

Lemma SRTF_S4 (S : Sorter) :
  SRTF S S4 20
  = Done (mkResult (s_procs srtf_S4_final)
                   [0; 0; 2; 4; 5; 12]
                   ["P1"; "P2"; "P3"; "P2"; "P1"] 0).
Proof.
  unfold SRTF. rewrite SRTF_loop_S4. cbn [outcome_map]. unfold printResults.
  rewrite (sort_by_increasing S pid (s_procs srtf_S4_final)) by reflexivity.
  vm_compute. reflexivity.
Qed.

(** C1, as the code runs it: Round Robin on S5 with quantum 2 completes
    P1 at 10, P2 at 9 and P3 at 6. *)
Theorem RoundRobin_S5_completion_times (S : Sorter) :
  exists r, yields (RoundRobin S S5 2) r /\
            completion_times r = [(1, 10); (2, 9); (3, 6)].
Proof.
  eexists. split; [exists 20%nat; apply RoundRobin_S5|]. reflexivity.
Qed.

(** C1, refuted as stated: the run of Round Robin on S5 does not give the
    completion times 11, 9 and 6. *)
Lemma RoundRobin_S5_not_11_9_6 :
  ~ exists r, yields (RoundRobin insertion_sorter S5 2) r /\
              completion_times r = [(1, 11); (2, 9); (3, 6)].
Proof.
  intros [r [Hr Hct]].
  assert (Hr' := ex_intro _ 20%nat (RoundRobin_S5 insertion_sorter)
                 : yields (RoundRobin insertion_sorter S5 2) _).
  rewrite (RoundRobin_deterministic _ _ _ _ _ Hr Hr') in Hct.
  vm_compute in Hct. discriminate.
Qed.

(** C2, at the failing input: SRTF on S4 hands the renderer the blocks
    P1 P2 P3 P2 P1 over the timeline 0 0 2 4 5 12, that is the segments
    P1[0,0] P2[0,2] P3[2,4] P2[4,5] P1[5,12]. *)
Theorem SRTF_S4_gantt (S : Sorter) :
  exists r, yields (SRTF S S4) r /\
    res_blocks r = ["P1"; "P2"; "P3"; "P2"; "P1"] /\
    res_timeline r = [0; 0; 2; 4; 5; 12] /\
    gantt r
    = [("P1", 0, 0); ("P2", 0, 2); ("P3", 2, 4); ("P2", 4, 5); ("P1", 5, 12)] /\
    gantt r
    <> [("P1", 0, 2); ("P2", 2, 4); ("P3", 4, 5); ("P2", 5, 7); ("P1", 7, 12)].
Proof.
  eexists. split; [exists 20%nat; apply SRTF_S4|].
  repeat (split; [reflexivity|]). vm_compute. discriminate.
Qed.

(** C3, at the failing inputs: in the trace of SRTF on S4 the segments
    labelled P2 add up to 3 (burst 4) and those labelled P3 to 2
    (burst 1); in the trace of Round Robin on S5 with quantum 2 the
    segments labelled P1, P2 and P3 add up to 8, 2 and 0 (bursts 5, 3
    and 2). *)
Theorem SRTF_S4_labelled_time (S : Sorter) :
  (exists r, yields (SRTF S S4) r /\
     map (fun p => (pid p, bt p, labelled_time (block_id p) (gantt r)))
         (res_procs r)
     = [(1, 7, 7); (2, 4, 3); (3, 1, 2)]) /\
  (exists r, yields (RoundRobin S S5 2) r /\
     map (fun p => (pid p, bt p, labelled_time (block_id p) (gantt r)))
         (res_procs r)
     = [(1, 5, 8); (2, 3, 2); (3, 2, 0)]).
Proof.
  split; eexists.
  - split; [exists 20%nat; apply SRTF_S4|]. vm_compute. reflexivity.
  - split; [exists 20%nat; apply RoundRobin_S5|]. vm_compute. reflexivity.
Qed.

(** C8: SRTF on S4 completes P1 at 12, P2 at 7 and P3 at 5. *)
Theorem SRTF_S4_completion_times (S : Sorter) :
  exists r, yields (SRTF S S4) r /\
            completion_times r = [(1, 12); (2, 7); (3, 5)].
Proof.
  eexists. split; [exists 20%nat; apply SRTF_S4|]. reflexivity.
Qed.

Lemma FCFS_S6 (S : Sorter) :
  FCFS S S6 = mkResult [mkProcess 1 10 3 3 13 3 0 0] [0; 10; 13] ["IDLE"; "P1"] 10.
Proof.
  unfold FCFS, S6. rewrite sort_by_singleton.
  cbn [FCFS_loop FCFS_step]. unfold printResults.
  rewrite sort_by_singleton. vm_compute. reflexivity.
Qed.

Lemma NP_loop_S6 key :
  key = bt \/ key = priority ->
  NP_loop key 5 S6
  = Done (mkNp [mkProcess 1 10 3 3 13 3 0 0] [true] 13 1 [0; 10; 13] ["IDLE"; "P1"]).
Proof. intros [-> | ->]; vm_compute; reflexivity. Qed.

Lemma NP_S6 (S : Sorter) key :
  key = bt \/ key = priority ->
  NP key S S6 5
  = Done (mkResult [mkProcess 1 10 3 3 13 3 0 0] [0; 10; 13] ["IDLE"; "P1"] 10).
Proof.
  intros Hkey. unfold NP. rewrite (NP_loop_S6 key Hkey). cbn [outcome_map].
  unfold printResults. cbn [n_procs n_timeline n_blocks].
  rewrite sort_by_singleton. vm_compute. reflexivity.
Qed.

Lemma SRTF_S6 (S : Sorter) :
  SRTF S S6 10
  = Done (mkResult [mkProcess 1 10 3 0 13 3 0 0] [0; 0; 13] ["IDLE"; "P1"] 0).
Proof.
  assert (Hloop : SRTF_loop 10 S6
                  = Done (mkSrtf [mkProcess 1 10 3 0 13 3 0 0] 13 1 [0; 0; 13]
                                 ["IDLE"; "P1"] EmptyString))
    by (vm_compute; reflexivity).
  unfold SRTF. rewrite Hloop. cbn [outcome_map].
  unfold printResults. cbn [s_procs].
  change (merge_gantt _ _) with ([0; 0; 13], ["IDLE"; "P1"]%string). cbn iota beta.
  rewrite sort_by_singleton. vm_compute. reflexivity.
Qed.

Lemma RoundRobin_S6 (S : Sorter) (q : Z) :
  q = 2 \/ q = 3 ->
  RoundRobin S S6 q 10
  = Done (mkResult [mkProcess 1 10 3 0 13 3 0 0] [0; 0; 13] ["IDLE"; "P1"] 0).
Proof.
  intros Hq.
  assert (Hloop : exists tl bl,
             RR_loop q 10 S6
             = Done (mkRr [mkProcess 1 10 3 0 13 3 0 0] 13 1 [] [false] tl bl
                          EmptyString 1)
             /\ merge_gantt tl bl = ([0; 0; 13], ["IDLE"; "P1"]%string)).
  { destruct Hq as [-> | ->]; do 2 eexists; split;
      try (vm_compute; reflexivity). }
  destruct Hloop as (tl & bl & Hloop & Hmerge).
  unfold RoundRobin, S6. rewrite sort_by_singleton.
  fold S6. rewrite Hloop. cbn [outcome_map r_procs r_timeline r_blocks].
  rewrite Hmerge. unfold printResults.
  rewrite !sort_by_singleton. vm_compute. reflexivity.
Qed.

(** C4, at the failing input: on S6 the three non-preemptive policies
    give IDLE[0,10] P1[10,13] with idle time 10; SRTF and Round Robin
    give IDLE[0,0] P1[0,13] with idle time 0.  All five complete P1 at
    13 with waiting time 0. *)
Theorem S6_all_policies (S : Sorter) :
  S6_expected (FCFS S S6) /\
  (exists r, yields (SJF S S6) r /\ S6_expected r) /\
  (exists r, yields (PriorityScheduling S S6) r /\ S6_expected r) /\
  (exists r, yields (SRTF S S6) r /\ S6_collapsed r) /\
  (exists r, yields (RoundRobin S S6 2) r /\ S6_collapsed r) /\
  (exists r, yields (RoundRobin S S6 3) r /\ S6_collapsed r).
Proof.
  split; [rewrite FCFS_S6; by repeat split|].
  split; [eexists; split; [exists 5%nat; apply NP_S6; by left|by repeat split]|].
  split; [eexists; split; [exists 5%nat; apply NP_S6; by right|by repeat split]|].
  split; [eexists; split; [exists 10%nat; apply SRTF_S6|by repeat split]|].
  split; eexists; (split; [exists 10%nat; apply RoundRobin_S6; auto|by repeat split]).
Qed.

(** ** Inputs on which a run has no result *)

Lemma NP_stuck key p fuel tl bl :
  key p = INT_MAX -> arr p = 0 ->
  while (np_cond 1) (NP_body key) fuel (mkNp [p] [false] 0 0 tl bl) = OutOfFuel.
Proof.
  intros Hkey Harr. revert tl bl.
  induction fuel as [|fuel IH]; intros tl bl; [reflexivity|].
  cbn [while np_cond n_completedCount]. change (0 <? 1) with true. cbn iota.
  assert (Hbody : NP_body key (mkNp [p] [false] 0 0 tl bl)
                  = Continue (mkNp [p] [false] 0 0 (tl ++ [0]) (bl ++ [IDLE]))).
  { unfold NP_body, np_idle, select, scan, np_next_arrival.
    cbn [n_procs length seq fold_left]. unfold scan_step, np_ready.
    cbn [n_procs n_completed n_time n_completedCount n_timeline n_blocks].
    change ([p] !!! 0%nat) with p. change ([false] !!! 0%nat) with false.
    rewrite Hkey, Harr. cbn [negb andb]. change (0 <=? 0) with true.
    rewrite Z.ltb_irrefl, Z.eqb_refl. cbn [snd].
    change (Z.min INT_MAX 0) with 0. reflexivity. }
  rewrite Hbody. apply IH.
Qed.

(** C9, at the failing inputs: each is a valid input.  Priority scheduling
    of one process whose priority is [INT_MAX], and SJF of one process
    whose burst is [INT_MAX], never leave the loop, whatever the fuel.
    Round Robin of P1(at=5) and P2(at=0) writes outside its pid table. *)
Theorem runs_without_result (S : Sorter) :
  (valid_input top_priority /\
   forall fuel, PriorityScheduling S top_priority fuel = OutOfFuel) /\
  (valid_input top_burst /\
   forall fuel, SJF S top_burst fuel = OutOfFuel) /\
  (valid_input late_first /\
   forall q fuel, RoundRobin S late_first q fuel = Undefined).
Proof.
  split; [split; [apply valid_top_priority|]|split; split].
  - intros fuel. unfold PriorityScheduling, NP.
    change (NP_loop priority fuel top_priority)
      with (while (np_cond 1) (NP_body priority) fuel
                  (mkNp [new_Process 1 0 1 INT_MAX] [false] 0 0 [0] [])).
    by rewrite NP_stuck.
  - apply valid_top_burst.
  - intros fuel. unfold SJF, NP.
    change (NP_loop bt fuel top_burst)
      with (while (np_cond 1) (NP_body bt) fuel
                  (mkNp [new_Process 1 0 INT_MAX 0] [false] 0 0 [0] [])).
    by rewrite NP_stuck.
  - apply valid_late_first.
  - intros q fuel. unfold RoundRobin.
    rewrite (sort_by_unique S arr late_first
               [new_Process 2 0 1 0; new_Process 1 5 1 0]).
    + reflexivity.
    + apply perm_swap.
    + reflexivity.
Qed.

(** * What the loops do whatever the clock does *)

Lemma finish_static time p : static (finish time p) = static p.
Proof. reflexivity. Qed.

(** ** SJF and Priority: the dispatch choice *)

Lemma np_shape_reachable key procs st :
  np_reachable key procs st -> np_shape procs st.
Proof.
  induction 1 as [|st st' _ (Hst & Hlen & Hcnt) _ Hb].
  - destruct (np_inv_init procs) as [H1 H2 H3 _]. by repeat split.
  - revert Hb. unfold NP_body.
    destruct (select (np_ready st) key (n_procs st)) as [idx|] eqn:Hsel.
    + intros [= <-].
      apply select_Some in Hsel as (Hidx & Hready & _ & _).
      unfold np_ready in Hready. apply andb_prop in Hready as [Hnc _].
      apply negb_true_iff in Hnc.
      unfold np_shape, np_dispatch; simpl. split; [|split].
      * rewrite <- Hst. apply map_alter_static, finish_static.
      * by rewrite length_insert, length_alter.
      * rewrite filter_true_insert.
        -- rewrite Hcnt. lia.
        -- rewrite list_lookup_lookup_total_lt by lia. by rewrite Hnc.
    + destruct (negb _); [|discriminate]. intros [= <-]. by repeat split.
Qed.

Lemma np_shape_pending procs st :
  np_shape procs st -> np_cond (Z.of_nat (length procs)) st = true ->
  exists j, (j < length procs)%nat /\ n_completed st !!! j = false.
Proof.
  intros (Hst & Hlen & Hcnt) Hc.
  pose proof (static_length _ _ Hst) as Hl.
  unfold np_cond in Hc. apply Z.ltb_lt in Hc. rewrite Hcnt in Hc.
  destruct (filter_true_pending (n_completed st)) as [j Hj].
  { rewrite Hlen. lia. }
  pose proof (lookup_lt_Some _ _ _ Hj) as Hlt.
  exists j. split; [rewrite <- Hl, <- Hlen; lia|].
  by rewrite (list_lookup_total_correct _ _ _ Hj).
Qed.

(** C6, as the code runs it: whenever the SJF loop dispatches, the
    process it dispatches has arrived, is not completed, and among such
    processes has the least burst, then the least arrival, then the least
    position in the input, which is the least pid when the input is in
    increasing pid order. *)
Theorem SJF_dispatch_choice (procs : list Process) (st : np_state)
    (idx : nat) :
  np_reachable bt procs st ->
  select (np_ready st) bt (n_procs st) = Some idx ->
  NP_body bt st = Continue (np_dispatch st idx) /\
  (idx < length procs)%nat /\
  n_completed st !!! idx = false /\
  arr (procs !!! idx) <= n_time st /\
  forall j, (j < length procs)%nat ->
            n_completed st !!! j = false ->
            arr (procs !!! j) <= n_time st ->
    bt (procs !!! idx) < bt (procs !!! j) \/
    (bt (procs !!! idx) = bt (procs !!! j) /\
     (arr (procs !!! idx) < arr (procs !!! j) \/
      (arr (procs !!! idx) = arr (procs !!! j) /\ (idx <= j)%nat /\
       (pid_ascending procs -> pid (procs !!! idx) <= pid (procs !!! j))))).
Proof.
  intros Hreach Hsel.
  pose proof (proj1 (np_shape_reachable _ _ _ Hreach)) as Hst.
  pose proof (static_length _ _ Hst) as Hlen.
  assert (Hfield : forall i,
             arr (n_procs st !!! i) = arr (procs !!! i) /\
             bt (n_procs st !!! i) = bt (procs !!! i)).
  { intros i. pose proof (static_lookup _ _ i Hst) as (_ & ? & ? & _)%static_eq.
    done. }
  split; [unfold NP_body; by rewrite Hsel|].
  apply select_Some in Hsel as (Hidx & Hready & _ & Hmin).
  unfold np_ready in Hready. apply andb_prop in Hready as [Hnc Harr].
  apply negb_true_iff in Hnc. apply Z.leb_le in Harr.
  destruct (Hfield idx) as [Ha Hb]. rewrite Ha in Harr.
  split; [lia|]. split; [done|]. split; [done|].
  intros j Hj Hcj Haj. destruct (Hfield j) as [Haj' Hbj].
  assert (Hrj : np_ready st j = true).
  { unfold np_ready. rewrite Hcj, Haj'. simpl. by apply Z.leb_le. }
  specialize (Hmin j ltac:(lia) Hrj). unfold chosen_before in Hmin.
  rewrite Ha, Hb, Haj', Hbj in Hmin.
  destruct Hmin as [?|[? [?|[? Hle]]]]; [by left|right; split; [done|by left]|].
  right. split; [done|]. right. split; [done|]. split; [done|].
  intros Hasc. destruct (decide (idx = j)) as [->|Hne]; [lia|].
  apply Z.lt_le_incl.
  apply (StronglySorted_lookup_total _ procs Hasc idx j). lia.
Qed.

(** The first dispatch of SJF on [tied_arrivals]: P2, whose burst is
    below that of P1. *)
Lemma SJF_dispatch_choice_witness :
  np_reachable bt tied_arrivals (np_init tied_arrivals) /\
  select (np_ready (np_init tied_arrivals)) bt tied_arrivals = Some 1%nat /\
  NP_body bt (np_init tied_arrivals)
  = Continue (np_dispatch (np_init tied_arrivals) 1) /\
  bt (tied_arrivals !!! 1%nat) < bt (tied_arrivals !!! 0%nat).
Proof.
  assert (Hreach : np_reachable bt tied_arrivals (np_init tied_arrivals))
    by constructor.
  assert (Hsel : select (np_ready (np_init tied_arrivals)) bt
                        (n_procs (np_init tied_arrivals)) = Some 1%nat)
    by reflexivity.
  destruct (SJF_dispatch_choice tied_arrivals (np_init tied_arrivals) 1
              Hreach Hsel) as (Hbody & _ & _ & _ & Hmin).
  split; [exact Hreach|]. split; [exact Hsel|]. split; [exact Hbody|].
  destruct (Hmin 0%nat) as [Hlt|[Heq _]];
    [simpl; lia|reflexivity|simpl; lia|exact Hlt|discriminate Heq].
Defined.

(** C6, refuted as stated: on [swapped_pids] SJF dispatches P2 at time 0
    although P1 is ready with the same burst and arrival. *)
Lemma SJF_tie_not_by_pid :
  valid_input swapped_pids /\
  select (np_ready (np_init swapped_pids)) bt swapped_pids = Some 0%nat /\
  ~ least_by_pid (np_init swapped_pids) 0.
Proof.
  split; [exact valid_swapped_pids|]. split; [reflexivity|].
  intros H. specialize (H 1%nat). simpl in H.
  specialize (H ltac:(lia) eq_refl). lia.
Qed.

(** X2: at every dispatch of Priority scheduling the dispatched process
    has arrived, is not completed, and has the least priority value among
    the processes that have arrived and are not completed; among equal
    priorities it has the least arrival, and among equal arrivals the
    least position in the input, which is the least pid when the input is
    in pid order. *)
Theorem Priority_dispatch_choice (procs : list Process) (st : np_state)
    (idx : nat) :
  np_reachable priority procs st ->
  select (np_ready st) priority (n_procs st) = Some idx ->
  NP_body priority st = Continue (np_dispatch st idx) /\
  (idx < length procs)%nat /\
  n_completed st !!! idx = false /\
  arr (procs !!! idx) <= n_time st /\
  forall j, (j < length procs)%nat ->
            n_completed st !!! j = false ->
            arr (procs !!! j) <= n_time st ->
    priority (procs !!! idx) < priority (procs !!! j) \/
    (priority (procs !!! idx) = priority (procs !!! j) /\
     (arr (procs !!! idx) < arr (procs !!! j) \/
      (arr (procs !!! idx) = arr (procs !!! j) /\ (idx <= j)%nat /\
       (pid_ascending procs -> pid (procs !!! idx) <= pid (procs !!! j))))).
Proof.
  intros Hreach Hsel.
  pose proof (proj1 (np_shape_reachable _ _ _ Hreach)) as Hst.
  pose proof (static_length _ _ Hst) as Hlen.
  assert (Hfield : forall i,
             arr (n_procs st !!! i) = arr (procs !!! i) /\
             priority (n_procs st !!! i) = priority (procs !!! i)).
  { intros i. pose proof (static_lookup _ _ i Hst) as (_ & ? & _ & ?)%static_eq.
    done. }
  split; [unfold NP_body; by rewrite Hsel|].
  apply select_Some in Hsel as (Hidx & Hready & _ & Hmin).
  unfold np_ready in Hready. apply andb_prop in Hready as [Hnc Harr].
  apply negb_true_iff in Hnc. apply Z.leb_le in Harr.
  destruct (Hfield idx) as [Ha Hb]. rewrite Ha in Harr.
  split; [lia|]. split; [done|]. split; [done|].
  intros j Hj Hcj Haj. destruct (Hfield j) as [Haj' Hbj].
  assert (Hrj : np_ready st j = true).
  { unfold np_ready. rewrite Hcj, Haj'. simpl. by apply Z.leb_le. }
  specialize (Hmin j ltac:(lia) Hrj). unfold chosen_before in Hmin.
  rewrite Ha, Hb, Haj', Hbj in Hmin.
  destruct Hmin as [?|[? [?|[? Hle]]]]; [by left|right; split; [done|by left]|].
  right. split; [done|]. right. split; [done|]. split; [done|].
  intros Hasc. destruct (decide (idx = j)) as [->|Hne]; [lia|].
  apply Z.lt_le_incl.
  apply (StronglySorted_lookup_total _ procs Hasc idx j). lia.
Qed.

(** The first dispatch of Priority scheduling on [ranked]: P3, whose
    priority value is the least. *)
Lemma Priority_dispatch_choice_witness :
  np_reachable priority ranked (np_init ranked) /\
  select (np_ready (np_init ranked)) priority ranked = Some 2%nat /\
  NP_body priority (np_init ranked)
  = Continue (np_dispatch (np_init ranked) 2) /\
  priority (ranked !!! 2%nat) < priority (ranked !!! 0%nat).
Proof.
  assert (Hreach : np_reachable priority ranked (np_init ranked))
    by constructor.
  assert (Hsel : select (np_ready (np_init ranked)) priority
                        (n_procs (np_init ranked)) = Some 2%nat)
    by reflexivity.
  destruct (Priority_dispatch_choice ranked (np_init ranked) 2
              Hreach Hsel) as (Hbody & _ & _ & _ & Hmin).
  split; [exact Hreach|]. split; [exact Hsel|]. split; [exact Hbody|].
  destruct (Hmin 0%nat) as [Hlt|[Heq _]];
    [simpl; lia|reflexivity|simpl; lia|exact Hlt|discriminate Heq].
Defined.

(** ** SJF and Priority: the idle branch *)

(** X3: SJF and Priority idle only while no pending process has arrived.
    On an input whose keys (bursts for SJF, priorities for Priority) are
    below [INT_MAX], an iteration that selects nothing pushes an IDLE
    block and moves the clock forward to the earliest arrival among the
    processes not yet completed. *)
Theorem NP_idle_jump (key : Process -> Z) (procs : list Process)
    (st : np_state) :
  key = bt \/ key = priority ->
  Forall bounded procs -> Forall (fun p => key p < INT_MAX) procs ->
  np_reachable key procs st ->
  np_cond (Z.of_nat (length procs)) st = true ->
  select (np_ready st) key (n_procs st) = None ->
  exists t,
    NP_body key st = Continue (np_idle st t) /\
    n_time st < t /\
    (forall j, (j < length procs)%nat -> n_completed st !!! j = false ->
               t <= arr (procs !!! j)) /\
    (exists j, (j < length procs)%nat /\ n_completed st !!! j = false /\
               arr (procs !!! j) = t).
Proof.
  intros Hkey Hb Hmax Hreach Hc Hsel.
  pose proof (np_shape_reachable _ _ _ Hreach) as Hshape.
  pose proof (proj1 Hshape) as Hst.
  pose proof (static_length _ _ Hst) as Hlen.
  assert (Harr : forall i, arr (n_procs st !!! i) = arr (procs !!! i)).
  { intros i. pose proof (static_lookup _ _ i Hst) as (_ & ? & _)%static_eq.
    done. }
  assert (Hks : forall p q, static p = static q -> key p = key q).
  { intros p q (_ & _ & ? & ?)%static_eq. by destruct Hkey as [->| ->]. }
  assert (Hbelow : forall i, (i < length (n_procs st))%nat ->
                             arr (n_procs st !!! i) < INT_MAX /\
                             key (n_procs st !!! i) < INT_MAX).
  { intros i Hi. split.
    - pose proof (bounded_static _ _ i Hst Hb Hi) as [? _]. lia.
    - rewrite (Hks _ _ (static_lookup _ _ i Hst)).
      apply (Forall_lookup_total_1 _ _ i Hmax). lia. }
  destruct (np_shape_pending _ _ Hshape Hc) as (j0 & Hj0 & Hc0).
  exists (np_next_arrival st).
  destruct (np_next_arrival_witness st) as [Hn|(i & Hi & Hci & Hai)].
  { pose proof (np_next_arrival_spec st j0 Hn ltac:(lia) Hc0).
    pose proof (proj1 (Hbelow j0 ltac:(lia))). lia. }
  destruct (Hbelow i Hi) as [Hlt Hki].
  split; [|split; [|split]].
  - unfold NP_body. rewrite Hsel.
    destruct (Z.eqb_spec (np_next_arrival st) INT_MAX); [lia|done].
  - destruct (Z.lt_ge_cases (n_time st) (np_next_arrival st)) as [|Hge]; [done|].
    assert (Hr : np_ready st i = true).
    { unfold np_ready. rewrite Hci. simpl. apply Z.leb_le. lia. }
    pose proof (select_None _ _ _ i Hsel Hi Hr). lia.
  - intros j Hj Hcj. rewrite <- Harr.
    apply np_next_arrival_least; [lia|done].
  - exists i. split; [lia|]. split; [done|]. by rewrite <- Harr.
Qed.

(** On S6, whose only process arrives at 10, the first iteration of SJF
    idles and moves the clock from 0 to 10. *)
Lemma NP_idle_jump_witness :
  exists t,
    NP_body bt (np_init S6) = Continue (np_idle (np_init S6) t) /\
    n_time (np_init S6) < t /\
    (forall j, (j < length S6)%nat -> n_completed (np_init S6) !!! j = false ->
               t <= arr (S6 !!! j)) /\
    (exists j, (j < length S6)%nat /\ n_completed (np_init S6) !!! j = false /\
               arr (S6 !!! j) = t).
Proof.
  apply (NP_idle_jump bt S6 (np_init S6)).
  - by left.
  - repeat constructor; unfold INT_MAX; simpl; lia.
  - repeat constructor; unfold INT_MAX; simpl; lia.
  - constructor.
  - reflexivity.
  - reflexivity.
Defined.

(** ** SRTF: the idle branch *)

Lemma srtf_shape_reachable procs st :
  Forall bounded procs -> srtf_reachable procs st -> srtf_shape procs st.
Proof.
  intros Hb. induction 1 as [|st st' _ (Hst & Hrem & Hcnt) _ Hbody].
  - destruct (srtf_inv_init procs Hb) as [H1 H2 H3].
    split; [done|]. split; [|done].
    eapply Forall_impl; [exact H2|]. by intros p [? _].
  - revert Hbody. unfold SRTF_body.
    destruct (select (srtf_ready st) rem_bt (s_procs st)) as [idx|] eqn:Hsel.
    + apply select_Some in Hsel as (Hidx & Hready & _ & _).
      unfold srtf_ready in Hready. apply andb_prop in Hready as [_ Hpos].
      apply Z.gtb_gt in Hpos.
      pose proof (list_lookup_lookup_total_lt _ _ Hidx) as Hlook.
      pose proof (Forall_lookup_total_1 _ _ _ Hrem Hidx) as Hp.
      cbv beta in Hp.
      pose proof (bounded_static _ _ idx Hst Hb Hidx) as [_ Hbt].
      cbv zeta.
      rewrite (alter_agree
                 (fun p => set_rem_bt (int (rem_bt p - 1)) p)
                 (fun p => set_rem_bt (rem_bt p - 1) p)).
      2:{ intros x Hx. rewrite Hlook in Hx. injection Hx as <-.
          rewrite int_exact; [done|unfold INT_MIN; lia]. }
      rewrite list_lookup_total_alter_eq by done. cbn [rem_bt set_rem_bt].
      destruct (Z.eqb_spec (rem_bt (s_procs st !!! idx) - 1) 0) as [Hz|Hnz];
        intros [= <-]; unfold srtf_shape; cbn [s_procs s_completedCount];
        (split; [|split]).
      * rewrite <- Hst. rewrite !map_alter_static; auto.
      * rewrite list_alter_alter_eq.
        apply (Forall_alter_change (fun p => 0 <= rem_bt p <= bt p));
          [done|done|].
        intros x Hx _. rewrite Hlook in Hx. injection Hx as <-. simpl. lia.
      * rewrite list_alter_alter_eq.
        rewrite (filter_alter_new _ _ _ _ _ Hlook); [lia|lia|simpl; lia].
      * rewrite <- Hst. rewrite !map_alter_static; auto.
      * apply (Forall_alter_change (fun p => 0 <= rem_bt p <= bt p));
          [done|done|].
        intros x Hx _. rewrite Hlook in Hx. injection Hx as <-. simpl. lia.
      * rewrite filter_alter_same; [done|].
        intros x Hx. rewrite Hlook in Hx. injection Hx as <-. simpl. lia.
    + destruct (srtf_next_arrival (s_procs st)) as [nxt found].
      destruct found; [|discriminate].
      destruct (negb _); intros [= <-]; by repeat split.
Qed.

(** X9: SRTF idles only while no process with work left has arrived.  On
    an input whose bursts are below [INT_MAX], an iteration that selects
    nothing changes no process and moves the clock forward to the
    earliest arrival among the processes with work left. *)
Theorem SRTF_idle_jump (procs : list Process) (st : srtf_state) :
  Forall bounded procs -> Forall (fun p => bt p < INT_MAX) procs ->
  srtf_reachable procs st ->
  srtf_cond (Z.of_nat (length procs)) st = true ->
  select (srtf_ready st) rem_bt (s_procs st) = None ->
  exists t st',
    SRTF_body st = Continue st' /\
    s_time st' = t /\ s_procs st' = s_procs st /\
    s_time st < t /\
    (forall j, (j < length procs)%nat -> 0 < rem_bt (s_procs st !!! j) ->
               t <= arr (procs !!! j)) /\
    (exists j, (j < length procs)%nat /\ 0 < rem_bt (s_procs st !!! j) /\
               arr (procs !!! j) = t).
Proof.
  intros Hb Hmax Hreach Hc Hsel.
  destruct (srtf_shape_reachable _ _ Hb Hreach) as (Hst & Hrem & Hcnt).
  pose proof (static_length _ _ Hst) as Hlen.
  assert (Harr : forall i, arr (s_procs st !!! i) = arr (procs !!! i)).
  { intros i. pose proof (static_lookup _ _ i Hst) as (_ & ? & _)%static_eq.
    done. }
  assert (Hlt : forall i, (i < length (s_procs st))%nat ->
                          arr (s_procs st !!! i) < INT_MAX).
  { intros i Hi. pose proof (bounded_static _ _ i Hst Hb Hi) as [? _]. lia. }
  assert (Hbelow : forall i, (i < length (s_procs st))%nat ->
                             rem_bt (s_procs st !!! i) < INT_MAX).
  { intros i Hi. pose proof (Forall_lookup_total_1 _ _ _ Hrem Hi) as Hr.
    cbv beta in Hr.
    pose proof (static_lookup _ _ i Hst) as (_ & _ & Hbt & _)%static_eq.
    pose proof (Forall_lookup_total_1 _ _ i Hmax ltac:(lia)) as Hm.
    simpl in Hm. lia. }
  assert (Hpending : exists j0, (j0 < length (s_procs st))%nat /\
                                0 < rem_bt (s_procs st !!! j0)).
  { unfold srtf_cond in Hc. apply Z.ltb_lt in Hc. rewrite Hcnt in Hc.
    destruct (filter_length_pending (fun p => rem_bt p = 0) (s_procs st))
      as (j & x & Hj & Hx); [lia|].
    pose proof (lookup_lt_Some _ _ _ Hj) as Hjl.
    exists j. split; [done|].
    pose proof (Forall_lookup_total_1 _ _ _ Hrem Hjl) as Hr. cbv beta in Hr.
    rewrite (list_lookup_total_correct _ _ _ Hj) in *. lia. }
  destruct Hpending as (j0 & Hj0 & Hr0).
  destruct (srtf_next_arrival (s_procs st)) as [nxt found] eqn:Hn.
  assert (Hfound : found = true).
  { destruct found; [done|].
    pose proof (srtf_next_arrival_spec (s_procs st) j0) as Hle.
    rewrite Hn in Hle. specialize (Hle eq_refl Hj0). lia. }
  subst found.
  destruct (srtf_next_arrival_witness (s_procs st) Hlt) as (i & Hi & Hri & Hai);
    [by rewrite Hn|].
  rewrite Hn in Hai. cbn [fst] in Hai.
  exists nxt.
  assert (Hbody : exists st', SRTF_body st = Continue st' /\
                              s_time st' = nxt /\ s_procs st' = s_procs st).
  { unfold SRTF_body. rewrite Hsel, Hn.
    destruct (negb _); eexists; (split; [reflexivity|]); done. }
  destruct Hbody as (st' & Hbody & Ht & Hp). exists st'.
  split; [done|]. split; [done|]. split; [done|]. split; [|split].
  - destruct (Z.lt_ge_cases (s_time st) nxt) as [|Hge]; [done|].
    assert (Hr : srtf_ready st i = true).
    { unfold srtf_ready. apply andb_true_intro.
      split; [apply Z.leb_le; lia|apply Z.gtb_gt; lia]. }
    pose proof (select_None _ _ _ i Hsel Hi Hr).
    pose proof (Hbelow i Hi). lia.
  - intros j Hj Hrj. rewrite <- Harr.
    pose proof (srtf_next_arrival_least (s_procs st) j ltac:(lia) Hrj) as Hle.
    by rewrite Hn in Hle.
  - exists i. split; [lia|]. split; [done|]. by rewrite <- Harr.
Qed.

(** On S6 the first iteration of SRTF idles and moves the clock from 0
    to 10. *)
Lemma SRTF_idle_jump_witness :
  exists t st',
    SRTF_body (srtf_init S6) = Continue st' /\
    s_time st' = t /\ s_procs st' = s_procs (srtf_init S6) /\
    s_time (srtf_init S6) < t /\
    (forall j, (j < length S6)%nat ->
               0 < rem_bt (s_procs (srtf_init S6) !!! j) ->
               t <= arr (S6 !!! j)) /\
    (exists j, (j < length S6)%nat /\
               0 < rem_bt (s_procs (srtf_init S6) !!! j) /\
               arr (S6 !!! j) = t).
Proof.
  apply (SRTF_idle_jump S6 (srtf_init S6)).
  - repeat constructor; unfold INT_MAX; simpl; lia.
  - repeat constructor; unfold INT_MAX; simpl; lia.
  - constructor.
  - reflexivity.
  - reflexivity.
Defined.

(** ** The clean-up stays within the timeline *)

Lemma rr_trace_kept quantum st st' :
  rr_trace st -> RR_body quantum st = Continue st' -> rr_trace st'.
Proof.
  intros [Hlt Hlast]. unfold RR_body.
  destruct (enqueue_arrivals_from _ _ _ _ _) as [[queue1 inQ1] next1].
  destruct queue1 as [|cur rest].
  - destruct (rr_next_arrival _ _ _) as [nxt|]; [|discriminate].
    destruct (String.eqb_spec (r_last_block_id st) IDLE) as [HL|HL];
      cbn [negb]; intros [= <-]; unfold rr_trace;
      cbn [r_blocks r_timeline r_last_block_id].
    + split; [done|by right].
    + rewrite !length_app. simpl. split; [lia|by right].
  - pose proof (block_id_not_IDLE (r_procs st !!! cur)) as HnI.
    pose proof (block_id_not_empty (r_procs st !!! cur)) as HnE.
    generalize dependent (block_id (r_procs st !!! cur)). intros C HnI HnE.
    assert (Hlens :
      (length (if negb (String.eqb C (r_last_block_id st))
               then r_blocks st ++ [C] else r_blocks st)
       <= length (if negb (String.eqb C (r_last_block_id st))
                     && negb (String.eqb (r_last_block_id st) IDLE)
                  then r_timeline st ++ [r_time st] else r_timeline st))%nat).
    { destruct (String.eqb_spec C (r_last_block_id st)) as [HC|HC];
        destruct (String.eqb_spec (r_last_block_id st) IDLE) as [HL|HL];
        cbn [negb andb]; rewrite ?length_app; simpl; lia. }
    destruct (enqueue_arrivals_from _ _ _ _ _) as [[queue3 inQ3] next3].
    destruct (_ =? 0); intros [= <-]; unfold rr_trace;
      cbn [r_blocks r_timeline r_last_block_id];
      (split; [rewrite length_app; cbn [length]; lia|by left]).
Qed.

Lemma rr_trace_left quantum st st' :
  rr_trace st -> RR_body quantum st = Break st' -> rr_trace st'.
Proof.
  intros Htrace. unfold RR_body.
  destruct (enqueue_arrivals_from _ _ _ _ _) as [[queue1 inQ1] next1].
  destruct queue1 as [|cur rest].
  - destruct (rr_next_arrival _ _ _) as [nxt|];
      [destruct (negb _); discriminate|].
    by intros [= <-].
  - destruct (enqueue_arrivals_from _ _ _ _ _) as [[queue3 inQ3] next3].
    destruct (_ =? 0); discriminate.
Qed.

Lemma RR_loop_trace procs quantum fuel st :
  RR_loop quantum fuel procs = Done st ->
  (length (r_blocks st) < length (r_timeline st))%nat.
Proof.
  unfold RR_loop.
  destruct (pid_table_ok procs); [|discriminate]. intros Hrun.
  apply (while_invariant _ _ rr_trace) in Hrun.
  - destruct Hrun as [[[H _] _]|(st0 & H & _ & Hbreak)]; [done|].
    by destruct (rr_trace_left _ _ _ H Hbreak).
  - intros s s' Htrace _ Hbody. by apply (rr_trace_kept quantum s).
  - split; [simpl; lia|by left].
Qed.

(** X22: the clean-up of SRTF and Round Robin reads [timeline[i]] for
    every block [i], [timeline[0]] and the last entry of the timeline.
    On an input with positive bursts and arrivals and bursts that are
    [int]s, when the loop of Round Robin is left its timeline has more
    entries than there are blocks; and when the latest arrival plus the
    bursts is within [INT_MAX], the timeline SRTF leaves is not empty and
    has at least as many entries as there are blocks.  There the clean-up
    never reads outside the timeline. *)
Theorem cleanup_in_bounds (procs : list Process) (quantum : Z) :
  Forall bounded procs ->
  (horizon procs <= INT_MAX ->
   forall fuel st, SRTF_loop fuel procs = Done st ->
     s_timeline st <> [] /\
     (length (s_blocks st) <= length (s_timeline st))%nat) /\
  (forall fuel st, RR_loop quantum fuel procs = Done st ->
     (length (r_blocks st) < length (r_timeline st))%nat).
Proof.
  intros Hb. split.
  - intros Hh fuel st. rewrite (SRTF_loop_exact procs Hb Hh).
    by apply SRTF_loop_bounds.
  - intros fuel st. apply RR_loop_trace.
Qed.

(** SRTF on S4 and Round Robin on S5. *)
Lemma cleanup_in_bounds_witness :
  (length (s_blocks srtf_S4_final) <= length (s_timeline srtf_S4_final))%nat /\
  (length (r_blocks rr_S5_final) < length (r_timeline rr_S5_final))%nat.
Proof.
  assert (Hb4 : Forall bounded S4)
    by (repeat constructor; unfold INT_MAX; simpl; lia).
  assert (Hb5 : Forall bounded S5)
    by (repeat constructor; unfold INT_MAX; simpl; lia).
  assert (Hh4 : horizon S4 <= INT_MAX)
    by (unfold INT_MAX; vm_compute; discriminate).
  split.
  - exact (proj2 (proj1 (cleanup_in_bounds S4 1 Hb4) Hh4 20%nat _
                    SRTF_loop_S4)).
  - exact (proj2 (cleanup_in_bounds S5 2 Hb5) 20%nat _ RR_loop_S5).
Defined.

(** Beyond that bound the timeline of SRTF can fall short.  The process
    of [late_arrival] has its block open when the clock passes
    [INT_MAX]; the clock is then below every arrival, SRTF idles and
    opens the block again, twice, and leaves six blocks over five
    times. *)
Lemma SRTF_loop_beyond_int :
  Forall bounded late_arrival /\
  exists st, SRTF_loop 40 late_arrival = Done st /\
             length (s_blocks st) = 6%nat /\ length (s_timeline st) = 5%nat.
Proof.
  split; [repeat constructor; unfold INT_MAX; simpl; lia|].
  eexists. split; [vm_compute; reflexivity|]. by split.
Qed.

(** * The five schedulers on valid inputs *)

(** ** The records of a result *)

Lemma scheduled_records_exact (S : Sorter) procs quantum r :
  valid_input procs -> 0 < quantum -> scheduled S procs quantum r ->
  exists procs',
    res_procs r = sort_by S pid procs' /\
    Forall metrics_ok procs' /\
    Permutation (map static procs') (map static procs).
Proof.
  intros Hv Hq Hs.
  destruct (scheduled_exact _ _ _ _ Hv Hq Hs) as (r' & Hu & ->).
  exact (scheduled_records S procs quantum r' Hv Hq Hu).
Qed.

(** C7, as the code runs it: for every scheduler and every valid input
    whose latest arrival plus the sum of its bursts is at most [INT_MAX],
    which is part of [valid_input] (positive quantum for Round Robin),
    every record of a result has completion at least arrival plus burst,
    turnaround equal to completion minus arrival, and waiting equal to
    turnaround minus burst and not negative. *)
Theorem completed_metrics (S : Sorter) (procs : list Process) (quantum : Z)
    (r : Result) :
  valid_input procs -> 0 < quantum -> scheduled S procs quantum r ->
  Forall metrics_ok (res_procs r).
Proof.
  intros Hv Hq Hr.
  destruct (scheduled_records_exact S procs quantum r Hv Hq Hr)
    as (procs' & -> & Hm & _).
  rewrite Forall_forall in Hm. apply Forall_forall. intros p Hp.
  apply Hm. by rewrite <- (sort_by_perm S pid procs').
Qed.

(** The metrics of the result of Round Robin on S5. *)
Lemma completed_metrics_witness :
  valid_input S5 /\ 0 < 2 /\
  Forall metrics_ok
    (res_procs (mkResult (r_procs rr_S5_final) [0; 0; 2; 2; 4; 4; 10]
                         ["P1"; "P2"; "P3"; "P1"; "P2"; "P1"] 0)).
Proof.
  assert (Hv : valid_input S5) by (unfold S5; valid_concrete).
  assert (Hq : 0 < 2) by lia.
  split; [exact Hv|]. split; [exact Hq|].
  apply (completed_metrics insertion_sorter S5 2 _ Hv Hq).
  do 4 right. exists 20%nat. apply RoundRobin_S5.
Defined.

(** C7, refuted as stated: [two_long] is a list the driver builds, with
    two processes that pass every check of the input loop, and the
    driver runs FCFS on it and returns 0.  The clock, an [int], passes
    [INT_MAX] at the second burst: the second process completes at -2,
    before its arrival plus its burst, with turnaround -2. *)
Lemma metrics_fail_beyond_int :
  (two_long <> [] /\ Forall valid_process two_long /\
   NoDup (map pid two_long) /\ all_entered two_long) /\
  main insertion_sorter (Number 2 :: typed two_long ++ [Number 1]) 0
  = Done (mkExit 0 None (Some (FCFS insertion_sorter two_long))) /\
  scheduled insertion_sorter two_long 1 (FCFS insertion_sorter two_long) /\
  map (fun p => (pid p, ct p, tat p, wt p))
      (res_procs (FCFS insertion_sorter two_long))
  = [(1, INT_MAX, INT_MAX, 0); (2, -2, -2, INT_MAX)] /\
  ~ Forall metrics_ok (res_procs (FCFS insertion_sorter two_long)).
Proof.
  assert (Hrun : res_procs (FCFS insertion_sorter two_long)
                 = [mkProcess 1 0 INT_MAX INT_MAX INT_MAX INT_MAX 0 0;
                    mkProcess 2 0 INT_MAX INT_MAX (-2) (-2) INT_MAX 0])
    by (vm_compute; reflexivity).
  split; [|split; [by vm_compute|split; [by left|split]]].
  - split; [discriminate|]. split; [|split].
    + repeat (constructor; [unfold valid_process, INT_MAX; cbn; lia|]).
      constructor.
    + cbn [map pid new_Process two_long].
      repeat (constructor; [rewrite ?elem_of_cons, elem_of_nil; lia|]).
      constructor.
    + intros [|[|i]] p Hp; [| |discriminate]; injection Hp as <-;
        (split; [reflexivity|]); unfold INT_MAX; simpl; lia.
  - by rewrite Hrun.
  - rewrite Hrun. intros H.
    apply Forall_cons in H as [_ H]. apply Forall_cons in H as [[H _] _].
    unfold INT_MAX in H. simpl in H. lia.
Qed.

(** C10: for every scheduler and every valid input, the records of a
    result are in strictly increasing pid order, one record for each
    input pid. *)
Theorem records_by_pid (S : Sorter) (procs : list Process) (quantum : Z)
    (r : Result) :
  valid_input procs -> 0 < quantum -> scheduled S procs quantum r ->
  StronglySorted (fun a b => pid a < pid b) (res_procs r) /\
  Permutation (map pid (res_procs r)) (map pid procs).
Proof.
  intros Hv Hq Hr.
  destruct (scheduled_records_exact S procs quantum r Hv Hq Hr)
    as (procs' & -> & _ & Hs).
  assert (Hp : Permutation (map pid (sort_by S pid procs')) (map pid procs)).
  { rewrite (Permutation_map pid (sort_by_perm S pid procs')).
    by apply Permutation_static_pid. }
  split; [|done].
  apply sorted_strict; [apply sort_by_sorted|].
  rewrite Hp. apply Hv.
Qed.

(** The records of the result of SRTF on S4 are in pid order. *)
Lemma records_by_pid_witness :
  valid_input S4 /\ 0 < 1 /\
  StronglySorted (fun a b => pid a < pid b) (s_procs srtf_S4_final).
Proof.
  assert (Hv : valid_input S4) by (unfold S4; valid_concrete).
  assert (Hq : 0 < 1) by lia.
  split; [exact Hv|]. split; [exact Hq|].
  refine (proj1 (records_by_pid insertion_sorter S4 1
                   (mkResult (s_procs srtf_S4_final) [0; 0; 2; 4; 5; 12]
                             ["P1"; "P2"; "P3"; "P2"; "P1"] 0) Hv Hq _)).
  do 3 right. left. exists 20%nat. apply SRTF_S4.
Defined.

(** ** Termination *)

(** On a valid input in that range every scheduler ends with a result. *)
Lemma schedulers_terminate (S : Sorter) (procs : list Process) (quantum : Z) :
  valid_input procs -> 0 < quantum -> in_range S procs ->
  (exists r, yields (SJF S procs) r) /\
  (exists r, yields (PriorityScheduling S procs) r) /\
  (exists r, yields (SRTF S procs) r) /\
  (exists r, yields (RoundRobin S procs quantum) r).
Proof.
  intros Hv Hq Hr. pose proof (valid_input_bounds _ Hv) as Hb.
  assert (Hh : horizon procs <= INT_MAX) by apply Hv.
  destruct (schedulers_terminate_unbounded S procs quantum Hv Hq Hr)
    as ([r2 [f2 H2]] & [r3 [f3 H3]] & [r4 [f4 H4]] & [r5 [f5 H5]]).
  split; [exists r2, f2; unfold SJF; by rewrite NP_exact|].
  split; [exists r3, f3; unfold PriorityScheduling; by rewrite NP_exact|].
  split.
  - exists (in_int r4), f4. rewrite SRTF_exact by done. by rewrite H4.
  - exists (in_int r5), f5. rewrite RoundRobin_exact by done. by rewrite H5.
Qed.

(** ** The clock stays in range *)

(** X18: for every scheduler and every valid input, no completion time
    of a result exceeds the latest arrival plus the total burst, which a
    valid input keeps within [INT_MAX]. *)
Lemma completions_in_range (S : Sorter) (procs : list Process) (quantum : Z)
    (r : Result) :
  valid_input procs -> 0 < quantum -> scheduled S procs quantum r ->
  Forall (fun p => ct p <= horizon procs) (res_procs r) /\
  horizon procs <= INT_MAX.
Proof.
  intros Hv Hq Hs.
  destruct (scheduled_exact _ _ _ _ Hv Hq Hs) as (r' & Hu & ->).
  exact (completions_in_range_unbounded S procs quantum r' Hv Hq Hu).
Qed.

Lemma completions_in_range_witness :
  Forall (fun p => ct p <= horizon S5)
    (res_procs (mkResult (r_procs rr_S5_final) [0; 0; 2; 2; 4; 4; 10]
                         ["P1"; "P2"; "P3"; "P1"; "P2"; "P1"] 0)) /\
  horizon S5 <= INT_MAX.
Proof.
  apply (completions_in_range insertion_sorter S5 2).
  - unfold S5. valid_concrete.
  - lia.
  - do 4 right. exists 20%nat. apply RoundRobin_S5.
Defined.

(** ** Total time per label *)

(** X19: for FCFS on a valid input the segments labelled with a process
    add up to its burst. *)
Lemma FCFS_labelled_time (S : Sorter) (procs : list Process) (p : Process) :
  valid_input procs -> p ∈ procs ->
  labelled_time (block_id p) (gantt (FCFS S procs)) = bt p.
Proof.
  intros Hv Hp. rewrite FCFS_exact by done.
  by apply FCFS_labelled_time_unbounded.
Qed.

Lemma FCFS_labelled_time_witness :
  labelled_time (block_id (new_Process 2 2 4 0))
                (gantt (FCFS insertion_sorter S4)) = bt (new_Process 2 2 4 0).
Proof.
  apply (FCFS_labelled_time insertion_sorter S4 (new_Process 2 2 4 0)).
  - unfold S4. valid_concrete.
  - unfold S4. right. left.
Defined.

(** X20: for SJF and Priority on a valid input, in every result the
    segments labelled with a process add up to its burst. *)
Lemma NP_labelled_time (key : Process -> Z) (S : Sorter)
    (procs : list Process) (r : Result) (p : Process) :
  valid_input procs -> yields (NP key S procs) r -> p ∈ procs ->
  labelled_time (block_id p) (gantt r) = bt p.
Proof.
  intros Hv [fuel Hr] Hp. rewrite NP_exact in Hr by done.
  apply (NP_labelled_time_unbounded key S procs r p Hv); [by exists fuel|done].
Qed.

Lemma NP_labelled_time_witness :
  labelled_time (block_id (new_Process 1 10 3 0))
    (gantt (mkResult [mkProcess 1 10 3 3 13 3 0 0] [0; 10; 13]
                     ["IDLE"; "P1"] 10))
  = bt (new_Process 1 10 3 0).
Proof.
  apply (NP_labelled_time bt insertion_sorter S6 _ (new_Process 1 10 3 0)).
  - unfold S6. valid_concrete.
  - exists 5%nat. apply NP_S6. by left.
  - unfold S6. left.
Defined.

(** ** FCFS order *)

(** C5, as the code runs it: the busy segments of FCFS are the
    processes in the order [std::sort] leaves them, each as one segment
    of the length of its burst.  That order is a rearrangement of the
    input in non-decreasing arrival; with a stable sort and an input in
    increasing pid order, equal arrivals come in pid order. *)
Theorem FCFS_order (S : Sorter) (procs : list Process) :
  valid_input procs ->
  map label_length (busy (gantt (FCFS S procs)))
  = map (fun p => (block_id p, bt p)) (sort_by S arr procs) /\
  Permutation (sort_by S arr procs) procs /\
  StronglySorted (fun a b => arr a <= arr b) (sort_by S arr procs) /\
  (stable S -> pid_ascending procs ->
   StronglySorted arrival_then_pid (sort_by S arr procs)).
Proof.
  intros Hv. rewrite FCFS_exact by done. by apply FCFS_order_unbounded.
Qed.

(** FCFS on [tied_arrivals], sorted by insertion sort: P1, P2, P3. *)
Lemma FCFS_order_witness :
  valid_input tied_arrivals /\ stable insertion_sorter /\
  pid_ascending tied_arrivals /\
  map label_length (busy (gantt (FCFS insertion_sorter tied_arrivals)))
  = [("P1", 5); ("P2", 3); ("P3", 8)] /\
  StronglySorted arrival_then_pid (sort_by insertion_sorter arr tied_arrivals).
Proof.
  split; [exact valid_tied_arrivals|].
  split; [exact insertion_sorter_stable|].
  split; [exact pid_ascending_tied_arrivals|].
  destruct (FCFS_order insertion_sorter tied_arrivals valid_tied_arrivals)
    as (Hseg & _ & _ & Hties).
  split; [rewrite Hseg; reflexivity|].
  exact (Hties insertion_sorter_stable pid_ascending_tied_arrivals).
Defined.

(** C5, refuted as stated: FCFS runs P2 before P1 on [swapped_pids],
    which is not the order by arrival and then pid. *)
Lemma FCFS_ties_not_by_pid :
  valid_input swapped_pids /\
  ~ exists order,
      Permutation order swapped_pids /\
      StronglySorted arrival_then_pid order /\
      map fst (map label_length
                 (busy (gantt (FCFS insertion_sorter swapped_pids))))
      = map block_id order.
Proof.
  split; [exact valid_swapped_pids|].
  intros (order & Hp & Hs & Heq).
  assert (Hrun : map fst (map label_length
                   (busy (gantt (FCFS insertion_sorter swapped_pids))))
                 = ["P2"; "P1"]) by (vm_compute; reflexivity).
  rewrite Hrun in Heq.
  destruct order as [|a [|b [|c rest]]]; try discriminate.
  injection Heq as Ha Hb.
  assert (Hin : forall x, x ∈ [a; b] ->
                          x = new_Process 2 0 1 0 \/ x = new_Process 1 0 1 0).
  { intros x Hx. rewrite Hp in Hx. unfold swapped_pids in Hx.
    rewrite !elem_of_cons, elem_of_nil in Hx. tauto. }
  destruct (Hin a ltac:(left)) as [->| ->]; [|discriminate].
  destruct (Hin b ltac:(right; left)) as [->| ->]; [discriminate|].
  apply StronglySorted_inv in Hs as [_ Hs].
  apply Forall_cons in Hs as [Hab _].
  unfold arrival_then_pid in Hab. simpl in Hab. lia.
Qed.

(** ** Idle time, bursts and the final clock *)

(** X5: for FCFS on a valid input, the reported idle time plus the
    bursts of all processes is the last time of the timeline, and the idle
    time lies between 0 and the latest arrival. *)
Theorem FCFS_idle_time (S : Sorter) (procs : list Process) :
  valid_input procs ->
  res_idle (FCFS S procs) + total_burst procs
  = back 0 (res_timeline (FCFS S procs)) /\
  0 <= res_idle (FCFS S procs) <= latest_arrival procs.
Proof.
  intros Hv. rewrite FCFS_exact by done. by apply FCFS_idle_time_unbounded.
Qed.

(** FCFS on S6, whose only process arrives at 10 with burst 3: idle time
    10, last time 13. *)
Lemma FCFS_idle_time_witness :
  valid_input S6 /\
  res_idle (FCFS insertion_sorter S6) + total_burst S6
  = back 0 (res_timeline (FCFS insertion_sorter S6)) /\
  0 <= res_idle (FCFS insertion_sorter S6) <= latest_arrival S6.
Proof.
  assert (Hv : valid_input S6) by (unfold S6; valid_concrete).
  split; [exact Hv|]. exact (FCFS_idle_time insertion_sorter S6 Hv).
Defined.

(** X6: for SJF and Priority on a valid input, in every result the
    reported idle time plus the bursts of all processes is the last time
    of the timeline, and the idle time is at most the latest arrival. *)
Theorem NP_idle_time (key : Process -> Z) (S : Sorter)
    (procs : list Process) (r : Result) :
  valid_input procs -> yields (NP key S procs) r ->
  res_idle r + total_burst procs = back 0 (res_timeline r) /\
  res_idle r <= latest_arrival procs.
Proof.
  intros Hv [fuel Hr]. rewrite NP_exact in Hr by done.
  apply (NP_idle_time_unbounded key S procs r Hv). by exists fuel.
Qed.

(** SJF on S6: idle time 10, last time 13. *)
Lemma NP_idle_time_witness :
  valid_input S6 /\
  10 + total_burst S6 = back 0 [0; 10; 13] /\ 10 <= latest_arrival S6.
Proof.
  assert (Hv : valid_input S6) by (unfold S6; valid_concrete).
  split; [exact Hv|].
  apply (NP_idle_time bt insertion_sorter S6
           (mkResult [mkProcess 1 10 3 3 13 3 0 0] [0; 10; 13] ["IDLE"; "P1"] 10)
           Hv).
  exists 5%nat. apply NP_S6. by left.
Defined.

(** ** SRTF: the choice at every time unit *)

(** X8: at every time unit at which SRTF runs a process, that process
    has arrived, has work left, and has the least remaining time among
    the processes that have arrived and have work left; among equal
    remaining times it has the least arrival, and among equal arrivals
    the least position in the input.  It runs for exactly one time unit:
    the clock advances by 1 in [int], which is 1 more when the latest
    arrival plus the sum of the bursts is at most [INT_MAX]; its
    remaining time drops by 1, and no other process changes. *)
Theorem SRTF_dispatch_choice (procs : list Process) (st : srtf_state)
    (idx : nat) :
  Forall bounded procs ->
  srtf_reachable procs st ->
  select (srtf_ready st) rem_bt (s_procs st) = Some idx ->
  ((idx < length procs)%nat /\
   arr (procs !!! idx) <= s_time st /\
   0 < rem_bt (s_procs st !!! idx) /\
   forall j, (j < length procs)%nat ->
             arr (procs !!! j) <= s_time st ->
             0 < rem_bt (s_procs st !!! j) ->
     rem_bt (s_procs st !!! idx) < rem_bt (s_procs st !!! j) \/
     (rem_bt (s_procs st !!! idx) = rem_bt (s_procs st !!! j) /\
      (arr (procs !!! idx) < arr (procs !!! j) \/
       (arr (procs !!! idx) = arr (procs !!! j) /\ (idx <= j)%nat)))) /\
  exists st',
    SRTF_body st = Continue st' /\
    s_time st' = int (s_time st + 1) /\
    (horizon procs <= INT_MAX -> s_time st' = s_time st + 1) /\
    rem_bt (s_procs st' !!! idx) = rem_bt (s_procs st !!! idx) - 1 /\
    forall j, j <> idx -> s_procs st' !!! j = s_procs st !!! j.
Proof.
  intros Hb Hreach Hsel.
  destruct (srtf_shape_reachable _ _ Hb Hreach) as (Hst & Hrem & _).
  pose proof (static_length _ _ Hst) as Hlen.
  assert (Harr : forall i, arr (s_procs st !!! i) = arr (procs !!! i)).
  { intros i. pose proof (static_lookup _ _ i Hst) as (_ & ? & _)%static_eq.
    done. }
  pose proof Hsel as Hsel'.
  apply select_Some in Hsel' as (Hidx & Hready & _ & Hmin).
  unfold srtf_ready in Hready. apply andb_prop in Hready as [Ha Hr].
  apply Z.leb_le in Ha. apply Z.gtb_gt in Hr. rewrite Harr in Ha.
  split.
  - split; [lia|]. split; [done|]. split; [lia|].
    intros j Hj Haj Hrj.
    assert (Hready : srtf_ready st j = true).
    { unfold srtf_ready. rewrite Harr.
      apply andb_true_intro. split; [by apply Z.leb_le|apply Z.gtb_gt; lia]. }
    specialize (Hmin j ltac:(lia) Hready). unfold chosen_before in Hmin.
    by rewrite !Harr in Hmin.
  - assert (Hrun : exists st',
               SRTF_body st = Continue st' /\
               s_time st' = int (s_time st + 1) /\
               rem_bt (s_procs st' !!! idx) = rem_bt (s_procs st !!! idx) - 1 /\
               forall j, j <> idx -> s_procs st' !!! j = s_procs st !!! j).
    { pose proof (list_lookup_lookup_total_lt _ _ Hidx) as Hlook.
      pose proof (Forall_lookup_total_1 _ _ _ Hrem Hidx) as Hp.
      cbv beta in Hp.
      pose proof (bounded_static _ _ idx Hst Hb Hidx) as [_ Hbt].
      unfold SRTF_body. rewrite Hsel. cbv zeta.
      rewrite (alter_agree
                 (fun p => set_rem_bt (int (rem_bt p - 1)) p)
                 (fun p => set_rem_bt (rem_bt p - 1) p)).
      2:{ intros x Hx. rewrite Hlook in Hx. injection Hx as <-.
          rewrite int_exact; [done|unfold INT_MIN; lia]. }
      rewrite list_lookup_total_alter_eq by done. cbn [rem_bt set_rem_bt].
      destruct (rem_bt (s_procs st !!! idx) - 1 =? 0); eexists;
        (split; [reflexivity|]); cbn [s_time s_procs];
        (split; [done|]); split.
      + rewrite !list_lookup_total_alter_eq by (by rewrite ?length_alter).
        done.
      + intros j Hj. by rewrite !list_lookup_total_alter_ne.
      + by rewrite list_lookup_total_alter_eq.
      + intros j Hj. by rewrite list_lookup_total_alter_ne. }
    destruct Hrun as (st' & Hbody & Ht & Hrem' & Hoth). exists st'.
    split; [done|]. split; [done|]. split; [|done].
    intros Hh.
    destruct (srtf_reachable_exact procs Hb Hh st Hreach) as [Hu Heq].
    destruct (SRTF_dispatch_choice_unbounded procs st idx Hb Hu Hsel)
      as [_ (st'' & Hbody'' & Ht'' & _)].
    rewrite Heq, Hbody'' in Hbody. by injection Hbody as <-.
Qed.

(** The first time unit of SRTF on S4: P1, the only process that has
    arrived. *)
Lemma SRTF_dispatch_choice_witness :
  exists st',
    SRTF_body (srtf_init S4) = Continue st' /\
    s_time st' = s_time (srtf_init S4) + 1 /\
    rem_bt (s_procs st' !!! 0%nat) = rem_bt (s_procs (srtf_init S4) !!! 0%nat) - 1 /\
    forall j, j <> 0%nat -> s_procs st' !!! j = s_procs (srtf_init S4) !!! j.
Proof.
  assert (Hb : Forall bounded S4)
    by (repeat constructor; unfold INT_MAX; simpl; lia).
  assert (Hh : horizon S4 <= INT_MAX)
    by (unfold INT_MAX; vm_compute; discriminate).
  destruct (SRTF_dispatch_choice S4 (srtf_init S4) 0 Hb
              (srtf_reach_init S4) eq_refl)
    as [_ (st' & Hbody & _ & Ht & Hrem & Hoth)].
  exists st'. split; [exact Hbody|]. split; [exact (Ht Hh)|].
  split; [exact Hrem|exact Hoth].
Defined.

(** ** Round Robin: the ready queue *)

(** X10: the ready queue of Round Robin, at the head of every
    iteration, on an input whose latest arrival plus the sum of its
    bursts is at most [INT_MAX].  No index is queued twice; every queued
    process is a process of the input that has arrived and has work
    left; every process the arrival scan has passed that has work left
    is queued; and the processes the scan has not reached have not
    run. *)
Theorem RR_ready_queue (quantum : Z) (sorted : list Process)
    (st : rr_state) :
  Forall bounded sorted -> horizon sorted <= INT_MAX -> 0 < quantum ->
  rr_reachable quantum sorted st ->
  NoDup (r_readyQueue st) /\
  (r_next_proc_to_arrive st <= length sorted)%nat /\
  (forall i, i ∈ r_readyQueue st ->
     (i < r_next_proc_to_arrive st)%nat /\
     arr (sorted !!! i) <= r_time st /\ 0 < rem_bt (r_procs st !!! i)) /\
  (forall i, (i < r_next_proc_to_arrive st)%nat ->
     0 < rem_bt (r_procs st !!! i) -> i ∈ r_readyQueue st) /\
  (forall i, (r_next_proc_to_arrive st <= i < length sorted)%nat ->
     rem_bt (r_procs st !!! i) = bt (sorted !!! i)).
Proof.
  intros Hb Hh Hq Hreach.
  destruct (rr_reachable_exact sorted quantum Hb Hq Hh st Hreach) as [Hu _].
  by apply (RR_ready_queue_unbounded quantum).
Qed.

(** Round Robin on S5 with quantum 2, after its first iteration: P1 has
    run for 2 units, P2 and P3 have arrived, and the queue holds P2, P3,
    P1. *)
Lemma RR_ready_queue_witness :
  exists st, RR_body 2 (rr_init S5) = Continue st /\
             r_readyQueue st = [1; 2; 0]%nat /\ NoDup (r_readyQueue st).
Proof.
  assert (Hb : Forall bounded S5)
    by (repeat constructor; unfold INT_MAX; simpl; lia).
  assert (Hh : horizon S5 <= INT_MAX)
    by (unfold INT_MAX; vm_compute; discriminate).
  assert (Hq : 0 < 2) by lia.
  destruct (RR_body 2 (rr_init S5)) as [st|st] eqn:Hbody;
    [|vm_compute in Hbody; discriminate Hbody].
  exists st. split; [reflexivity|].
  assert (Hreach : rr_reachable 2 S5 st).
  { apply (rr_reach_step 2 S5 (rr_init S5)); [constructor|reflexivity|done]. }
  split; [|exact (proj1 (RR_ready_queue 2 S5 st Hb Hh Hq Hreach))].
  vm_compute in Hbody. by injection Hbody as <-.
Defined.

(** Beyond that bound a queued process need not have arrived by the
    clock.  On [three_long] with quantum [INT_MAX] the clock is -2 after
    two iterations, and P3, which arrived at 0, is queued. *)
Lemma RR_queue_beyond_int :
  Forall bounded three_long /\
  exists st, rr_reachable INT_MAX three_long st /\
             r_readyQueue st = [2%nat] /\ r_time st = -2 /\
             arr (three_long !!! 2%nat) = 0.
Proof.
  split; [repeat constructor; unfold INT_MAX; simpl; lia|].
  assert (Hrun : exists st1 st2,
             RR_body INT_MAX (rr_init three_long) = Continue st1 /\
             rr_cond 3 st1 = true /\
             RR_body INT_MAX st1 = Continue st2 /\
             r_readyQueue st2 = [2%nat] /\ r_time st2 = -2).
  { do 2 eexists. split; [vm_compute; reflexivity|].
    split; [reflexivity|]. split; [vm_compute; reflexivity|]. by split. }
  destruct Hrun as (st1 & st2 & H1 & Hc & H2 & Hq & Ht).
  exists st2. split; [|done].
  apply (rr_reach_step _ _ st1); [|done|done].
  by apply (rr_reach_step _ _ (rr_init three_long)); [constructor| |].
Qed.

(** ** How much of a result depends on [std::sort] *)

(** X11: on a valid input the results of SJF, Priority and SRTF do not
    depend on how [std::sort] orders equal keys: any two sorts that meet
    its contract give the same result.  FCFS and Round Robin, which sort
    by arrival, give the same result with any two sorts when no two
    processes arrive together. *)
Theorem sort_independent (S1 S2 : Sorter) (procs : list Process)
    (quantum : Z) :
  valid_input procs -> 0 < quantum ->
  (forall fuel, SJF S1 procs fuel = SJF S2 procs fuel) /\
  (forall fuel, PriorityScheduling S1 procs fuel
                = PriorityScheduling S2 procs fuel) /\
  (forall fuel, SRTF S1 procs fuel = SRTF S2 procs fuel) /\
  (NoDup (map arr procs) ->
   FCFS S1 procs = FCFS S2 procs /\
   forall fuel, RoundRobin S1 procs quantum fuel
                = RoundRobin S2 procs quantum fuel).
Proof.
  intros Hv Hq. pose proof (valid_input_bounds _ Hv) as Hb.
  assert (Hh : horizon procs <= INT_MAX) by apply Hv.
  destruct (sort_independent_unbounded S1 S2 procs quantum Hv Hq)
    as (H2 & H3 & H4 & H5).
  split; [intros fuel; unfold SJF; rewrite !NP_exact by done; apply H2|].
  split; [intros fuel; unfold PriorityScheduling; rewrite !NP_exact by done;
          apply H3|].
  split; [intros fuel; rewrite !SRTF_exact by done; by rewrite H4|].
  intros Hnd. destruct (H5 Hnd) as [H1 H6].
  split; [rewrite !FCFS_exact by done; exact H1|].
  intros fuel. rewrite !RoundRobin_exact by done. by rewrite H6.
Qed.

(** On S4, whose arrivals are distinct. *)
Lemma sort_independent_witness :
  (forall fuel, SJF insertion_sorter S4 fuel = SJF insertion_sorter S4 fuel) /\
  (forall fuel, PriorityScheduling insertion_sorter S4 fuel
                = PriorityScheduling insertion_sorter S4 fuel) /\
  (forall fuel, SRTF insertion_sorter S4 fuel = SRTF insertion_sorter S4 fuel) /\
  (NoDup (map arr S4) ->
   FCFS insertion_sorter S4 = FCFS insertion_sorter S4 /\
   forall fuel, RoundRobin insertion_sorter S4 1 fuel
                = RoundRobin insertion_sorter S4 1 fuel).
Proof.
  apply (sort_independent insertion_sorter insertion_sorter S4 1).
  - unfold S4. valid_concrete.
  - lia.
Defined.

(** ** Round Robin with a long quantum *)

(** X16: Round Robin with a quantum that no burst exceeds is FCFS.  On a
    valid input, every result of Round Robin has the records of the FCFS
    result, pid by pid: the same completion, turnaround and waiting
    times; only the remaining time, which FCFS leaves at the burst, is
    0. *)
Theorem RoundRobin_long_quantum (S : Sorter) (procs : list Process)
    (quantum : Z) (r : Result) :
  valid_input procs -> Forall (fun p => bt p <= quantum) procs ->
  yields (RoundRobin S procs quantum) r ->
  res_procs r = map (set_rem_bt 0) (res_procs (FCFS S procs)).
Proof.
  intros Hv Hle [fuel Hr]. pose proof (valid_input_bounds _ Hv) as Hb.
  assert (Hh : horizon procs <= INT_MAX) by apply Hv.
  assert (Hq : 0 < quantum).
  { destruct Hv as (Hne & _). destruct procs as [|p rest]; [done|].
    apply Forall_cons in Hle as [Hp _]. apply Forall_cons in Hb as [[_ ?] _].
    lia. }
  rewrite RoundRobin_exact in Hr by done.
  destruct (Unbounded.RoundRobin S procs quantum fuel) as [r'| |] eqn:Hu;
    [|discriminate|discriminate].
  injection Hr as <-. rewrite FCFS_exact by done.
  apply (RoundRobin_long_quantum_unbounded S procs quantum r' Hv Hle).
  by exists fuel.
Qed.

(** Round Robin on S5 with quantum 5, the largest burst. *)
Lemma RoundRobin_long_quantum_witness :
  exists r,
    RoundRobin insertion_sorter S5 5 20 = Done r /\
    res_procs r = map (set_rem_bt 0) (res_procs (FCFS insertion_sorter S5)).
Proof.
  destruct (RoundRobin insertion_sorter S5 5 20) as [r| |] eqn:Hr;
    [|vm_compute in Hr; discriminate Hr..].
  exists r. split; [reflexivity|].
  apply (RoundRobin_long_quantum insertion_sorter S5 5 r).
  - unfold S5. valid_concrete.
  - repeat constructor; simpl; lia.
  - by exists 20%nat.
Defined.

(** ** The charts *)

(** X23: the chart of the schedulers that do not preempt.  For FCFS, SJF
    and Priority on a valid input whose bursts and priorities are below
    [INT_MAX], the timeline of every result has one entry more than there
    are blocks, begins with 0 and is strictly increasing: block [i] lies
    between [timeline[i]] and [timeline[i+1]] and no segment is empty. *)
Theorem chart_well_formed (S : Sorter) (procs : list Process) (r : Result) :
  valid_input procs ->
  Forall (fun p => bt p < INT_MAX /\ priority p < INT_MAX) procs ->
  r = FCFS S procs \/ yields (SJF S procs) r \/
  yields (PriorityScheduling S procs) r ->
  length (res_timeline r) = (length (res_blocks r) + 1)%nat /\
  head (res_timeline r) = Some 0 /\
  StronglySorted Z.lt (res_timeline r).
Proof.
  intros Hv Hmax Hr.
  apply (chart_well_formed_unbounded S procs r Hv Hmax).
  unfold SJF, PriorityScheduling, Unbounded.SJF,
    Unbounded.PriorityScheduling, yields in *.
  destruct Hr as [->|[[fuel Hr]|[fuel Hr]]].
  - left. by apply FCFS_exact.
  - right; left. exists fuel. by rewrite <- NP_exact.
  - right; right. exists fuel. by rewrite <- NP_exact.
Qed.

(** FCFS on S6: timeline 0, 10, 13 under the blocks IDLE and P1. *)
Lemma chart_well_formed_witness :
  length (res_timeline (FCFS insertion_sorter S6))
  = (length (res_blocks (FCFS insertion_sorter S6)) + 1)%nat /\
  head (res_timeline (FCFS insertion_sorter S6)) = Some 0 /\
  StronglySorted Z.lt (res_timeline (FCFS insertion_sorter S6)).
Proof.
  apply (chart_well_formed insertion_sorter S6).
  - unfold S6. valid_concrete.
  - repeat constructor; unfold INT_MAX; simpl; lia.
  - by left.
Defined.

(** X24: the times of the chart never decrease.  For SRTF and Round
    Robin (positive quantum) on a valid input whose bursts are below
    [INT_MAX], the timeline of every result, as the clean-up leaves it,
    is in non-decreasing order. *)
Theorem chart_times_ordered (S : Sorter) (procs : list Process)
    (quantum : Z) (r : Result) :
  valid_input procs -> Forall (fun p => bt p < INT_MAX) procs ->
  0 < quantum ->
  yields (SRTF S procs) r \/ yields (RoundRobin S procs quantum) r ->
  StronglySorted Z.le (res_timeline r).
Proof.
  intros Hv Hmax Hq Hr. pose proof (valid_input_bounds _ Hv) as Hb.
  assert (Hh : horizon procs <= INT_MAX) by apply Hv.
  assert (Hu : exists r',
             r = in_int r' /\
             (yields (Unbounded.SRTF S procs) r' \/
              yields (Unbounded.RoundRobin S procs quantum) r')).
  { destruct Hr as [[fuel Hr]|[fuel Hr]].
    - rewrite SRTF_exact in Hr by done.
      destruct (Unbounded.SRTF S procs fuel) as [r'| |] eqn:Hu;
        [|discriminate|discriminate].
      injection Hr as <-. exists r'. split; [done|left; by exists fuel].
    - rewrite RoundRobin_exact in Hr by done.
      destruct (Unbounded.RoundRobin S procs quantum fuel) as [r'| |] eqn:Hu;
        [|discriminate|discriminate].
      injection Hr as <-. exists r'. split; [done|right; by exists fuel]. }
  destruct Hu as (r' & -> & Hu).
  exact (chart_times_ordered_unbounded S procs quantum r' Hv Hmax Hq Hu).
Qed.

(** SRTF on S4: the timeline 0, 0, 2, 4, 5, 12. *)
Lemma chart_times_ordered_witness :
  StronglySorted Z.le
    (res_timeline (mkResult (s_procs srtf_S4_final) [0; 0; 2; 4; 5; 12]
                            ["P1"; "P2"; "P3"; "P2"; "P1"] 0)).
Proof.
  apply (chart_times_ordered insertion_sorter S4 1).
  - unfold S4. valid_concrete.
  - repeat constructor; unfold INT_MAX; simpl; lia.
  - lia.
  - left. exists 20%nat. apply SRTF_S4.
Defined.

(** * Further properties of the code *)

(** ** The selection scan and its sentinel *)

(** X1: the selection scan shared by SJF, Priority and SRTF finds no
    process exactly when every ready process has a key of at least
    [INT_MAX], the value the scan starts from: a ready process whose key
    is [INT_MAX] is never selected. *)
Theorem select_None_iff (ready : nat -> bool) (key : Process -> Z)
    (procs : list Process) :
  select ready key procs = None <->
  forall j, (j < length procs)%nat -> ready j = true ->
            INT_MAX <= key (procs !!! j).
Proof.
  split.
  - intros Hsel j. by apply select_None.
  - intros Hall. destruct (select ready key procs) as [k|] eqn:Hsel; [|done].
    apply select_Some in Hsel as (Hk & Hr & Hlt & _).
    specialize (Hall k Hk Hr). lia.
Qed.

(** ** The idle time [printResults] reports *)

(** X4: the idle time [printResults] reports is the total length of the
    segments labelled IDLE, summed in [int], where block [i] lies between
    [timeline[i]] and [timeline[i+1]]; a block with no end time in the
    timeline counts for nothing.  This holds for any timeline and any
    blocks, of any lengths. *)
Theorem printResults_idle_time (S : Sorter) (procs : list Process)
    (timeline : list Z) (blocks : list string) :
  res_idle (printResults S procs timeline blocks)
  = int (labelled_time IDLE (gantt (printResults S procs timeline blocks))).
Proof.
  unfold printResults, gantt. cbn [res_idle res_timeline res_blocks].
  by rewrite idle_time_int, idle_time_segments.
Qed.

(** ** The Gantt clean-up *)

(** X7: the merged Gantt chart.  Whatever the timeline and the blocks,
    the merged blocks have no two equal neighbours and are the given
    blocks with some dropped (every label that occurred is kept, the
    first block included), and the merged timeline has as many entries
    as the merged blocks or one more.  When there is a block and the
    timeline has an entry for every block, the merged timeline begins
    with [timeline[0]] and ends with the last entry of the timeline. *)
Theorem merge_gantt_spec (timeline : list Z) (blocks : list string) :
  let final := merge_gantt timeline blocks in
  no_repeat final.2 /\
  sublist final.2 blocks /\
  (forall b, b ∈ blocks <-> b ∈ final.2) /\
  head final.2 = head blocks /\
  (length final.1 = length final.2 \/ length final.1 = S (length final.2)) /\
  (blocks <> [] -> (length blocks <= length timeline)%nat ->
   head final.1 = head timeline /\ last final.1 = last timeline).
Proof.
  destruct blocks as [|b0 bs].
  - simpl. repeat split; try done. by left.
  - pose proof (merge_fold_spec timeline b0 bs)
      as (Hlen & Hht & Hhb & Hnr & Hsub & Hall).
    unfold merge_gantt. cbn zeta in *.
    destruct (fold_left _ _ _) as [ft fb]. cbn [fst snd] in *.
    assert (Hends : forall ft', head ft' = Some (timeline !!! 0%nat) ->
                                back 0 ft' = back 0 timeline ->
                                (length (b0 :: bs) <= length timeline)%nat ->
                                head ft' = head timeline /\
                                last ft' = last timeline).
    { intros ft' Hh Hb Hl. destruct timeline as [|t0 tl]; [simpl in Hl; lia|].
      split; [done|]. unfold back in Hb.
      destruct ft' as [|x ft'] using rev_ind; [done|].
      destruct (last (t0 :: tl)) as [y|] eqn:Hy;
        [|by apply last_None in Hy].
      rewrite last_snoc in *. simpl in Hb. by subst. }
    destruct (Z.eqb_spec (back 0 ft) (back 0 timeline)) as [Heq|Hne];
      cbn [negb fst snd].
    + split; [done|]. split; [done|]. split.
      { intros b. split; [apply Hall|]. intros Hb.
        by apply (elem_of_sublist _ _ _ Hb Hsub). }
      split; [done|]. split; [by left|]. intros _. by apply Hends.
    + split; [done|]. split; [done|]. split.
      { intros b. split; [apply Hall|]. intros Hb.
        by apply (elem_of_sublist _ _ _ Hb Hsub). }
      split; [done|]. split; [right; rewrite length_app; simpl; lia|].
      intros _. apply Hends; [by destruct ft|apply back_snoc].
Qed.

(** ** The Gantt chart as text *)

(** X21: the columns of the Gantt chart.  Every block and every time is
    written in at least 8 characters.  All blocks take exactly 8, so
    that the bar of block [i] stands in column [8 i], exactly when every
    label has at most 6 characters; and all times of a timeline without
    negative entries take exactly 8, so that time [i] starts in column
    [8 i], exactly when every time is below 100000000. *)
Theorem gantt_chart_columns (timeline : list Z) (blocks : list string) :
  Forall (fun c => (8 <= String.length c)%nat)
         (block_cells blocks ++ time_cells timeline) /\
  (Forall (fun c => String.length c = 8%nat) (block_cells blocks) <->
   Forall (fun b => (String.length b <= 6)%nat) blocks) /\
  (Forall (fun t => 0 <= t) timeline ->
   Forall (fun c => String.length c = 8%nat) (time_cells timeline) <->
   Forall (fun t => t < 100000000) timeline).
Proof.
  unfold block_cells, time_cells, fixedWidth.
  split; [|split].
  - apply Forall_app. split; apply Forall_forall; intros c Hc;
      apply list_elem_of_fmap_1 in Hc as (x & -> & _);
      rewrite ?string_length_append, setw_left_length; simpl; lia.
  - induction blocks as [|b blocks IH]; [done|].
    cbn [map]. rewrite !Forall_cons, IH.
    rewrite string_length_append, setw_left_length. simpl String.length.
    split; intros [? ?]; (split; [lia|done]).
  - induction timeline as [|t timeline IH]; [done|].
    intros [Ht Hrest]%Forall_cons. cbn [map].
    rewrite !Forall_cons, (IH Hrest), setw_left_length.
    pose proof (to_string_length t Ht).
    split; intros [? ?]; (split; [lia|done]).
Qed.

(** ** The driver *)

(** X12: the input loop of the driver, read back.  Reading [n]
    processes succeeds exactly on an input that begins with an arrival, a
    burst and a priority for each of [n] processes, every arrival and
    priority being an [int] that is not negative and every burst a
    positive [int]; it then yields the processes with pids 1 to [n] in
    the order entered, and leaves the rest of the input. *)
Theorem read_processes_spec (n : nat) (input : list token)
    (procs : list Process) (rest : list token) :
  read_processes n 0 [] input = Some (procs, rest) <->
  length procs = n /\ all_entered procs /\ input = typed procs ++ rest.
Proof.
  rewrite read_processes_Some. unfold all_entered. split.
  - intros (new & -> & Hlen & Hall & ->). done.
  - intros (Hlen & Hall & ->). by exists procs.
Qed.

(** X13: whatever the driver hands to a scheduler has passed its
    checks.  When [main] ends with a result, it returns 0, has written no
    error message, and the result is that of one of the five schedulers
    on a list that is not empty, whose processes have positive pids,
    arrivals and priorities that are not negative and positive bursts,
    all of them [int]s, with distinct pids in increasing order, and with
    a positive quantum.  The sum of the bursts is not checked. *)
Theorem main_result (S : Sorter) (input : list token) (fuel : nat)
    (e : Exit) (r : Result) :
  main S input fuel = Done e -> exit_result e = Some r ->
  exit_code e = 0 /\ exit_message e = None /\
  exists procs quantum,
    procs <> [] /\ all_entered procs /\ Forall valid_process procs /\
    NoDup (map pid procs) /\ pid_ascending procs /\
    0 < quantum /\ scheduled S procs quantum r.
Proof.
  unfold main.
  destruct (extract input) as [[n in1]|] eqn:Hn; [|by intros [= <-]].
  destruct (Z.leb_spec n 0) as [|Hpos]; [by intros [= <-]|].
  destruct (read_processes (Z.to_nat n) 0 [] in1) as [[procs in2]|] eqn:Hread;
    [|by intros [= <-]].
  apply extract_Some in Hn as [_ Hrange].
  apply read_processes_Some in Hread as (new & -> & Hlen & Hall & _).
  change ([] ++ new) with new in *. change (all_entered new) in Hall.
  revert Hlen Hall. generalize new. clear new. intros procs Hlen Hall.
  assert (Hne : procs <> []) by (intros ->; simpl in Hlen; lia).
  assert (Hvalid : Forall valid_process procs)
    by (apply all_entered_valid; [done|lia]).
  pose proof (all_entered_ascending _ Hall) as Hasc.
  pose proof (pid_ascending_NoDup _ Hasc) as Hnd.
  destruct (extract in2) as [[choice in3]|]; [|by intros [= <-]].
  assert (Hran : forall q (run : nat -> outcome Result),
             0 < q ->
             (forall r0, run fuel = Done r0 -> scheduled S procs q r0) ->
             outcome_map (fun r0 => mkExit 0 None (Some r0)) (run fuel) = Done e ->
             exit_result e = Some r ->
             exit_code e = 0 /\ exit_message e = None /\
             exists procs0 quantum,
               procs0 <> [] /\ all_entered procs0 /\
               Forall valid_process procs0 /\
               NoDup (map pid procs0) /\ pid_ascending procs0 /\
               0 < quantum /\ scheduled S procs0 quantum r).
  { intros q run Hq Hsched (r0 & Hrun & ->)%outcome_map_Done [= <-].
    split; [done|]. split; [done|]. exists procs, q.
    repeat (split; [done|]). by apply Hsched. }
  cbv zeta.
  destruct (choice =? 1).
  { intros [= <-] [= <-]. split; [done|]. split; [done|].
    exists procs, 1. repeat (split; [done|]). by left. }
  destruct (choice =? 2).
  { apply (Hran 1 (SJF S procs)); [lia|].
    intros r0 Hr0. right. left. by exists fuel. }
  destruct (choice =? 3).
  { apply (Hran 1 (PriorityScheduling S procs)); [lia|].
    intros r0 Hr0. do 2 right. left. by exists fuel. }
  destruct (choice =? 4).
  { apply (Hran 1 (SRTF S procs)); [lia|].
    intros r0 Hr0. do 3 right. left. by exists fuel. }
  destruct (choice =? 5); [|by intros [= <-]].
  destruct (extract in3) as [[quantum in4]|]; [|by intros [= <-]].
  destruct (Z.leb_spec quantum 0); [by intros [= <-]|].
  apply (Hran quantum (RoundRobin S procs quantum)); [lia|].
  intros r0 Hr0. do 4 right. by exists fuel.
Qed.

(** The driver on the input that enters S6 and chooses FCFS. *)
Lemma main_result_witness :
  exit_code (mkExit 0 None (Some (FCFS insertion_sorter S6))) = 0 /\
  exit_message (mkExit 0 None (Some (FCFS insertion_sorter S6))) = None /\
  exists procs quantum,
    procs <> [] /\ all_entered procs /\ Forall valid_process procs /\
    NoDup (map pid procs) /\ pid_ascending procs /\
    0 < quantum /\
    scheduled insertion_sorter procs quantum (FCFS insertion_sorter S6).
Proof.
  apply (main_result insertion_sorter
           [Number 1; Number 10; Number 3; Number 0; Number 1] 0);
    reflexivity.
Defined.

(** ** Round Robin through the driver *)

Lemma RoundRobin_Undefined (S : Sorter) (procs : list Process) (quantum : Z)
    (fuel : nat) :
  RoundRobin S procs quantum fuel = Undefined <->
  pid_table_ok (sort_by S arr procs) = false.
Proof.
  unfold RoundRobin, RR_loop.
  destruct (pid_table_ok (sort_by S arr procs)); [|done].
  split; [|done].
  destruct (while _ _ _ _) eqn:Hw; try discriminate.
  by apply while_defined in Hw.
Qed.

(** X15: Round Robin on the list the driver builds, where the pids are 1
    to [n] in the order entered, with fewer than [INT_MAX] processes and a
    stable sort.  The run writes outside its pid table, so its behaviour
    is undefined, exactly when the process entered last arrives before
    some other process. *)
Theorem RoundRobin_driver (S : Sorter) (procs : list Process) (quantum : Z)
    (fuel : nat) (p : Process) :
  stable S -> all_entered procs -> Z.of_nat (length procs) < INT_MAX ->
  last procs = Some p ->
  RoundRobin S procs quantum fuel = Undefined <-> arr p < latest_arrival procs.
Proof.
  intros Hstable Hall Hn Hlast.
  rewrite RoundRobin_Undefined.
  pose proof (last_Some_elem_of _ _ Hlast) as Hp.
  pose proof (latest_arrival_bound _ _ Hp) as Hle.
  assert (Hpid : forall q, q ∈ procs -> 1 <= pid q <= Z.of_nat (length procs)).
  { intros q (i & Hi)%list_elem_of_lookup_1.
    pose proof (lookup_lt_Some _ _ _ Hi). destruct (Hall i q Hi) as [-> _].
    simpl. lia. }
  assert (Hpidp : pid p = Z.of_nat (length procs)).
  { rewrite last_lookup in Hlast. destruct (Hall _ _ Hlast) as [-> _].
    simpl. destruct procs; [done|]. simpl. lia. }
  assert (Hinj : forall q, q ∈ procs -> pid q = pid p -> q = p).
  { intros q (i & Hi)%list_elem_of_lookup_1 Heq.
    rewrite last_lookup in Hlast.
    destruct (Hall i q Hi) as [Hq _]. destruct (Hall _ _ Hlast) as [Hp' _].
    rewrite Hq, Hp' in Heq. simpl in Heq.
    assert (i = Nat.pred (length procs)) as -> by lia. congruence. }
  destruct (last (sort_by S arr procs)) as [b|] eqn:Hb.
  2:{ apply last_None in Hb. exfalso.
      assert (Hperm : Permutation procs []) by (rewrite <- Hb; symmetry; apply sort_by_perm).
      apply Permutation_nil_r in Hperm. by subst. }
  pose proof (last_Some_elem_of _ _ Hb) as Hbs.
  assert (Hbp : b ∈ procs) by (by rewrite <- (sort_by_perm S arr procs)).
  assert (Hnn : 0 <= arr b).
  { apply list_elem_of_lookup_1 in Hbp as [i Hi].
    destruct (Hall i b Hi) as (_ & ? & _). lia. }
  assert (Hmax : arr b = latest_arrival procs).
  { rewrite <- (latest_arrival_Permutation _ _ (sort_by_perm S arr procs)).
    symmetry. apply latest_arrival_greatest; [done|done|].
    apply (sorted_last_greatest arr); [apply sort_by_sorted|done]. }
  unfold pid_table_ok. rewrite Hb. split.
  - intros Hbad. destruct (Z.lt_ge_cases (arr p) (latest_arrival procs))
      as [|Hge]; [done|]. exfalso.
    assert (Heq : arr p = latest_arrival procs) by lia.
    assert (b = p) as ->.
    { pose proof (last_filter (fun q => arr q = latest_arrival procs)
                    _ _ Hb Hmax) as H1.
      pose proof (last_filter (fun q => arr q = latest_arrival procs)
                    _ _ Hlast Heq) as H2.
      rewrite Hstable in H1. congruence. }
    apply andb_false_iff in Hbad as [Hbad|Hbad].
    + apply Z.ltb_ge in Hbad. lia.
    + apply not_true_iff_false in Hbad. apply Hbad.
      apply forallb_forall. intros q Hq.
      apply list_elem_of_In in Hq. rewrite sort_by_perm in Hq.
      specialize (Hpid q Hq).
      apply andb_true_intro. split; [apply Z.leb_le|apply Z.ltb_lt]; lia.
  - intros Hlt. apply andb_false_iff. right.
    apply not_true_iff_false. intros Hok.
    rewrite forallb_forall in Hok.
    assert (Hps : In p (sort_by S arr procs)).
    { apply list_elem_of_In. by rewrite sort_by_perm. }
    specialize (Hok p Hps). apply andb_prop in Hok as [_ Hok].
    apply Z.ltb_lt in Hok.
    pose proof (Hpid b Hbp).
    assert (pid b = pid p) by lia.
    assert (b = p) by (by apply Hinj). subst b. lia.
Qed.

(** On [late_first], as the driver builds it: P2, entered last, arrives
    at 0, before P1. *)
Lemma RoundRobin_driver_witness :
  RoundRobin insertion_sorter late_first 2 0 = Undefined <->
  arr (new_Process 2 0 1 0) < latest_arrival late_first.
Proof.
  apply (RoundRobin_driver insertion_sorter late_first 2 0
           (new_Process 2 0 1 0)).
  - exact insertion_sorter_stable.
  - intros [|[|i]] p Hp; [| |discriminate]; injection Hp as <-;
      (split; [reflexivity|]); unfold INT_MAX; simpl; lia.
  - unfold INT_MAX. simpl. lia.
  - reflexivity.
Defined.

(** ** The driver and the schedulers, end to end *)

(** X17: a run of the program from input to result.  Let the input give
    the number of processes, then an arrival, a burst and a priority for
    each, then a choice from 1 to 5 and a quantum that is a positive
    [int]; let the list entered be a valid input whose bursts and
    priorities are below [INT_MAX] and whose last-arriving process has
    the largest pid.  Then [main] ends: it returns 0, writes no error
    message, and the result is that of a scheduler on the list entered,
    with a record for each process, every record with completion at
    least arrival plus burst, turnaround equal to completion minus
    arrival, and waiting equal to turnaround minus burst and not
    negative. *)
Theorem main_runs (S : Sorter) (procs : list Process) (choice quantum : Z)
    (rest : list token) :
  all_entered procs -> valid_input procs -> in_range S procs ->
  1 <= choice <= 5 -> 0 < quantum <= INT_MAX ->
  exists fuel e r,
    main S (Number (Z.of_nat (length procs))
              :: typed procs ++ Number choice :: Number quantum :: rest) fuel
    = Done e /\
    exit_code e = 0 /\ exit_message e = None /\ exit_result e = Some r /\
    scheduled S procs quantum r /\
    length (res_procs r) = length procs /\
    Forall metrics_ok (res_procs r).
Proof.
  intros Hall Hv Hrange Hchoice Hq.
  assert (Hne : procs <> []) by apply Hv.
  assert (Hn : Z.of_nat (length procs) <= INT_MAX).
  { destruct Hv as (_ & Hvalid & _).
    destruct (last procs) as [p|] eqn:Hlast; [|by apply last_None in Hlast].
    pose proof (last_Some_elem_of _ _ Hlast) as Hp.
    rewrite Forall_forall in Hvalid.
    destruct (Hvalid p Hp) as (_ & _ & _ & _ & Hpid & _).
    rewrite last_lookup in Hlast. destruct (Hall _ _ Hlast) as [Heq _].
    rewrite Heq in Hpid. simpl in Hpid.
    destruct procs; [done|]. simpl in *. lia. }
  destruct (main_reads S procs (Number choice :: Number quantum :: rest)
              Hall Hne Hn) as (Hx & Hpos & Hread).
  destruct (schedulers_terminate S procs quantum Hv ltac:(lia) Hrange)
    as ([r2 [f2 H2]] & [r3 [f3 H3]] & [r4 [f4 H4]] & [r5 [f5 H5]]).
  assert (Hdone : exists fuel r,
             main S (Number (Z.of_nat (length procs))
                       :: typed procs ++ Number choice :: Number quantum :: rest)
                  fuel
             = Done (mkExit 0 None (Some r)) /\
             scheduled S procs quantum r).
  { unfold main. rewrite Hx, Hpos, Hread.
    assert (Hc : extract (Number choice :: Number quantum :: rest)
                 = Some (choice, Number quantum :: rest)).
    { apply extract_Some. split; [done|]. unfold INT_MIN, INT_MAX. lia. }
    assert (Hqx : extract (Number quantum :: rest) = Some (quantum, rest)).
    { apply extract_Some. split; [done|]. unfold INT_MIN. lia. }
    rewrite Hc. cbv zeta.
    assert (choice = 1 \/ choice = 2 \/ choice = 3 \/ choice = 4 \/ choice = 5)
      as [->|[->|[->|[->| ->]]]] by lia; cbn [Z.eqb Pos.eqb].
    - exists 0%nat, (FCFS S procs). split; [done|by left].
    - exists f2, r2. rewrite H2. split; [done|]. right. left. by exists f2.
    - exists f3, r3. rewrite H3. split; [done|]. do 2 right. left. by exists f3.
    - exists f4, r4. rewrite H4. split; [done|]. do 3 right. left. by exists f4.
    - rewrite Hqx. rewrite (proj2 (Z.leb_gt quantum 0)) by lia.
      exists f5, r5. rewrite H5. split; [done|]. do 4 right. by exists f5. }
  destruct Hdone as (fuel & r & Hmain & Hsched).
  exists fuel, (mkExit 0 None (Some r)), r.
  split; [done|]. split; [done|]. split; [done|]. split; [done|].
  split; [done|].
  destruct (scheduled_records_exact S procs quantum r Hv ltac:(lia) Hsched)
    as (procs' & -> & Hm & Hperm).
  split.
  - rewrite (Permutation_length (sort_by_perm S pid procs')).
    apply Permutation_length in Hperm. by rewrite !length_map in Hperm.
  - rewrite Forall_forall in Hm. apply Forall_forall. intros p Hp.
    apply Hm. by rewrite <- (sort_by_perm S pid procs').
Qed.

(** The input that enters S5 and chooses Round Robin with quantum 2. *)
Lemma main_runs_witness :
  exists fuel e r,
    main insertion_sorter
         (Number (Z.of_nat (length S5))
            :: typed S5 ++ Number 5 :: Number 2 :: []) fuel
    = Done e /\
    exit_code e = 0 /\ exit_message e = None /\ exit_result e = Some r /\
    scheduled insertion_sorter S5 2 r /\
    length (res_procs r) = length S5 /\
    Forall metrics_ok (res_procs r).
Proof.
  apply (main_runs insertion_sorter S5 5 2 []).
  - intros [|[|[|i]]] p Hp; [| | |discriminate]; injection Hp as <-;
      (split; [reflexivity|]); unfold INT_MAX; simpl; lia.
  - unfold S5. valid_concrete.
  - split; [|reflexivity]. repeat constructor; unfold INT_MAX; simpl; lia.
  - lia.
  - unfold INT_MAX. lia.
Defined.
